(** * A shallow embedding of the KLEE-based exploit-generation executor

    The development follows [lib/Core/Executor.cpp]: the fork and branch
    decision procedures, constraint addition, concretisation, the memory
    operation resolver with its native-heap extension, allocation, and the
    [Ret] and indirect [Call] handlers of [executeInstruction].

    Engine state is threaded explicitly through a state-and-failure monad.
    [ExecutionState] objects live in a store indexed by their identity (the
    C++ code passes them by pointer); an assertion failure, a call to
    [abort] or [report_fatal_error], and undefined behaviour such as the
    use of a deleted state are all modelled as the outcome [Crash].

    Collaborators whose code is outside [Executor.cpp] (the solver, the
    expression optimizer, the constraint manager, the address space, the
    memory manager, the random number generator, seeds) are interfaces,
    given as type classes.  Statistics, timers, the process tree and the
    text of log messages are not part of the embedding. *)

From stdpp Require Import gmap strings list fin_maps pretty.
From Stdlib Require Import ZArith Lia.

Open Scope Z_scope.

(** ** Expressions *)

Abbreviation Width := N (only parsing).
Definition Bool : Width := 1%N.
Definition Int8 : Width := 8%N.
Definition Int32 : Width := 32%N.
Definition Int64 : Width := 64%N.

(** The expression kinds built or inspected by the modelled handlers.  A
    [ReadExpr] is one symbolic byte of a named array. *)
Inductive Expr : Type :=
| ConstantExpr (w : Width) (v : Z)
| ReadExpr (array : string) (index : N)
| ConcatExpr (l r : Expr)
| ExtractExpr (e : Expr) (offset : N) (w : Width)
| ZExtExpr (e : Expr) (w : Width)
| SExtExpr (e : Expr) (w : Width)
| AddExpr (l r : Expr)
| SubExpr (l r : Expr)
| EqExpr (l r : Expr)
| UltExpr (l r : Expr).

#[global] Instance Expr_eq_dec : EqDecision Expr.
Proof. solve_decision. Defined.

Fixpoint getWidth (e : Expr) : Width :=
  match e with
  | ConstantExpr w _ => w
  | ReadExpr _ _ => Int8
  | ConcatExpr l r => (getWidth l + getWidth r)%N
  | ExtractExpr _ _ w => w
  | ZExtExpr _ w => w
  | SExtExpr _ w => w
  | AddExpr l _ => getWidth l
  | SubExpr l _ => getWidth l
  | EqExpr _ _ => Bool
  | UltExpr _ _ => Bool
  end.

(** [isa<ConstantExpr>(e)] *)
Definition isConstant (e : Expr) : bool :=
  match e with ConstantExpr _ _ => true | _ => false end.

(** [ConstantExpr::isTrue]: width [Bool] and value one. *)
Definition isTrue (w : Width) (v : Z) : bool :=
  (w =? Bool)%N && (v =? 1).

Definition trunc (w : Width) (v : Z) : Z := v mod 2 ^ Z.of_N w.

(** Two's complement reading of a [w]-bit pattern. *)
Definition signed (w : Width) (v : Z) : Z :=
  if (0 <? w)%N && (2 ^ (Z.of_N w - 1) <=? v) then v - 2 ^ Z.of_N w else v.

(** An assignment gives every byte of every symbolic array a value. *)
Definition Assignment := string -> N -> Z.

Fixpoint eval (a : Assignment) (e : Expr) : Z :=
  match e with
  | ConstantExpr w v => trunc w v
  | ReadExpr arr i => trunc Int8 (a arr i)
  | ConcatExpr l r => eval a l * 2 ^ Z.of_N (getWidth r) + eval a r
  | ExtractExpr e o w => trunc w (eval a e / 2 ^ Z.of_N o)
  | ZExtExpr e w => trunc w (eval a e)
  | SExtExpr e w => trunc w (signed (getWidth e) (eval a e))
  | AddExpr l r => trunc (getWidth l) (eval a l + eval a r)
  | SubExpr l r => trunc (getWidth l) (eval a l - eval a r)
  | EqExpr l r => if eval a l =? eval a r then 1 else 0
  | UltExpr l r => if eval a l <? eval a r then 1 else 0
  end.

(** *** Constructors with constant folding

    [Expr.cpp] is not among the sources; section 3 says that construction
    folds constants, and that is the only simplification these
    constructors perform. *)

(** Modelled from the spec: [EqExpr::create], of [Expr.cpp]; two constants
    fold to the Boolean constant that compares their values. *)
Definition EqExpr_create (l r : Expr) : Expr :=
  match l, r with
  | ConstantExpr wa a, ConstantExpr wb b =>
      ConstantExpr Bool (if trunc wa a =? trunc wb b then 1 else 0)
  | _, _ => EqExpr l r
  end.

(** Modelled from the spec: [Expr::createIsZero], of [Expr.cpp], is
    [EqExpr::create(e, 0)] at the width of [e]. *)
Definition createIsZero (e : Expr) : Expr :=
  EqExpr_create e (ConstantExpr (getWidth e) 0).

(** Modelled from the spec: [ExtractExpr::create], of [Expr.cpp]; the
    extraction of the whole expression is the expression, and a constant
    folds. *)
Definition ExtractExpr_create (e : Expr) (o : N) (w : Width) : Expr :=
  if (w =? getWidth e)%N then e
  else match e with
       | ConstantExpr w0 v => ConstantExpr w (trunc w (trunc w0 v / 2 ^ Z.of_N o))
       | _ => ExtractExpr e o w
       end.

(** Modelled from the spec: [ZExtExpr::create], of [Expr.cpp]; a cast to
    the same width is the expression, a cast to a smaller width extracts
    the low bits, and a constant folds. *)
Definition ZExtExpr_create (e : Expr) (w : Width) : Expr :=
  if (w =? getWidth e)%N then e
  else if (w <? getWidth e)%N then ExtractExpr_create e 0 w
  else match e with
       | ConstantExpr w0 v => ConstantExpr w (trunc w0 v)
       | _ => ZExtExpr e w
       end.

(** Modelled from the spec: [SExtExpr::create], of [Expr.cpp]; as for
    the zero extension, with the sign bit replicated. *)
Definition SExtExpr_create (e : Expr) (w : Width) : Expr :=
  if (w =? getWidth e)%N then e
  else if (w <? getWidth e)%N then ExtractExpr_create e 0 w
  else match e with
       | ConstantExpr w0 v => ConstantExpr w (trunc w (signed w0 (trunc w0 v)))
       | _ => SExtExpr e w
       end.

(** Modelled from the spec: [ConcatExpr::create], of [Expr.cpp]; the left
    operand is the most significant, and two constants fold. *)
Definition ConcatExpr_create (l r : Expr) : Expr :=
  match l, r with
  | ConstantExpr wl a, ConstantExpr wr b =>
      ConstantExpr (wl + wr)%N (trunc wl a * 2 ^ Z.of_N wr + trunc wr b)
  | _, _ => ConcatExpr l r
  end.

(** Modelled from the spec: [ConcatExpr::createN(n, kids)], of
    [Expr.cpp]; the first kid is the most significant, and the function
    asserts [n > 0]. *)
Fixpoint ConcatExpr_createN (kids : list Expr) : option Expr :=
  match kids with
  | [] => None
  | [k] => Some k
  | k :: rest =>
      match ConcatExpr_createN rest with
      | Some r => Some (ConcatExpr_create k r)
      | None => None
      end
  end.

(** Modelled from the spec: [SubExpr::create], of [Expr.cpp]; two
    constants fold, modulo two to the width. *)
Definition SubExpr_create (l r : Expr) : Expr :=
  match l, r with
  | ConstantExpr w a, ConstantExpr wb b =>
      ConstantExpr w (trunc w (trunc w a - trunc wb b))
  | _, _ => SubExpr l r
  end.

(** Modelled from the spec: [AddExpr::create], of [Expr.cpp]; two
    constants fold, modulo two to the width. *)
Definition AddExpr_create (l r : Expr) : Expr :=
  match l, r with
  | ConstantExpr w a, ConstantExpr wb b =>
      ConstantExpr w (trunc w (trunc w a + trunc wb b))
  | _, _ => AddExpr l r
  end.

(** Modelled from the spec: [UltExpr::create], of [Expr.cpp]; two
    constants fold to the Boolean constant of the unsigned comparison. *)
Definition UltExpr_create (l r : Expr) : Expr :=
  match l, r with
  | ConstantExpr wa a, ConstantExpr wb b =>
      ConstantExpr Bool (if trunc wa a <? trunc wb b then 1 else 0)
  | _, _ => UltExpr l r
  end.

(** Modelled from the spec: [Expr::getMinBytesForWidth], of [Expr.h]; the
    number of bytes that hold [w] bits. *)
Definition getMinBytesForWidth (w : Width) : N := ((w + 7) / 8)%N.

(** A constraint store is read as the conjunction of its members. *)
Definition satisfies (a : Assignment) (cs : list Expr) : Prop :=
  Forall (fun c => eval a c = 1) cs.

Definition entails (cs : list Expr) (e : Expr) : Prop :=
  forall a, satisfies a cs -> eval a e = 1.

(** [cs] forces [e] to take the value [v]. *)
Definition entails_value (cs : list Expr) (e : Expr) (v : Z) : Prop :=
  forall a, satisfies a cs -> eval a e = v.


(** ** The module under execution *)

(** A [KInstIterator] is a position in the module's instruction array; the
    instruction arrays of the functions are laid out one after the other,
    so [++pc] is the successor. *)
Definition KInstIterator := nat.

Inductive Opcode := Ret | Br | Call | Invoke | PHI | Load | Store | OtherOp.

(** What the modelled handlers ask of an [llvm::Instruction]. *)
Record Instruction := {
  opcode : Opcode;
  numOperands : nat;
  (** [getWidthForLLVMType(getType())]; [None] is the void type *)
  typeWidth : option Width;
  (** [CallSite::hasRetAttr(Attribute::SExt)] *)
  hasRetAttrSExt : bool;
  use_empty : bool;
  (** the basic block of the instruction, [getParent()] *)
  parent : nat;
  (** [InvokeInst::getNormalDest()] *)
  normalDest : nat;
  (** the incoming blocks of a [PHINode], in operand order *)
  incomingBlocks : list nat;
  isDbgInfoIntrinsic : bool;
  (** the called value is inline assembly *)
  isInlineAsm : bool;
  (** [getTargetFunction] of the called value: the address of the function
      a direct call reaches through aliases and bitcasts *)
  targetFunction : option Z;
  (** [CallSite::arg_size()] *)
  argSize : nat;
  (** the parameter widths of the target when its type differs from the
      type of the called value *)
  bitcastParams : option (list Width);
  (** [CallSite::paramHasAttr(i, Attribute::SExt)] *)
  paramHasAttrSExt : nat -> bool
}.

Record KInstruction := {
  inst : Instruction;
  operands : list Z;
  dest : nat
}.

Record KModule := {
  instructions : list KInstruction;
  (** [KFunction::instructions] of each function *)
  kfInstructions : nat -> list KInstruction;
  constantTable : list (option Expr);
  internalFunctions : list nat;
  (** the function an instruction belongs to *)
  functionOf : KInstIterator -> nat;
  (** [KFunction::basicBlockEntry] *)
  basicBlockEntry : nat -> nat -> KInstIterator;
  (** [Context::get().getPointerWidth()] *)
  pointerWidth : Width;
  legalFunctions : list Z
}.

(** ** Memory *)

Record MemoryObject := {
  mo_id : nat;
  address : Z;
  size : N;
  isLocal : bool;
  isGlobal : bool;
  isHeap : bool;
  kleeAddress : Z;
  nativeAddress : Z
}.

(** One expression of width 8 per byte of the object. *)
Record ObjectState := {
  readOnly : bool;
  contents : list Expr
}.

Definition ObjectPair := (MemoryObject * ObjectState)%type.

Record AddressSpace := {
  objects : list ObjectPair;
  (** recorded arbitrary-write capabilities: written address and value,
      which may be a null reference; a [std::map] by address *)
  WriteExploitCapability : list (Expr * option Expr)
}.

(** Modelled from the spec: [MemoryObject::getBaseExpr], of [Memory.h];
    the base address as a constant of pointer width. *)
Definition getBaseExpr (pw : Width) (mo : MemoryObject) : Expr :=
  ConstantExpr pw (address mo).

(** Modelled from the spec: [MemoryObject::getOffsetExpr] lives in
    [Memory.h], which is not among the sources.  Section 4.2 gives
    [offset = address - mo.base]. *)
Definition getOffsetExpr (pw : Width) (mo : MemoryObject) (pointer : Expr) : Expr :=
  SubExpr_create pointer (getBaseExpr pw mo).

(** Modelled from the spec: [MemoryObject::getBoundsCheckOffset], of
    [Memory.h].  Section 4.2 gives the check
    [0 <= offset /\ offset + bytes <= mo.size], which on unsigned offsets
    is [offset < size - bytes + 1] when [bytes <= size] and false
    otherwise. *)
Definition getBoundsCheckOffset (pw : Width) (mo : MemoryObject)
    (offset : Expr) (bytes : N) : Expr :=
  if (bytes <=? size mo)%N
  then UltExpr_create offset (ConstantExpr pw (Z.of_N (size mo - bytes + 1)))
  else ConstantExpr Bool 0.

(** Modelled from the spec: [MemoryObject::getBoundsCheckPointer], of
    [Memory.h]; the bounds check on the offset of the pointer. *)
Definition getBoundsCheckPointer (pw : Width) (mo : MemoryObject)
    (pointer : Expr) (bytes : N) : Expr :=
  getBoundsCheckOffset pw mo (getOffsetExpr pw mo pointer) bytes.

(** Modelled from the spec: [AddressSpace::getWriteable] followed by a
    write through the handle (section 3, copy on write) replaces the
    content bound to the object in this state's map only. *)
Definition rebindObject (mo : MemoryObject) (os : ObjectState)
    (sp : AddressSpace) : AddressSpace :=
  {| objects :=
       map (fun p : ObjectPair =>
              if Nat.eqb (mo_id (fst p)) (mo_id mo) then (fst p, os) else p)
           (objects sp);
     WriteExploitCapability := WriteExploitCapability sp |}.

(** Modelled from the spec: [AddressSpace::bindObject], of
    [AddressSpace.cpp]; section 3 has the address space map each object to
    its content. *)
Definition bindObject (mo : MemoryObject) (os : ObjectState)
    (sp : AddressSpace) : AddressSpace :=
  {| objects := objects sp ++ [(mo, os)];
     WriteExploitCapability := WriteExploitCapability sp |}.

(** Modelled from the spec: [AddressSpace::unbindObject], of
    [AddressSpace.cpp]; the object leaves the map. *)
Definition unbindObject (mo : MemoryObject) (sp : AddressSpace) : AddressSpace :=
  {| objects :=
       filter (fun p : ObjectPair => mo_id (fst p) <> mo_id mo) (objects sp);
     WriteExploitCapability := WriteExploitCapability sp |}.

(** ** Execution states *)

Record StackFrame := {
  caller : option KInstIterator;
  kf : nat;
  (** the register file; a cell is empty until it is bound *)
  locals : list (option Expr);
  allocas : list MemoryObject;
  varargs : option MemoryObject
}.

Record ExecutionState := {
  pc : KInstIterator;
  prevPC : KInstIterator;
  (** the innermost frame, [stack.back()], is the head *)
  stack : list StackFrame;
  addressSpace : AddressSpace;
  constraints : list Expr;
  depth : N;
  forkDisabled : bool;
  coveredNew : bool;
  incomingBBIndex : Z;
  pathOS : list bool;
  symPathOS : list bool
}.

Definition set_pc (v : KInstIterator) (s : ExecutionState) : ExecutionState :=
  {| pc := v; prevPC := prevPC s; stack := stack s;
     addressSpace := addressSpace s; constraints := constraints s;
     depth := depth s; forkDisabled := forkDisabled s;
     coveredNew := coveredNew s; incomingBBIndex := incomingBBIndex s;
     pathOS := pathOS s; symPathOS := symPathOS s |}.

Definition set_stack (v : list StackFrame) (s : ExecutionState) : ExecutionState :=
  {| pc := pc s; prevPC := prevPC s; stack := v;
     addressSpace := addressSpace s; constraints := constraints s;
     depth := depth s; forkDisabled := forkDisabled s;
     coveredNew := coveredNew s; incomingBBIndex := incomingBBIndex s;
     pathOS := pathOS s; symPathOS := symPathOS s |}.

Definition set_addressSpace (v : AddressSpace) (s : ExecutionState) : ExecutionState :=
  {| pc := pc s; prevPC := prevPC s; stack := stack s;
     addressSpace := v; constraints := constraints s;
     depth := depth s; forkDisabled := forkDisabled s;
     coveredNew := coveredNew s; incomingBBIndex := incomingBBIndex s;
     pathOS := pathOS s; symPathOS := symPathOS s |}.

Definition set_constraints (v : list Expr) (s : ExecutionState) : ExecutionState :=
  {| pc := pc s; prevPC := prevPC s; stack := stack s;
     addressSpace := addressSpace s; constraints := v;
     depth := depth s; forkDisabled := forkDisabled s;
     coveredNew := coveredNew s; incomingBBIndex := incomingBBIndex s;
     pathOS := pathOS s; symPathOS := symPathOS s |}.

Definition set_depth (v : N) (s : ExecutionState) : ExecutionState :=
  {| pc := pc s; prevPC := prevPC s; stack := stack s;
     addressSpace := addressSpace s; constraints := constraints s;
     depth := v; forkDisabled := forkDisabled s;
     coveredNew := coveredNew s; incomingBBIndex := incomingBBIndex s;
     pathOS := pathOS s; symPathOS := symPathOS s |}.

Definition set_coveredNew (v : bool) (s : ExecutionState) : ExecutionState :=
  {| pc := pc s; prevPC := prevPC s; stack := stack s;
     addressSpace := addressSpace s; constraints := constraints s;
     depth := depth s; forkDisabled := forkDisabled s;
     coveredNew := v; incomingBBIndex := incomingBBIndex s;
     pathOS := pathOS s; symPathOS := symPathOS s |}.

Definition set_incomingBBIndex (v : Z) (s : ExecutionState) : ExecutionState :=
  {| pc := pc s; prevPC := prevPC s; stack := stack s;
     addressSpace := addressSpace s; constraints := constraints s;
     depth := depth s; forkDisabled := forkDisabled s;
     coveredNew := coveredNew s; incomingBBIndex := v;
     pathOS := pathOS s; symPathOS := symPathOS s |}.

Definition set_pathOS (v : list bool) (s : ExecutionState) : ExecutionState :=
  {| pc := pc s; prevPC := prevPC s; stack := stack s;
     addressSpace := addressSpace s; constraints := constraints s;
     depth := depth s; forkDisabled := forkDisabled s;
     coveredNew := coveredNew s; incomingBBIndex := incomingBBIndex s;
     pathOS := v; symPathOS := symPathOS s |}.

Definition set_symPathOS (v : list bool) (s : ExecutionState) : ExecutionState :=
  {| pc := pc s; prevPC := prevPC s; stack := stack s;
     addressSpace := addressSpace s; constraints := constraints s;
     depth := depth s; forkDisabled := forkDisabled s;
     coveredNew := coveredNew s; incomingBBIndex := incomingBBIndex s;
     pathOS := pathOS s; symPathOS := v |}.

Definition set_locals (v : list (option Expr)) (f : StackFrame) : StackFrame :=
  {| caller := caller f; kf := kf f; locals := v;
     allocas := allocas f; varargs := varargs f |}.

Definition set_allocas (v : list MemoryObject) (f : StackFrame) : StackFrame :=
  {| caller := caller f; kf := kf f; locals := locals f;
     allocas := v; varargs := varargs f |}.

(** ** The engine *)

Inductive TerminateReason :=
| Abort | Assert | BadVectorAccess | Exec | External | Free | Model
| Overflow | Ptr | ReadOnly | ReportError | User | Unhandled.

#[global] Instance TerminateReason_eq_dec : EqDecision TerminateReason.
Proof. solve_decision. Defined.

(** [Executor::TerminateReasonNames] *)
Definition TerminateReasonNames (r : TerminateReason) : string :=
  match r with
  | Abort => "abort" | Assert => "assert"
  | BadVectorAccess => "bad_vector_access" | Exec => "exec"
  | External => "external" | Free => "free" | Model => "model"
  | Overflow => "overflow" | Ptr => "ptr" | ReadOnly => "readonly"
  | ReportError => "reporterror" | User => "user" | Unhandled => "xxx"
  end.

Inductive Validity := VTrue | VFalse | VUnknown.

(** The command-line options read by the modelled code, with the module
    and the engine flags that the modelled code never writes. *)
Record Config := {
  kmodule : KModule;
  (** [~0u], that is [2^32 - 1], disables the budget *)
  MaxForks : N;
  MaxDepth : N;
  MaxMemoryInhibit : bool;
  OnlyReplaySeeds : bool;
  EmitAllErrors : bool;
  OnlyOutputStatesCoveringNew : bool;
  AlwaysOutputSeeds : bool;
  ExitOnErrorType : list TerminateReason;
  SimplifySymIndices : bool;
  MaxSymArraySize : N;
  MakeConcreteSymbolic : N;
  replayPath : option (list bool);
  replayKTest : bool;
  pathWriter : bool;
  symPathWriter : bool;
  atMemoryLimit : bool;
  inhibitForking : bool;
  (** the outcome of the [MaxStatic*Pct] comparison in [fork], which is
      made on timers and floating-point statistics *)
  maxStaticPctExceeded : bool;
  (** the bounds of the native heap, [extern unsigned long] *)
  n_heap_l : Z;
  n_heap_h : Z;
  (** the default of the parameter [isheap] of [executeAlloc], given in
      [Executor.h] *)
  executeAlloc_isheap_default : bool
}.

Definition noForkBudget : N := 4294967295%N.

Inductive Termination :=
| OnExit
| Early (message : string)
| OnError (message : string) (reason : TerminateReason).

Inductive Event :=
(** [interpreterHandler->processTestCase(state, message, suffix)] *)
| TestCase (sid : nat) (message : option string) (suffix : option string)
(** a call of [terminateStateOnExit], [terminateStateEarly] or
    [terminateStateOnError] on the state *)
| Terminated (sid : nat) (how : Termination)
(** [executeCall] on the state for the function at that address *)
| Called (sid : nat) (f : Z).

(** A seed is a recorded test input: named byte arrays. *)
Definition SeedInfo := list (string * list Z).

Record Executor := {
  (** options and module, fixed for the run *)
  config : Config;
  (** the [ExecutionState] objects, by identity *)
  store : gmap nat ExecutionState;
  (** the identity the next [new ExecutionState] receives *)
  nextState : nat;
  (** in iteration order of the [std::set] *)
  states : list nat;
  addedStates : list nat;
  removedStates : list nat;
  seedMap : gmap nat (list SeedInfo);
  (** [stats::forks] *)
  forks : N;
  (** the state of [theRNG] and of the C library generator *)
  rng : N;
  replayPosition : nat;
  haltExecution : bool;
  emittedErrors : list (KInstIterator * string);
  OnlySeed : bool;
  (** objects handed out by the [MemoryManager] *)
  memory : list MemoryObject;
  (** the static counter of [replaceReadWithSymbolic] *)
  rrwsId : N;
  (** calls to the test-case handler and to the termination routines, oldest first *)
  trace : list Event
}.

Definition set_store (v : gmap nat ExecutionState) (ex : Executor) : Executor :=
  {| config := config ex;
     store := v;
     nextState := nextState ex;
     states := states ex;
     addedStates := addedStates ex;
     removedStates := removedStates ex;
     seedMap := seedMap ex;
     forks := forks ex;
     rng := rng ex;
     replayPosition := replayPosition ex;
     haltExecution := haltExecution ex;
     emittedErrors := emittedErrors ex;
     OnlySeed := OnlySeed ex;
     memory := memory ex;
     rrwsId := rrwsId ex;
     trace := trace ex |}.

Definition set_nextState (v : nat) (ex : Executor) : Executor :=
  {| config := config ex;
     store := store ex;
     nextState := v;
     states := states ex;
     addedStates := addedStates ex;
     removedStates := removedStates ex;
     seedMap := seedMap ex;
     forks := forks ex;
     rng := rng ex;
     replayPosition := replayPosition ex;
     haltExecution := haltExecution ex;
     emittedErrors := emittedErrors ex;
     OnlySeed := OnlySeed ex;
     memory := memory ex;
     rrwsId := rrwsId ex;
     trace := trace ex |}.

Definition set_states (v : list nat) (ex : Executor) : Executor :=
  {| config := config ex;
     store := store ex;
     nextState := nextState ex;
     states := v;
     addedStates := addedStates ex;
     removedStates := removedStates ex;
     seedMap := seedMap ex;
     forks := forks ex;
     rng := rng ex;
     replayPosition := replayPosition ex;
     haltExecution := haltExecution ex;
     emittedErrors := emittedErrors ex;
     OnlySeed := OnlySeed ex;
     memory := memory ex;
     rrwsId := rrwsId ex;
     trace := trace ex |}.

Definition set_addedStates (v : list nat) (ex : Executor) : Executor :=
  {| config := config ex;
     store := store ex;
     nextState := nextState ex;
     states := states ex;
     addedStates := v;
     removedStates := removedStates ex;
     seedMap := seedMap ex;
     forks := forks ex;
     rng := rng ex;
     replayPosition := replayPosition ex;
     haltExecution := haltExecution ex;
     emittedErrors := emittedErrors ex;
     OnlySeed := OnlySeed ex;
     memory := memory ex;
     rrwsId := rrwsId ex;
     trace := trace ex |}.

Definition set_removedStates (v : list nat) (ex : Executor) : Executor :=
  {| config := config ex;
     store := store ex;
     nextState := nextState ex;
     states := states ex;
     addedStates := addedStates ex;
     removedStates := v;
     seedMap := seedMap ex;
     forks := forks ex;
     rng := rng ex;
     replayPosition := replayPosition ex;
     haltExecution := haltExecution ex;
     emittedErrors := emittedErrors ex;
     OnlySeed := OnlySeed ex;
     memory := memory ex;
     rrwsId := rrwsId ex;
     trace := trace ex |}.

Definition set_seedMap (v : gmap nat (list SeedInfo)) (ex : Executor) : Executor :=
  {| config := config ex;
     store := store ex;
     nextState := nextState ex;
     states := states ex;
     addedStates := addedStates ex;
     removedStates := removedStates ex;
     seedMap := v;
     forks := forks ex;
     rng := rng ex;
     replayPosition := replayPosition ex;
     haltExecution := haltExecution ex;
     emittedErrors := emittedErrors ex;
     OnlySeed := OnlySeed ex;
     memory := memory ex;
     rrwsId := rrwsId ex;
     trace := trace ex |}.

Definition set_forks (v : N) (ex : Executor) : Executor :=
  {| config := config ex;
     store := store ex;
     nextState := nextState ex;
     states := states ex;
     addedStates := addedStates ex;
     removedStates := removedStates ex;
     seedMap := seedMap ex;
     forks := v;
     rng := rng ex;
     replayPosition := replayPosition ex;
     haltExecution := haltExecution ex;
     emittedErrors := emittedErrors ex;
     OnlySeed := OnlySeed ex;
     memory := memory ex;
     rrwsId := rrwsId ex;
     trace := trace ex |}.

Definition set_rng (v : N) (ex : Executor) : Executor :=
  {| config := config ex;
     store := store ex;
     nextState := nextState ex;
     states := states ex;
     addedStates := addedStates ex;
     removedStates := removedStates ex;
     seedMap := seedMap ex;
     forks := forks ex;
     rng := v;
     replayPosition := replayPosition ex;
     haltExecution := haltExecution ex;
     emittedErrors := emittedErrors ex;
     OnlySeed := OnlySeed ex;
     memory := memory ex;
     rrwsId := rrwsId ex;
     trace := trace ex |}.

Definition set_replayPosition (v : nat) (ex : Executor) : Executor :=
  {| config := config ex;
     store := store ex;
     nextState := nextState ex;
     states := states ex;
     addedStates := addedStates ex;
     removedStates := removedStates ex;
     seedMap := seedMap ex;
     forks := forks ex;
     rng := rng ex;
     replayPosition := v;
     haltExecution := haltExecution ex;
     emittedErrors := emittedErrors ex;
     OnlySeed := OnlySeed ex;
     memory := memory ex;
     rrwsId := rrwsId ex;
     trace := trace ex |}.

Definition set_haltExecution (v : bool) (ex : Executor) : Executor :=
  {| config := config ex;
     store := store ex;
     nextState := nextState ex;
     states := states ex;
     addedStates := addedStates ex;
     removedStates := removedStates ex;
     seedMap := seedMap ex;
     forks := forks ex;
     rng := rng ex;
     replayPosition := replayPosition ex;
     haltExecution := v;
     emittedErrors := emittedErrors ex;
     OnlySeed := OnlySeed ex;
     memory := memory ex;
     rrwsId := rrwsId ex;
     trace := trace ex |}.

Definition set_emittedErrors (v : list (KInstIterator * string)) (ex : Executor) : Executor :=
  {| config := config ex;
     store := store ex;
     nextState := nextState ex;
     states := states ex;
     addedStates := addedStates ex;
     removedStates := removedStates ex;
     seedMap := seedMap ex;
     forks := forks ex;
     rng := rng ex;
     replayPosition := replayPosition ex;
     haltExecution := haltExecution ex;
     emittedErrors := v;
     OnlySeed := OnlySeed ex;
     memory := memory ex;
     rrwsId := rrwsId ex;
     trace := trace ex |}.

Definition set_OnlySeed (v : bool) (ex : Executor) : Executor :=
  {| config := config ex;
     store := store ex;
     nextState := nextState ex;
     states := states ex;
     addedStates := addedStates ex;
     removedStates := removedStates ex;
     seedMap := seedMap ex;
     forks := forks ex;
     rng := rng ex;
     replayPosition := replayPosition ex;
     haltExecution := haltExecution ex;
     emittedErrors := emittedErrors ex;
     OnlySeed := v;
     memory := memory ex;
     rrwsId := rrwsId ex;
     trace := trace ex |}.

Definition set_memory (v : list MemoryObject) (ex : Executor) : Executor :=
  {| config := config ex;
     store := store ex;
     nextState := nextState ex;
     states := states ex;
     addedStates := addedStates ex;
     removedStates := removedStates ex;
     seedMap := seedMap ex;
     forks := forks ex;
     rng := rng ex;
     replayPosition := replayPosition ex;
     haltExecution := haltExecution ex;
     emittedErrors := emittedErrors ex;
     OnlySeed := OnlySeed ex;
     memory := v;
     rrwsId := rrwsId ex;
     trace := trace ex |}.

Definition set_rrwsId (v : N) (ex : Executor) : Executor :=
  {| config := config ex;
     store := store ex;
     nextState := nextState ex;
     states := states ex;
     addedStates := addedStates ex;
     removedStates := removedStates ex;
     seedMap := seedMap ex;
     forks := forks ex;
     rng := rng ex;
     replayPosition := replayPosition ex;
     haltExecution := haltExecution ex;
     emittedErrors := emittedErrors ex;
     OnlySeed := OnlySeed ex;
     memory := memory ex;
     rrwsId := v;
     trace := trace ex |}.

Definition set_trace (v : list Event) (ex : Executor) : Executor :=
  {| config := config ex;
     store := store ex;
     nextState := nextState ex;
     states := states ex;
     addedStates := addedStates ex;
     removedStates := removedStates ex;
     seedMap := seedMap ex;
     forks := forks ex;
     rng := rng ex;
     replayPosition := replayPosition ex;
     haltExecution := haltExecution ex;
     emittedErrors := emittedErrors ex;
     OnlySeed := OnlySeed ex;
     memory := memory ex;
     rrwsId := rrwsId ex;
     trace := v |}.

(** *** Collaborators *)

(** The solver facade ([TimingSolver]).  Each query is made under the
    constraints of a state; [None] is a failed or timed-out query. *)
Class Solver := {
  evaluate : list Expr -> Expr -> option Validity;
  getValue : list Expr -> Expr -> option (Width * Z);
  mustBeTrue : list Expr -> Expr -> option bool;
  mustBeFalse : list Expr -> Expr -> option bool;
  mayBeTrue : list Expr -> Expr -> option bool
}.

Class ExprOptimizer := {
  optimizeExpr : Expr -> bool -> Expr
}.

Class ConstraintManager := {
  simplifyExpr : list Expr -> Expr -> Expr
}.

Class MemoryModel := {
  (** [AddressSpace::resolveOne] with the solver: [None] when the solver
      failed, otherwise the object found, if any *)
  resolveOne : AddressSpace -> list Expr -> Expr -> option (option ObjectPair);
  (** [AddressSpace::resolveOne] on a constant address *)
  resolveOneConstant : AddressSpace -> Z -> option ObjectPair;
  (** [AddressSpace::resolve]: the candidates and the [incomplete] flag *)
  resolve : AddressSpace -> list Expr -> Expr -> list ObjectPair * bool;
  os_read : ObjectState -> Expr -> Width -> Expr;
  os_write : ObjectState -> Expr -> Expr -> ObjectState;
  (** [MemoryManager::allocate(size, isLocal, isGlobal, allocSite, alignment)] *)
  allocate : list MemoryObject -> N -> bool -> bool -> KInstIterator -> N ->
             option MemoryObject;
  (** a fresh [ObjectState], zeroed or filled at random *)
  freshObjectState : MemoryObject -> bool -> ObjectState;
  getAllocationAlignment : KInstIterator -> N;
  (** [nme_req]: the native address the out-of-process heap helper assigns
      to a new heap object *)
  nme_req : MemoryObject -> Z
}.

(** [theRNG], and [random()] of the C library; each call maps the
    generator state to a value and the next state. *)
Class RNG := {
  getInt32 : N -> N * N;
  getBool : N -> bool * N;
  random : N -> N * N
}.

Class Seeding := {
  (** [SeedInfo::assignment.evaluate] *)
  seedEvaluate : SeedInfo -> Expr -> Expr;
  patchSeed : SeedInfo -> list Expr -> Expr -> SeedInfo
}.

(** *** The monad *)

(** [Crash] is the abnormal end of the engine process.  [OutOfFuel] is not
    an outcome of the program: it marks a loop of the model that was given
    too few iterations. *)
Inductive Outcome (A : Type) :=
| Ok (a : A) (ex : Executor)
| Crash (why : string)
| OutOfFuel.
Arguments Ok {A} a ex.
Arguments Crash {A} why.
Arguments OutOfFuel {A}.

Definition M (A : Type) : Type := Executor -> Outcome A.

Definition ret {A} (a : A) : M A := fun ex => Ok a ex.

Definition bind {A B} (m : M A) (f : A -> M B) : M B := fun ex =>
  match m ex with
  | Ok a ex' => f a ex'
  | Crash why => Crash why
  | OutOfFuel => OutOfFuel
  end.

Declare Scope exec_scope.
Delimit Scope exec_scope with exec.
Notation "'let*' x ':=' m 'in' k" := (bind m (fun x => k))
  (at level 10, x name, m at level 100, k at level 200) : exec_scope.
Notation "'let*' ' p ':=' m 'in' k" := (bind m (fun x => match x with p => k end))
  (at level 10, p strict pattern, m at level 100, k at level 200) : exec_scope.
Notation "m ;; k" := (bind m (fun _ => k))
  (at level 100, k at level 200, right associativity) : exec_scope.
Open Scope exec_scope.

Definition gets {A} (f : Executor -> A) : M A := fun ex => Ok (f ex) ex.
Definition modify (f : Executor -> Executor) : M unit := fun ex => Ok tt (f ex).
Definition crash {A} (why : string) : M A := fun _ => Crash why.
Definition option_get {A} (why : string) (o : option A) : M A :=
  match o with Some a => ret a | None => crash why end.

(** [when c m]: a conditional without an else branch. *)
Definition when (c : bool) (m : M unit) : M unit :=
  if c then m else ret tt.

Fixpoint forEach {A} (l : list A) (body : A -> M unit) : M unit :=
  match l with
  | [] => ret tt
  | x :: rest => body x;; forEach rest body
  end.

(** Dereferencing a state pointer; a deleted state is undefined behaviour. *)
Definition getState (sid : nat) : M ExecutionState := fun ex =>
  match store ex !! sid with
  | Some s => Ok s ex
  | None => Crash "use of a deleted ExecutionState"
  end.

Definition putState (sid : nat) (s : ExecutionState) : M unit :=
  modify (fun ex => set_store (<[sid := s]> (store ex)) ex).

Definition updState (sid : nat) (f : ExecutionState -> ExecutionState) : M unit :=
  let* s := getState sid in putState sid (f s).

Definition emit (ev : Event) : M unit :=
  modify (fun ex => set_trace (trace ex ++ [ev]) ex).

Definition option_of (c : Config -> bool) : M bool := gets (fun ex => c (config ex)).

(** ** The executor *)

Definition StatePair := (option nat * option nat)%type.

Fixpoint remove_first (x : nat) (l : list nat) : list nat :=
  match l with
  | [] => []
  | y :: rest => if Nat.eqb x y then rest else y :: remove_first x rest
  end.

(** [getZExtValue] of a constant *)
Definition getZExtValue (c : Width * Z) : Z := trunc (fst c) (snd c).

Definition constantOf (c : Width * Z) : Expr := ConstantExpr (fst c) (snd c).

(** Modelled from the spec: [ExecutionState::addConstraint] is in
    [ExecutionState.cpp], not among the sources; by section 3 the
    constraints of a state are a vector of expressions, read as their
    conjunction, to which a new constraint is added. *)
Definition state_addConstraint (e : Expr) (s : ExecutionState) : ExecutionState :=
  set_constraints (constraints s ++ [e]) s.

(** [Executor::getLastNonKleeInternalInstruction], the walk down the stack:
    the outermost frame is not visited. [None] stands for the dereference
    of a missing caller. *)
Fixpoint windUpStack (km : KModule) (frames : list StackFrame)
    (ii : option KInstIterator) : option (option KInstIterator) :=
  match frames with
  | [] => Some ii
  | f :: rest =>
      match rest with
      | [] => Some ii
      | _ :: _ =>
          match caller f with
          | None => None
          | Some c =>
              if bool_decide (functionOf km c ∈ internalFunctions km)
              then windUpStack km rest None
              else windUpStack km rest
                     (match ii with Some _ => ii | None => Some c end)
          end
      end
  end.

Definition getLastNonKleeInternalInstruction (km : KModule)
    (s : ExecutionState) : option KInstIterator :=
  match stack s with
  | [] => None
  | top :: _ =>
      let ii := if bool_decide (kf top ∈ internalFunctions km)
                then None else Some (prevPC s) in
      match windUpStack km (stack s) ii with
      | None => None
      | Some (Some i) => Some i
      | Some None => Some (prevPC s)
      end
  end.

Section Engine.

Context `{Solver} `{ExprOptimizer} `{ConstraintManager} `{MemoryModel}
        `{RNG} `{Seeding}.

(** The synthesis of exploit constraints in the indirect-call handler, run
    once for the recorded write capabilities of a state.  It reads the
    symbol table of a binary on disk. *)
Variable aegHijack : nat -> Expr -> list (Expr * option Expr) -> M unit.

(** [Executor::executeCall]: frame push for a defined function, intrinsic
    or external dispatch for a declaration. *)
Variable executeCall : nat -> KInstruction -> Z -> list (option Expr) -> M unit.

(** An assertion on the success of a solver query. *)
Definition assertSuccess {A} (o : option A) : M A :=
  option_get "FIXME: Unhandled solver failure" o.

Definition nextInt32 : M N := fun ex =>
  let '(v, g) := getInt32 (rng ex) in Ok v (set_rng g ex).

Definition nextBool : M bool := fun ex =>
  let '(v, g) := getBool (rng ex) in Ok v (set_rng g ex).

Definition nextRandom : M N := fun ex =>
  let '(v, g) := random (rng ex) in Ok v (set_rng g ex).

Definition processTestCase (sid : nat) (message suffix : option string) : M unit :=
  emit (TestCase sid message suffix).

Definition isSeeded (sid : nat) : M bool :=
  gets (fun ex => bool_decide (is_Some (seedMap ex !! sid))).

Definition terminateState (sid : nat) : M unit :=
  let* added := gets addedStates in
  if bool_decide (sid ∈ added) then
    (* never reached searcher, just delete immediately *)
    modify (fun ex => set_seedMap (delete sid (seedMap ex)) ex);;
    modify (fun ex => set_addedStates (remove_first sid (addedStates ex)) ex);;
    modify (fun ex => set_store (delete sid (store ex)) ex)
  else
    updState sid (fun s => set_pc (prevPC s) s);;
    modify (fun ex => set_removedStates (removedStates ex ++ [sid]) ex).

(** The guard shared by [terminateStateEarly] and [terminateStateOnExit]. *)
Definition outputsTestCase (sid : nat) : M bool :=
  let* onlyNew := option_of OnlyOutputStatesCoveringNew in
  if negb onlyNew then ret true
  else
    let* s := getState sid in
    if coveredNew s then ret true
    else
      let* always := option_of AlwaysOutputSeeds in
      if always then isSeeded sid else ret false.

Definition terminateStateEarly (sid : nat) (message : string) : M unit :=
  emit (Terminated sid (Early message));;
  let* out := outputsTestCase sid in
  when out (processTestCase sid (Some (message +:+ "
")) (Some "early"));;
  terminateState sid.

Definition terminateStateOnExit (sid : nat) : M unit :=
  emit (Terminated sid OnExit);;
  let* out := outputsTestCase sid in
  when out (processTestCase sid None None);;
  terminateState sid.

(** [shouldExitOn] *)
Definition shouldExitOn (cfg : Config) (r : TerminateReason) : bool :=
  bool_decide (r ∈ ExitOnErrorType cfg).

(** The test case of an error carries the message; the file, line and
    stack text around it is not modelled. *)
Definition terminateStateOnError (sid : nat) (message : string)
    (termReason : TerminateReason) (suffix : option string) (info : string) : M unit :=
  emit (Terminated sid (OnError message termReason));;
  let* s := getState sid in
  let* cfg := gets config in
  let* lastInst := option_get "stack walk through a missing frame"
               (getLastNonKleeInternalInstruction (kmodule cfg) s) in
  let* emitted := gets emittedErrors in
  let report :=
    processTestCase sid (Some message)
      (Some (default (TerminateReasonNames termReason +:+ ".err") suffix)) in
  (if EmitAllErrors cfg then report
   else if bool_decide ((lastInst, message) ∈ emitted) then ret tt
   else
     modify (fun ex => set_emittedErrors ((lastInst, message) :: emittedErrors ex) ex);;
     report);;
  terminateState sid;;
  when (shouldExitOn cfg termReason)
    (modify (fun ex => set_haltExecution true ex)).

(** [terminateStateOnExecError], declared in [Executor.h] *)
Definition terminateStateOnExecError (sid : nat) (message : string) : M unit :=
  terminateStateOnError sid message Exec None "".

(** The seed loop of [addConstraint]: a seed the constraint contradicts is
    patched. *)
Fixpoint patchSeeds (cs : list Expr) (condition : Expr)
    (seeds : list SeedInfo) : M (list SeedInfo) :=
  match seeds with
  | [] => ret []
  | seed :: rest =>
      let* res := assertSuccess (mustBeFalse cs (seedEvaluate seed condition)) in
      let* rest' := patchSeeds cs condition rest in
      ret ((if res : bool then patchSeed seed cs condition else seed) :: rest')
  end.

Definition addConstraint (sid : nat) (condition : Expr) : M unit :=
  match condition with
  | ConstantExpr w v =>
      if isTrue w v then ret tt
      else crash "attempt to add invalid constraint"
  | _ =>
      (* Check to see if this constraint violates seeds. *)
      let* seeds := gets (fun ex => seedMap ex !! sid) in
      match seeds with
      | Some l =>
          let* s := getState sid in
          let* l' := patchSeeds (constraints s) condition l in
          modify (fun ex => set_seedMap (<[sid := l']> (seedMap ex)) ex)
      | None => ret tt
      end;;
      (* ivcEnabled is initialised to false and never assigned, so
         doImpliedValueConcretization is not reached *)
      updState sid (state_addConstraint condition)
  end.

(** ** Registers *)

(** [Executor::eval]: operand [index] of the instruction, from the constant
    table when its number is negative and from the innermost frame
    otherwise.  The cell may still be empty. *)
Definition eval_operand (ki : KInstruction) (index : nat) (sid : nat) : M (option Expr) :=
  if negb (index <? numOperands (inst ki))%nat
  then crash "assert(index < ki->inst->getNumOperands())"
  else
    let* vnumber := option_get "operand index out of range" (operands ki !! index) in
    if vnumber =? -1
    then crash "Invalid operand to eval(), not a value or constant!"
    else if vnumber <? 0 then
      let* km := gets (fun ex => kmodule (config ex)) in
      option_get "constant table index out of range"
        (constantTable km !! Z.to_nat (- vnumber - 2))
    else
      let* s := getState sid in
      let* sf := option_get "stack.back() of an empty stack" (head (stack s)) in
      option_get "register index out of range" (locals sf !! Z.to_nat vnumber).

(** Using the value of a cell: an empty cell is a null reference. *)
Definition deref (o : option Expr) : M Expr :=
  option_get "use of an unbound register" o.

(** [Executor::bindLocal]: the destination cell of [target] in the
    innermost frame of the state. *)
Definition bindLocal (target : KInstruction) (sid : nat) (value : Expr) : M unit :=
  let* s := getState sid in
  match stack s with
  | [] => crash "stack.back() of an empty stack"
  | sf :: rest =>
      if (dest target <? length (locals sf))%nat
      then putState sid
             (set_stack (set_locals (<[dest target := Some value]> (locals sf)) sf :: rest) s)
      else crash "register index out of range"
  end.

(** ** Forking *)

(** Modelled from the spec: [ExecutionState::branch] is in
    [ExecutionState.cpp], not among the sources.  By section 4.3 the new
    state is a deep clone of the current one; the depth of the state counts
    its symbolic branches, and the clone has not yet covered new code. *)
Definition stateBranch (sid : nat) : M nat :=
  let* s := getState sid in
  let s1 := set_depth ((depth s + 1) mod 2 ^ 32)%N s in
  putState sid s1;;
  let* id := gets nextState in
  modify (fun ex => set_nextState (S id) ex);;
  putState id (set_coveredNew false s1);;
  ret id.

Definition pushAdded (sid : nat) : M unit :=
  modify (fun ex => set_addedStates (addedStates ex ++ [sid]) ex).

Definition forkBudgetExhausted (ex : Executor) : bool :=
  negb (MaxForks (config ex) =? noForkBudget)%N
  && (MaxForks (config ex) <=? forks ex)%N.

(** The loop of [branch] that creates the [N - 1] new states: state [i]
    is cloned from a state drawn among the first [i] results. *)
Fixpoint branchStates (count : nat) (result : list (option nat)) : M (list (option nat)) :=
  match count with
  | O => ret result
  | S count' =>
      let* r := nextInt32 in
      let i := length result in
      let* es := option_get "null state in branch"
                   (mjoin (result !! (N.to_nat r mod i)%nat)) in
      let* ns := stateBranch es in
      pushAdded ns;;
      branchStates count' (result ++ [Some ns])
  end.

(** The first condition a seed satisfies, counted from [i]; [None] when
    there is none. *)
Fixpoint seedCondition (cs : list Expr) (seed : SeedInfo)
    (conditions : list Expr) (i : nat) : M (option nat) :=
  match conditions with
  | [] => ret None
  | c :: rest =>
      let* res := assertSuccess (getValue cs (seedEvaluate seed c)) in
      if isTrue (fst res) (snd res) then ret (Some i)
      else seedCondition cs seed rest (S i)
  end.

Definition pushSeed (sid : nat) (seed : SeedInfo) : M unit :=
  modify (fun ex =>
    set_seedMap (<[sid := default [] (seedMap ex !! sid) ++ [seed]]> (seedMap ex)) ex).

(** The [OnlyReplaySeeds] sweep of [branch]: a result without seeds is
    terminated and cleared. *)
Fixpoint dropUnseeded (result : list (option nat)) : M (list (option nat)) :=
  match result with
  | [] => ret []
  | r :: rest =>
      let* r' :=
        match r with
        | Some sid =>
            let* seeded := isSeeded sid in
            if seeded then ret (Some sid)
            else terminateState sid;; ret None
        | None => ret None
        end in
      let* rest' := dropUnseeded rest in
      ret (r' :: rest')
  end.

Fixpoint constrainResults (result : list (option nat)) (conditions : list Expr) : M unit :=
  match result, conditions with
  | r :: rest, c :: cs =>
      match r with Some sid => addConstraint sid c | None => ret tt end;;
      constrainResults rest cs
  | _, _ => ret tt
  end.

Definition branch (sid : nat) (conditions : list Expr) : M (list (option nat)) :=
  let n := length conditions in
  if (n =? 0)%nat then crash "assert(N)"
  else
    let* exhausted := gets forkBudgetExhausted in
    let* result :=
      if exhausted then
        let* r := nextInt32 in
        let next := (N.to_nat r mod n)%nat in
        ret (map (fun i => if (i =? next)%nat then Some sid else None) (seq 0 n))
      else
        modify (fun ex => set_forks ((forks ex + N.of_nat (n - 1)) mod 2 ^ 64)%N ex);;
        branchStates (n - 1) [Some sid] in
    (* If necessary redistribute seeds to match conditions, killing
       states if necessary due to OnlyReplaySeeds. *)
    let* seeds := gets (fun ex => seedMap ex !! sid) in
    let* result :=
      match seeds with
      | None => ret result
      | Some l =>
          modify (fun ex => set_seedMap (delete sid (seedMap ex)) ex);;
          forEach l (fun seed =>
            let* s := getState sid in
            let* found := seedCondition (constraints s) seed conditions 0 in
            let* i := match found with
                      | Some i => ret i
                      | None => let* r := nextInt32 in ret (N.to_nat r mod n)%nat
                      end in
            match mjoin (result !! i) with
            | Some target => pushSeed target seed
            | None => ret tt
            end);;
          let* only := option_of OnlyReplaySeeds in
          if only then dropUnseeded result else ret result
      end in
    constrainResults result conditions;;
    ret result.

(** The scan of [fork] over the seeds of a state for one that makes the
    condition true and one that makes it false; it stops once both are
    found. *)
Fixpoint scanSeeds (cs : list Expr) (condition : Expr) (seeds : list SeedInfo)
    (trueSeed falseSeed : bool) : M (bool * bool) :=
  match seeds with
  | [] => ret (trueSeed, falseSeed)
  | seed :: rest =>
      let* res := assertSuccess (getValue cs (seedEvaluate seed condition)) in
      let trueSeed' := if isTrue (fst res) (snd res) then true else trueSeed in
      let falseSeed' := if isTrue (fst res) (snd res) then falseSeed else true in
      if trueSeed' && falseSeed' then ret (trueSeed', falseSeed')
      else scanSeeds cs condition rest trueSeed' falseSeed'
  end.

(** The distribution of the seeds of a forked state over its branches. *)
Fixpoint splitSeeds (cs : list Expr) (condition : Expr) (seeds : list SeedInfo)
    : M (list SeedInfo * list SeedInfo) :=
  match seeds with
  | [] => ret ([], [])
  | seed :: rest =>
      let* res := assertSuccess (getValue cs (seedEvaluate seed condition)) in
      let* '(ts, fs) := splitSeeds cs condition rest in
      if isTrue (fst res) (snd res) then ret (seed :: ts, fs)
      else ret (ts, seed :: fs)
  end.

Definition appendPath (sid : nat) (bit : bool) : M unit :=
  updState sid (fun s => set_pathOS (pathOS s ++ [bit]) s).

Definition appendSymPath (sid : nat) (bit : bool) : M unit :=
  updState sid (fun s => set_symPathOS (symPathOS s ++ [bit]) s).

(** The inhibition test of [fork]: memory cap, per-path and global
    switches, and the fork budget. *)
Definition forkInhibited (s : ExecutionState) (ex : Executor) : bool :=
  (MaxMemoryInhibit (config ex) && atMemoryLimit (config ex))
  || forkDisabled s
  || inhibitForking (config ex)
  || forkBudgetExhausted ex.

Definition fork (current : nat) (condition : Expr) (isInternal : bool) : M StatePair :=
  let* seeds := gets (fun ex => seedMap ex !! current) in
  let isSeeding := bool_decide (is_Some seeds) in
  let* cfg := gets config in
  let* condition :=
    if negb isSeeding && negb (isConstant condition) && maxStaticPctExceeded cfg
    then
      let* s := getState current in
      let* value := assertSuccess (getValue (constraints s) condition) in
      addConstraint current (EqExpr_create (constantOf value) condition);;
      ret (constantOf value)
    else ret condition in
  let* s := getState current in
  match evaluate (constraints s) condition with
  | None =>
      updState current (fun s => set_pc (prevPC s) s);;
      terminateStateEarly current "Query timed out (fork).";;
      ret (None, None)
  | Some res =>
      let* res :=
        if negb isSeeding then
          match replayPath cfg, isInternal with
          | Some path, false =>
              let* pos := gets replayPosition in
              let* br := option_get "ran out of branches in replay path mode"
                           (path !! pos) in
              modify (fun ex => set_replayPosition (S pos) ex);;
              match res with
              | VTrue =>
                  if br : bool then ret VTrue
                  else crash "hit invalid branch in replay path mode"
              | VFalse =>
                  if br then crash "hit invalid branch in replay path mode"
                  else ret VFalse
              | VUnknown =>
                  (* add constraints *)
                  if br then addConstraint current condition;; ret VTrue
                  else addConstraint current (createIsZero condition);; ret VFalse
              end
          | _, _ =>
              match res with
              | VUnknown =>
                  if replayKTest cfg
                  then crash "in replay mode, only one branch can be true."
                  else
                    let* inhibited := gets (forkInhibited s) in
                    if inhibited then
                      let* b := nextBool in
                      if b then addConstraint current condition;; ret VTrue
                      else addConstraint current (createIsZero condition);; ret VFalse
                    else ret VUnknown
              | _ => ret res
              end
          end
        else ret res in
      (* Fix branch in only-replay-seed mode, if we don't have both true
         and false seeds. *)
      let* res :=
        match seeds, res with
        | Some l, VUnknown =>
            if forkDisabled s || OnlyReplaySeeds cfg then
              let* '(trueSeed, falseSeed) :=
                scanSeeds (constraints s) condition l false false in
              if trueSeed && falseSeed then ret VUnknown
              else if negb (trueSeed || falseSeed)
              then crash "assert(trueSeed || falseSeed)"
              else
                addConstraint current
                  (if trueSeed then condition else createIsZero condition);;
                ret (if trueSeed then VTrue else VFalse)
            else ret VUnknown
        | _, _ => ret res
        end in
      match res with
      | VTrue =>
          when (negb isInternal && pathWriter cfg) (appendPath current true);;
          ret (Some current, None)
      | VFalse =>
          when (negb isInternal && pathWriter cfg) (appendPath current false);;
          ret (None, Some current)
      | VUnknown =>
          let trueState := current in
          modify (fun ex => set_forks ((forks ex + 1) mod 2 ^ 64)%N ex);;
          let* falseState := stateBranch trueState in
          pushAdded falseState;;
          match seeds with
          | Some l =>
              let* st := getState current in
              let* '(trueSeeds, falseSeeds) := splitSeeds (constraints st) condition l in
              modify (fun ex =>
                set_seedMap (<[falseState := falseSeeds]>
                               (<[trueState := trueSeeds]> (seedMap ex))) ex);;
              when (bool_decide (trueSeeds = []))
                (modify (fun ex => set_seedMap (delete trueState (seedMap ex)) ex));;
              when (bool_decide (falseSeeds = []))
                (modify (fun ex => set_seedMap (delete falseState (seedMap ex)) ex));;
              (* swapInfo: the current state is the true state *)
              when (bool_decide (trueSeeds = []))
                (let* t := getState trueState in
                 let* f := getState falseState in
                 putState trueState (set_coveredNew (coveredNew f) t);;
                 putState falseState (set_coveredNew (coveredNew t) f))
          | None => ret tt
          end;;
          when (pathWriter cfg)
            (let* c := getState current in
             updState falseState (fun f => set_pathOS (pathOS c) f);;
             when (negb isInternal)
               (appendPath trueState true;; appendPath falseState false));;
          when (symPathWriter cfg)
            (let* c := getState current in
             updState falseState (fun f => set_symPathOS (symPathOS c) f);;
             when (negb isInternal)
               (appendSymPath trueState true;; appendSymPath falseState false));;
          addConstraint trueState condition;;
          addConstraint falseState (createIsZero condition);;
          let* t := getState trueState in
          if negb (MaxDepth cfg =? 0)%N && (MaxDepth cfg <=? depth t)%N then
            terminateStateEarly trueState "max-depth exceeded.";;
            terminateStateEarly falseState "max-depth exceeded.";;
            ret (None, None)
          else ret (Some trueState, Some falseState)
      end
  end.

(** ** Concretisation *)

(** [Executor::toUnique]; the result is the expression as it was passed
    unless the solver proves the value unique. *)
Definition toUnique (cs : list Expr) (e : Expr) : Expr :=
  if isConstant e then e
  else
    let e' := optimizeExpr e true in
    match getValue cs e' with
    | Some value =>
        let cond := optimizeExpr (EqExpr_create e' (constantOf value)) false in
        match mustBeTrue cs cond with
        | Some true => constantOf value
        | _ => e
        end
    | None => e
    end.

(** [Executor::toConstant]: concretize the given expression, and return a
    possible constant value. *)
Definition toConstant (sid : nat) (e : Expr) (reason : string) : M (Width * Z) :=
  let* s := getState sid in
  let e := simplifyExpr (constraints s) e in
  match e with
  | ConstantExpr w v => ret (w, v)
  | _ =>
      let* value := assertSuccess (getValue (constraints s) e) in
      addConstraint sid (EqExpr_create e (constantOf value));;
      ret value
  end.

(** [Executor::getAddressInfo]: the text is not modelled, the solver query
    made for a symbolic address is. *)
Definition getAddressInfo (sid : nat) (address : Expr) : M string :=
  match address with
  | ConstantExpr _ _ => ret "address"
  | _ =>
      let* s := getState sid in
      let* value := assertSuccess (getValue (constraints s) address) in
      ret "address example range"
  end.

(** ** Memory operations *)

(** Modelled from the spec: [Expr::createTempRead] is in [Expr.cpp], not
    among the sources; it reads the bytes of a fresh array in the little
    endian order of section 3, at the width asked for. *)
Fixpoint tempReadBytes (array : string) (n : nat) : Expr :=
  match n with
  | O => ConstantExpr 0%N 0
  | 1%nat => ReadExpr array 0
  | S n' => ConcatExpr (ReadExpr array (N.of_nat n')) (tempReadBytes array n')
  end.

(** Modelled from the spec: [Expr::createTempRead], of [Expr.cpp]; the
    bytes above, cast to the width asked for. *)
Definition createTempRead (array : string) (w : Width) : Expr :=
  ZExtExpr_create (tempReadBytes array (N.to_nat (getMinBytesForWidth w))) w.

(** [Executor::replaceReadWithSymbolic].  The [NotOptimizedExpr] wrapper
    has the value of its operand and is left out. *)
Definition replaceReadWithSymbolic (sid : nat) (e : Expr) : M Expr :=
  let* cfg := gets config in
  let n := MakeConcreteSymbolic cfg in
  if (n =? 0)%N || replayKTest cfg || bool_decide (is_Some (replayPath cfg))
  then ret e
  else if negb (isConstant e) then ret e
  else
    let* skip := if (n =? 1)%N then ret false
                 else let* r := nextRandom in ret (negb (r mod n =? 0)%N) in
    if skip : bool then ret e
    else
      let* id := gets (fun ex => (rrwsId ex + 1)%N) in
      modify (fun ex => set_rrwsId id ex);;
      let res := createTempRead ("rrws_arr" +:+ pretty id) (getWidth e) in
      updState sid (state_addConstraint (EqExpr e res));;
      ret res.

Definition getWidthForLLVMType (i : Instruction) : Width :=
  default 0%N (typeWidth i).

Inductive FastPath :=
| Done
| ErrorPath (address : Expr).

Section MemoryOperation.

Variables (isWrite : bool) (value : Expr) (target : KInstruction).
Variables (type : Width) (bytes : N).

(** The access itself, on the object a state was bound to. *)
Definition accessObject (sid : nat) (mo : MemoryObject) (os : ObjectState)
    (offset : Expr) (makeSymbolic : bool) : M unit :=
  if isWrite then
    if readOnly os then
      terminateStateOnError sid "memory error: object read only" ReadOnly None ""
    else
      updState sid (fun s =>
        set_addressSpace (rebindObject mo (os_write os offset value) (addressSpace s)) s)
  else
    let result := os_read os offset type in
    let* result := if makeSymbolic then replaceReadWithSymbolic sid result
                   else ret result in
    bindLocal target sid result.

(** The loop over the candidate objects: one fork per candidate, the bound
    branch performs the access, the unbound branch goes on. *)
Fixpoint forkCandidates (pw : Width) (address : Expr) (rl : list ObjectPair)
    (unbound : nat) : M (option nat) :=
  match rl with
  | [] => ret (Some unbound)
  | (mo, os) :: rest =>
      let inBounds := getBoundsCheckPointer pw mo address bytes in
      let* branches := fork unbound inBounds true in
      (* bound can be 0 on failure or overlapped *)
      match fst branches with
      | Some bound => accessObject bound mo os (getOffsetExpr pw mo address) false
      | None => ret tt
      end;;
      match snd branches with
      | Some u => forkCandidates pw address rest u
      | None => ret None
      end
  end.

(** The exit from seed-only mode at the first overflow. *)
Definition leaveSeedMode (sid : nat) : M unit :=
  let* only := gets OnlySeed in
  when only
    (let* all := gets states in
     forEach all (fun es =>
       let* seeded := isSeeded sid in
       if seeded
       then modify (fun ex => set_seedMap (delete sid (seedMap ex)) ex)
       else terminateState es);;
     (* disable OnlySeed *)
     modify (fun ex => set_OnlySeed false ex)).

(** The end of the error path for a state that no candidate object bound
    and whose resolution was complete. *)
Definition handleOverflow (sid : nat) (address : Expr) (unbound : nat) : M unit :=
  leaveSeedMode sid;;
  let* cfg := gets config in
  match address with
  | ConstantExpr w v =>
      let addr := trunc w v in
      (* only handle overflow within native heap addr range *)
      when ((addr <=? n_heap_l cfg) || (n_heap_h cfg <? addr))
        (let* info := getAddressInfo unbound address in
         terminateStateOnError unbound
           "++++++++++++++++++memory error: out of bound pointer" Ptr None info);;
      if isWrite && negb (isConstant value) then ret tt
      else if isWrite && isConstant value then ret tt
      else if negb isWrite then
        let kids := replicate (N.to_nat bytes) (ConstantExpr Int8 136) in
        let* result := option_get "assert(n > 0)" (ConcatExpr_createN kids) in
        bindLocal target unbound result
      else
        (let* info := getAddressInfo unbound address in
         terminateStateOnError unbound
           "-----------------memory error: out of bound pointer" Ptr None info);;
        let* info := getAddressInfo unbound address in
        terminateStateOnError unbound "memory error: out of bound pointer" Ptr None info
  | _ => crash "null ConstantExpr"
  end.

Definition errorPath (sid : nat) (address : Expr) : M unit :=
  (* we are on an error path (no resolution, multiple resolution, one
     resolution with out of bounds) *)
  let address := optimizeExpr address true in
  let* s := getState sid in
  let* pw := gets (fun ex => pointerWidth (kmodule (config ex))) in
  let '(rl, incomplete) := resolve (addressSpace s) (constraints s) address in
  let* unbound := forkCandidates pw address rl sid in
  match unbound with
  | None => ret tt
  | Some u =>
      if incomplete : bool then terminateStateEarly u "Query timed out (resolve)."
      else handleOverflow sid address u
  end.

(** The fast path: single in-bounds resolution. *)
Definition fastPath (sid : nat) (address : Expr) : M FastPath :=
  let* s := getState sid in
  let* cfg := gets config in
  let pw := pointerWidth (kmodule cfg) in
  let* '(address, op) :=
    match resolveOne (addressSpace s) (constraints s) address with
    | Some op => ret (address, op)
    | None =>
        let* c := toConstant sid address "resolveOne failure" in
        let* s' := getState sid in
        ret (constantOf c, resolveOneConstant (addressSpace s') (getZExtValue c))
    end in
  match op with
  | Some (mo, os) =>
      let* address :=
        if negb (MaxSymArraySize cfg =? 0)%N && (MaxSymArraySize cfg <=? size mo)%N
        then let* c := toConstant sid address "max-sym-array-size" in
             ret (constantOf c)
        else ret address in
      let offset := getOffsetExpr pw mo address in
      let check := optimizeExpr (getBoundsCheckOffset pw mo offset bytes) true in
      let* s := getState sid in
      match mustBeTrue (constraints s) check with
      | None =>
          updState sid (fun s => set_pc (prevPC s) s);;
          terminateStateEarly sid "Query timed out (bounds check).";;
          ret Done
      | Some true =>
          accessObject sid mo os offset (negb (MakeConcreteSymbolic cfg =? 0)%N);;
          ret Done
      | Some false => ret (ErrorPath address)
      end
  | None => ret (ErrorPath address)
  end.

End MemoryOperation.

Definition executeMemoryOperation (sid : nat) (isWrite : bool)
    (address : Expr) (value : Expr) (* undef if read *)
    (target : KInstruction) (* undef if write *) : M unit :=
  let type := if isWrite then getWidth value
              else getWidthForLLVMType (inst target) in
  let bytes := getMinBytesForWidth type in
  if negb (isConstant address) then
    let* info := getAddressInfo sid address in
    terminateStateOnError sid
      "exploit succeed: memory operation with symbolic addr" Ptr None info
  else
    let* s := getState sid in
    let* simplify := option_of SimplifySymIndices in
    let address :=
      if simplify && negb (isConstant address)
      then simplifyExpr (constraints s) address else address in
    let value :=
      if simplify && isWrite && negb (isConstant value)
      then simplifyExpr (constraints s) value else value in
    let address := optimizeExpr address true in
    let* fast := fastPath isWrite value target type bytes sid address in
    match fast with
    | Done => ret tt
    | ErrorPath address => errorPath isWrite value target type bytes sid address
    end.

(** ** Allocation *)

Definition set_heapAddress (native : Z) (mo : MemoryObject) : MemoryObject :=
  {| mo_id := mo_id mo; address := native; size := size mo;
     isLocal := isLocal mo; isGlobal := isGlobal mo; isHeap := true;
     kleeAddress := address mo; nativeAddress := native |}.

(** [Executor::bindObjectInState], with the initialisation of the new
    object state that follows it in [executeAlloc]. *)
Definition bindObjectInState (sid : nat) (mo : MemoryObject)
    (isLocal zeroMemory : bool) : M ObjectState :=
  let os := freshObjectState mo zeroMemory in
  updState sid (fun s => set_addressSpace (bindObject mo os (addressSpace s)) s);;
  when isLocal
    (let* s := getState sid in
     match stack s with
     | [] => crash "stack.back() of an empty stack"
     | sf :: rest =>
         putState sid (set_stack (set_allocas (allocas sf ++ [mo]) sf :: rest) s)
     end);;
  ret os.

(** The copy of [executeAlloc] from the object being reallocated. *)
Fixpoint copyBytes (count : nat) (i : N) (from to : ObjectState) : ObjectState :=
  match count with
  | O => to
  | S count' =>
      copyBytes count' (i + 1)%N from
        (os_write to (ConstantExpr Int32 (Z.of_N i))
           (os_read from (ConstantExpr Int32 (Z.of_N i)) Int8))
  end.

(** [executeAlloc] on a size that is a constant expression. *)
Definition executeAllocConstant (sid : nat) (sizeValue : Width * Z)
    (isLocal : bool) (target : KInstruction) (zeroMemory : bool)
    (reallocFrom : option ObjectPair) (allocationAlignment : N)
    (isheap : bool) : M unit :=
  let* s := getState sid in
  let allocSite := prevPC s in
  let allocationAlignment :=
    if (allocationAlignment =? 0)%N then getAllocationAlignment allocSite
    else allocationAlignment in
  let* mem := gets memory in
  let* pw := gets (fun ex => pointerWidth (kmodule (config ex))) in
  match allocate mem (Z.to_N (getZExtValue sizeValue)) isLocal false
          allocSite allocationAlignment with
  | None => bindLocal target sid (ConstantExpr pw 0)
  | Some mo =>
      let mo := if isheap then set_heapAddress (nme_req mo) mo else mo in
      modify (fun ex => set_memory (memory ex ++ [mo]) ex);;
      let* os := bindObjectInState sid mo isLocal zeroMemory in
      bindLocal target sid (getBaseExpr pw mo);;
      match reallocFrom with
      | Some (oldmo, oldos) =>
          let count := N.min (size oldmo) (size mo) in
          let os' := copyBytes (N.to_nat count) 0 oldos os in
          updState sid (fun s =>
            set_addressSpace
              (unbindObject oldmo (rebindObject mo os' (addressSpace s))) s)
      | None => ret tt
      end
  end.

(** The search of [executeAlloc] for a small example of a symbolic size:
    the example is halved while it exceeds 128 and the half is feasible. *)
Fixpoint smallExample (fuel : nat) (cs : list Expr) (size : Expr)
    (example : Width * Z) : M (Width * Z) :=
  match fuel with
  | O => ret example
  | S fuel' =>
      if 128 <? getZExtValue example then
        let tmp := (fst example, getZExtValue example / 2) in
        let* res := assertSuccess
                      (mayBeTrue cs (EqExpr_create (constantOf tmp) size)) in
        if res : bool then smallExample fuel' cs size tmp else ret example
      else ret example
  end.

Definition executeAlloc (sid : nat) (size : Expr) (isLocal : bool)
    (target : KInstruction) (zeroMemory : bool)
    (reallocFrom : option ObjectPair) (allocationAlignment : N)
    (isheap : bool) : M unit :=
  let* s := getState sid in
  let size := toUnique (constraints s) size in
  match size with
  | ConstantExpr w v =>
      executeAllocConstant sid (w, v) isLocal target zeroMemory reallocFrom
        allocationAlignment isheap
  | _ =>
      let size := optimizeExpr size true in
      let* example := assertSuccess (getValue (constraints s) size) in
      (* Try and start with a small example. *)
      let* example :=
        smallExample (N.to_nat (fst example)) (constraints s) size example in
      let* pw := gets (fun ex => pointerWidth (kmodule (config ex))) in
      (* the recursive calls pass [isheap] in the position of the
         alignment, and the last parameter takes its default *)
      let* isheapDefault := option_of executeAlloc_isheap_default in
      let* fixedSize := fork sid (EqExpr_create (constantOf example) size) true in
      match snd fixedSize with
      | Some second =>
          (* Check for exactly two values *)
          let* s2 := getState second in
          let* tmp := assertSuccess (getValue (constraints s2) size) in
          let* res := assertSuccess
                        (mustBeTrue (constraints s2)
                           (EqExpr_create (constantOf tmp) size)) in
          if res : bool then
            executeAllocConstant second tmp isLocal target zeroMemory
              reallocFrom (if isheap then 1 else 0)%N isheapDefault
          else
            (* See if a *really* big value is possible. If so assume
               malloc will fail for it, so lets fork and return 0. *)
            let* hugeSize :=
              fork second
                (UltExpr_create (ConstantExpr (fst example) (2 ^ 31)) size) true in
            match fst hugeSize with
            | Some h => bindLocal target h (ConstantExpr pw 0)
            | None => ret tt
            end;;
            match snd hugeSize with
            | Some h =>
                terminateStateOnError h "concretized symbolic size" Model None
                  "size expr"
            | None => ret tt
            end
      | None => ret tt
      end;;
      match fst fixedSize with
      | Some first =>
          (* can be zero when fork fails *)
          executeAllocConstant first example isLocal target zeroMemory
            reallocFrom (if isheap then 1 else 0)%N isheapDefault
      | None => ret tt
      end
  end.

(** ** Instructions *)

(** Modelled from the spec: [ExecutionState::popFrame] is in
    [ExecutionState.cpp], not among the sources; by section 4.4 the
    allocations of the frame are released on return. *)
Definition popFrame (s : ExecutionState) : ExecutionState :=
  match stack s with
  | [] => s
  | sf :: rest =>
      set_stack rest
        (set_addressSpace
           (fold_left (fun sp mo => unbindObject mo sp) (allocas sf) (addressSpace s)) s)
  end.

Definition indexOf (x : nat) (l : list nat) : Z :=
  match list_find (fun y => y = x) l with
  | Some (i, _) => Z.of_nat i
  | None => -1
  end.

(** [Executor::transferToBasicBlock] *)
Definition transferToBasicBlock (dst src : nat) (sid : nat) : M unit :=
  let* s := getState sid in
  let* km := gets (fun ex => kmodule (config ex)) in
  let* sf := option_get "stack.back() of an empty stack" (head (stack s)) in
  let entry := basicBlockEntry km (kf sf) dst in
  putState sid (set_pc entry s);;
  let* first := option_get "instruction out of range" (instructions km !! entry) in
  match opcode (inst first) with
  | PHI =>
      updState sid (set_incomingBBIndex (indexOf src (incomingBlocks (inst first))))
  | _ => ret tt
  end.

(** The [Ret] case of [Executor::executeInstruction]. *)
Definition executeRet (sid : nat) (ki : KInstruction) : M unit :=
  let* s := getState sid in
  let* km := gets (fun ex => kmodule (config ex)) in
  let* sf := option_get "stack.back() of an empty stack" (head (stack s)) in
  let kcaller := caller sf in
  let* callerInst :=
    match kcaller with
    | Some c =>
        let* k := option_get "instruction out of range" (instructions km !! c) in
        ret (Some k)
    | None => ret None
    end in
  let isVoidReturn := (numOperands (inst ki) =? 0)%nat in
  let* result :=
    if isVoidReturn then ret (Some (ConstantExpr Bool 0))
    else eval_operand ki 0 sid in
  if (length (stack s) <=? 1)%nat then
    match kcaller with
    | Some _ => crash "caller set on initial stack frame"
    | None => terminateStateOnExit sid
    end
  else
    putState sid (popFrame s);;
    match kcaller, callerInst with
    | Some c, Some kc =>
        let callerI := inst kc in
        match opcode callerI with
        | Invoke => transferToBasicBlock (normalDest callerI) (parent callerI) sid
        | _ => updState sid (set_pc (S c))
        end;;
        if negb isVoidReturn then
          match typeWidth callerI with
          | Some to =>
              (* may need to do coercion due to bitcasts *)
              let* result := deref result in
              let from := getWidth result in
              let result :=
                if negb (from =? to)%N then
                  if hasRetAttrSExt callerI then SExtExpr_create result to
                  else ZExtExpr_create result to
                else result in
              bindLocal kc sid result
          | None => ret tt
          end
        else
          (* We check that the return value has no users instead of
             checking the type, since C defaults to returning int for
             undeclared functions. *)
          when (negb (use_empty callerI))
            (terminateStateOnExecError sid
               "return void when caller expected a result")
    | _, _ => crash "null caller"
    end.

(** The arguments of a call: operands [1] to [numArgs]. *)
Fixpoint evalArguments (ki : KInstruction) (j numArgs : nat) (sid : nat)
    : M (list (option Expr)) :=
  match numArgs with
  | O => ret []
  | S n =>
      let* a := eval_operand ki (S j) sid in
      let* rest := evalArguments ki (S j) n sid in
      ret (a :: rest)
  end.

(** The coercion of the arguments of a call through a bitcast. *)
Fixpoint coerceArguments (callerI : Instruction) (params : list Width)
    (i : nat) (arguments : list (option Expr)) : M (list (option Expr)) :=
  match arguments with
  | [] => ret []
  | a :: rest =>
      let* a' :=
        match params !! i with
        | Some to =>
            let* e := deref a in
            if negb (getWidth e =? to)%N then
              if paramHasAttrSExt callerI i then ret (Some (SExtExpr_create e to))
              else ret (Some (ZExtExpr_create e to))
            else ret a
        | None => deref a;; ret a
        end in
      let* rest' := coerceArguments callerI params (S i) rest in
      ret (a' :: rest')
  end.

(** The loop of the indirect call: one callee value per round, until no
    free state is left. *)
Fixpoint resolveCallees (fuel : nat) (sid : nat) (ki : KInstruction) (v : Expr)
    (arguments : list (option Expr)) (free : nat) (hasInvalid first : bool) : M unit :=
  match fuel with
  | O => fun _ => OutOfFuel
  | S fuel' =>
      let v := optimizeExpr v true in
      let* fs := getState free in
      let* value := assertSuccess (getValue (constraints fs) v) in
      let* res := fork free (EqExpr_create v (constantOf value)) true in
      let continue hasInvalid :=
        match snd res with
        | Some free' => resolveCallees fuel' sid ki v arguments free' hasInvalid false
        | None => ret tt
        end in
      match fst res with
      | Some target =>
          let* s := getState sid in
          match WriteExploitCapability (addressSpace s) with
          | [] => ret tt
          | wec => aegHijack sid v wec
          end;;
          let addr := getZExtValue value in
          if negb (isConstant v) then
            terminateStateOnExecError sid "AEG: Find a possible exploit"
          else
            let* km := gets (fun ex => kmodule (config ex)) in
            if bool_decide (addr ∈ legalFunctions km) then
              executeCall target ki addr arguments;;
              continue hasInvalid
            else
              when (negb hasInvalid)
                (terminateStateOnExecError sid "invalid function pointer");;
              continue true
      | None => continue hasInvalid
      end
  end.

(** The [Call] and [Invoke] case of [Executor::executeInstruction]. *)
Definition executeCallInst (fuel : nat) (sid : nat) (ki : KInstruction) : M unit :=
  let i := inst ki in
  (* Ignore debug intrinsic calls *)
  if isDbgInfoIntrinsic i then ret tt
  else if isInlineAsm i then
    terminateStateOnExecError sid "inline assembly is unsupported"
  else
    (* evaluate arguments *)
    let* arguments := evalArguments ki 0 (argSize i) sid in
    match targetFunction i with
    | Some f =>
        (* special case the call with a bitcast case *)
        let* arguments :=
          match bitcastParams i with
          | Some params => coerceArguments i params 0 arguments
          | None => ret arguments
          end in
        executeCall sid ki f arguments
    | None =>
        let* v := eval_operand ki 0 sid in
        let* v := deref v in
        let* op := option_get "operand index out of range" (operands ki !! 0%nat) in
        let* s := getState sid in
        let* km := gets (fun ex => kmodule (config ex)) in
        let* sf := option_get "stack.back() of an empty stack" (head (stack s)) in
        (* the search for the instruction that defines the called value *)
        forEach (kfInstructions km (kf sf)) (fun k =>
          when (Z.of_nat (dest k) =? op)
            (let* base := eval_operand k 0 sid in
             deref base;;
             when (negb (numOperands (inst k) =? 1)%nat)
               (terminateStateOnExecError sid
                  "Error in handle indirect function call!
")));;
        resolveCallees fuel sid ki v arguments sid false true
    end.


End Engine.

(** * The state set, deallocation and the remaining handlers *)

(** [Config] with another value of [atMemoryLimit], the one engine flag
    that [checkMemoryUsage] writes. *)
Definition set_atMemoryLimit (v : bool) (cfg : Config) : Config :=
  {| kmodule := kmodule cfg; MaxForks := MaxForks cfg; MaxDepth := MaxDepth cfg;
     MaxMemoryInhibit := MaxMemoryInhibit cfg;
     OnlyReplaySeeds := OnlyReplaySeeds cfg; EmitAllErrors := EmitAllErrors cfg;
     OnlyOutputStatesCoveringNew := OnlyOutputStatesCoveringNew cfg;
     AlwaysOutputSeeds := AlwaysOutputSeeds cfg;
     ExitOnErrorType := ExitOnErrorType cfg;
     SimplifySymIndices := SimplifySymIndices cfg;
     MaxSymArraySize := MaxSymArraySize cfg;
     MakeConcreteSymbolic := MakeConcreteSymbolic cfg;
     replayPath := replayPath cfg; replayKTest := replayKTest cfg;
     pathWriter := pathWriter cfg; symPathWriter := symPathWriter cfg;
     atMemoryLimit := v; inhibitForking := inhibitForking cfg;
     maxStaticPctExceeded := maxStaticPctExceeded cfg;
     n_heap_l := n_heap_l cfg; n_heap_h := n_heap_h cfg;
     executeAlloc_isheap_default := executeAlloc_isheap_default cfg |}.

Definition set_config (v : Config) (ex : Executor) : Executor :=
  {| config := v;
     store := store ex;
     nextState := nextState ex;
     states := states ex;
     addedStates := addedStates ex;
     removedStates := removedStates ex;
     seedMap := seedMap ex;
     forks := forks ex;
     rng := rng ex;
     replayPosition := replayPosition ex;
     haltExecution := haltExecution ex;
     emittedErrors := emittedErrors ex;
     OnlySeed := OnlySeed ex;
     memory := memory ex;
     rrwsId := rrwsId ex;
     trace := trace ex |}.

Definition set_prevPC (v : KInstIterator) (s : ExecutionState) : ExecutionState :=
  {| pc := pc s; prevPC := v; stack := stack s;
     addressSpace := addressSpace s; constraints := constraints s;
     depth := depth s; forkDisabled := forkDisabled s;
     coveredNew := coveredNew s; incomingBBIndex := incomingBBIndex s;
     pathOS := pathOS s; symPathOS := symPathOS s |}.

(** [getDestCell(state, target).value = value] for a reference that may be
    null: the handlers that pass an operand on unchanged do not look at
    it. *)
Definition bindCell (target : KInstruction) (sid : nat) (value : option Expr) : M unit :=
  let* s := getState sid in
  match stack s with
  | [] => crash "stack.back() of an empty stack"
  | sf :: rest =>
      if (dest target <? length (locals sf))%nat
      then putState sid
             (set_stack (set_locals (<[dest target := value]> (locals sf)) sf :: rest) s)
      else crash "register index out of range"
  end.

(** What [executeCall] asks of an [llvm::Function] and of its
    [KFunction]. *)
Inductive IntrinsicID :=
| not_intrinsic | fabs | vastart | vaend | vacopy | otherIntrinsic.

Record Function := {
  isDeclaration : bool;
  getIntrinsicID : IntrinsicID;
  isVarArg : bool;
  arg_size : nat;
  (** the [KFunction] of a defined function: its identity, the position of
      its first instruction, the size of its register file and the register
      of each formal *)
  kfunction : nat;
  kfEntry : KInstIterator;
  numRegisters : nat;
  getArgRegister : nat -> nat
}.

(** Modelled from the spec: [ExecutionState::pushFrame] is in
    [ExecutionState.cpp], not among the sources; by section 3 a frame
    carries the caller, the function, the register file, the allocation
    list and the varargs object, and a call pushes one. *)
Definition pushFrame (caller : KInstIterator) (f : Function)
    (s : ExecutionState) : ExecutionState :=
  set_stack ({| caller := Some caller; kf := kfunction f;
                locals := replicate (numRegisters f) None;
                allocas := []; varargs := None |} :: stack s) s.

Definition set_varargs (v : option MemoryObject) (f : StackFrame) : StackFrame :=
  {| caller := caller f; kf := kf f; locals := locals f;
     allocas := allocas f; varargs := v |}.

(** [llvm::alignTo(value, align)] on [unsigned] operands. *)
Definition alignTo (value align : N) : N :=
  ((value + align - 1) / align * align)%N.

Definition wrap32 (n : N) : N := (n mod 2 ^ 32)%N.

(** The bytes one variadic argument of width [argWidth] takes in the
    varargs region, and the offset it is written at when the region is
    filled up to [offset]. *)
Definition varargBytes (WordSize argWidth : N) : N :=
  if (WordSize =? Int32)%N then getMinBytesForWidth argWidth
  else (alignTo argWidth WordSize / 8)%N.

Definition varargOffset (WordSize argWidth offset : N) : N :=
  if (WordSize =? Int32)%N then offset
  else if (Int64 <? argWidth)%N then wrap32 (alignTo offset 16) else offset.

(** The first loop over the variadic arguments in [executeCall]: the size
    of the region and whether it needs 16-byte alignment. *)
Fixpoint varargsSize (WordSize : N) (widths : list N) (size : N)
    (requires16ByteAlignment : bool) : N * bool :=
  match widths with
  | [] => (size, requires16ByteAlignment)
  | w :: rest =>
      varargsSize WordSize rest
        (wrap32 (varargOffset WordSize w size + varargBytes WordSize w))
        (requires16ByteAlignment
         || (negb (WordSize =? Int32)%N && (Int64 <? w)%N))
  end.

(** Modelled from the spec: [bits64::isPowerOfTwo] is in [Bits.h], not
    among the sources; section 4.2 has the alignment of an allocation be a
    power of two, which zero is not. *)
Definition isPowerOfTwo (x : N) : bool :=
  negb (x =? 0)%N && (N.land x (x - 1) =? 0)%N.

(** The kinds of allocation site that [getAllocationAlignment] tells
    apart, with what it reads from each: the declared alignment and the
    preferred alignment of the type, absent when the type has no size. *)
Inductive AllocSite :=
| GlobalSite (alignment : N) (prefTypeAlignment : option N)
| AllocaSite (alignment : N) (prefTypeAlignment : option N)
| CallSite
| OtherSite.

Module Alignment.

(** [Executor::getAllocationAlignment] *)
Definition getAllocationAlignment (allocSite : AllocSite) : option N :=
  let forcedAlignment := 8%N in
  let declared :=
    match allocSite with
    | GlobalSite a ty => Some (a, ty)
    | AllocaSite a ty => Some (a, ty)
    | CallSite => Some (forcedAlignment, None)
    | OtherSite => None
    end in
  match declared with
  | None => None
  | Some (alignment, ty) =>
      let alignment :=
        if (alignment =? 0)%N then default forcedAlignment ty else alignment in
      (* Currently we require alignment be a power of 2 *)
      let alignment :=
        if negb (isPowerOfTwo alignment) then forcedAlignment else alignment in
      if isPowerOfTwo alignment then Some alignment else None
  end.

End Alignment.

Section Handlers.

Context `{Solver} `{ExprOptimizer} `{ConstraintManager} `{MemoryModel}
        `{RNG} `{Seeding}.

(** The address of a state object, which orders the set of states. *)
Variable addressOf : nat -> Z.

(** [rand()] of the C library: a value between 0 and [RAND_MAX], and the
    next state of the generator. *)
Variable rand : N -> N * N.

(** The iteration order of a [std::set] of constants; the comparison of
    expressions is in [Expr.cpp]. *)
Variable setOfValues : list (Width * Z) -> list (Width * Z).

(** The functions of the module, by address. *)
Variable functionAt : Z -> option Function.

(** [Executor::callExternalFunction], which hands the call to the external
    dispatcher. *)
Variable callExternalFunction : nat -> KInstruction -> Z -> list (option Expr) -> M unit.

(** The bits of the absolute value of the float with the given bits;
    [None] when the width has no floating-point semantics. *)
Variable fabsBits : Width -> Z -> option Z.

(** The option [RuntimeMaxStackFrames]. *)
Variable RuntimeMaxStackFrames : N.

(** [new ObjectState(mo)], of [Memory.cpp]. *)
Variable newObjectState : MemoryObject -> ObjectState.

(** ** The set of states *)

(** [std::set::insert]: a state already in the set is not inserted again. *)
Fixpoint insertByAddress (x : nat) (l : list nat) : list nat :=
  match l with
  | [] => [x]
  | y :: rest =>
      if addressOf x <? addressOf y then x :: l else y :: insertByAddress x rest
  end.

Definition setInsert (x : nat) (l : list nat) : list nat :=
  if bool_decide (x ∈ l) then l else insertByAddress x l.

(** The body of the loop of [updateStates] over the removed states: the
    state leaves the set and the seed map, and is deleted. *)
Definition eraseState (es : nat) : M unit :=
  let* all := gets states in
  if bool_decide (es ∈ all) then
    modify (fun ex => set_states (remove_first es (states ex)) ex);;
    modify (fun ex => set_seedMap (delete es (seedMap ex)) ex);;
    modify (fun ex => set_store (delete es (store ex)) ex)
  else crash "assert(it2!=states.end())".

(** [Executor::updateStates].  The searcher keeps its own record of the
    states and is not part of the embedding. *)
Definition updateStates : M unit :=
  modify (fun ex =>
    set_states (fold_left (fun l x => setInsert x l) (addedStates ex) (states ex)) ex);;
  modify (fun ex => set_addedStates [] ex);;
  let* removed := gets removedStates in
  forEach removed eraseState;;
  modify (fun ex => set_removedStates [] ex).

(** [Executor::doDumpStates]; the option [DumpStatesOnHalt] is an
    argument. *)
Definition doDumpStates (DumpStatesOnHalt : bool) : M unit :=
  let* all := gets states in
  if negb DumpStatesOnHalt || bool_decide (all = []) then ret tt
  else
    forEach all (fun state => terminateStateEarly state "Execution halting.");;
    updateStates.

Definition nextRand : M N := fun ex =>
  let '(v, g) := rand (rng ex) in Ok v (set_rng g ex).

(** The loop of [checkMemoryUsage] over the vector [arr] of the states:
    round [i] draws a state among the first [N], moves it to position
    [N - 1] and terminates it. *)
Fixpoint killStates (toKill : nat) (arr : list nat) (N : nat) : M unit :=
  match toKill with
  | O => ret tt
  | S toKill' =>
      if (N =? 0)%nat then ret tt
      else
        let* r := nextRand in
        let idx := (N.to_nat r mod N)%nat in
        (* Make two pulls to try and not hit a state that covered new code. *)
        let* es := option_get "index out of range" (arr !! idx) in
        let* s := getState es in
        let* idx :=
          if coveredNew s
          then let* r := nextRand in ret (N.to_nat r mod N)%nat
          else ret idx in
        let* a := option_get "index out of range" (arr !! idx) in
        let* b := option_get "index out of range" (arr !! (N - 1)%nat) in
        let arr := <[(N - 1)%nat := a]> (<[idx := b]> arr) in
        terminateStateEarly a "Memory limit exceeded.";;
        killStates toKill' arr (N - 1)
  end.

(** The number of states [checkMemoryUsage] sets out to kill, in
    [unsigned] arithmetic. *)
Definition statesToKill (numStates MaxMemory mbs : N) : N :=
  N.max 1 (wrap32 (numStates + 2 ^ 32 - wrap32 (numStates * MaxMemory) / mbs)).

(** [Executor::checkMemoryUsage]; the option [MaxMemory], the instruction
    count and the memory in use, in megabytes, are arguments. *)
Definition checkMemoryUsage (MaxMemory instructions mbs : N) : M unit :=
  if (MaxMemory =? 0)%N then ret tt
  else if (N.land instructions 65535 =? 0)%N then
    if (MaxMemory <? mbs)%N then
      when (wrap32 (MaxMemory + 100) <? mbs)%N
        ((* just guess at how many to kill *)
         let* arr := gets states in
         let numStates := wrap32 (N.of_nat (length arr)) in
         let toKill := statesToKill numStates MaxMemory mbs in
         killStates (N.to_nat toKill) arr (N.to_nat numStates));;
      modify (fun ex => set_config (set_atMemoryLimit true (config ex)) ex)
    else
      modify (fun ex => set_config (set_atMemoryLimit false (config ex)) ex)
  else ret tt.

(** ** Values and deallocation *)

(** The values the seeds of a state give to an expression. *)
Fixpoint seedValues (cs : list Expr) (e : Expr) (seeds : list SeedInfo)
    : M (list (Width * Z)) :=
  match seeds with
  | [] => ret []
  | seed :: rest =>
      let cond := optimizeExpr (seedEvaluate seed e) true in
      let* value := assertSuccess (getValue cs cond) in
      let* values := seedValues cs e rest in
      ret (value :: values)
  end.

Fixpoint bindResults (target : KInstruction) (branches : list (option nat))
    (values : list (Width * Z)) : M unit :=
  match values with
  | [] => ret tt
  | v :: vs =>
      let* es := option_get "index out of range" (head branches) in
      match es with
      | Some es => bindLocal target es (constantOf v)
      | None => ret tt
      end;;
      bindResults target (tail branches) vs
  end.

(** [Executor::executeGetValue] *)
Definition executeGetValue (sid : nat) (e : Expr) (target : KInstruction) : M unit :=
  let* s := getState sid in
  let e := simplifyExpr (constraints s) e in
  let* seeds := gets (fun ex => seedMap ex !! sid) in
  match (if isConstant e then None else seeds) with
  | None =>
      let e := optimizeExpr e true in
      let* value := assertSuccess (getValue (constraints s) e) in
      bindLocal target sid (constantOf value)
  | Some l =>
      let* values := seedValues (constraints s) e l in
      let values := setOfValues values in
      let conditions := map (fun v => EqExpr_create e (constantOf v)) values in
      let* branches := branch sid conditions in
      bindResults target branches values
  end.

(** The loop of [resolveExact]: one fork per candidate object, on the
    pointer being the base of the object. *)
Fixpoint resolveExactLoop (pw : Width) (p : Expr) (rl : list ObjectPair)
    (unbound : nat) (results : list (ObjectPair * nat))
    : M (list (ObjectPair * nat) * option nat) :=
  match rl with
  | [] => ret (results, Some unbound)
  | op :: rest =>
      let inBounds := EqExpr_create p (getBaseExpr pw (fst op)) in
      let* branches := fork unbound inBounds true in
      let results :=
        match fst branches with
        | Some bound => results ++ [(op, bound)]
        | None => results
        end in
      match snd branches with
      | Some u => resolveExactLoop pw p rest u results
      | None => (* Fork failure *) ret (results, None)
      end
  end.

(** [Executor::resolveExact] *)
Definition resolveExact (sid : nat) (p : Expr) (name : string)
    : M (list (ObjectPair * nat)) :=
  let p := optimizeExpr p true in
  let* s := getState sid in
  let* pw := gets (fun ex => pointerWidth (kmodule (config ex))) in
  let rl := fst (resolve (addressSpace s) (constraints s) p) in
  let* '(results, unbound) := resolveExactLoop pw p rl sid [] in
  match unbound with
  | Some u =>
      let* info := getAddressInfo u p in
      terminateStateOnError u ("memory error: invalid pointer: " +:+ name)
        Ptr None info
  | None => ret tt
  end;;
  ret results.

(** [Executor::executeFree].  The request that releases the block in the
    native heap acts on the helper process and on its record of
    allocations, which are not part of the embedding. *)
Definition executeFree (sid : nat) (address : Expr)
    (target : option KInstruction) : M unit :=
  let address := optimizeExpr address true in
  let* pw := gets (fun ex => pointerWidth (kmodule (config ex))) in
  let bindNull es :=
    match target with
    | Some t => bindLocal t es (ConstantExpr pw 0)
    | None => ret tt
    end in
  let* zeroPointer := fork sid (createIsZero address) true in
  match fst zeroPointer with
  | Some z => bindNull z
  | None => ret tt
  end;;
  match snd zeroPointer with
  | Some nz =>
      (* address != 0 *)
      let* rl := resolveExact nz address "free" in
      forEach rl (fun r =>
        let mo := fst (fst r) in
        let es := snd r in
        if isLocal mo then
          let* info := getAddressInfo es address in
          terminateStateOnError es "free of alloca" Free None info
        else if isGlobal mo then
          let* info := getAddressInfo es address in
          terminateStateOnError es "free of global" Free None info
        else
          updState es (fun s =>
            set_addressSpace (unbindObject mo (addressSpace s)) s);;
          bindNull es)
  | None => ret tt
  end.

(** ** More cases of [executeInstruction] *)

(** The [Br] case; whether the branch is unconditional, and its
    successors, are arguments. *)
Definition executeBr (sid : nat) (ki : KInstruction) (isUnconditional : bool)
    (successor0 successor1 : nat) : M unit :=
  let src := parent (inst ki) in
  if isUnconditional then transferToBasicBlock successor0 src sid
  else
    let* cond := eval_operand ki 0 sid in
    let* cond := deref cond in
    let cond := optimizeExpr cond false in
    let* branches := fork sid cond false in
    match fst branches with
    | Some t => transferToBasicBlock successor0 src t
    | None => ret tt
    end;;
    match snd branches with
    | Some f => transferToBasicBlock successor1 src f
    | None => ret tt
    end.

(** The [PHI] case; the index recorded by [transferToBasicBlock] is read
    as an [unsigned]. *)
Definition executePHI (sid : nat) (ki : KInstruction) : M unit :=
  let* s := getState sid in
  let* result := eval_operand ki (Z.to_nat (incomingBBIndex s mod 2 ^ 32)) sid in
  bindCell ki sid result.

(** The [Load] case; the value of a read is a null reference. *)
Definition executeLoad (sid : nat) (ki : KInstruction) : M unit :=
  let* base := eval_operand ki 0 sid in
  let* base := deref base in
  executeMemoryOperation sid false base (ConstantExpr 0%N 0) ki.

(** ** Calls *)

(** [Executor::bindArgument]: the cell of formal [index] in the innermost
    frame. *)
Definition bindArgument (f : Function) (index : nat) (sid : nat)
    (value : option Expr) : M unit :=
  let* s := getState sid in
  match stack s with
  | [] => crash "stack.back() of an empty stack"
  | sf :: rest =>
      if (getArgRegister f index <? length (locals sf))%nat
      then putState sid
             (set_stack
                (set_locals (<[getArgRegister f index := value]> (locals sf)) sf
                 :: rest) s)
      else crash "register index out of range"
  end.

Fixpoint bindArguments (f : Function) (i numFormals : nat) (sid : nat)
    (arguments : list (option Expr)) : M unit :=
  match numFormals with
  | O => ret tt
  | S n =>
      let* a := option_get "argument index out of range" (arguments !! i) in
      bindArgument f i sid a;;
      bindArguments f (S i) n sid arguments
  end.

Fixpoint derefAll (l : list (option Expr)) : M (list Expr) :=
  match l with
  | [] => ret []
  | a :: rest =>
      let* e := deref a in
      let* es := derefAll rest in
      ret (e :: es)
  end.

(** The second loop over the variadic arguments: each is written at its
    offset. *)
Fixpoint writeVarargs (WordSize : N) (args : list Expr) (offset : N)
    (os : ObjectState) : M ObjectState :=
  match args with
  | [] => ret os
  | a :: rest =>
      if negb (WordSize =? Int32)%N && negb (WordSize =? Int64)%N
      then crash "Unknown word size!"
      else
        let o := varargOffset WordSize (getWidth a) offset in
        writeVarargs WordSize rest
          (wrap32 (o + varargBytes WordSize (getWidth a)))
          (os_write os (ConstantExpr Int32 (Z.of_N o)) a)
  end.

(** [Executor::bindObjectInState] as [executeCall] uses it, with the
    object state the constructor makes. *)
Definition bindNewObject (sid : nat) (mo : MemoryObject) (isLocal : bool)
    : M ObjectState :=
  let os := newObjectState mo in
  updState sid (fun s => set_addressSpace (bindObject mo os (addressSpace s)) s);;
  when isLocal
    (let* s := getState sid in
     match stack s with
     | [] => crash "stack.back() of an empty stack"
     | sf :: rest =>
         putState sid (set_stack (set_allocas (allocas sf ++ [mo]) sf :: rest) s)
     end);;
  ret os.

(** The [va_start] intrinsic.  The target of a write is a null
    pointer, which the model replaces by the call itself. *)
Definition executeVAStart (sid : nat) (ki : KInstruction)
    (arguments : list (option Expr)) (va : MemoryObject) : M unit :=
  let* WordSize := gets (fun ex => pointerWidth (kmodule (config ex))) in
  let* arg0 := option_get "argument index out of range" (arguments !! 0%nat) in
  let* arg0 := deref arg0 in
  if (WordSize =? Int32)%N then
    executeMemoryOperation sid true arg0 (getBaseExpr WordSize va) ki
  else if negb (WordSize =? Int64)%N then crash "Unknown word size!"
  else
    (* gp_offset *)
    executeMemoryOperation sid true arg0 (ConstantExpr 32 48) ki;;
    (* fp_offset *)
    executeMemoryOperation sid true
      (AddExpr_create arg0 (ConstantExpr 64 4)) (ConstantExpr 32 304) ki;;
    (* overflow_arg_area *)
    executeMemoryOperation sid true
      (AddExpr_create arg0 (ConstantExpr 64 8)) (getBaseExpr WordSize va) ki;;
    (* reg_save_area *)
    executeMemoryOperation sid true
      (AddExpr_create arg0 (ConstantExpr 64 16)) (ConstantExpr 64 0) ki.

(** The varargs region of a call of a variadic function. *)
Definition setupVarargs (sid : nat) (f : Function)
    (arguments : list (option Expr)) (continue : M unit) : M unit :=
  let* WordSize := gets (fun ex => pointerWidth (kmodule (config ex))) in
  let* args := derefAll (drop (arg_size f) arguments) in
  let '(size, requires16ByteAlignment) :=
    varargsSize WordSize (map getWidth args) 0 false in
  let* mem := gets memory in
  let* s := getState sid in
  let mo := allocate mem size true false (prevPC s)
              (if requires16ByteAlignment then 16 else 8)%N in
  match stack s with
  | [] => crash "stack.back() of an empty stack"
  | sf :: rest => putState sid (set_stack (set_varargs mo sf :: rest) s)
  end;;
  match mo with
  | None =>
      if negb (size =? 0)%N
      then terminateStateOnExecError sid "out of memory (varargs)"
      else continue
  | Some mo =>
      modify (fun ex => set_memory (memory ex ++ [mo]) ex);;
      let* os := bindNewObject sid mo true in
      let* os' := writeVarargs WordSize args 0 os in
      updState sid (fun s =>
        set_addressSpace (rebindObject mo os' (addressSpace s)) s);;
      continue
  end.

(** [Executor::executeCall] *)
Definition executeCall (sid : nat) (ki : KInstruction) (fa : Z)
    (arguments : list (option Expr)) : M unit :=
  let i := inst ki in
  if isDbgInfoIntrinsic i then ret tt
  else
    let* f := option_get "call of a null function" (functionAt fa) in
    if isDeclaration f then
      let resume :=
        match opcode i with
        | Invoke => transferToBasicBlock (normalDest i) (parent i) sid
        | _ => ret tt
        end in
      match getIntrinsicID f with
      | not_intrinsic =>
          (* state may be destroyed by this call, cannot touch *)
          callExternalFunction sid ki fa arguments;;
          resume
      | fabs =>
          let* v := eval_operand ki 0 sid in
          let* v := deref v in
          let* arg := toConstant sid v "floating point" in
          match fabsBits (fst arg) (snd arg) with
          | None =>
              terminateStateOnExecError sid "Unsupported intrinsic llvm.fabs call"
          | Some bits => bindLocal ki sid (ConstantExpr (fst arg) bits);; resume
          end
      | vastart =>
          let* s := getState sid in
          let* sf := option_get "stack.back() of an empty stack" (head (stack s)) in
          (* varargs can be zero if no varargs were provided *)
          match varargs sf with
          | None => ret tt
          | Some va => executeVAStart sid ki arguments va;; resume
          end
      | vaend =>
          (* va_end is a noop for the interpreter. *)
          resume
      | vacopy | otherIntrinsic => crash "unknown intrinsic"
      end
    else
      (* Check if maximum stack size was reached. *)
      let* s := getState sid in
      if negb (RuntimeMaxStackFrames =? 0)%N
         && (RuntimeMaxStackFrames <? N.of_nat (length (stack s)))%N
      then terminateStateEarly sid "Maximum stack size reached."
      else
        putState sid (set_pc (kfEntry f) (pushFrame (prevPC s) f s));;
        let callingArgs := length arguments in
        let funcArgs := arg_size f in
        let bindFormals := bindArguments f 0 funcArgs sid arguments in
        if (callingArgs <? funcArgs)%nat then
          terminateStateOnError sid "calling function with too few arguments"
            User None ""
        else if negb (isVarArg f) then bindFormals
        else setupVarargs sid f arguments bindFormals.

(** ** The step and the [Store] case *)

(** [Executor::stepInstruction], which [run] calls before each
    instruction; the number of instructions executed so far,
    [stats::instructions], and the option [MaxInstructions] are arguments.
    The counter [steppedInstructions] of the state, which the modelled
    code never reads, is left out, as are the debug print and the
    statistics tracker. *)
Definition stepInstruction (MaxInstructions instructions : N) (sid : nat) : M unit :=
  updState sid (fun s => set_pc (S (pc s)) (set_prevPC (pc s) s));;
  when ((instructions + 1) mod 2 ^ 64 =? MaxInstructions)%N
    (modify (fun ex => set_haltExecution true ex)).

(** The body of the loop of [Executor::run] for the state that the
    searcher selected, up to the instruction: the instruction at the
    program counter is fetched, the step is taken and the instruction is
    executed.  [executeInstruction], a switch over the cases that are
    modelled one by one, is the argument [execute]; [executed] is the
    number of instructions executed so far.  What follows the instruction
    in the loop is not part of it: [checkMemoryUsage] and [updateStates]
    are modelled on their own, the timers not at all. *)
Definition runStep (MaxInstructions executed : N) (sid : nat)
    (execute : nat -> KInstruction -> M unit) : M unit :=
  let* s := getState sid in
  let* km := gets (fun ex => kmodule (config ex)) in
  let* ki := option_get "program counter outside the module"
               (instructions km !! pc s) in
  stepInstruction MaxInstructions executed sid;;
  execute sid ki.

(** The order of expressions, of [Expr.cpp], that the map of the
    capabilities follows. *)
Variable exprBefore : Expr -> Expr -> bool.

(** [std::map::insert]: a capability is inserted at its place, unless one
    is recorded for the same address already. *)
Fixpoint insertCapability (p : Expr * option Expr)
    (l : list (Expr * option Expr)) : list (Expr * option Expr) :=
  match l with
  | [] => [p]
  | q :: rest =>
      if exprBefore (fst p) (fst q) then p :: l
      else if exprBefore (fst q) (fst p) then q :: insertCapability p rest
      else l
  end.

Definition recordCapability (base : Expr) (value : option Expr)
    (sp : AddressSpace) : AddressSpace :=
  {| objects := objects sp;
     WriteExploitCapability :=
       insertCapability (base, value) (WriteExploitCapability sp) |}.

(** The loop of the [Store] case over the globals of pointer type, run
    once a capability is recorded: it makes the function pointers of the
    module symbolic and lists them in tables that are static to the
    handler. *)
Variable symbolizeFunctionPointers : nat -> M unit.

(** The [Store] case on a base that is a constant: the bookkeeping of the
    stores to function pointers, which reads the symbol table of a binary
    on disk, and the memory operation. *)
Variable storeThroughConstant : nat -> KInstruction -> Expr -> option Expr -> M unit.

(** The [Store] case.  On a base that is not a constant the store is
    recorded and not performed. *)
Definition executeStore (sid : nat) (ki : KInstruction) : M unit :=
  let* base := eval_operand ki 1 sid in
  let* value := eval_operand ki 0 sid in
  let* base := deref base in
  if negb (isConstant base) then
    updState sid (fun s =>
      set_addressSpace (recordCapability base value (addressSpace s)) s);;
    symbolizeFunctionPointers sid
  else storeThroughConstant sid ki base value.

End Handlers.

(** * What a run is observed to do

    The vocabulary of the properties below: what it is for a state to be
    retired, for a run to leave the data of the states alone, and the
    values the handlers are expected to produce. *)

(** A state is retired once it is queued for removal or deleted. *)
Definition retired (ex : Executor) (sid : nat) : Prop :=
  sid ∈ removedStates ex \/ store ex !! sid = None.

(** The data of a state that memory operations and register bindings act
    on. *)
Definition sameData (s s' : ExecutionState) : Prop :=
  addressSpace s' = addressSpace s /\ stack s' = stack s
  /\ constraints s' = constraints s.

(** Every state of [ex'] is a state of [ex], with the same memory,
    registers and constraints. *)
Definition dataPreserved (ex ex' : Executor) : Prop :=
  forall id s', store ex' !! id = Some s' ->
    exists s, store ex !! id = Some s /\ sameData s s'.

(** The effect, on the engine, of terminating state [sid] in the way
    [how]: the call is recorded in the trace, the state is retired, and no
    other state is touched. *)
Definition terminates (ex ex' : Executor) (sid : nat) (how : Termination) : Prop :=
  config ex' = config ex
  /\ nextState ex' = nextState ex
  /\ (exists report, trace ex' = trace ex ++ Terminated sid how :: report)
  /\ retired ex' sid
  /\ (forall id, id <> sid -> store ex' !! id = store ex !! id)
  /\ (forall id, id ∈ removedStates ex -> id ∈ removedStates ex')
  /\ dataPreserved ex ex'.

(** Two engines that agree on what termination acts on. *)
Definition sameCore (ex ex' : Executor) : Prop :=
  config ex' = config ex /\ nextState ex' = nextState ex
  /\ store ex' = store ex /\ removedStates ex' = removedStates ex.

(** Engines that differ only in the store and in the seeds. *)
Definition sameButStore (ex ex' : Executor) : Prop :=
  config ex' = config ex /\ nextState ex' = nextState ex
  /\ trace ex' = trace ex /\ addedStates ex' = addedStates ex
  /\ removedStates ex' = removedStates ex /\ forks ex' = forks ex
  /\ rng ex' = rng ex /\ states ex' = states ex.

(** The state [s] with [value] bound to register [d] of its innermost
    frame [sf]. *)
Definition withLocal (d : nat) (value : Expr) (sf : StackFrame)
    (rest : list StackFrame) (s : ExecutionState) : ExecutionState :=
  set_stack (set_locals (<[d := Some value]> (locals sf)) sf :: rest) s.

(** Engines that differ only in the store. *)
Definition sameOutside (ex ex' : Executor) : Prop :=
  config ex' = config ex /\ trace ex' = trace ex
  /\ removedStates ex' = removedStates ex /\ addedStates ex' = addedStates ex.

(** The value a caller receives: the returned expression, extended to the
    width of the call when the widths differ. *)
Definition coerceReturn (isSExt : bool) (result : Expr) (to : Width) : Expr :=
  if negb (getWidth result =? to)%N then
    if isSExt then SExtExpr_create result to else ZExtExpr_create result to
  else result.

(** The single branch [fork] takes without forking: [bit] tells which. *)
Definition takenBranch (bit : bool) (current : nat) : StatePair :=
  if bit then (Some current, None) else (None, Some current).

Definition takenCondition (bit : bool) (c : Expr) : Expr :=
  if bit then c else createIsZero c.

(** The result vector of [branch] when the budget is exhausted: the state
    at position [next], nothing elsewhere. *)
Definition singleResult (sid next n : nat) (k : nat) : list (option nat) :=
  map (fun i => if (i =? next)%nat then Some sid else None) (seq k n).

Definition accessWidth (isWrite : bool) (value : Expr) (target : KInstruction) : Width :=
  if isWrite then getWidth value else getWidthForLLVMType (inst target).

Definition outOfBoundMessage : string :=
  "++++++++++++++++++memory error: out of bound pointer".

(** The number whose [n] bytes are all [b]. *)
Fixpoint repeatedByte (b : Z) (n : nat) : Z :=
  match n with
  | O => 0
  | S n' => b * 2 ^ (8 * Z.of_nat n') + repeatedByte b n'
  end.

Section StoredValue.

Context `{ConstraintManager}.

(** The value a store writes, after the optional simplification under the
    constraints of the state. *)
Definition storedValue (ex : Executor) (s : ExecutionState)
    (isWrite : bool) (value : Expr) : Expr :=
  if SimplifySymIndices (config ex) && isWrite && negb (isConstant value)
  then simplifyExpr (constraints s) value else value.

End StoredValue.

(** * What the remaining handlers are observed to do *)

(** The fields of the engine that the sweep of [updateStates] leaves
    alone. *)
Definition sameRun (ex ex' : Executor) : Prop :=
  config ex' = config ex /\ trace ex' = trace ex /\ nextState ex' = nextState ex
  /\ addedStates ex' = addedStates ex /\ removedStates ex' = removedStates ex
  /\ forks ex' = forks ex /\ rng ex' = rng ex
  /\ haltExecution ex' = haltExecution ex
  /\ emittedErrors ex' = emittedErrors ex.

(** Whether the termination of state [sid], early or on exit, outputs a
    test case. *)
Definition outputs (ex : Executor) (sid : nat) (s : ExecutionState) : bool :=
  negb (OnlyOutputStatesCoveringNew (config ex))
  || coveredNew s
  || (AlwaysOutputSeeds (config ex) && bool_decide (is_Some (seedMap ex !! sid))).

(** The engine with more events in its trace. *)
Definition logged (events : list Event) (ex : Executor) : Executor :=
  set_trace (trace ex ++ events) ex.

(** The engine once state [sid], whose content is [s], is queued for
    removal. *)
Definition queued (sid : nat) (s : ExecutionState) (ex : Executor) : Executor :=
  set_removedStates (removedStates ex ++ [sid])
    (set_store (<[sid := set_pc (prevPC s) s]> (store ex)) ex).

(** The events of an early termination. *)
Definition earlyEvents (ex : Executor) (sid : nat) (s : ExecutionState)
    (message : string) : list Event :=
  Terminated sid (Early message)
  :: (if outputs ex sid s
      then [TestCase sid (Some (message +:+ "
")) (Some "early")]
      else []).

(** The test case of an error, unless the same error was reported before
    at the same instruction. *)
Definition errorEvents (ex : Executor) (sid : nat) (i : KInstIterator)
    (message : string) (r : TerminateReason) (suffix : option string) : list Event :=
  Terminated sid (OnError message r)
  :: (if EmitAllErrors (config ex) || negb (bool_decide ((i, message) ∈ emittedErrors ex))
      then [TestCase sid (Some message)
              (Some (default (TerminateReasonNames r +:+ ".err") suffix))]
      else []).

Definition errorRecorded (ex : Executor) (i : KInstIterator) (message : string)
    : list (KInstIterator * string) :=
  if EmitAllErrors (config ex) || bool_decide ((i, message) ∈ emittedErrors ex)
  then emittedErrors ex
  else (i, message) :: emittedErrors ex.

(** The engine after state [sid] is terminated with an error reported at
    instruction [i]. *)
Definition failed (sid : nat) (s : ExecutionState) (i : KInstIterator)
    (message : string) (r : TerminateReason) (suffix : option string)
    (ex : Executor) : Executor :=
  let ex1 := queued sid s
               (set_emittedErrors (errorRecorded ex i message)
                  (logged (errorEvents ex sid i message r suffix) ex)) in
  if shouldExitOn (config ex) r then set_haltExecution true ex1 else ex1.

Definition memoryLimitMessage : string := "Memory limit exceeded.".

(** The two states of an undecided fork of a state [s]: the depth counts
    the fork, the new state has not covered new code, and each carries its
    side of the condition. *)
Definition trueBranch (c : Expr) (s : ExecutionState) : ExecutionState :=
  state_addConstraint c (set_depth ((depth s + 1) mod 2 ^ 32)%N s).

Definition falseBranch (c : Expr) (s : ExecutionState) : ExecutionState :=
  state_addConstraint (createIsZero c)
    (set_coveredNew false (set_depth ((depth s + 1) mod 2 ^ 32)%N s)).

(** The engine after an undecided fork of state [current]: the new state
    takes the next identity and waits among the added states. *)
Definition forked (current : nat) (s : ExecutionState) (c : Expr)
    (ex : Executor) : Executor :=
  set_store (<[nextState ex := falseBranch c s]>
               (<[current := trueBranch c s]> (store ex)))
    (set_addedStates (addedStates ex ++ [nextState ex])
       (set_nextState (S (nextState ex))
          (set_forks ((forks ex + 1) mod 2 ^ 64)%N ex))).

(** Whether the validity the solver finds agrees with a recorded branch;
    an undecided condition agrees with both. *)
Definition agrees (res : Validity) (br : bool) : bool :=
  match res with
  | VTrue => br
  | VFalse => negb br
  | VUnknown => true
  end.

(** The engine after a fork that replays the recorded branch [br]: the
    position in the path advances, and the side taken is added to the
    constraints when the solver had not decided the condition. *)
Definition replayed (current : nat) (s : ExecutionState) (c : Expr)
    (res : Validity) (br : bool) (ex : Executor) : Executor :=
  let ex1 := set_replayPosition (S (replayPosition ex)) ex in
  match res with
  | VUnknown =>
      set_store (<[current := state_addConstraint (takenCondition br c) s]> (store ex)) ex1
  | _ => ex1
  end.

(** The engine after a state that never reached the searcher is
    terminated: it is deleted at once. *)
Definition deleted (sid : nat) (ex : Executor) : Executor :=
  set_store (delete sid (store ex))
    (set_addedStates (remove_first sid (addedStates ex))
       (set_seedMap (delete sid (seedMap ex)) ex)).

(** The engine once state [sid], whose content is [s], is terminated:
    queued for removal when the searcher knows the state, deleted at once
    when it is still among the added states. *)
Definition terminated (sid : nat) (s : ExecutionState) (ex : Executor) : Executor :=
  if bool_decide (sid ∈ addedStates ex) then deleted sid ex else queued sid s ex.

(** The engine after state [sid] is terminated with an error reported at
    instruction [i], whether the searcher knows the state or not. *)
Definition reported (sid : nat) (s : ExecutionState) (i : KInstIterator)
    (message : string) (r : TerminateReason) (suffix : option string)
    (ex : Executor) : Executor :=
  let ex1 := terminated sid s
               (set_emittedErrors (errorRecorded ex i message)
                  (logged (errorEvents ex sid i message r suffix) ex)) in
  if shouldExitOn (config ex) r then set_haltExecution true ex1 else ex1.

(** The events of a termination on exit, and the engine after it. *)
Definition exitEvents (ex : Executor) (sid : nat) (s : ExecutionState) : list Event :=
  Terminated sid OnExit
  :: (if outputs ex sid s then [TestCase sid None None] else []).

Definition exited (sid : nat) (s : ExecutionState) (ex : Executor) : Executor :=
  terminated sid s (logged (exitEvents ex sid s) ex).

(** The state [s] after a successful allocation: the object is bound with
    its fresh content, listed among the allocas of the innermost frame
    [sf] when it is local, and its base address is in register [d]. *)
Definition allocated (mo : MemoryObject) (os : ObjectState) (isLocal : bool)
    (d : nat) (pw : Width) (sf : StackFrame) (rest : list StackFrame)
    (s : ExecutionState) : ExecutionState :=
  withLocal d (getBaseExpr pw mo)
    (if isLocal then set_allocas (allocas sf ++ [mo]) sf else sf) rest
    (set_addressSpace (bindObject mo os (addressSpace s)) s).

(** The state [s] with the null pointer in the register of [target], when
    there is one. *)
Definition withNull (target : option KInstruction) (pw : Width)
    (sf : StackFrame) (rest : list StackFrame) (s : ExecutionState)
    : ExecutionState :=
  match target with
  | Some t => withLocal (dest t) (ConstantExpr pw 0) sf rest s
  | None => s
  end.

(** The engine after [update] is applied to state [sid], whose content is
    [s]. *)
Definition updated (sid : nat) (s : ExecutionState) (ex : Executor) : Executor :=
  set_store (<[sid := s]> (store ex)) ex.

(** The state [s] once object [mo] is unbound. *)
Definition released (mo : MemoryObject) (s : ExecutionState) : ExecutionState :=
  set_addressSpace (unbindObject mo (addressSpace s)) s.

(** The state [s], in the function of frame [sf], once control has moved
    from block [src] to block [dst]. *)
Definition arrived (km : KModule) (dst src : nat) (sf : StackFrame)
    (s : ExecutionState) : ExecutionState :=
  let entry := basicBlockEntry km (kf sf) dst in
  match instructions km !! entry with
  | Some first =>
      match opcode (inst first) with
      | PHI => set_incomingBBIndex (indexOf src (incomingBlocks (inst first)))
                 (set_pc entry s)
      | _ => set_pc entry s
      end
  | None => s
  end.

(** The state [s] with the content [value] in register [d] of its
    innermost frame [sf]. *)
Definition withCell (d : nat) (value : option Expr) (sf : StackFrame)
    (rest : list StackFrame) (s : ExecutionState) : ExecutionState :=
  set_stack (set_locals (<[d := value]> (locals sf)) sf :: rest) s.

(** The register file of a callee once the formals [i], ..., [i + n - 1]
    are bound to the arguments. *)
Fixpoint boundLocals (f : Function) (i n : nat) (arguments : list (option Expr))
    (regs : list (option Expr)) : list (option Expr) :=
  match n with
  | O => regs
  | S n' =>
      boundLocals f (S i) n' arguments
        (<[getArgRegister f i := default None (arguments !! i)]> regs)
  end.

(** The state [s] at the entry of [f], called with [arguments]. *)
Definition called (f : Function) (arguments : list (option Expr))
    (s : ExecutionState) : ExecutionState :=
  set_stack ({| caller := Some (prevPC s); kf := kfunction f;
                locals := boundLocals f 0 (arg_size f) arguments
                            (replicate (numRegisters f) None);
                allocas := []; varargs := None |} :: stack s)
    (set_pc (kfEntry f) s).

(** The offsets at which the variadic arguments of the given widths are
    written, in a region filled up to [offset]. *)
Fixpoint varargsOffsets (WordSize : N) (widths : list N) (offset : N) : list N :=
  match widths with
  | [] => []
  | w :: rest =>
      varargOffset WordSize w offset
      :: varargsOffsets WordSize rest
           (wrap32 (varargOffset WordSize w offset + varargBytes WordSize w))
  end.

(** A bound on the size of the region: the bytes of each argument and the
    padding that may precede it. *)
Fixpoint varargsExtent (WordSize : N) (widths : list N) : N :=
  match widths with
  | [] => 0
  | w :: rest => (15 + varargBytes WordSize w + varargsExtent WordSize rest)%N
  end.

Section Written.

Context `{MemoryModel}.

(** The content of an object after the values are written at the
    offsets they are paired with. *)
Definition written (os : ObjectState) (l : list (N * Expr)) : ObjectState :=
  fold_left (fun os p => os_write os (ConstantExpr Int32 (Z.of_N (fst p))) (snd p))
    l os.

End Written.

(** * A concrete engine

    A small world in which the executor can be run: a solver that decides
    queries over one symbolic byte by enumeration, an optimizer and a
    simplifier that change nothing, a flat memory, a linear congruential
    generator, and seeds that give every symbolic byte a value. *)

Module Scenario.

(** Every read denotes the same byte [b]. *)
Definition byteAssignment (b : Z) : Assignment := fun _ _ => b.

Definition candidates : list Z := map Z.of_nat (seq 0 256).

Definition holds (e : Expr) (b : Z) : bool := eval (byteAssignment b) e =? 1.
Definition fails (e : Expr) (b : Z) : bool := eval (byteAssignment b) e =? 0.

Definition models (cs : list Expr) : list Z :=
  List.filter (fun b => forallb (fun c => holds c b) cs) candidates.

Definition byteSolver : Solver := {|
  evaluate cs e :=
    Some (if forallb (holds e) (models cs) then VTrue
          else if forallb (fails e) (models cs) then VFalse
          else VUnknown);
  getValue cs e :=
    match models cs with
    | b :: _ => Some (getWidth e, eval (byteAssignment b) e)
    | [] => None
    end;
  mustBeTrue cs e := Some (forallb (holds e) (models cs));
  mustBeFalse cs e := Some (forallb (fails e) (models cs));
  mayBeTrue cs e := Some (existsb (holds e) (models cs))
|}.

(** A solver whose every query times out. *)
Definition failingSolver : Solver := {|
  evaluate _ _ := None;
  getValue _ _ := None;
  mustBeTrue _ _ := None;
  mustBeFalse _ _ := None;
  mayBeTrue _ _ := None
|}.

Definition idOptimizer : ExprOptimizer := {| optimizeExpr e _ := e |}.

Definition idSimplifier : ConstraintManager := {| simplifyExpr _ e := e |}.

Definition contains (a : Z) (p : ObjectPair) : bool :=
  (address (fst p) <=? a) && (a <? address (fst p) + Z.of_N (size (fst p))).

Definition findObject (sp : AddressSpace) (a : Z) : option ObjectPair :=
  List.find (contains a) (objects sp).

(** The bytes [o], [o + 1], ... of an object, the last one first. *)
Fixpoint readBytes (bytes : list Expr) (o n : nat) : list Expr :=
  match n with
  | O => []
  | S n' => readBytes bytes (S o) n' ++ [default (ConstantExpr Int8 0) (bytes !! o)]
  end.

Fixpoint writeBytes (bytes : list Expr) (o n : nat) (i : N) (v : Expr) : list Expr :=
  match n with
  | O => bytes
  | S n' => writeBytes (<[o := ExtractExpr_create v (8 * i) Int8]> bytes) (S o) n' (i + 1) v
  end.

Definition flatMemory : MemoryModel := {|
  resolveOne sp _ a :=
    match a with
    | ConstantExpr w v => Some (findObject sp (trunc w v))
    | _ => None
    end;
  resolveOneConstant sp a := findObject sp a;
  resolve sp _ a :=
    match a with
    | ConstantExpr w v =>
        (match findObject sp (trunc w v) with Some p => [p] | None => [] end, false)
    | _ => ([], true)
    end;
  os_read os offset w :=
    match offset with
    | ConstantExpr ow o =>
        let bytes := readBytes (contents os) (Z.to_nat (trunc ow o))
                       (N.to_nat (getMinBytesForWidth w)) in
        ZExtExpr_create (default (ConstantExpr 0%N 0) (ConcatExpr_createN bytes)) w
    | _ => ConstantExpr w 0
    end;
  os_write os offset v :=
    match offset with
    | ConstantExpr ow o =>
        {| readOnly := readOnly os;
           contents := writeBytes (contents os) (Z.to_nat (trunc ow o))
                         (N.to_nat (getMinBytesForWidth (getWidth v))) 0 v |}
    | _ => os
    end;
  allocate mem n isLocal isGlobal _ _ :=
    if (n <=? 1024)%N then
      Some {| mo_id := length mem;
              address := 4096 + 2048 * Z.of_nat (length mem);
              size := n; isLocal := isLocal; isGlobal := isGlobal;
              isHeap := false; kleeAddress := 0; nativeAddress := 0 |}
    else None;
  freshObjectState mo zero :=
    {| readOnly := false;
       contents := replicate (N.to_nat (size mo))
                     (ConstantExpr Int8 (if zero then 0 else 171)) |};
  getAllocationAlignment _ := 8%N;
  nme_req mo := 93824994340864 + address mo
|}.

Definition lcg (g : N) : N := ((g * 1103515245 + 12345) mod 2 ^ 32)%N.

Definition congruentialRNG : RNG := {|
  getInt32 g := (g, lcg g);
  getBool g := (N.odd g, lcg g);
  random g := (g, lcg g)
|}.

Definition seedAssignment (seed : SeedInfo) : Assignment := fun name i =>
  match List.find (fun p => String.eqb (fst p) name) seed with
  | Some (_, bytes) => nth (N.to_nat i) bytes 0
  | None => 0
  end.

Definition assignmentSeeding : Seeding := {|
  seedEvaluate seed e := ConstantExpr (getWidth e) (eval (seedAssignment seed) e);
  patchSeed seed _ _ := seed
|}.

(** *** A module

    Function 0 ([main]) holds instructions 0 to 3, function 1 instructions
    4 and 5.  Instruction 0 loads a function pointer into register 0,
    instruction 1 calls it, with the result, an [i32] sign-extended on
    return, in register 1.  Instruction 5 returns register 0 of the
    callee. *)

Definition plain (op : Opcode) (n : nat) (ty : option N) : Instruction := {|
  opcode := op; numOperands := n; typeWidth := ty; hasRetAttrSExt := false;
  use_empty := false; parent := 0; normalDest := 0; incomingBlocks := [];
  isDbgInfoIntrinsic := false; isInlineAsm := false; targetFunction := None;
  argSize := 0; bitcastParams := None; paramHasAttrSExt := fun _ => false
|}.

Definition loadPointer : KInstruction :=
  {| inst := plain Load 1 (Some 64%N); operands := [-2]; dest := 0 |}.

Definition callPointer : KInstruction :=
  {| inst := {| opcode := Call; numOperands := 1; typeWidth := Some 32%N;
                hasRetAttrSExt := true; use_empty := false; parent := 0;
                normalDest := 0; incomingBlocks := [];
                isDbgInfoIntrinsic := false; isInlineAsm := false;
                targetFunction := None; argSize := 0; bitcastParams := None;
                paramHasAttrSExt := fun _ => false |};
     operands := [0]; dest := 1 |}.

Definition loadByte : KInstruction :=
  {| inst := plain Load 1 (Some 32%N); operands := [0]; dest := 2 |}.

Definition storeByte : KInstruction :=
  {| inst := plain Store 2 None; operands := [0; 1]; dest := 3 |}.

Definition calleeBody : KInstruction :=
  {| inst := plain OtherOp 0 (Some 8%N); operands := []; dest := 0 |}.

Definition retByte : KInstruction :=
  {| inst := plain Ret 1 None; operands := [0]; dest := 1 |}.

Definition program : KModule := {|
  instructions := [loadPointer; callPointer; loadByte; storeByte; calleeBody; retByte];
  kfInstructions := fun f =>
    match f with
    | O => [loadPointer; callPointer; loadByte; storeByte]
    | _ => [calleeBody; retByte]
    end;
  constantTable := [Some (ConstantExpr 64 4096)];
  internalFunctions := [];
  functionOf := fun i => if (i <? 4)%nat then 0%nat else 1%nat;
  basicBlockEntry := fun _ _ => 0%nat;
  pointerWidth := 64%N;
  legalFunctions := [4096; 4097]
|}.

(** The options of a run: the fork budget, whether only seeded states are
    kept, and the path to replay; the native heap spans the addresses
    above 16384 up to 32768. *)
Definition options (maxForks : N) (onlyReplaySeeds : bool)
    (path : option (list bool)) : Config := {|
  kmodule := program;
  MaxForks := maxForks;
  MaxDepth := 0;
  MaxMemoryInhibit := true;
  OnlyReplaySeeds := onlyReplaySeeds;
  EmitAllErrors := false;
  OnlyOutputStatesCoveringNew := false;
  AlwaysOutputSeeds := true;
  ExitOnErrorType := [];
  SimplifySymIndices := false;
  MaxSymArraySize := 0;
  MakeConcreteSymbolic := 0;
  replayPath := path;
  replayKTest := false;
  pathWriter := false;
  symPathWriter := false;
  atMemoryLimit := false;
  inhibitForking := false;
  maxStaticPctExceeded := false;
  n_heap_l := 16384;
  n_heap_h := 32768;
  executeAlloc_isheap_default := false
|}.

(** No fork budget, no replay. *)
Definition defaults : Config := options noForkBudget false None.

(** The same with the fork budget spent. *)
Definition noForksLeft : Config := options 0 false None.

(** An object of eight bytes at address 4096, below the native heap, and
    one at address 20480, inside it. *)
Definition buffer (at_ : Z) : ObjectPair :=
  ({| mo_id := 0; address := at_; size := 8; isLocal := false; isGlobal := false;
      isHeap := true; kleeAddress := at_; nativeAddress := at_ |},
   {| readOnly := false; contents := replicate 8 (ConstantExpr Int8 0) |}).

Definition mainFrame : StackFrame := {|
  caller := None; kf := 0; locals := [None; None; None; None];
  allocas := []; varargs := None
|}.

(** A callee frame entered from the call at instruction 1; its register 0
    holds a symbolic byte. *)
Definition calleeFrame : StackFrame := {|
  caller := Some 1%nat; kf := 1; locals := [Some (ReadExpr "x" 0); None];
  allocas := []; varargs := None
|}.

Definition stateWith (frames : list StackFrame) (objs : list ObjectPair)
    (cs : list Expr) : ExecutionState := {|
  pc := 2%nat; prevPC := 1%nat; stack := frames;
  addressSpace := {| objects := objs; WriteExploitCapability := [] |};
  constraints := cs; depth := 0; forkDisabled := false; coveredNew := false;
  incomingBBIndex := 0; pathOS := []; symPathOS := []
|}.

(** An engine with the given states, numbered from 0, all known to the
    searcher. *)
Definition engine (cfg : Config) (sts : list ExecutionState)
    (seeds : gmap nat (list SeedInfo)) (onlySeed : bool) : Executor := {|
  config := cfg;
  store := list_to_map (zip (seq 0 (length sts)) sts);
  nextState := length sts;
  states := seq 0 (length sts);
  addedStates := [];
  removedStates := [];
  seedMap := seeds;
  forks := 0;
  rng := 1;
  replayPosition := 0;
  haltExecution := false;
  emittedErrors := [];
  OnlySeed := onlySeed;
  memory := [];
  rrwsId := 0;
  trace := []
|}.

(** The symbolic byte, an address built from it, and conditions on it. *)
Definition x : Expr := ReadExpr "x" 0.
Definition offsetAddress (base : Z) : Expr :=
  AddExpr (ConstantExpr 64 base) (ZExtExpr x 64).
Definition below (n : Z) : Expr := UltExpr x (ConstantExpr Int8 n).

(** The executor given by a successful run, and whether the run was one. *)
Definition final {A} (o : Outcome A) (otherwise : Executor) : Executor :=
  match o with Ok _ ex => ex | _ => otherwise end.

Definition result {A} (o : Outcome A) : option A :=
  match o with Ok a _ => Some a | _ => None end.

(** No exploit synthesis, and a callee that only records the call. *)
Definition noHijack : nat -> Expr -> list (Expr * option Expr) -> M unit :=
  fun _ _ _ => ret tt.

Definition recordCall : nat -> KInstruction -> Z -> list (option Expr) -> M unit :=
  fun sid _ f _ => emit (Called sid f).

(** A 32-bit word to store. *)
Definition word : Expr := ConstantExpr Int32 305419896.

(** One state, in [main], with an eight-byte buffer at the given address. *)
Definition withBuffer (at_ : Z) (cs : list Expr) : Executor :=
  engine defaults [stateWith [mainFrame] [buffer at_] cs] ∅ false.

(** One state, in [main], with no object at all. *)
Definition bare (cfg : Config) : Executor :=
  engine cfg [stateWith [mainFrame] [] []] ∅ false.

(** A seed giving the byte [x] the value [b]. *)
Definition seedOf (b : Z) : SeedInfo := [("x"%string, [b])].

(** One state, without seeds, of a run started with [only-seed]. *)
Definition onlySeedMode : Executor :=
  engine defaults [stateWith [mainFrame] [] []] ∅ true.

(** One state with the given seeds. *)
Definition seeded (cfg : Config) (seeds : list SeedInfo) : Executor :=
  engine cfg [stateWith [mainFrame] [] []] {[ 0%nat := seeds ]} false.

(** A load of type [i1]. *)
Definition loadBit : KInstruction :=
  {| inst := plain Load 1 (Some 1%N); operands := [0]; dest := 2 |}.

(** One state inside the callee. *)
Definition inCallee : Executor :=
  engine defaults [stateWith [calleeFrame; mainFrame] [] []] ∅ false.

(** One state about to call through a pointer that is one of the two
    legal functions, chosen by the symbolic byte. *)
Definition pointerFrame : StackFrame := {|
  caller := None; kf := 0;
  locals := [Some (offsetAddress 4096); None; None; None];
  allocas := []; varargs := None
|}.

Definition atCall : Executor :=
  engine defaults [stateWith [pointerFrame] [] [below 2]] ∅ false.

(** *** More of the concrete engine

    A module with a conditional branch, a call whose result is not used, a
    [PHI] and a void return; a function to call; states, objects and
    engines for the runs of the remaining handlers. *)

(** Instruction 0 branches on register 0, instruction 1 calls the function
    at 4096 and drops the result, instruction 2, the first of block 1, is
    a [PHI] of blocks 0 and 7 that selects register 0 or register 1, and
    instruction 4, in the callee, returns nothing. *)
Definition branchOn : KInstruction :=
  {| inst := plain Br 3 None; operands := [0; -1; -1]; dest := 3 |}.

Definition voidCall : KInstruction :=
  {| inst := {| opcode := Call; numOperands := 2; typeWidth := None;
                hasRetAttrSExt := false; use_empty := true; parent := 0;
                normalDest := 0; incomingBlocks := [];
                isDbgInfoIntrinsic := false; isInlineAsm := false;
                targetFunction := Some 4096; argSize := 1; bitcastParams := None;
                paramHasAttrSExt := fun _ => false |};
     operands := [-1; 0]; dest := 3 |}.

Definition phi : KInstruction :=
  {| inst := {| opcode := PHI; numOperands := 2; typeWidth := Some 8%N;
                hasRetAttrSExt := false; use_empty := false; parent := 1;
                normalDest := 0; incomingBlocks := [0%nat; 7%nat];
                isDbgInfoIntrinsic := false; isInlineAsm := false;
                targetFunction := None; argSize := 0; bitcastParams := None;
                paramHasAttrSExt := fun _ => false |};
     operands := [0; 1]; dest := 2 |}.

Definition retVoid : KInstruction :=
  {| inst := plain Ret 0 None; operands := []; dest := 0 |}.

Definition blocks : KModule := {|
  instructions := [branchOn; voidCall; phi; loadByte; retVoid];
  kfInstructions := fun f =>
    match f with
    | O => [branchOn; voidCall; phi; loadByte]
    | _ => [retVoid]
    end;
  constantTable := [];
  internalFunctions := [];
  functionOf := fun i => if (i <? 4)%nat then 0%nat else 1%nat;
  basicBlockEntry := fun _ b =>
    match b with O => 0%nat | 1%nat => 2%nat | _ => 3%nat end;
  pointerWidth := 64%N;
  legalFunctions := [4096]
|}.

(** The default options on a module, with a depth bound. *)
Definition optionsOn (km : KModule) (maxDepth : N) : Config := {|
  kmodule := km;
  MaxForks := noForkBudget;
  MaxDepth := maxDepth;
  MaxMemoryInhibit := true;
  OnlyReplaySeeds := false;
  EmitAllErrors := false;
  OnlyOutputStatesCoveringNew := false;
  AlwaysOutputSeeds := true;
  ExitOnErrorType := [];
  SimplifySymIndices := false;
  MaxSymArraySize := 0;
  MakeConcreteSymbolic := 0;
  replayPath := None;
  replayKTest := false;
  pathWriter := false;
  symPathWriter := false;
  atMemoryLimit := false;
  inhibitForking := false;
  maxStaticPctExceeded := false;
  n_heap_l := 16384;
  n_heap_h := 32768;
  executeAlloc_isheap_default := false
|}.

(** The function at address 4096: defined, with one formal in register 0
    and two registers; it starts at instruction 4. *)
Definition callee : Function := {|
  isDeclaration := false; getIntrinsicID := not_intrinsic; isVarArg := false;
  arg_size := 1; kfunction := 1; kfEntry := 4%nat; numRegisters := 2;
  getArgRegister := fun i => i
|}.

Definition functions (a : Z) : option Function :=
  if a =? 4096 then Some callee else None.

Definition noExternals : nat -> KInstruction -> Z -> list (option Expr) -> M unit :=
  fun _ _ _ _ => ret tt.

Definition noFloats : Width -> Z -> option Z := fun _ _ => None.

Definition zeroed (mo : MemoryObject) : ObjectState :=
  {| readOnly := false; contents := replicate (N.to_nat (size mo)) (ConstantExpr Int8 0) |}.

(** The generator of the C library, stepped like the other one. *)
Definition libcRand (g : N) : N * N := (g, lcg g).

(** A frame of [main] with the given registers. *)
Definition frameWith (regs : list (option Expr)) : StackFrame := {|
  caller := None; kf := 0; locals := regs; allocas := []; varargs := None
|}.

(** The plain state, and an engine of [n] of them. *)
Definition plainState : ExecutionState := stateWith [mainFrame] [] [].

Definition crowd (n : nat) : Executor :=
  engine defaults (replicate n plainState) ∅ false.

(** An engine of three states: two in the set, of which the first is
    queued for removal, and one waiting to be added. *)
Definition unsettled : Executor :=
  set_removedStates [0%nat]
    (set_addedStates [2%nat] (set_states [0%nat; 1%nat] (crowd 3))).

(** The same with the first state queued twice. *)
Definition removedTwice : Executor :=
  set_removedStates [0%nat; 0%nat] (crowd 2).

(** A read-only object and a local one, both of eight bytes at 4096. *)
Definition readOnlyBuffer : ObjectPair :=
  (fst (buffer 4096),
   {| readOnly := true; contents := replicate 8 (ConstantExpr Int8 0) |}).

Definition localBuffer : ObjectPair :=
  ({| mo_id := 0; address := 4096; size := 8; isLocal := true; isGlobal := false;
      isHeap := false; kleeAddress := 4096; nativeAddress := 0 |},
   {| readOnly := false; contents := replicate 8 (ConstantExpr Int8 0) |}).

(** One state of [main] with the given registers and objects, on the
    module [program] or on [blocks]. *)
Definition working (regs : list (option Expr)) (objs : list ObjectPair) : Executor :=
  engine defaults [stateWith [frameWith regs] objs []] ∅ false.

Definition inBlocks (maxDepth : N) (regs : list (option Expr)) : Executor :=
  engine (optionsOn blocks maxDepth) [stateWith [frameWith regs] [] []] ∅ false.

(** The pointer to the buffer at 4096. *)
Definition pointer : Expr := ConstantExpr 64 4096.

(** *** Stores, exits and steps

    What the runs of the [Store] case, of the return from [main] and of
    the loop of [run] need. *)

(** An order of expressions that compares their widths only; the runs
    insert one capability into an empty map, where the order plays no
    part. *)
Definition byWidth (a b : Expr) : bool := (getWidth a <? getWidth b)%N.

(** A module without globals of pointer type: the loop over them does
    nothing. *)
Definition noGlobals : nat -> M unit := fun _ => ret tt.

(** The store through a constant address, short of the bookkeeping of the
    function pointers. *)
Definition directStore `{Solver} `{ExprOptimizer} `{ConstraintManager}
    `{MemoryModel} `{RNG} `{Seeding}
    (sid : nat) (ki : KInstruction) (base : Expr) (value : option Expr) : M unit :=
  let* v := deref value in
  executeMemoryOperation sid true base v ki.

(** One state about to store the byte 65, in register 0, at the address
    [4096 + x] that register 1 holds, with [x < 16] and the buffer at
    4096. *)
Definition storeFrame : StackFrame := {|
  caller := None; kf := 0;
  locals := [Some (ConstantExpr Int8 65); Some (offsetAddress 4096); None; None];
  allocas := []; varargs := None
|}.

Definition atStore : Executor :=
  engine defaults [stateWith [storeFrame] [buffer 4096] [below 16]] ∅ false.

(** The default options with the output restricted to the states that
    covered new code. *)
Definition coveringNewOnly : Config := {|
  kmodule := program;
  MaxForks := noForkBudget;
  MaxDepth := 0;
  MaxMemoryInhibit := true;
  OnlyReplaySeeds := false;
  EmitAllErrors := false;
  OnlyOutputStatesCoveringNew := true;
  AlwaysOutputSeeds := true;
  ExitOnErrorType := [];
  SimplifySymIndices := false;
  MaxSymArraySize := 0;
  MakeConcreteSymbolic := 0;
  replayPath := None;
  replayKTest := false;
  pathWriter := false;
  symPathWriter := false;
  atMemoryLimit := false;
  inhibitForking := false;
  maxStaticPctExceeded := false;
  n_heap_l := 16384;
  n_heap_h := 32768;
  executeAlloc_isheap_default := false
|}.

(** Modelled from the spec: [ConstraintManager::simplifyExpr] is in
    [Constraints.cpp], not among the sources; section 6 names its
    equality substitution.  Here an expression that a constraint equates
    with a constant is replaced by that constant, and any other
    expression is left as it is. *)
Definition substituting : ConstraintManager := {|
  simplifyExpr cs e :=
    match List.find (fun c => match c with
                              | EqExpr l (ConstantExpr _ _) => bool_decide (l = e)
                              | _ => false
                              end) cs with
    | Some (EqExpr _ k) => k
    | _ => e
    end
|}.

(** One state on the module [blocks], at instruction [c]. *)
Definition atInstruction (c : nat) (regs : list (option Expr)) : Executor :=
  engine (optionsOn blocks 0) [set_pc c (stateWith [frameWith regs] [] [])] ∅ false.

End Scenario.


(** * Properties of the executor *)

(** ** Inversion of the monadic operations *)

Lemma bind_Ok {A B} (m : M A) (f : A -> M B) ex b ex' :
  bind m f ex = Ok b ex' ->
  exists a ex1, m ex = Ok a ex1 /\ f a ex1 = Ok b ex'.
Proof.
  unfold bind. destruct (m ex) as [a ex1| |]; [|discriminate..].
  intros Hf. exists a, ex1. split; [reflexivity | exact Hf].
Qed.

Lemma ret_Ok {A} (a b : A) ex ex' : ret a ex = Ok b ex' -> b = a /\ ex' = ex.
Proof. unfold ret. intros [= -> ->]. split; reflexivity. Qed.

Lemma gets_Ok {A} (f : Executor -> A) ex a ex' :
  gets f ex = Ok a ex' -> a = f ex /\ ex' = ex.
Proof. unfold gets. intros [= <- <-]. split; reflexivity. Qed.

Lemma modify_Ok f ex u ex' : modify f ex = Ok u ex' -> ex' = f ex.
Proof. unfold modify. intros Hf. injection Hf as _ Hf. symmetry. exact Hf. Qed.

Lemma crash_Ok {A} why ex (a : A) ex' : crash why ex = Ok a ex' -> False.
Proof. discriminate. Qed.

Lemma option_get_Ok {A} why (o : option A) ex a ex' :
  option_get why o ex = Ok a ex' -> o = Some a /\ ex' = ex.
Proof.
  destruct o as [x|]; cbn; [|discriminate].
  intros [= -> ->]. split; reflexivity.
Qed.

Lemma getState_Ok sid ex s ex' :
  getState sid ex = Ok s ex' -> store ex !! sid = Some s /\ ex' = ex.
Proof.
  unfold getState. destruct (store ex !! sid); [|discriminate].
  intros [= -> ->]. split; reflexivity.
Qed.

Lemma putState_Ok sid s ex u ex' :
  putState sid s ex = Ok u ex' -> ex' = set_store (<[sid := s]> (store ex)) ex.
Proof. unfold putState. intros Hm. apply modify_Ok in Hm. exact Hm. Qed.

Lemma updState_Ok sid f ex u ex' :
  updState sid f ex = Ok u ex' ->
  exists s, store ex !! sid = Some s
            /\ ex' = set_store (<[sid := f s]> (store ex)) ex.
Proof.
  unfold updState. intros Hb. apply bind_Ok in Hb as (s & ex1 & Hg & Hp).
  apply getState_Ok in Hg as [Hs ->]. apply putState_Ok in Hp.
  exists s. split; assumption.
Qed.

Lemma emit_Ok ev ex u ex' :
  emit ev ex = Ok u ex' -> ex' = set_trace (trace ex ++ [ev]) ex.
Proof. unfold emit. intros Hm. apply modify_Ok in Hm. exact Hm. Qed.

Lemma when_Ok c m ex u ex' :
  when c m ex = Ok u ex' ->
  (c = true /\ m ex = Ok u ex') \/ (c = false /\ ex' = ex).
Proof.
  destruct c; cbn.
  - intros Hm. left. split; [reflexivity | exact Hm].
  - intros Hr. apply ret_Ok in Hr as [_ ->]. right. split; reflexivity.
Qed.

(** One step of inversion on a hypothesis that a computation succeeded. *)
Ltac inv_step :=
  match goal with
  | Hb : bind _ _ _ = Ok _ _ |- _ =>
      let a := fresh "a" in let ex := fresh "ex" in let Hm := fresh "Hm" in
      apply bind_Ok in Hb as (a & ex & Hm & Hb)
  | Hb : ret _ _ = Ok _ _ |- _ =>
      let He := fresh "He" in
      apply ret_Ok in Hb as [He ?]; try discriminate He;
      try (injection He as ? ?); subst
  | Hb : gets _ _ = Ok _ _ |- _ => apply gets_Ok in Hb as [? ?]; subst
  | Hb : option_of _ _ = Ok _ _ |- _ => apply gets_Ok in Hb as [? ?]; subst
  | Hb : modify _ _ = Ok _ _ |- _ => apply modify_Ok in Hb; subst
  | Hb : crash _ _ = Ok _ _ |- _ => destruct (crash_Ok _ _ _ _ Hb)
  | Hb : option_get _ _ _ = Ok _ _ |- _ =>
      let Ho := fresh "Ho" in apply option_get_Ok in Hb as [Ho ?]; subst
  | Hb : getState _ _ = Ok _ _ |- _ =>
      let Hs := fresh "Hs" in apply getState_Ok in Hb as [Hs ?]; subst
  | Hb : putState _ _ _ = Ok _ _ |- _ => apply putState_Ok in Hb; subst
  | Hb : emit _ _ = Ok _ _ |- _ => apply emit_Ok in Hb; subst
  end.

Ltac inv_monad := repeat inv_step.

(** ** Entailment *)

Lemma trunc_0 w : trunc w 0 = 0.
Proof. unfold trunc. apply Z.mod_0_l. apply Z.pow_nonzero; lia. Qed.

Lemma trunc_Bool_1 : trunc Bool 1 = 1.
Proof. reflexivity. Qed.

Lemma entails_last cs c : entails (cs ++ [c]) c.
Proof.
  intros a Hsat. unfold satisfies in Hsat.
  destruct (proj1 (Forall_app _ _ _) Hsat) as [_ Hc].
  inversion Hc; subst. assumption.
Qed.

Lemma entails_app_l cs extra e : entails cs e -> entails (cs ++ extra) e.
Proof.
  intros He a Hsat. apply He. unfold satisfies in *.
  destruct (proj1 (Forall_app _ _ _) Hsat) as [Hcs _]. exact Hcs.
Qed.

Lemma entails_value_app_l cs extra e v :
  entails_value cs e v -> entails_value (cs ++ extra) e v.
Proof.
  intros He a Hsat. apply He. unfold satisfies in *.
  destruct (proj1 (Forall_app _ _ _) Hsat) as [Hcs _]. exact Hcs.
Qed.

(** [createIsZero c] holds exactly when [c] evaluates to zero. *)
Lemma eval_createIsZero a c :
  eval a (createIsZero c) = 1 <-> eval a c = 0.
Proof.
  assert (Hgen : forall x : Z, (if x =? 0 then 1 else 0) = 1 <-> x = 0).
  { intros x. destruct (Z.eqb_spec x 0); split; intros; try lia; congruence. }
  unfold createIsZero, EqExpr_create.
  destruct c; cbn [eval getWidth]; rewrite ?trunc_0; try apply Hgen.
  destruct (Z.eqb_spec (trunc w v) 0) as [He|He]; rewrite ?trunc_Bool_1, ?trunc_0;
    split; intros; try lia; congruence.
Qed.

Lemma entails_isZero cs c :
  entails cs (createIsZero c) <-> entails_value cs c 0.
Proof.
  unfold entails, entails_value.
  split; intros He a Hsat; apply eval_createIsZero; apply He; exact Hsat.
Qed.

(** ** Width casts *)

Lemma trunc_range w v : 0 <= trunc w v < 2 ^ Z.of_N w.
Proof. unfold trunc. apply Z.mod_pos_bound. apply Z.pow_pos_nonneg; lia. Qed.

Lemma trunc_small w v : 0 <= v < 2 ^ Z.of_N w -> trunc w v = v.
Proof. unfold trunc. intros Hv. apply Z.mod_small. exact Hv. Qed.

Lemma trunc_idem w v : trunc w (trunc w v) = trunc w v.
Proof. apply trunc_small. apply trunc_range. Qed.

(** The value of an expression fits its width. *)
Lemma eval_range a e : 0 <= eval a e < 2 ^ Z.of_N (getWidth e).
Proof.
  induction e; cbn [eval getWidth]; try apply trunc_range.
  - rewrite N2Z.inj_add, Z.pow_add_r by lia.
    assert (0 < 2 ^ Z.of_N (getWidth e2)) by (apply Z.pow_pos_nonneg; lia).
    nia.
  - change (Z.of_N Bool) with 1. destruct (_ =? _); lia.
  - change (Z.of_N Bool) with 1. destruct (_ <? _); lia.
Qed.

Lemma trunc_widen w w' v :
  (w <= w')%N -> 0 <= v < 2 ^ Z.of_N w -> trunc w' v = v.
Proof.
  intros Hw Hv. apply trunc_small.
  assert (2 ^ Z.of_N w <= 2 ^ Z.of_N w') by (apply Z.pow_le_mono_r; lia).
  lia.
Qed.

(** Zero extension to a wider type keeps the unsigned value. *)
Lemma eval_ZExtExpr_create a e w :
  (getWidth e < w)%N -> eval a (ZExtExpr_create e w) = eval a e.
Proof.
  intros Hw. unfold ZExtExpr_create.
  destruct (N.eqb_spec w (getWidth e)) as [->|_]; [lia|].
  destruct (N.ltb_spec w (getWidth e)) as [Hlt|_]; [lia|].
  pose proof (eval_range a e) as Hr.
  destruct e; cbn [eval] in *; apply (trunc_widen _ _ _ (N.lt_le_incl _ _ Hw) Hr).
Qed.

(** Sign extension to a wider type keeps the two's complement value. *)
Lemma eval_SExtExpr_create a e w :
  (getWidth e < w)%N ->
  eval a (SExtExpr_create e w) = trunc w (signed (getWidth e) (eval a e)).
Proof.
  intros Hw. unfold SExtExpr_create.
  destruct (N.eqb_spec w (getWidth e)) as [->|_]; [lia|].
  destruct (N.ltb_spec w (getWidth e)) as [Hlt|_]; [lia|].
  destruct e; cbn [eval getWidth]; try reflexivity.
  apply trunc_idem.
Qed.


(** ** The filler of an over-read *)

Lemma repeatedByte_bound b n :
  0 <= b < 256 -> 0 <= repeatedByte b n < 2 ^ (8 * Z.of_nat n).
Proof.
  intros Hb. induction n as [|n IH]; cbn [repeatedByte].
  - cbn. lia.
  - replace (8 * Z.of_nat (S n)) with (8 + 8 * Z.of_nat n) by lia.
    rewrite Z.pow_add_r by lia. change (2 ^ 8) with 256.
    assert (0 < 2 ^ (8 * Z.of_nat n)) by (apply Z.pow_pos_nonneg; lia).
    nia.
Qed.

(** Every byte of [repeatedByte b n] is [b]. *)
Lemma repeatedByte_byte b n i :
  0 <= b < 256 -> (i < n)%nat ->
  (repeatedByte b n / 2 ^ (8 * Z.of_nat i)) mod 256 = b.
Proof.
  intros Hb. induction n as [|n IH]; [lia|]. intros Hi. cbn [repeatedByte].
  assert (Hpos : 0 < 2 ^ (8 * Z.of_nat i)) by (apply Z.pow_pos_nonneg; lia).
  destruct (Nat.eq_dec i n) as [->|Hne].
  - rewrite Z.div_add_l by lia.
    rewrite (Z.div_small (repeatedByte b n)) by (apply repeatedByte_bound; exact Hb).
    rewrite Z.add_0_r. apply Z.mod_small. exact Hb.
  - assert (Hlt : (i < n)%nat) by lia.
    replace (8 * Z.of_nat n) with (8 * Z.of_nat i + (8 + 8 * Z.of_nat (n - S i))) by lia.
    rewrite Z.pow_add_r by lia.
    replace (b * (2 ^ (8 * Z.of_nat i) * 2 ^ (8 + 8 * Z.of_nat (n - S i))))
      with (b * 2 ^ (8 + 8 * Z.of_nat (n - S i)) * 2 ^ (8 * Z.of_nat i)) by ring.
    rewrite Z.div_add_l by lia.
    rewrite Z.pow_add_r by lia. change (2 ^ 8) with 256.
    replace (b * (256 * 2 ^ (8 * Z.of_nat (n - S i))))
      with (b * 2 ^ (8 * Z.of_nat (n - S i)) * 256) by ring.
    rewrite Z.add_comm, Z.mod_add by lia.
    apply IH. exact Hlt.
Qed.

Lemma ConcatExpr_createN_replicate n :
  ConcatExpr_createN (replicate (S n) (ConstantExpr Int8 136))
  = Some (ConstantExpr (8 * N.of_nat (S n)) (repeatedByte 136 (S n))).
Proof.
  induction n as [|n IH].
  - reflexivity.
  - change (replicate (S (S n)) (ConstantExpr Int8 136))
      with (ConstantExpr Int8 136 :: replicate (S n) (ConstantExpr Int8 136)).
    remember (replicate (S n) (ConstantExpr Int8 136)) as tail eqn:Htail.
    cbn [ConcatExpr_createN]. rewrite IH.
    destruct tail as [|k tail']; [discriminate|].
    cbn [ConcatExpr_create]. f_equal. f_equal.
    + unfold Int8. lia.
    + rewrite (trunc_small (8 * N.of_nat (S n))).
      * change (repeatedByte 136 (S (S n)))
          with (136 * 2 ^ (8 * Z.of_nat (S n)) + repeatedByte 136 (S n)).
        change (trunc Int8 136) with 136.
        replace (Z.of_N (8 * N.of_nat (S n))) with (8 * Z.of_nat (S n)) by lia.
        reflexivity.
      * replace (Z.of_N (8 * N.of_nat (S n))) with (8 * Z.of_nat (S n)) by lia.
        apply repeatedByte_bound. lia.
Qed.


Section EngineFacts.

Context `{Solver} `{ExprOptimizer} `{ConstraintManager} `{MemoryModel}
        `{RNG} `{Seeding}.

Lemma sameData_refl s : sameData s s.
Proof. repeat split. Qed.

Lemma sameData_set_pc v s : sameData s (set_pc v s).
Proof. repeat split. Qed.

Lemma dataPreserved_refl ex : dataPreserved ex ex.
Proof. intros id s' Hs. exists s'. split; [exact Hs | apply sameData_refl]. Qed.

Lemma dataPreserved_trans ex1 ex2 ex3 :
  dataPreserved ex1 ex2 -> dataPreserved ex2 ex3 -> dataPreserved ex1 ex3.
Proof.
  intros H12 H23 id s3 Hs3.
  destruct (H23 id s3 Hs3) as (s2 & Hs2 & (Ha & Hb & Hc)).
  destruct (H12 id s2 Hs2) as (s1 & Hs1 & (Ha' & Hb' & Hc')).
  exists s1. split; [exact Hs1|]. repeat split; congruence.
Qed.

Lemma dataPreserved_store ex ex' :
  store ex' = store ex -> dataPreserved ex ex'.
Proof. intros He id s' Hs. rewrite He in Hs. exists s'. split; [exact Hs | apply sameData_refl]. Qed.

(** What [terminateState] does to the engine. *)
Lemma terminateState_Ok sid ex u ex' :
  terminateState sid ex = Ok u ex' ->
  config ex' = config ex /\ trace ex' = trace ex
  /\ nextState ex' = nextState ex
  /\ retired ex' sid
  /\ (forall id, id <> sid -> store ex' !! id = store ex !! id)
  /\ (forall id, id ∈ removedStates ex -> id ∈ removedStates ex')
  /\ dataPreserved ex ex'.
Proof.
  unfold terminateState. intros Hb. inv_monad.
  case_bool_decide as Hin.
  - inv_monad. cbn. repeat split; auto.
    + right. cbn. apply lookup_delete_eq.
    + intros id Hne. apply lookup_delete_ne. congruence.
    + intros id s'. cbn. intros Hs.
      apply lookup_delete_Some in Hs as [_ Hs].
      exists s'. split; [exact Hs | apply sameData_refl].
  - inv_monad. apply updState_Ok in Hm as (s & Hs & ->). cbn.
    repeat split; auto.
    + left. cbn. apply elem_of_app. right. constructor.
    + intros id Hne. apply lookup_insert_ne. congruence.
    + intros id Hid. apply elem_of_app. left. exact Hid.
    + intros id s'. cbn. intros Hs'.
      destruct (decide (id = sid)) as [->|Hne].
      * rewrite lookup_insert_eq in Hs'. injection Hs' as <-.
        exists s. split; [exact Hs | apply sameData_set_pc].
      * rewrite lookup_insert_ne in Hs' by congruence.
        exists s'. split; [exact Hs' | apply sameData_refl].
Qed.

Lemma outputsTestCase_Ok sid ex b ex' :
  outputsTestCase sid ex = Ok b ex' -> ex' = ex.
Proof.
  unfold outputsTestCase, isSeeded. intros Hb. inv_monad.
  destruct (negb _); inv_monad; [reflexivity|].
  destruct (coveredNew _); inv_monad; [reflexivity|].
  destruct (AlwaysOutputSeeds _); inv_monad; reflexivity.
Qed.

(** The guard lets the test case through when output is not restricted to
    states that covered new code, or the state did cover new code. *)
Lemma outputsTestCase_true sid ex s out ex' :
  outputsTestCase sid ex = Ok out ex' ->
  store ex !! sid = Some s ->
  OnlyOutputStatesCoveringNew (config ex) = false \/ coveredNew s = true ->
  out = true.
Proof.
  unfold outputsTestCase, isSeeded. intros Hb Hs Hc. inv_monad.
  destruct (OnlyOutputStatesCoveringNew _) eqn:Ho; cbn in Hb; inv_monad;
    [|reflexivity].
  rewrite Hs in Hs0. injection Hs0 as <-.
  destruct Hc as [Hc|Hc]; [discriminate|].
  rewrite Hc in Hb. inv_monad. reflexivity.
Qed.

Lemma terminates_intro ex ex1 ex2 ex' sid how report u :
  sameCore ex ex1 ->
  trace ex1 = trace ex ++ Terminated sid how :: report ->
  terminateState sid ex1 = Ok u ex2 ->
  sameCore ex2 ex' -> trace ex' = trace ex2 ->
  terminates ex ex' sid how.
Proof.
  intros (Hc1 & Hn1 & Hs1 & Hr1) Ht1 Hterm (Hc2 & Hn2 & Hs2 & Hr2) Ht2.
  apply terminateState_Ok in Hterm
    as (Hc & Ht & Hn & Hret & Hother & Hrem & Hdata).
  unfold terminates. repeat split.
  - congruence.
  - congruence.
  - exists report. congruence.
  - destruct Hret as [Hret|Hret]; [left | right]; congruence.
  - intros id Hne. rewrite Hs2, <- Hs1. apply Hother. exact Hne.
  - intros id Hid. rewrite Hr2. apply Hrem. rewrite Hr1. exact Hid.
  - intros id s' Hs'. rewrite Hs2 in Hs'.
    destruct (Hdata id s' Hs') as (s & Hs & Hsame).
    exists s. split; [congruence | exact Hsame].
Qed.

Lemma sameCore_refl ex : sameCore ex ex.
Proof. repeat split. Qed.

Lemma terminateStateOnExit_Ok sid ex u ex' :
  terminateStateOnExit sid ex = Ok u ex' ->
  terminates ex ex' sid OnExit
  /\ exists out,
       trace ex' = trace ex ++ Terminated sid OnExit
                     :: (if out : bool then [TestCase sid None None] else [])
       /\ (forall s, store ex !! sid = Some s ->
              OnlyOutputStatesCoveringNew (config ex) = false
              \/ coveredNew s = true -> out = true).
Proof.
  unfold terminateStateOnExit, processTestCase. intros Hb. inv_monad.
  rename a0 into out. pose proof (outputsTestCase_Ok _ _ _ _ Hm0) as ->.
  apply when_Ok in Hm1 as [[-> Hm1]|[-> ->]]; inv_monad.
  - split.
    + eapply terminates_intro; [| |exact Hb|apply sameCore_refl|reflexivity].
      * repeat split.
      * cbn. rewrite <- app_assoc. reflexivity.
    + exists true. apply terminateState_Ok in Hb as (_ & Ht & _).
      cbn in Ht. rewrite <- app_assoc in Ht. split; [exact Ht | reflexivity].
  - split.
    + eapply (terminates_intro _ _ _ _ _ _ []);
        [| |exact Hb|apply sameCore_refl|reflexivity].
      * repeat split.
      * reflexivity.
    + exists false. apply terminateState_Ok in Hb as (_ & Ht & _).
      cbn in Ht. split; [exact Ht|]. intros s Hs Hc.
      eapply outputsTestCase_true; [exact Hm0 | exact Hs | exact Hc].
Qed.

Lemma terminateStateEarly_Ok sid message ex u ex' :
  terminateStateEarly sid message ex = Ok u ex' ->
  terminates ex ex' sid (Early message).
Proof.
  unfold terminateStateEarly, processTestCase. intros Hb. inv_monad.
  pose proof (outputsTestCase_Ok _ _ _ _ Hm0) as ->.
  apply when_Ok in Hm1 as [[-> Hm1]|[-> ->]]; inv_monad.
  - eapply terminates_intro; [| |exact Hb|apply sameCore_refl|reflexivity].
    + repeat split.
    + cbn. rewrite <- app_assoc. reflexivity.
  - eapply (terminates_intro _ _ _ _ _ _ []);
      [| |exact Hb|apply sameCore_refl|reflexivity].
    + repeat split.
    + reflexivity.
Qed.

Lemma terminateStateOnError_Ok sid message r suffix info ex u ex' :
  terminateStateOnError sid message r suffix info ex = Ok u ex' ->
  terminates ex ex' sid (OnError message r).
Proof.
  unfold terminateStateOnError, processTestCase. intros Hb. inv_monad.
  assert (Hpre : sameCore ex ex5 /\
            exists report,
              trace ex5 = trace ex ++ Terminated sid (OnError message r) :: report).
  { destruct (EmitAllErrors _); inv_monad.
    - split; [repeat split|]. eexists. cbn. rewrite <- app_assoc. reflexivity.
    - case_bool_decide; inv_monad.
      + split; [repeat split|]. exists []. reflexivity.
      + split; [repeat split|]. eexists. cbn. rewrite <- app_assoc. reflexivity. }
  destruct Hpre as (Hcore & report & Htrace).
  apply when_Ok in Hb as [[_ Hb]|[_ ->]]; inv_monad.
  - eapply terminates_intro; [exact Hcore|exact Htrace|exact Hm5| |reflexivity].
    repeat split.
  - eapply terminates_intro; [exact Hcore|exact Htrace|exact Hm5| |reflexivity].
    apply sameCore_refl.
Qed.

Lemma getAddressInfo_Ok sid address ex info ex' :
  getAddressInfo sid address ex = Ok info ex' -> ex' = ex.
Proof.
  unfold getAddressInfo, assertSuccess. intros Hb.
  destruct address; inv_monad; reflexivity.
Qed.

(** ** Constraints *)

Lemma patchSeeds_Ok cs c seeds ex seeds' ex' :
  patchSeeds cs c seeds ex = Ok seeds' ex' -> ex' = ex.
Proof.
  revert seeds' ex'. induction seeds as [|seed rest IH]; cbn [patchSeeds];
    intros seeds' ex' Hb.
  - inv_monad. reflexivity.
  - unfold assertSuccess in Hb. inv_monad.
    apply IH in Hm0 as ->. reflexivity.
Qed.

Lemma sameButStore_refl ex : sameButStore ex ex.
Proof. repeat split. Qed.

(** [addConstraint] either meets a true constant and does nothing, or
    appends the condition to the constraints of the state. *)
Lemma addConstraint_Ok sid c ex u ex' :
  addConstraint sid c ex = Ok u ex' ->
  (exists w v, c = ConstantExpr w v /\ isTrue w v = true /\ ex' = ex)
  \/ (isConstant c = false
      /\ sameButStore ex ex'
      /\ exists s, store ex !! sid = Some s
           /\ store ex' = <[sid := state_addConstraint c s]> (store ex)).
Proof.
  intros Hb.
  assert (Hnc : forall m : M unit,
    (let* seeds := gets (fun ex => seedMap ex !! sid) in
     match seeds with
     | Some l =>
         let* s := getState sid in
         let* l' := patchSeeds (constraints s) c l in
         modify (fun ex => set_seedMap (<[sid := l']> (seedMap ex)) ex)
     | None => ret tt
     end;;
     updState sid (state_addConstraint c)) ex = Ok u ex' ->
    sameButStore ex ex'
    /\ exists s, store ex !! sid = Some s
         /\ store ex' = <[sid := state_addConstraint c s]> (store ex)).
  { intros _ Hrun. inv_monad.
    apply updState_Ok in Hrun as (s & Hs & ->).
    destruct (seedMap ex !! sid) as [l|]; inv_monad.
    - match goal with
      | Hp : patchSeeds _ _ _ _ = Ok _ _ |- _ => apply patchSeeds_Ok in Hp as ->
      end.
      cbn in *.
      split; [repeat split|]. exists s. split; [exact Hs | reflexivity].
    - split; [repeat split|]. exists s. split; [exact Hs | reflexivity]. }
  destruct c; cbn [addConstraint] in Hb;
    try (right; split; [reflexivity | apply (Hnc (ret tt)); exact Hb]).
  left. destruct (isTrue w v) eqn:Ht; inv_monad.
  exists w, v. repeat split. exact Ht.
Qed.

(** There is no forking on a constant: its two polarities cannot both be
    added. *)
Lemma constant_polarities_clash w v :
  isTrue w v = true ->
  createIsZero (ConstantExpr w v) = ConstantExpr Bool 0.
Proof.
  unfold isTrue. intros Ht. apply andb_true_iff in Ht as [Hw Hv].
  apply N.eqb_eq in Hw. apply Z.eqb_eq in Hv. subst.
  reflexivity.
Qed.

Lemma addConstraint_entails sid c ex u ex' s' :
  addConstraint sid c ex = Ok u ex' ->
  store ex' !! sid = Some s' ->
  entails (constraints s') c.
Proof.
  intros Hb Hs'. apply addConstraint_Ok in Hb
    as [(w & v & -> & Ht & ->)|(_ & _ & s & Hs & Hst)].
  - intros a _. unfold isTrue in Ht. apply andb_true_iff in Ht as [Hw Hv].
    apply N.eqb_eq in Hw. apply Z.eqb_eq in Hv. subst. reflexivity.
  - rewrite Hst, lookup_insert_eq in Hs'. injection Hs' as <-.
    apply entails_last.
Qed.

(** Constraints only accumulate under [addConstraint]. *)
Lemma addConstraint_keeps sid c ex u ex' id s e :
  addConstraint sid c ex = Ok u ex' ->
  store ex !! id = Some s ->
  entails (constraints s) e ->
  exists s', store ex' !! id = Some s' /\ entails (constraints s') e.
Proof.
  intros Hb Hs He. apply addConstraint_Ok in Hb
    as [(w & v & -> & Ht & ->)|(_ & _ & s0 & Hs0 & Hst)].
  - exists s. split; assumption.
  - rewrite Hst. destruct (decide (id = sid)) as [->|Hne].
    + rewrite lookup_insert_eq. eexists. split; [reflexivity|].
      rewrite Hs in Hs0. injection Hs0 as <-. cbn. apply entails_app_l. exact He.
    + rewrite lookup_insert_ne by congruence. exists s. split; assumption.
Qed.

(** ** Forking *)

Lemma addConstraint_live sid c ex u ex' :
  addConstraint sid c ex = Ok u ex' ->
  isConstant c = false ->
  exists s', store ex' !! sid = Some s' /\ entails (constraints s') c.
Proof.
  intros Hb Hc. pose proof Hb as Hinv. apply addConstraint_Ok in Hinv
    as [(w & v & -> & _)|(_ & _ & s & Hs & Hst)]; [discriminate|].
  exists (state_addConstraint c s). split.
  - rewrite Hst. apply lookup_insert_eq.
  - apply entails_last.
Qed.

Lemma both_polarities_of_constant t f w v exa exb exc u u' :
  addConstraint t (ConstantExpr w v) exa = Ok u exb ->
  addConstraint f (createIsZero (ConstantExpr w v)) exb = Ok u' exc ->
  False.
Proof.
  intros Ht Hf. cbn [addConstraint] in Ht.
  destruct (isTrue w v) eqn:Htrue; [|discriminate].
  rewrite (constant_polarities_clash _ _ Htrue) in Hf. discriminate.
Qed.

Lemma createIsZero_not_constant c :
  isConstant c = false -> isConstant (createIsZero c) = false.
Proof. destruct c; cbn; intros; congruence. Qed.

(** When [fork] returns two branches, the constraints of the true
    branch imply the condition and the constraints of the false branch
    imply its negation: under them the condition evaluates to zero. *)
Lemma forked_branches_Ok current c isInternal ex t f ex' :
  fork current c isInternal ex = Ok (Some t, Some f) ex' ->
  t = current
  /\ exists st sf,
       store ex' !! t = Some st /\ store ex' !! f = Some sf
       /\ entails (constraints st) c
       /\ entails (constraints sf) (createIsZero c)
       /\ entails_value (constraints sf) c 0.
Proof.
  intros Hrun. unfold fork in Hrun. inv_monad.
  rename a1 into c'.
  destruct (evaluate (constraints a2) c') as [res|]; inv_monad.
  match goal with
  | Hr : (match ?r with VTrue => _ | VFalse => _ | VUnknown => _ end) _ = Ok _ _
    |- _ => destruct r
  end; inv_monad.
  match goal with
  | Ht : addConstraint current c' ?exa = Ok _ ?exb,
    Hf : addConstraint ?fs (createIsZero c') ?exb = Ok _ ?exc,
    Hl : store ?exc !! current = Some ?st,
    Hr : (if _ then _ else _) ?exc = Ok _ _ |- _ =>
      rename Ht into Htrue; rename Hf into Hfalse; rename Hl into Hlive;
      rename fs into fstate
  end.
  destruct (negb _ && (MaxDepth _ <=? _)%N) in Hrun; inv_monad.
  split; [reflexivity|].
  (* the condition the branches were given is the condition of the call *)
  assert (Hc : c' = c /\ isConstant c = false).
  { destruct (isConstant c') eqn:Hconst.
    - destruct c'; try discriminate.
      exfalso. exact (both_polarities_of_constant _ _ _ _ _ _ _ _ _ Htrue Hfalse).
    - match goal with
      | Hs : (if ?b then _ else _) ex = Ok c' _ |- _ => destruct b; inv_monad
      end.
      + discriminate.
      + split; [reflexivity | exact Hconst]. }
  destruct Hc as [-> Hconst].
  destruct (addConstraint_live _ _ _ _ _ Htrue Hconst) as (s1 & Hs1 & He1).
  destruct (addConstraint_keeps _ _ _ _ _ _ _ _ Hfalse Hs1 He1) as (st & Hst & Hest).
  destruct (addConstraint_live _ _ _ _ _ Hfalse (createIsZero_not_constant _ Hconst))
    as (sf & Hsf & Hesf).
  exists st, sf. repeat split; try assumption.
  apply entails_isZero. exact Hesf.
Qed.

(** ** Concretisation *)

Lemma eval_EqExpr_1 a l r : eval a (EqExpr l r) = 1 -> eval a l = eval a r.
Proof.
  cbn [eval]. destruct (Z.eqb_spec (eval a l) (eval a r)); [auto | discriminate].
Qed.

(** [toConstant] returns a constant [v] such that, right after the
    call, the constraints of the state force the expression to the value
    [v]; when the simplified expression was not already a constant, the
    equality of the two has been appended to the constraints.  The
    simplifier of the constraint manager is taken to be sound. *)
Lemma toConstant_Ok sid e reason ex w v ex'
    (simplify_sound :
       forall cs x a, satisfies a cs -> eval a (simplifyExpr cs x) = eval a x) :
  toConstant sid e reason ex = Ok (w, v) ex' ->
  exists s s',
    store ex !! sid = Some s /\ store ex' !! sid = Some s'
    /\ entails_value (constraints s') e (trunc w v)
    /\ (isConstant (simplifyExpr (constraints s) e) = false ->
        constraints s' =
          constraints s
            ++ [EqExpr (simplifyExpr (constraints s) e) (ConstantExpr w v)]).
Proof.
  unfold toConstant, assertSuccess. intros Hrun. inv_monad.
  rename a into s. exists s.
  destruct (simplifyExpr (constraints s) e) as [w0 v0| | | | | | | | |] eqn:He'.
  { inv_monad. exists s. repeat split; try assumption.
    - intros a Ha. rewrite <- (simplify_sound _ _ _ Ha), He'. reflexivity.
    - discriminate. }
  all: inv_monad;
    match goal with
    | Hadd : addConstraint _ _ _ = Ok _ _ |- _ =>
        cbn [EqExpr_create constantOf] in Hadd;
        apply addConstraint_Ok in Hadd
          as [(? & ? & ? & _)|(_ & _ & s0 & Hs0 & Hst)]; [discriminate|]
    end;
    rewrite Hs in Hs0; injection Hs0 as <-;
    eexists; split; [exact Hs|];
    split; [rewrite Hst; apply lookup_insert_eq|];
    split; [|intros _; reflexivity];
    intros a Ha; cbn [state_addConstraint set_constraints constraints] in Ha;
    destruct (proj1 (Forall_app _ _ _) Ha) as [Hcs Hlast];
    inversion Hlast as [|? ? Heq _]; subst;
    apply eval_EqExpr_1 in Heq;
    rewrite <- (simplify_sound _ _ _ Hcs), He'; exact Heq.
Qed.

(** ** Registers and allocation *)

Lemma bindLocal_Ok target sid value ex u ex' :
  bindLocal target sid value ex = Ok u ex' ->
  exists s sf rest,
    store ex !! sid = Some s /\ stack s = sf :: rest
    /\ (dest target < length (locals sf))%nat
    /\ ex' = set_store (<[sid := withLocal (dest target) value sf rest s]> (store ex)) ex.
Proof.
  unfold bindLocal. intros Hb. inv_monad. rename a into s.
  destruct (stack s) as [|sf rest] eqn:Hstack; inv_monad.
  destruct (Nat.ltb_spec (dest target) (length (locals sf))); inv_monad.
  exists s, sf, rest. repeat split; assumption.
Qed.

(** When [executeAlloc] is given a size that is (or is uniquely) a
    constant and the memory manager returns no object, the destination
    register is bound to the null pointer, the constant 0 of pointer
    width, and nothing else changes in the engine: the state is not
    terminated and goes on. *)
Lemma failed_allocation_Ok
    sid size isLocal target zeroMemory reallocFrom alignment isheap ex ex' s w v :
  executeAlloc sid size isLocal target zeroMemory reallocFrom alignment isheap ex
    = Ok tt ex' ->
  store ex !! sid = Some s ->
  toUnique (constraints s) size = ConstantExpr w v ->
  allocate (memory ex) (Z.to_N (trunc w v)) isLocal false (prevPC s)
    (if (alignment =? 0)%N then getAllocationAlignment (prevPC s) else alignment)
    = None ->
  exists sf rest,
    stack s = sf :: rest
    /\ ex' = set_store
               (<[sid := withLocal (dest target)
                           (ConstantExpr (pointerWidth (kmodule (config ex))) 0)
                           sf rest s]> (store ex)) ex
    /\ trace ex' = trace ex
    /\ removedStates ex' = removedStates ex
    /\ addedStates ex' = addedStates ex.
Proof.
  unfold executeAlloc. intros Hrun Hs Hsize Hfail. inv_monad.
  rewrite Hs in Hs0. injection Hs0 as <-.
  rewrite Hsize in Hrun. unfold executeAllocConstant in Hrun. inv_monad.
  rewrite Hs in Hs0. injection Hs0 as <-.
  unfold getZExtValue in Hrun. cbn [fst snd] in Hrun. rewrite Hfail in Hrun.
  apply bindLocal_Ok in Hrun as (s' & sf & rest & Hs' & Hstack & _ & ->).
  rewrite Hs in Hs'. injection Hs' as <-.
  exists sf, rest. repeat split. exact Hstack.
Qed.

(** ** Return *)

Lemma eval_operand_Ok ki index sid ex r ex' :
  eval_operand ki index sid ex = Ok r ex' -> ex' = ex.
Proof.
  unfold eval_operand. intros Hb.
  destruct (negb _); inv_monad.
  destruct (_ =? -1); inv_monad.
  destruct (_ <? 0); inv_monad; reflexivity.
Qed.

Lemma transferToBasicBlock_Ok dst src sid ex u ex' :
  transferToBasicBlock dst src sid ex = Ok u ex' ->
  sameOutside ex ex'
  /\ exists s s',
       store ex !! sid = Some s /\ store ex' = <[sid := s']> (store ex)
       /\ stack s' = stack s /\ addressSpace s' = addressSpace s.
Proof.
  unfold transferToBasicBlock. intros Hb. inv_monad. rename a into s.
  destruct (opcode (inst a3)); inv_monad;
    try (split; [repeat split|]; exists s; eexists;
         split; [exact Hs|]; split; [reflexivity|]; split; reflexivity).
  apply updState_Ok in Hb as (s1 & Hs1 & ->). cbn in Hs1.
  rewrite lookup_insert_eq in Hs1. injection Hs1 as <-.
  split; [repeat split|]. exists s. eexists.
  split; [exact Hs|]. split; [cbn; apply insert_insert_eq|].
  split; reflexivity.
Qed.

Lemma resume_after_call_Ok (i : Instruction) c sid ex u ex' :
  match opcode i with
  | Invoke => transferToBasicBlock (normalDest i) (parent i) sid
  | _ => updState sid (set_pc (S c))
  end ex = Ok u ex' ->
  sameOutside ex ex'
  /\ exists s s',
       store ex !! sid = Some s /\ store ex' = <[sid := s']> (store ex)
       /\ stack s' = stack s /\ addressSpace s' = addressSpace s.
Proof.
  intros Hb.
  destruct (opcode i);
    try (apply updState_Ok in Hb as (s & Hs & ->);
         split; [repeat split|]; exists s; eexists;
         split; [exact Hs|]; split; [reflexivity|]; split; reflexivity).
  apply transferToBasicBlock_Ok in Hb. exact Hb.
Qed.

(** [Ret] on the last frame of the stack terminates the state through
    [terminateStateOnExit], with the exit test case (no message, no
    suffix) unless output is restricted to states that covered new code.
    Otherwise the frame is popped; a non-void return into a call of
    non-void type binds the returned value to the destination register of
    the call in the caller's frame, sign-extended when the call site has
    the [SExt] return attribute and zero-extended otherwise whenever the
    value is narrower than the type of the call. *)
Lemma executeRet_Ok sid ki ex ex' s sf rest :
  executeRet sid ki ex = Ok tt ex' ->
  store ex !! sid = Some s ->
  stack s = sf :: rest ->
  (rest = [] ->
     terminates ex ex' sid OnExit
     /\ exists out,
          trace ex' = trace ex ++ Terminated sid OnExit
                        :: (if out : bool then [TestCase sid None None] else [])
          /\ (OnlyOutputStatesCoveringNew (config ex) = false
              \/ coveredNew s = true -> out = true))
  /\ (rest <> [] ->
      exists c kc f2 rest2,
        caller sf = Some c
        /\ instructions (kmodule (config ex)) !! c = Some kc
        /\ rest = f2 :: rest2
        /\ (forall s', store ex' !! sid = Some s' ->
              length (stack s') = length rest /\ tail (stack s') = rest2)
        /\ (forall to,
              numOperands (inst ki) <> 0%nat ->
              typeWidth (inst kc) = Some to ->
              exists r s',
                eval_operand ki 0 sid ex = Ok (Some r) ex
                /\ store ex' !! sid = Some s'
                /\ stack s' =
                     set_locals
                       (<[dest kc :=
                            Some (coerceReturn (hasRetAttrSExt (inst kc)) r to)]>
                          (locals f2)) f2 :: rest2
                /\ trace ex' = trace ex
                /\ removedStates ex' = removedStates ex
                /\ (forall a, (getWidth r < to)%N ->
                      eval a (coerceReturn (hasRetAttrSExt (inst kc)) r to)
                      = if hasRetAttrSExt (inst kc)
                        then trunc to (signed (getWidth r) (eval a r))
                        else eval a r))).
Proof.
  unfold executeRet. intros Hrun Hs Hstack. inv_monad.
  rewrite Hs in Hs0. injection Hs0 as <-.
  rewrite Hstack in *. cbn [head] in Ho. injection Ho as <-.
  assert (ex3 = ex) as ->.
  { destruct (caller sf); inv_monad; reflexivity. }
  assert (Hres : ex4 = ex /\
            (numOperands (inst ki) <> 0%nat -> eval_operand ki 0 sid ex = Ok a3 ex)).
  { destruct (Nat.eqb_spec (numOperands (inst ki)) 0) as [Hv|Hv]; inv_monad.
    - split; [reflexivity | intros Hn; contradiction].
    - pose proof (eval_operand_Ok _ _ _ _ _ _ Hm3) as ->. split; [reflexivity|].
      intros _. exact Hm3. }
  destruct Hres as [-> Hres]. clear Hm3.
  destruct rest as [|f2 rest2].
  - (* the last frame *)
    cbn [length Nat.leb] in Hrun. split; [intros _ | intros Hne; contradiction].
    destruct (caller sf); inv_monad.
    apply terminateStateOnExit_Ok in Hrun as (Hterm & out & Htrace & Hout).
    split; [exact Hterm|]. exists out. split; [exact Htrace|].
    intros Hc. apply (Hout s Hs Hc).
  - (* a caller is waiting *)
    cbn [length Nat.leb] in Hrun. split; [discriminate | intros _].
    inv_monad.
    destruct (caller sf) as [c|] eqn:Hcaller; inv_monad.
    match goal with
    | Hi : instructions _ !! c = Some ?k,
      Hstep : match opcode _ with Invoke => _ | _ => _ end _ = Ok _ ?exb |- _ =>
        rename k into kc; rename Hi into Hinst; rename exb into ex2;
        apply resume_after_call_Ok in Hstep
          as ((Hcfg & Htr & Hrm & Had) & s1 & s2 & Hs1 & Hst2 & Hstack2 & _)
    end.
    exists c, kc, f2, rest2. split; [reflexivity|]. split; [exact Hinst|].
    split; [reflexivity|].
    cbn in Hs1. rewrite lookup_insert_eq in Hs1. injection Hs1 as <-.
    unfold popFrame in Hstack2. rewrite Hstack in Hstack2. cbn in Hstack2.
    assert (Hs2 : store ex2 !! sid = Some s2).
    { rewrite Hst2. apply lookup_insert_eq. }
    destruct (Nat.eqb_spec (numOperands (inst ki)) 0) as [Hv|Hv];
      cbn [negb] in Hrun.
    + (* void return *)
      split; [|intros to Hn; contradiction].
      intros s' Hs'.
      apply when_Ok in Hrun as [[_ Hrun]|[_ ->]].
      * unfold terminateStateOnExecError in Hrun.
        apply terminateStateOnError_Ok in Hrun as (_ & _ & _ & _ & _ & _ & Hdata).
        destruct (Hdata sid s' Hs') as (s0 & Hs0 & (_ & Hst0 & _)).
        rewrite Hs2 in Hs0. injection Hs0 as <-.
        rewrite Hst0, Hstack2. split; reflexivity.
      * rewrite Hs2 in Hs'. injection Hs' as <-. rewrite Hstack2.
        split; reflexivity.
    + (* a value is returned *)
      destruct (typeWidth (inst kc)) as [to|] eqn:Hto; inv_monad.
      * match goal with
        | Hd : deref _ _ = Ok ?x _ |- _ =>
            rename x into r; unfold deref in Hd; inv_monad
        end.
        apply bindLocal_Ok in Hrun as (s3 & f3 & rest3 & Hs3 & Hst3 & _ & ->).
        rewrite Hs2 in Hs3. injection Hs3 as <-.
        rewrite Hstack2 in Hst3. injection Hst3 as <- <-.
        split.
        { intros s' Hs'. cbn in Hs'. rewrite lookup_insert_eq in Hs'.
          injection Hs' as <-. split; reflexivity. }
        intros to' _ [= <-]. exists r. eexists.
        split; [apply Hres; exact Hv|].
        split; [cbn; apply lookup_insert_eq|].
        split; [reflexivity|].
        split; [exact Htr|]. split; [exact Hrm|].
        intros asg Hw. unfold coerceReturn.
        destruct (N.eqb_spec (getWidth r) to) as [Heq|_]; [lia|]. cbn [negb].
        destruct (hasRetAttrSExt (inst kc)).
        -- apply eval_SExtExpr_create. exact Hw.
        -- apply eval_ZExtExpr_create. exact Hw.
      * split; [|intros to' _ Hd; discriminate].
        intros s' Hs'. rewrite Hs2 in Hs'. injection Hs' as <-.
        rewrite Hstack2. split; reflexivity.
Qed.

(** ** The fork budget *)

Lemma appendPath_Ok sid bit ex u ex' :
  appendPath sid bit ex = Ok u ex' ->
  exists s, store ex !! sid = Some s
    /\ ex' = set_store (<[sid := set_pathOS (pathOS s ++ [bit]) s]> (store ex)) ex.
Proof. unfold appendPath. apply updState_Ok. Qed.

Lemma nextBool_Ok ex b ex' :
  nextBool ex = Ok b ex' ->
  b = fst (getBool (rng ex)) /\ ex' = set_rng (snd (getBool (rng ex))) ex.
Proof.
  unfold nextBool. destruct (getBool (rng ex)) as [v g]. cbn.
  intros [= <- <-]. split; reflexivity.
Qed.

Lemma nextInt32_Ok ex r ex' :
  nextInt32 ex = Ok r ex' ->
  r = fst (getInt32 (rng ex)) /\ ex' = set_rng (snd (getInt32 (rng ex))) ex.
Proof.
  unfold nextInt32. destruct (getInt32 (rng ex)) as [v g]. cbn.
  intros [= <- <-]. split; reflexivity.
Qed.

Lemma takenCondition_entailed bit c a :
  eval a (takenCondition bit c) = 1 ->
  if bit then eval a c = 1 else eval a c = 0.
Proof.
  destruct bit; cbn; [auto|]. apply eval_createIsZero.
Qed.

(** Adding the condition of the branch taken, then recording the branch
    in the path of the state. *)
Lemma take_branch current chosen (log : bool) bit exa exb ex' u u' s :
  store exa !! current = Some s ->
  addConstraint current chosen exa = Ok u exb ->
  when log (appendPath current bit) exb = Ok u' ex' ->
  rng ex' = rng exa
  /\ nextState ex' = nextState exa
  /\ addedStates ex' = addedStates exa
  /\ forks ex' = forks exa
  /\ trace ex' = trace exa
  /\ (forall id, id <> current -> store ex' !! id = store exa !! id)
  /\ exists s',
       store ex' !! current = Some s'
       /\ entails (constraints s') chosen
       /\ (isConstant chosen = false ->
           constraints s' = constraints s ++ [chosen]).
Proof.
  intros Hs Hadd Hlog.
  assert (Hmid : sameButStore exa exb
            /\ (forall id, id <> current -> store exb !! id = store exa !! id)
            /\ exists s1, store exb !! current = Some s1
                 /\ entails (constraints s1) chosen
                 /\ (isConstant chosen = false ->
                     constraints s1 = constraints s ++ [chosen])).
  { pose proof Hadd as Hinv. apply addConstraint_Ok in Hinv
      as [(w & v & -> & Ht & ->)|(Hnc & Hsame & s0 & Hs0 & Hst)].
    - split; [apply sameButStore_refl|]. split; [reflexivity|].
      exists s. split; [exact Hs|]. split; [|discriminate].
      eapply addConstraint_entails; [exact Hadd | exact Hs].
    - split; [exact Hsame|]. split.
      + intros id Hne. rewrite Hst. apply lookup_insert_ne. congruence.
      + rewrite Hs in Hs0. injection Hs0 as <-.
        exists (state_addConstraint chosen s).
        split; [rewrite Hst; apply lookup_insert_eq|].
        split; [apply entails_last | intros _; reflexivity]. }
  destruct Hmid as ((Hc & Hn & Ht & Ha & Hr & Hf & Hg & _) & Hother & s1 & Hs1 & He1 & Hc1).
  apply when_Ok in Hlog as [[_ Hlog]|[_ ->]].
  - apply appendPath_Ok in Hlog as (s2 & Hs2 & ->). cbn.
    rewrite Hs1 in Hs2. injection Hs2 as <-.
    repeat split; try assumption.
    + intros id Hne. rewrite lookup_insert_ne by congruence. apply Hother. exact Hne.
    + eexists. split; [apply lookup_insert_eq|]. split; assumption.
  - repeat split; try assumption.
    exists s1. repeat split; assumption.
Qed.

Lemma fork_inhibited current c isInternal ex s r ex' :
  store ex !! current = Some s ->
  seedMap ex !! current = None ->
  replayPath (config ex) = None \/ isInternal = true ->
  maxStaticPctExceeded (config ex) = false ->
  evaluate (constraints s) c = Some VUnknown ->
  forkInhibited s ex = true ->
  fork current c isInternal ex = Ok r ex' ->
  r = takenBranch (fst (getBool (rng ex))) current
  /\ rng ex' = snd (getBool (rng ex))
  /\ nextState ex' = nextState ex
  /\ addedStates ex' = addedStates ex
  /\ forks ex' = forks ex
  /\ trace ex' = trace ex
  /\ (forall id, id <> current -> store ex' !! id = store ex !! id)
  /\ exists s',
       store ex' !! current = Some s'
       /\ entails (constraints s')
            (takenCondition (fst (getBool (rng ex))) c)
       /\ (isConstant c = false ->
           constraints s' =
             constraints s ++ [takenCondition (fst (getBool (rng ex))) c]).
Proof.
  intros Hs Hseed Hreplay Hstatic Heval Hinh Hrun.
  unfold fork in Hrun. inv_monad.
  rewrite Hseed, Hstatic in *.
  rewrite andb_false_r in *. inv_monad.
  match goal with
  | Hl : store ex !! current = Some ?x, Hl' : store ex !! current = Some ?y |- _ =>
      rewrite Hl in Hl'; injection Hl' as <-
  end.
  rewrite Heval in Hrun.
  replace (bool_decide (is_Some (@None (list SeedInfo)))) with false in Hrun
    by (symmetry; apply bool_decide_eq_false; intros [? ?]; discriminate).
  cbn [negb] in Hrun. inv_monad.
  match goal with
  | Hblock : _ ex = Ok ?res _ |- _ =>
      assert (Hcore :
        exists exb u,
          res = (if fst (getBool (rng ex)) then VTrue else VFalse)
          /\ addConstraint current (takenCondition (fst (getBool (rng ex))) c)
               (set_rng (snd (getBool (rng ex))) ex) = Ok u exb
          /\ exb = ltac:(match type of Hblock with _ = Ok _ ?e => exact e end))
  end.
  { assert (Hinner :
      (if replayKTest (config ex)
       then crash "in replay mode, only one branch can be true."
       else
         let* inhibited := gets (forkInhibited s) in
         if inhibited then
           let* b := nextBool in
           if b then addConstraint current c;; ret VTrue
           else addConstraint current (createIsZero c);; ret VFalse
         else ret VUnknown) ex = Ok a ex0).
    { destruct Hreplay as [Hr|Hi].
      - rewrite Hr in Hm. exact Hm.
      - rewrite Hi in Hm. destruct (replayPath (config ex)); exact Hm. }
    destruct (replayKTest (config ex)); inv_monad.
    rewrite Hinh in Hinner. inv_monad.
    match goal with
    | Hb : nextBool _ = Ok _ _ |- _ => apply nextBool_Ok in Hb as [-> ->]
    end.
    destruct (fst (getBool (rng ex))); inv_monad; eauto. }
  destruct Hcore as (exb & u & -> & Hadd & ->).
  assert (Hlive : store (set_rng (snd (getBool (rng ex))) ex) !! current = Some s)
    by exact Hs.
  destruct (fst (getBool (rng ex))) eqn:Hbit; inv_monad;
    match goal with
    | Hw : when _ _ _ = Ok _ _ |- _ =>
        destruct (take_branch _ _ _ _ _ _ _ _ _ _ Hlive Hadd Hw)
          as (Hg & Hn & Ha & Hf & Ht & Hother & s' & Hs' & He' & Hc')
    end;
    repeat match goal with |- _ /\ _ => split end;
    try assumption; try reflexivity;
    exists s'; (split; [exact Hs'|]); (split; [exact He'|]);
    intros Hnc; apply Hc'; cbn [takenCondition];
    first [exact Hnc | apply createIsZero_not_constant; exact Hnc].
Qed.

Lemma singleResult_lookup sid next n i :
  (i < n)%nat ->
  singleResult sid next n 0 !! i = Some (if (i =? next)%nat then Some sid else None).
Proof.
  intros Hi. unfold singleResult.
  rewrite list_lookup_fmap, lookup_seq_lt by exact Hi. reflexivity.
Qed.

Lemma constrainResults_single sid next conditions k ex u ex' :
  constrainResults (singleResult sid next (length conditions) k) conditions ex
    = Ok u ex' ->
  ((k <= next < k + length conditions)%nat ->
     exists c, conditions !! (next - k)%nat = Some c
               /\ addConstraint sid c ex = Ok tt ex')
  /\ (~ (k <= next < k + length conditions)%nat -> ex' = ex).
Proof.
  revert k ex. induction conditions as [|c rest IH]; intros k ex Hrun.
  - cbn in Hrun. inv_monad. split; [cbn; lia | reflexivity].
  - cbn [length singleResult seq map constrainResults] in Hrun.
    fold (singleResult sid next (length rest) (S k)) in Hrun.
    inv_monad. apply IH in Hrun as [Hin Hout].
    destruct (Nat.eqb_spec k next) as [->|Hne].
    + assert (ex' = ex0) as -> by (apply Hout; lia).
      split; [|cbn [length]; lia].
      intros _. exists c. rewrite Nat.sub_diag. split; [reflexivity|].
      destruct a. exact Hm.
    + inv_monad. split.
      * intros Hrange. cbn [length] in Hrange.
        destruct Hin as (c' & Hc' & Hadd); [lia|].
        exists c'. split; [|exact Hadd].
        replace (next - k)%nat with (S (next - S k)) by lia. exact Hc'.
      * intros Hrange. apply Hout. cbn [length] in Hrange. lia.
Qed.

Lemma branch_exhausted sid conditions ex result ex' :
  seedMap ex !! sid = None ->
  forkBudgetExhausted ex = true ->
  branch sid conditions ex = Ok result ex' ->
  let n := length conditions in
  let next := (N.to_nat (fst (getInt32 (rng ex))) mod n)%nat in
  (next < n)%nat
  /\ result = singleResult sid next n 0
  /\ result !! next = Some (Some sid)
  /\ (forall i, (i < n)%nat -> i <> next -> result !! i = Some None)
  /\ nextState ex' = nextState ex
  /\ addedStates ex' = addedStates ex
  /\ forks ex' = forks ex
  /\ exists c, conditions !! next = Some c
       /\ forall s', store ex' !! sid = Some s' -> entails (constraints s') c.
Proof.
  intros Hseed Hbudget Hrun. unfold branch in Hrun.
  destruct (Nat.eqb_spec (length conditions) 0) as [Hz|Hnz]; inv_monad.
  rewrite Hbudget in Hm0. inv_monad.
  match goal with
  | Hr : nextInt32 _ = Ok _ _ |- _ => apply nextInt32_Ok in Hr as [-> ->]
  end.
  cbn [seedMap set_rng] in Hm2. rewrite Hseed in Hm2. inv_monad.
  cbn zeta.
  set (n := length conditions) in *.
  set (next := (N.to_nat (fst (getInt32 (rng ex))) mod n)%nat) in *.
  assert (Hnext : (next < n)%nat) by (apply Nat.mod_upper_bound; exact Hnz).
  fold (singleResult sid next n 0) in *.
  apply constrainResults_single in Hm3 as [Hin _].
  destruct Hin as (c & Hc & Hadd); [lia|]. rewrite Nat.sub_0_r in Hc.
  split; [exact Hnext|]. split; [reflexivity|].
  split; [rewrite singleResult_lookup by exact Hnext; rewrite Nat.eqb_refl; reflexivity|].
  split.
  { intros i Hi Hne. rewrite singleResult_lookup by exact Hi.
    destruct (Nat.eqb_spec i next); [contradiction | reflexivity]. }
  pose proof Hadd as Hinv. apply addConstraint_Ok in Hinv
    as [(w & v & -> & Ht & ->)|(_ & (_ & Hn & _ & Ha & _ & Hf & _) & _)].
  - repeat split. exists (ConstantExpr w v). split; [exact Hc|].
    intros s' Hs'. eapply addConstraint_entails; [exact Hadd | exact Hs'].
  - split; [exact Hn|]. split; [exact Ha|]. split; [exact Hf|].
    exists c. split; [exact Hc|].
    intros s' Hs'. eapply addConstraint_entails; [exact Hadd | exact Hs'].
Qed.

(** ** The error path of memory operations *)

(** On a constant address a memory operation is the fast path, followed
    by the error path when the fast path did not settle the access. *)
Lemma executeMemoryOperation_constant sid isWrite address value target ex ex' s :
  isConstant address = true ->
  store ex !! sid = Some s ->
  executeMemoryOperation sid isWrite address value target ex = Ok tt ex' ->
  let type := accessWidth isWrite value target in
  let bytes := getMinBytesForWidth type in
  let value' := storedValue ex s isWrite value in
  exists fast ex1,
    fastPath isWrite value' target type bytes sid (optimizeExpr address true) ex
      = Ok fast ex1
    /\ match fast with
       | Done => ex' = ex1
       | ErrorPath a => errorPath isWrite value' target type bytes sid a ex1 = Ok tt ex'
       end.
Proof.
  intros Hconst Hs Hrun. unfold executeMemoryOperation in Hrun.
  rewrite Hconst in Hrun. cbn [negb] in Hrun. inv_monad.
  rewrite Hs in Hs0. injection Hs0 as <-.
  rewrite andb_false_r in *.
  exists a1, ex2. split; [exact Hm1|].
  destruct a1; inv_monad; [reflexivity | exact Hrun].
Qed.

Lemma forEach_terminate_Ok (P : Executor -> Prop) (body : nat -> M unit) l ex u ex' :
  (forall x exa ua exb, body x exa = Ok ua exb -> P exa -> P exb) ->
  forEach l body ex = Ok u ex' -> P ex -> P ex'.
Proof.
  intros Hbody. revert ex. induction l as [|x rest IH]; intros ex Hrun HP.
  - cbn in Hrun. inv_monad. exact HP.
  - cbn [forEach] in Hrun. apply bind_Ok in Hrun as (ua & exa & Hx & Hrest).
    eapply IH; [exact Hrest|].
    eapply Hbody; [exact Hx | exact HP].
Qed.

(** Leaving seed-only mode emits nothing and keeps what is retired. *)
Lemma leaveSeedMode_Ok sid ex u ex' :
  leaveSeedMode sid ex = Ok u ex' ->
  config ex' = config ex /\ trace ex' = trace ex
  /\ (forall id, retired ex id -> retired ex' id)
  /\ (OnlySeed ex = false -> ex' = ex).
Proof.
  unfold leaveSeedMode. intros Hrun.
  apply bind_Ok in Hrun as (only & ex0 & Hg & Hrun).
  apply gets_Ok in Hg as [-> ->].
  apply when_Ok in Hrun as [[Honly Hrun]|[Honly ->]].
  2:{ repeat split; auto. }
  apply bind_Ok in Hrun as (all & ex0 & Hg & Hrun).
  apply gets_Ok in Hg as [-> ->].
  apply bind_Ok in Hrun as (u0 & ex1 & Hloop & Hrun).
  apply modify_Ok in Hrun as ->.
  assert (Hinv : config ex1 = config ex /\ trace ex1 = trace ex
                 /\ (forall id, retired ex id -> retired ex1 id)).
  { eapply (forEach_terminate_Ok
              (fun e => config e = config ex /\ trace e = trace ex
                        /\ (forall id, retired ex id -> retired e id)));
      [|exact Hloop|repeat split; auto].
    intros x exa ua exb Hbody (Hc & Ht & Hr). unfold isSeeded in Hbody.
    apply bind_Ok in Hbody as (seeded & exa' & Hg & Hbody).
    apply gets_Ok in Hg as [-> ->].
    destruct (bool_decide _).
    - apply modify_Ok in Hbody as ->. repeat split; auto.
    - apply terminateState_Ok in Hbody as (Hc' & Ht' & _ & Hx & Hother & Hrm & _).
      split; [congruence|]. split; [congruence|].
      intros id Hid. destruct (decide (id = x)) as [->|Hne]; [exact Hx|].
      destruct (Hr id Hid) as [Hin|Hnone]; [left; apply Hrm; exact Hin|].
      right. rewrite Hother by exact Hne. exact Hnone. }
  destruct Hinv as (Hc & Ht & Hr).
  repeat split; auto. intros Hoff. congruence.
Qed.

(** A later register binding leaves a retired state retired. *)
Lemma bindLocal_keeps_retired target sid value ex u ex' id :
  bindLocal target sid value ex = Ok u ex' ->
  retired ex id -> retired ex' id /\ trace ex' = trace ex.
Proof.
  intros Hb Hret. apply bindLocal_Ok in Hb as (s & sf & rest & Hs & _ & _ & ->).
  split; [|reflexivity].
  destruct Hret as [Hin|Hnone]; [left; exact Hin|].
  right. cbn. destruct (decide (id = sid)) as [->|Hne]; [congruence|].
  rewrite lookup_insert_ne by congruence. exact Hnone.
Qed.

(** When a memory operation on a constant
    address reaches the error path with no candidate object (so the state
    itself is left unbound, and the resolution was complete), the address
    lies in the native heap range [n_heap_l < addr <= n_heap_h], and the
    engine is not in seed-only mode, the state is not terminated.  A write
    changes nothing at all.  A read binds the destination register to a
    constant of [bytes] bytes, [bytes] being the access width rounded up
    to whole bytes, each byte 0x88, and changes nothing else. *)
Lemma heap_range_access_Ok
    sid isWrite address value target ex ex' s addr1 ex1 s1 w v :
  let type := accessWidth isWrite value target in
  let bytes := getMinBytesForWidth type in
  let value' := storedValue ex s isWrite value in
  isConstant address = true ->
  store ex !! sid = Some s ->
  executeMemoryOperation sid isWrite address value target ex = Ok tt ex' ->
  fastPath isWrite value' target type bytes sid (optimizeExpr address true) ex
    = Ok (ErrorPath addr1) ex1 ->
  store ex1 !! sid = Some s1 ->
  resolve (addressSpace s1) (constraints s1) (optimizeExpr addr1 true) = ([], false) ->
  optimizeExpr addr1 true = ConstantExpr w v ->
  n_heap_l (config ex1) < trunc w v <= n_heap_h (config ex1) ->
  OnlySeed ex1 = false ->
  if isWrite then ex' = ex1
  else
    exists sf rest,
      stack s1 = sf :: rest
      /\ ex' = set_store
                 (<[sid := withLocal (dest target)
                             (ConstantExpr (8 * bytes)
                                (repeatedByte 136 (N.to_nat bytes)))
                             sf rest s1]> (store ex1)) ex1
      /\ (0 < bytes)%N
      /\ forall i, (i < N.to_nat bytes)%nat ->
           (repeatedByte 136 (N.to_nat bytes) / 2 ^ (8 * Z.of_nat i)) mod 256 = 136.
Proof.
  intros type bytes value' Hconst Hs Hrun Hfast Hs1 Hres Haddr Hin Honly.
  destruct (executeMemoryOperation_constant _ _ _ _ _ _ _ _ Hconst Hs Hrun)
    as (fast & ex1' & Hfast' & Herr).
  fold type bytes value' in Hfast'. rewrite Hfast in Hfast'.
  injection Hfast' as <- <-.
  fold type bytes value' in Herr.
  unfold errorPath in Herr.
  apply bind_Ok in Herr as (s1' & e & Hg & Herr).
  apply getState_Ok in Hg as [Hs1' ->].
  rewrite Hs1 in Hs1'. injection Hs1' as <-.
  apply bind_Ok in Herr as (pw' & e & Hg & Herr). apply gets_Ok in Hg as [-> ->].
  rewrite Hres in Herr. cbn [forkCandidates] in Herr.
  apply bind_Ok in Herr as (unbound & e & Hfork & Herr).
  apply ret_Ok in Hfork as [-> ->].
  unfold handleOverflow in Herr.
  apply bind_Ok in Herr as (u0 & ex3 & Hleave & Herr).
  apply leaveSeedMode_Ok in Hleave as (_ & _ & _ & Hsame).
  rewrite (Hsame Honly) in Herr. clear Hsame ex3.
  apply bind_Ok in Herr as (cfg & e & Hg & Herr). apply gets_Ok in Hg as [-> ->].
  rewrite Haddr in Herr.
  apply bind_Ok in Herr as (u1 & ex4 & Hterm & Herr).
  replace ((trunc w v <=? n_heap_l (config ex1)) || (n_heap_h (config ex1) <? trunc w v))
    with false in Hterm.
  2:{ symmetry. apply orb_false_iff. split.
      - apply Z.leb_gt. lia.
      - apply Z.ltb_ge. lia. }
  cbn [when] in Hterm. apply ret_Ok in Hterm as [_ ->].
  destruct isWrite; cbn [andb negb] in Herr.
  - destruct (isConstant value'); cbn [negb] in Herr;
      apply ret_Ok in Herr as [_ ->]; reflexivity.
  - apply bind_Ok in Herr as (result & e & Hcat & Herr).
    apply option_get_Ok in Hcat as [Hcat ->].
    destruct (N.to_nat bytes) as [|n] eqn:Hbytes; [discriminate|].
    rewrite ConcatExpr_createN_replicate in Hcat. injection Hcat as <-.
    apply bindLocal_Ok in Herr as (s1' & sf & rest & Hs1' & Hstack & _ & ->).
    rewrite Hs1 in Hs1'. injection Hs1' as <-.
    exists sf, rest. split; [exact Hstack|].
    replace (N.of_nat (S n)) with bytes by lia.
    split; [reflexivity|]. split; [lia|].
    intros i Hi. apply repeatedByte_byte; lia.
Qed.

(** ** Indirect calls *)

Lemma bind_ext {A B} (m : M A) (f g : A -> M B) ex :
  (forall a ex', f a ex' = g a ex') -> bind m f ex = bind m g ex.
Proof.
  intros Hfg. unfold bind. destruct (m ex); [apply Hfg | reflexivity..].
Qed.

(** ** Solver failures *)

(** Where [fork] cannot decide its condition because the query failed, it
    reports a time-out on the one state and returns no branch. *)
Lemma fork_reports_query_timeout current c isInternal ex s r ex' :
  store ex !! current = Some s ->
  maxStaticPctExceeded (config ex) = false ->
  evaluate (constraints s) c = None ->
  fork current c isInternal ex = Ok r ex' ->
  r = (None, None)
  /\ terminates (set_store (<[current := set_pc (prevPC s) s]> (store ex)) ex) ex'
       current (Early "Query timed out (fork).").
Proof.
  intros Hs Hpct Hev Hrun. unfold fork in Hrun.
  apply bind_Ok in Hrun as (seeds & e1 & Hg & Hrun). apply gets_Ok in Hg as [-> ->].
  apply bind_Ok in Hrun as (cfg & e1 & Hg & Hrun). apply gets_Ok in Hg as [-> ->].
  rewrite Hpct, andb_false_r in Hrun.
  apply bind_Ok in Hrun as (c' & e1 & Hg & Hrun). apply ret_Ok in Hg as [-> ->].
  apply bind_Ok in Hrun as (s0 & e1 & Hg & Hrun).
  apply getState_Ok in Hg as [Hs0 ->].
  rewrite Hs in Hs0. injection Hs0 as <-.
  rewrite Hev in Hrun.
  apply bind_Ok in Hrun as (u & e1 & Hupd & Hrun).
  apply bind_Ok in Hrun as (u' & e2 & Hterm & Hrun).
  apply ret_Ok in Hrun as [<- <-].
  split; [reflexivity|].
  apply updState_Ok in Hupd as (s1 & Hs1 & ->).
  rewrite Hs in Hs1. injection Hs1 as <-.
  apply terminateStateEarly_Ok in Hterm. exact Hterm.
Qed.

(** ** Runs that return *)

Lemma terminateState_returns sid ex s :
  store ex !! sid = Some s -> exists ex', terminateState sid ex = Ok tt ex'.
Proof.
  intros Hs. unfold terminateState, updState, putState, getState, modify, gets, bind.
  destruct (bool_decide (sid ∈ addedStates ex)).
  - eexists. reflexivity.
  - rewrite Hs. eexists. reflexivity.
Qed.

Lemma terminateStateOnError_returns sid message reason suffix info ex s i :
  store ex !! sid = Some s ->
  getLastNonKleeInternalInstruction (kmodule (config ex)) s = Some i ->
  exists ex', terminateStateOnError sid message reason suffix info ex = Ok tt ex'.
Proof.
  intros Hs Hi. unfold terminateStateOnError.
  unfold bind at 1, emit at 1, modify at 1.
  set (ex1 := set_trace _ ex).
  assert (Hs1 : store ex1 !! sid = Some s) by exact Hs.
  assert (Hi1 : getLastNonKleeInternalInstruction (kmodule (config ex1)) s = Some i)
    by exact Hi.
  unfold bind at 1, getState at 1. rewrite Hs1.
  unfold bind at 1, gets at 1. rewrite Hi1.
  unfold bind at 1, option_get at 1, ret at 1.
  unfold bind at 1, gets at 1.
  assert (Hreport : forall m : M unit, (forall e, exists e', m e = Ok tt e' /\ store e' = store e) ->
            forall k : unit -> M unit,
            (forall e, store e !! sid = Some s -> exists e', k tt e = Ok tt e') ->
            exists e', bind m k ex1 = Ok tt e').
  { intros m Hm k Hk. unfold bind. destruct (Hm ex1) as (e' & -> & Hst).
    apply Hk. rewrite Hst. exact Hs1. }
  apply Hreport.
  - intros e. destruct (EmitAllErrors (config ex1)); [eexists; split; reflexivity|].
    destruct (bool_decide _); eexists; split; reflexivity.
  - intros e He. destruct (terminateState_returns sid e s He) as (e' & Hterm).
    unfold bind. rewrite Hterm.
    destruct (shouldExitOn (config ex1) reason); eexists; reflexivity.
Qed.

Lemma failed_allocation_run_returns
    sid size isLocal target zeroMemory reallocFrom alignment isheap ex s w v sf rest :
  store ex !! sid = Some s ->
  toUnique (constraints s) size = ConstantExpr w v ->
  allocate (memory ex) (Z.to_N (trunc w v)) isLocal false (prevPC s)
    (if (alignment =? 0)%N then getAllocationAlignment (prevPC s) else alignment)
  = None ->
  stack s = sf :: rest ->
  (dest target < length (locals sf))%nat ->
  executeAlloc sid size isLocal target zeroMemory reallocFrom alignment isheap ex
  = Ok tt (set_store
             (<[sid := withLocal (dest target)
                         (ConstantExpr (pointerWidth (kmodule (config ex))) 0)
                         sf rest s]> (store ex)) ex).
Proof.
  intros Hs Hsize Hnone Hstack Hdest.
  unfold executeAlloc. unfold bind at 1, getState at 1. rewrite Hs, Hsize.
  unfold executeAllocConstant. unfold bind at 1, getState at 1. rewrite Hs.
  unfold bind at 1, gets at 1. unfold bind at 1, gets at 1.
  unfold getZExtValue. cbn [fst snd]. rewrite Hnone.
  unfold bindLocal. unfold bind at 1, getState at 1. rewrite Hs, Hstack.
  apply Nat.ltb_lt in Hdest. rewrite Hdest. reflexivity.
Qed.

Lemma toConstant_run_returns sid e reason ex s value :
  store ex !! sid = Some s ->
  seedMap ex !! sid = None ->
  isConstant (simplifyExpr (constraints s) e) = false ->
  getValue (constraints s) (simplifyExpr (constraints s) e) = Some value ->
  toConstant sid e reason ex
  = Ok value
      (set_store
         (<[sid := state_addConstraint
                     (EqExpr (simplifyExpr (constraints s) e) (constantOf value)) s]>
            (store ex)) ex).
Proof.
  intros Hs Hseed Hsym Hval.
  unfold toConstant. unfold bind at 1, getState at 1. rewrite Hs.
  destruct (simplifyExpr (constraints s) e) eqn:He; try discriminate Hsym;
    unfold bind at 1, assertSuccess at 1, option_get at 1; rewrite Hval;
    unfold ret at 1; cbn [EqExpr_create addConstraint];
    unfold bind at 1; unfold bind at 1, gets at 1; rewrite Hseed;
    unfold bind at 1, ret at 1; unfold updState, putState, modify, bind, getState;
    rewrite Hs; reflexivity.
Qed.

(** On a state without seeds, a condition that is not a constant is
    appended to the constraints. *)
Lemma addConstraint_run sid c ex s :
  store ex !! sid = Some s ->
  seedMap ex !! sid = None ->
  isConstant c = false ->
  addConstraint sid c ex
  = Ok tt (set_store (<[sid := state_addConstraint c s]> (store ex)) ex).
Proof.
  intros Hs Hseed Hc.
  destruct c; try discriminate Hc; cbn [addConstraint];
    unfold bind at 1; unfold bind at 1, gets at 1; rewrite Hseed;
    unfold ret at 1; unfold updState, putState, modify, bind, getState;
    rewrite Hs; reflexivity.
Qed.

Lemma appendPath_run sid bit ex s :
  store ex !! sid = Some s ->
  appendPath sid bit ex
  = Ok tt (set_store (<[sid := set_pathOS (pathOS s ++ [bit]) s]> (store ex)) ex).
Proof.
  intros Hs. unfold appendPath, updState, putState, modify, bind, getState.
  rewrite Hs. reflexivity.
Qed.

(** The run of [fork] that the budget inhibits returns. *)
Lemma inhibited_fork_returns current c isInternal ex s :
  store ex !! current = Some s ->
  seedMap ex !! current = None ->
  replayPath (config ex) = None \/ isInternal = true ->
  replayKTest (config ex) = false ->
  maxStaticPctExceeded (config ex) = false ->
  evaluate (constraints s) c = Some VUnknown ->
  forkInhibited s ex = true ->
  isConstant c = false ->
  exists r ex', fork current c isInternal ex = Ok r ex'.
Proof.
  intros Hs Hseed Hreplay Hktest Hpct Hev Hinh Hc. unfold fork.
  unfold bind at 1, gets at 1. rewrite Hseed.
  unfold bind at 1, gets at 1. rewrite Hpct, andb_false_r.
  unfold bind at 1, ret at 1.
  unfold bind at 1, getState at 1. rewrite Hs, Hev.
  replace (bool_decide (is_Some (@None (list SeedInfo)))) with false
    by (symmetry; apply bool_decide_eq_false; intros [? [=]]).
  cbn [negb].
  assert (Hplain : exists b ex1 s1,
    (if replayKTest (config ex)
     then crash "in replay mode, only one branch can be true."
     else
       let* inhibited := gets (forkInhibited s) in
       if inhibited then
         let* b := nextBool in
         if b then addConstraint current c;; ret VTrue
         else addConstraint current (createIsZero c);; ret VFalse
       else ret VUnknown) ex = Ok (if b : bool then VTrue else VFalse) ex1
    /\ store ex1 !! current = Some s1).
  { rewrite Hktest. unfold bind at 1, gets at 1. rewrite Hinh.
    unfold bind at 1, nextBool at 1.
    destruct (getBool (rng ex)) as [b g]. exists b.
    set (ex0 := set_rng g ex).
    assert (Hs0 : store ex0 !! current = Some s) by exact Hs.
    assert (Hseed0 : seedMap ex0 !! current = None) by exact Hseed.
    destruct b; unfold bind at 1.
    - rewrite (addConstraint_run _ _ _ _ Hs0 Hseed0 Hc).
      eexists _, _. split; [reflexivity|]. cbn. apply lookup_insert_eq.
    - rewrite (addConstraint_run _ _ _ _ Hs0 Hseed0 (createIsZero_not_constant _ Hc)).
      eexists _, _. split; [reflexivity|]. cbn. apply lookup_insert_eq. }
  destruct Hplain as (b & ex1 & s1 & Hres & Hs1).
  assert (Hend : forall res : Validity, res = (if b then VTrue else VFalse) ->
    exists r ex',
      (let* res := ret res in
       match res with
       | VTrue =>
           when (negb isInternal && pathWriter (config ex)) (appendPath current true);;
           ret (Some current, None)
       | VFalse =>
           when (negb isInternal && pathWriter (config ex)) (appendPath current false);;
           ret (None, Some current)
       | VUnknown => crash "unreachable"
       end) ex1 = Ok r ex').
  { intros res ->. unfold bind at 1, ret at 1.
    destruct b; (destruct (negb isInternal && pathWriter (config ex)); cbn [when];
      [ unfold bind at 1; rewrite (appendPath_run _ _ _ _ Hs1) | unfold bind at 1, ret at 1 ];
      eexists _, _; reflexivity). }
  destruct (Hend _ eq_refl) as (r & ex' & Hend').
  exists r, ex'. refine (eq_trans _ Hend'). clear Hend Hend'.
  destruct Hreplay as [-> | ->];
    [| destruct (replayPath (config ex)) ];
    unfold bind at 1; rewrite Hres; unfold bind at 1, ret at 1;
    unfold bind at 1, ret at 1; destruct b; reflexivity.
Qed.

Lemma constrainResults_single_returns sid next conditions k ex s :
  store ex !! sid = Some s ->
  seedMap ex !! sid = None ->
  Forall (fun c => isConstant c = false) conditions ->
  exists ex',
    constrainResults (singleResult sid next (length conditions) k) conditions ex
    = Ok tt ex'.
Proof.
  revert k ex s. induction conditions as [|c rest IH]; intros k ex s Hs Hseed Hall.
  - eexists. reflexivity.
  - apply Forall_cons in Hall as [Hc Hrest].
    cbn [length singleResult seq map constrainResults].
    fold (singleResult sid next (length rest) (S k)).
    destruct (k =? next)%nat; unfold bind at 1.
    + rewrite (addConstraint_run _ _ _ _ Hs Hseed Hc).
      eapply IH; [|exact Hseed|exact Hrest]. cbn. apply lookup_insert_eq.
    + unfold ret at 1. eapply IH; [exact Hs|exact Hseed|exact Hrest].
Qed.

(** The run of [branch] on a state without seeds returns once the budget
    is spent. *)
Lemma exhausted_branch_returns sid conditions ex s :
  store ex !! sid = Some s ->
  seedMap ex !! sid = None ->
  forkBudgetExhausted ex = true ->
  conditions <> [] ->
  Forall (fun c => isConstant c = false) conditions ->
  exists result ex', branch sid conditions ex = Ok result ex'.
Proof.
  intros Hs Hseed Hbudget Hne Hall. unfold branch.
  destruct conditions as [|c0 rest0] eqn:Hcs; [congruence|].
  rewrite <- Hcs in *. replace (length conditions =? 0)%nat with false
    by (rewrite Hcs; reflexivity).
  unfold bind at 1, gets at 1. rewrite Hbudget.
  unfold bind at 1. unfold bind at 1, nextInt32 at 1.
  destruct (getInt32 (rng ex)) as [r g]. unfold ret at 1.
  set (ex0 := set_rng g ex).
  assert (Hs0 : store ex0 !! sid = Some s) by exact Hs.
  assert (Hseed0 : seedMap ex0 !! sid = None) by exact Hseed.
  unfold bind at 1, gets at 1. rewrite Hseed0.
  unfold bind at 1, ret at 1.
  destruct (constrainResults_single_returns sid (N.to_nat r mod length conditions)
              conditions 0 ex0 s Hs0 Hseed0 Hall) as (ex' & Hrun).
  unfold singleResult in Hrun. unfold bind at 1. rewrite Hrun.
  eexists _, _. reflexivity.
Qed.

Lemma terminateStateOnExit_returns sid ex s :
  store ex !! sid = Some s -> exists ex', terminateStateOnExit sid ex = Ok tt ex'.
Proof.
  intros Hs. unfold terminateStateOnExit.
  unfold bind at 1, emit at 1, modify at 1.
  set (ex1 := set_trace _ ex).
  assert (Hs1 : store ex1 !! sid = Some s) by exact Hs.
  assert (Hout : exists out, outputsTestCase sid ex1 = Ok out ex1).
  { unfold outputsTestCase, option_of, isSeeded.
    unfold bind at 1, gets at 1.
    destruct (negb _); [eexists; reflexivity|].
    unfold bind at 1, getState at 1. rewrite Hs1.
    destruct (coveredNew s); [eexists; reflexivity|].
    unfold bind at 1, gets at 1.
    destruct (AlwaysOutputSeeds _); eexists; reflexivity. }
  destruct Hout as (out & Hout). unfold bind at 1. rewrite Hout.
  destruct out; cbn [when]; unfold bind at 1.
  - unfold processTestCase at 1, emit at 1, modify at 1.
    apply (terminateState_returns sid _ s). exact Hs.
  - unfold ret at 1. apply (terminateState_returns sid _ s). exact Hs.
Qed.

(** The converse of [executeMemoryOperation_constant]. *)
Lemma executeMemoryOperation_constant_run sid isWrite address value target ex s :
  isConstant address = true ->
  store ex !! sid = Some s ->
  let type := accessWidth isWrite value target in
  let bytes := getMinBytesForWidth type in
  let value' := storedValue ex s isWrite value in
  executeMemoryOperation sid isWrite address value target ex
  = (let* fast := fastPath isWrite value' target type bytes sid
                    (optimizeExpr address true) in
     match fast with
     | Done => ret tt
     | ErrorPath a => errorPath isWrite value' target type bytes sid a
     end) ex.
Proof.
  intros Hconst Hs type bytes value'. unfold executeMemoryOperation.
  rewrite Hconst. cbn [negb].
  unfold bind at 1, getState at 1. rewrite Hs.
  unfold bind at 1, option_of at 1, gets at 1.
  rewrite andb_false_r. reflexivity.
Qed.

Lemma leaveSeedMode_off sid ex :
  OnlySeed ex = false -> leaveSeedMode sid ex = Ok tt ex.
Proof.
  intros Hoff. unfold leaveSeedMode. unfold bind, gets. rewrite Hoff. reflexivity.
Qed.

(** The run of a memory operation that finds no object at an address of
    the native heap. *)
Lemma heap_range_access_run sid isWrite address value target ex s addr1 ex1 s1 w v :
  let type := accessWidth isWrite value target in
  let bytes := getMinBytesForWidth type in
  let value' := storedValue ex s isWrite value in
  isConstant address = true ->
  store ex !! sid = Some s ->
  fastPath isWrite value' target type bytes sid (optimizeExpr address true) ex
    = Ok (ErrorPath addr1) ex1 ->
  store ex1 !! sid = Some s1 ->
  resolve (addressSpace s1) (constraints s1) (optimizeExpr addr1 true) = ([], false) ->
  optimizeExpr addr1 true = ConstantExpr w v ->
  n_heap_l (config ex1) < trunc w v <= n_heap_h (config ex1) ->
  OnlySeed ex1 = false ->
  (isWrite = true ->
   executeMemoryOperation sid isWrite address value target ex = Ok tt ex1)
  /\ (isWrite = false ->
      forall sf rest,
        stack s1 = sf :: rest ->
        (dest target < length (locals sf))%nat ->
        (0 < bytes)%N ->
        executeMemoryOperation sid isWrite address value target ex
        = Ok tt (set_store
                   (<[sid := withLocal (dest target)
                               (ConstantExpr (8 * bytes)
                                  (repeatedByte 136 (N.to_nat bytes)))
                               sf rest s1]> (store ex1)) ex1)).
Proof.
  intros type bytes value' Hconst Hs Hfast Hs1 Hres Haddr Hin Honly.
  assert (Hrun : executeMemoryOperation sid isWrite address value target ex
                 = (if isWrite && negb (isConstant value') then ret tt
                    else if isWrite && isConstant value' then ret tt
                    else
                      let kids := replicate (N.to_nat bytes) (ConstantExpr Int8 136) in
                      let* result := option_get "assert(n > 0)" (ConcatExpr_createN kids) in
                      bindLocal target sid result) ex1).
  { rewrite (executeMemoryOperation_constant_run _ _ _ _ _ _ _ Hconst Hs).
    fold type bytes value'. unfold bind at 1. rewrite Hfast. cbv beta iota.
    unfold errorPath. unfold bind at 1, getState at 1. rewrite Hs1.
    unfold bind at 1, gets at 1. rewrite Hres. cbn [forkCandidates].
    unfold bind at 1, ret at 1.
    unfold handleOverflow. unfold bind at 1. rewrite (leaveSeedMode_off _ _ Honly).
    unfold bind at 1, gets at 1. rewrite Haddr.
    replace ((trunc w v <=? n_heap_l (config ex1)) || (n_heap_h (config ex1) <? trunc w v))
      with false.
    2:{ symmetry. apply orb_false_iff. split.
        - apply Z.leb_gt. lia.
        - apply Z.ltb_ge. lia. }
    cbn [when]. unfold bind at 1, ret at 1.
    destruct isWrite; cbn [andb negb]; [|reflexivity].
    destruct (isConstant value'); reflexivity. }
  rewrite Hrun. clear Hrun. split.
  - intros ->. cbn [andb negb]. destruct (isConstant value'); reflexivity.
  - intros -> sf rest Hstack Hdest Hbytes. cbn [andb negb].
    destruct (N.to_nat bytes) as [|n] eqn:Hn; [lia|].
    cbv zeta. rewrite ConcatExpr_createN_replicate.
    unfold bind at 1, option_get at 1, ret at 1.
    unfold bindLocal. unfold bind at 1, getState at 1. rewrite Hs1, Hstack.
    apply Nat.ltb_lt in Hdest. rewrite Hdest.
    replace (N.of_nat (S n)) with bytes by lia. reflexivity.
Qed.

(** The run of [fork] on an undecided condition, with nothing to inhibit
    it, no path recorded and no depth bound, returns two branches: the
    current state and a new one. *)
Lemma undecided_fork_returns_both current c isInternal ex s :
  store ex !! current = Some s ->
  seedMap ex !! current = None ->
  seedMap ex !! nextState ex = None ->
  current <> nextState ex ->
  replayPath (config ex) = None \/ isInternal = true ->
  replayKTest (config ex) = false ->
  maxStaticPctExceeded (config ex) = false ->
  pathWriter (config ex) = false ->
  symPathWriter (config ex) = false ->
  MaxDepth (config ex) = 0%N ->
  evaluate (constraints s) c = Some VUnknown ->
  forkInhibited s ex = false ->
  isConstant c = false ->
  exists ex', fork current c isInternal ex = Ok (Some current, Some (nextState ex)) ex'.
Proof.
  intros Hs Hseed Hfresh Hne Hreplay Hktest Hpct Hpath Hsym Hdepth Hev Hinh Hc.
  unfold fork.
  unfold bind at 1, gets at 1. rewrite Hseed.
  unfold bind at 1, gets at 1. rewrite Hpct, andb_false_r.
  unfold bind at 1, ret at 1.
  unfold bind at 1, getState at 1. rewrite Hs, Hev.
  replace (bool_decide (is_Some (@None (list SeedInfo)))) with false
    by (symmetry; apply bool_decide_eq_false; intros [? [=]]).
  cbn [negb]. rewrite Hktest, Hpath, Hsym, Hdepth.
  assert (Hres : (match replayPath (config ex), isInternal with
     | Some path, false =>
         let* pos := gets replayPosition in
         let* br := option_get "ran out of branches in replay path mode" (path !! pos) in
         modify (fun ex => set_replayPosition (S pos) ex);;
         (if br : bool then addConstraint current c;; ret VTrue
          else addConstraint current (createIsZero c);; ret VFalse)
     | _, _ =>
         let* inhibited := gets (forkInhibited s) in
         if inhibited then
           let* b := nextBool in
           if b then addConstraint current c;; ret VTrue
           else addConstraint current (createIsZero c);; ret VFalse
         else ret VUnknown
     end) ex = Ok VUnknown ex).
  { assert (Hplain : (let* inhibited := gets (forkInhibited s) in
         if inhibited then
           let* b := nextBool in
           if b then addConstraint current c;; ret VTrue
           else addConstraint current (createIsZero c);; ret VFalse
         else ret VUnknown) ex = Ok VUnknown ex).
    { unfold bind at 1, gets at 1. rewrite Hinh. reflexivity. }
    destruct Hreplay as [-> | ->]; [exact Hplain|].
    destruct (replayPath (config ex)); exact Hplain. }
  unfold bind at 1. rewrite Hres. clear Hres.
  unfold bind at 1, ret at 1.
  unfold bind at 1, modify at 1.
  set (ex1 := set_forks _ ex).
  assert (Hs1 : store ex1 !! current = Some s) by exact Hs.
  unfold bind at 1. unfold stateBranch at 1.
  unfold bind at 1, getState at 1. rewrite Hs1.
  unfold bind at 1, putState at 1, modify at 1.
  unfold bind at 1, gets at 1.
  unfold bind at 1, modify at 1.
  unfold bind at 1, putState at 1, modify at 1.
  unfold ret at 1.
  unfold bind at 1, pushAdded at 1, modify at 1.
  unfold bind at 1, ret at 1.
  cbn [when]. unfold bind at 1, ret at 1. unfold bind at 1, ret at 1.
  set (s1 := set_depth _ s).
  change (nextState (set_store (<[current:=s1]> (store ex1)) ex1)) with (nextState ex).
  unfold bind at 1.
  match goal with |- context [addConstraint current c ?e] => set (ex2 := e) end.
  assert (Hs2 : store ex2 !! current = Some s1).
  { cbn. rewrite lookup_insert_ne by congruence. apply lookup_insert_eq. }
  assert (Hseed2 : seedMap ex2 !! current = None) by exact Hseed.
  rewrite (addConstraint_run _ _ _ _ Hs2 Hseed2 Hc). cbv beta iota.
  unfold bind at 1.
  match goal with |- context [addConstraint (nextState ex) (createIsZero c) ?e] =>
    set (ex3 := e) end.
  assert (Hs3 : store ex3 !! nextState ex = Some (set_coveredNew false s1)).
  { cbn. rewrite lookup_insert_ne by congruence. apply lookup_insert_eq. }
  assert (Hseed3 : seedMap ex3 !! nextState ex = None) by exact Hfresh.
  rewrite (addConstraint_run _ _ _ _ Hs3 Hseed3 (createIsZero_not_constant _ Hc)).
  cbv beta iota.
  unfold bind at 1, getState at 1.
  match goal with |- context [store ?e !! current] => set (ex4 := e) end.
  assert (Hs4 : store ex4 !! current = Some (state_addConstraint c s1)).
  { cbn. rewrite lookup_insert_ne by congruence. apply lookup_insert_eq. }
  rewrite Hs4. cbn [N.eqb negb andb]. eexists. reflexivity.
Qed.

(** ** The claims *)

(** C3, as the code has it.  When a memory operation on a constant
    address reaches the error path with no candidate object (so the state
    itself is left unbound, and the resolution was complete), the address
    lies in the native heap range [n_heap_l < addr <= n_heap_h], and the
    engine is not in seed-only mode, the state is not terminated.  A write
    returns and changes nothing at all.  A read binds the destination
    register to a constant of [bytes] bytes, [bytes] being the access
    width rounded up to whole bytes, each byte 0x88, and changes nothing
    else; it returns when the access is at least one bit wide and the
    register is one of the innermost frame. *)
Theorem unresolved_access_in_heap_range_is_tolerated
    sid isWrite address value target ex s addr1 ex1 s1 w v :
  let type := accessWidth isWrite value target in
  let bytes := getMinBytesForWidth type in
  let value' := storedValue ex s isWrite value in
  let filler := ConstantExpr (8 * bytes) (repeatedByte 136 (N.to_nat bytes)) in
  isConstant address = true ->
  store ex !! sid = Some s ->
  fastPath isWrite value' target type bytes sid (optimizeExpr address true) ex
    = Ok (ErrorPath addr1) ex1 ->
  store ex1 !! sid = Some s1 ->
  resolve (addressSpace s1) (constraints s1) (optimizeExpr addr1 true) = ([], false) ->
  optimizeExpr addr1 true = ConstantExpr w v ->
  n_heap_l (config ex1) < trunc w v <= n_heap_h (config ex1) ->
  OnlySeed ex1 = false ->
  (forall ex',
     executeMemoryOperation sid isWrite address value target ex = Ok tt ex' ->
     if isWrite then ex' = ex1
     else
       exists sf rest,
         stack s1 = sf :: rest
         /\ ex' = set_store
                    (<[sid := withLocal (dest target) filler sf rest s1]> (store ex1))
                    ex1
         /\ (0 < bytes)%N
         /\ forall i, (i < N.to_nat bytes)%nat ->
              (repeatedByte 136 (N.to_nat bytes) / 2 ^ (8 * Z.of_nat i)) mod 256 = 136)
  /\ (isWrite = true ->
      executeMemoryOperation sid isWrite address value target ex = Ok tt ex1)
  /\ (isWrite = false ->
      forall sf rest,
        stack s1 = sf :: rest ->
        (dest target < length (locals sf))%nat ->
        (0 < bytes)%N ->
        executeMemoryOperation sid isWrite address value target ex
        = Ok tt (set_store
                   (<[sid := withLocal (dest target) filler sf rest s1]> (store ex1))
                   ex1)).
Proof.
  intros type bytes value' filler Hconst Hs Hfast Hs1 Hres Haddr Hin Honly. split.
  - intros ex' Hrun.
    exact (heap_range_access_Ok _ _ _ _ _ _ _ _ _ _ _ _ _
             Hconst Hs Hrun Hfast Hs1 Hres Haddr Hin Honly).
  - exact (heap_range_access_run _ _ _ _ _ _ _ _ _ _ _ _
             Hconst Hs Hfast Hs1 Hres Haddr Hin Honly).
Qed.

(** C4.  When [fork] returns two branches, the constraints of the true
    branch imply the condition and the constraints of the false branch
    imply its negation: under them the condition evaluates to zero.  And
    [fork] does return two branches, the current state and a new one, on
    a condition the solver cannot decide when the state has no seeds,
    nothing inhibits the fork, no path is replayed or recorded and the
    depth is not bounded. *)
Theorem fork_branches_imply_condition current c isInternal ex :
  (forall t f ex',
     fork current c isInternal ex = Ok (Some t, Some f) ex' ->
     t = current
     /\ exists st sf,
          store ex' !! t = Some st
          /\ store ex' !! f = Some sf
          /\ entails (constraints st) c
          /\ entails (constraints sf) (createIsZero c)
          /\ entails_value (constraints sf) c 0)
  /\ (forall s,
        store ex !! current = Some s ->
        seedMap ex !! current = None ->
        seedMap ex !! nextState ex = None ->
        current <> nextState ex ->
        replayPath (config ex) = None \/ isInternal = true ->
        replayKTest (config ex) = false ->
        maxStaticPctExceeded (config ex) = false ->
        pathWriter (config ex) = false ->
        symPathWriter (config ex) = false ->
        MaxDepth (config ex) = 0%N ->
        evaluate (constraints s) c = Some VUnknown ->
        forkInhibited s ex = false ->
        isConstant c = false ->
        exists ex',
          fork current c isInternal ex = Ok (Some current, Some (nextState ex)) ex').
Proof.
  split.
  - intros t f ex' Hrun. exact (forked_branches_Ok _ _ _ _ _ _ _ Hrun).
  - intros s. apply undecided_fork_returns_both.
Qed.

(** C5, as the code has it.  For a state without seeds, outside the replay
    of a recorded path (or on an internal fork) and with the static
    fork and solver limit not in effect, a fork that is inhibited (memory
    cap, forking disabled, fork budget exhausted) on a condition of unknown
    validity creates no state: it returns exactly one branch, the current
    state, on the side drawn from the random number generator, and the
    constraints of that state then imply the condition of that side.
    Likewise [branch] over [N] conditions with an exhausted budget returns
    the current state at the position drawn modulo [N], nothing at the
    other positions, and creates no state.  Both runs return when the
    conditions are not constants. *)
Theorem inhibited_fork_takes_one_random_branch :
  (forall current c isInternal ex s,
     store ex !! current = Some s ->
     seedMap ex !! current = None ->
     replayPath (config ex) = None \/ isInternal = true ->
     maxStaticPctExceeded (config ex) = false ->
     evaluate (constraints s) c = Some VUnknown ->
     forkInhibited s ex = true ->
     (forall r ex',
        fork current c isInternal ex = Ok r ex' ->
        r = takenBranch (fst (getBool (rng ex))) current
        /\ nextState ex' = nextState ex
        /\ addedStates ex' = addedStates ex
        /\ forks ex' = forks ex
        /\ exists s',
             store ex' !! current = Some s'
             /\ entails (constraints s') (takenCondition (fst (getBool (rng ex))) c)
             /\ (isConstant c = false ->
                 constraints s' =
                   constraints s ++ [takenCondition (fst (getBool (rng ex))) c]))
     /\ (isConstant c = false ->
         replayKTest (config ex) = false ->
         exists r ex', fork current c isInternal ex = Ok r ex'))
  /\ (forall sid conditions ex,
        seedMap ex !! sid = None ->
        forkBudgetExhausted ex = true ->
        (forall result ex',
           branch sid conditions ex = Ok result ex' ->
           let n := length conditions in
           let next := (N.to_nat (fst (getInt32 (rng ex))) mod n)%nat in
           (next < n)%nat
           /\ result !! next = Some (Some sid)
           /\ (forall i, (i < n)%nat -> i <> next -> result !! i = Some None)
           /\ length result = n
           /\ nextState ex' = nextState ex
           /\ addedStates ex' = addedStates ex
           /\ exists c, conditions !! next = Some c
                /\ forall s', store ex' !! sid = Some s' ->
                     entails (constraints s') c)
        /\ (forall s,
              store ex !! sid = Some s ->
              conditions <> [] ->
              Forall (fun c => isConstant c = false) conditions ->
              exists result ex', branch sid conditions ex = Ok result ex')).
Proof.
  split.
  - intros current c isInternal ex s Hs Hseed Hreplay Hstatic Heval Hinh. split.
    + intros r ex' Hrun.
      destruct (fork_inhibited _ _ _ _ _ _ _ Hs Hseed Hreplay Hstatic Heval Hinh Hrun)
        as (Hr & _ & Hn & Ha & Hf & _ & _ & Hex).
      repeat split; assumption.
    + intros Hc Hktest.
      exact (inhibited_fork_returns _ _ _ _ _ Hs Hseed Hreplay Hktest Hstatic
               Heval Hinh Hc).
  - intros sid conditions ex Hseed Hbudget. split.
    + intros result ex' Hrun.
      destruct (branch_exhausted _ _ _ _ _ Hseed Hbudget Hrun)
        as (Hnext & Hres & Hat & Hother & Hn & Ha & _ & Hc).
      cbn zeta. repeat split; try assumption.
      rewrite Hres. unfold singleResult. rewrite length_map, length_seq. reflexivity.
    + intros s Hs Hne Hall.
      exact (exhausted_branch_returns _ _ _ _ Hs Hseed Hbudget Hne Hall).
Qed.

(** C9, as the code has it.  The claim is that a failed solver query is
    handled and never brings the engine down.  [toConstant] does not
    handle it: on an expression that simplification leaves symbolic, a
    failed [getValue] fails the assertion on its result and the engine
    aborts. *)
Theorem failed_query_in_toConstant_aborts sid e reason ex s :
  store ex !! sid = Some s ->
  isConstant (simplifyExpr (constraints s) e) = false ->
  getValue (constraints s) (simplifyExpr (constraints s) e) = None ->
  toConstant sid e reason ex = Crash "FIXME: Unhandled solver failure".
Proof.
  intros Hs Hsym Hfail. unfold toConstant, bind, getState.
  rewrite Hs. cbn.
  destruct (simplifyExpr (constraints s) e); try discriminate Hsym;
    rewrite Hfail; reflexivity.
Qed.

(** C10.  When [executeAlloc] is given a size that is (or is uniquely) a
    constant and the memory manager returns no object, the destination
    register is bound to the null pointer, the constant 0 of pointer
    width, and nothing else changes in the engine: the state is not
    terminated and goes on.  The call returns when the register is one of
    the innermost frame. *)
Theorem failed_allocation_binds_null
    sid size isLocal target zeroMemory reallocFrom alignment isheap ex s w v :
  let null := ConstantExpr (pointerWidth (kmodule (config ex))) 0 in
  store ex !! sid = Some s ->
  toUnique (constraints s) size = ConstantExpr w v ->
  allocate (memory ex) (Z.to_N (trunc w v)) isLocal false (prevPC s)
    (if (alignment =? 0)%N then getAllocationAlignment (prevPC s) else alignment)
  = None ->
  (forall ex',
     executeAlloc sid size isLocal target zeroMemory reallocFrom alignment isheap ex
       = Ok tt ex' ->
     exists sf rest,
       stack s = sf :: rest
       /\ ex' = set_store
                  (<[sid := withLocal (dest target) null sf rest s]> (store ex)) ex
       /\ trace ex' = trace ex
       /\ removedStates ex' = removedStates ex
       /\ addedStates ex' = addedStates ex)
  /\ (forall sf rest,
        stack s = sf :: rest ->
        (dest target < length (locals sf))%nat ->
        executeAlloc sid size isLocal target zeroMemory reallocFrom alignment isheap ex
        = Ok tt (set_store
                   (<[sid := withLocal (dest target) null sf rest s]> (store ex)) ex)).
Proof.
  intros null Hs Hsize Hnone. split.
  - intros ex' Hrun.
    exact (failed_allocation_Ok _ _ _ _ _ _ _ _ _ _ _ _ _ Hrun Hs Hsize Hnone).
  - intros sf rest Hstack Hdest.
    exact (failed_allocation_run_returns _ _ _ _ _ _ _ _ _ _ _ _ _ _
             Hs Hsize Hnone Hstack Hdest).
Qed.

End EngineFacts.

(** * The state set, deallocation and the remaining handlers, verified *)

(** Two engines are equal when their fields are. *)
Lemma executor_eq (ex ex' : Executor) :
  config ex = config ex' -> store ex = store ex' ->
  nextState ex = nextState ex' -> states ex = states ex' ->
  addedStates ex = addedStates ex' -> removedStates ex = removedStates ex' ->
  seedMap ex = seedMap ex' -> forks ex = forks ex' -> rng ex = rng ex' ->
  replayPosition ex = replayPosition ex' -> haltExecution ex = haltExecution ex' ->
  emittedErrors ex = emittedErrors ex' -> OnlySeed ex = OnlySeed ex' ->
  memory ex = memory ex' -> rrwsId ex = rrwsId ex' -> trace ex = trace ex' ->
  ex = ex'.
Proof. destruct ex, ex'. cbn. intros. subst. reflexivity. Qed.

(** Equality of stores built by insertions, by cases on the key. *)
Ltac same_store :=
  apply map_eq; intros ?i;
  repeat match goal with
         | |- context [<[?k := _]> _ !! ?i] =>
             destruct (decide (i = k)) as [->|?];
             [rewrite ?lookup_insert_eq; repeat (rewrite lookup_insert_ne by congruence; rewrite ?lookup_insert_eq); try reflexivity; try congruence
             |rewrite !(lookup_insert_ne _ k) by congruence]
         end; try reflexivity.

Ltac same_engine :=
  apply executor_eq; cbn; try reflexivity.

(** ** The set of states *)

Lemma elem_of_remove_first x y l :
  NoDup l -> y ∈ remove_first x l <-> y ∈ l /\ y <> x.
Proof.
  induction l as [|z l IH]; intros Hnd; cbn.
  - split; [intros Hy; inversion Hy | intros [Hy _]; inversion Hy].
  - apply NoDup_cons in Hnd as [Hz Hnd].
    destruct (Nat.eqb_spec x z) as [->|Hne].
    + split.
      * intros Hy. split; [right; exact Hy | intros ->; contradiction].
      * intros [Hy Hyz]. apply elem_of_cons in Hy as [Hy|Hy]; [contradiction | exact Hy].
    + rewrite !elem_of_cons, (IH Hnd). split.
      * intros [-> | [Hy Hyx]]; split; auto.
      * intros [[-> | Hy] Hyx]; auto.
Qed.

Lemma NoDup_remove_first x l : NoDup l -> NoDup (remove_first x l).
Proof.
  induction l as [|z l IH]; intros Hnd; cbn; [exact Hnd|].
  pose proof Hnd as Hnd0.
  apply NoDup_cons in Hnd as [Hz Hnd].
  destruct (Nat.eqb_spec x z) as [->|Hne]; [exact Hnd|].
  apply NoDup_cons. split; [|exact (IH Hnd)].
  intros Hin. apply (elem_of_remove_first _ _ _ Hnd) in Hin as [Hin _]. contradiction.
Qed.

Section SetFacts.

Variable addressOf : nat -> Z.

Lemma elem_of_insertByAddress x y l :
  y ∈ insertByAddress addressOf x l <-> y = x \/ y ∈ l.
Proof.
  induction l as [|z l IH]; cbn.
  - rewrite elem_of_cons. split; [intros [->|Hy]; [auto | inversion Hy] | intros [->|Hy]; [left; reflexivity | inversion Hy]].
  - destruct (addressOf x <? addressOf z).
    + rewrite elem_of_cons. reflexivity.
    + rewrite !elem_of_cons, IH. tauto.
Qed.

Lemma NoDup_insertByAddress x l :
  x ∉ l -> NoDup l -> NoDup (insertByAddress addressOf x l).
Proof.
  induction l as [|z l IH]; intros Hx Hnd; cbn.
  - apply NoDup_singleton.
  - destruct (addressOf x <? addressOf z).
    + apply NoDup_cons. split; assumption.
    + apply NoDup_cons in Hnd as [Hz Hnd]. apply not_elem_of_cons in Hx as [Hxz Hx].
      apply NoDup_cons. split; [|exact (IH Hx Hnd)].
      rewrite elem_of_insertByAddress. intros [->|Hin]; contradiction.
Qed.

Lemma elem_of_setInsert x y l :
  y ∈ setInsert addressOf x l <-> y = x \/ y ∈ l.
Proof.
  unfold setInsert. case_bool_decide as Hx.
  - split; [auto | intros [->|Hy]; assumption].
  - apply elem_of_insertByAddress.
Qed.

Lemma NoDup_setInsert x l : NoDup l -> NoDup (setInsert addressOf x l).
Proof.
  intros Hnd. unfold setInsert. case_bool_decide as Hx; [exact Hnd|].
  apply NoDup_insertByAddress; assumption.
Qed.

Lemma elem_of_insertAll added l y :
  y ∈ fold_left (fun l x => setInsert addressOf x l) added l <-> y ∈ l \/ y ∈ added.
Proof.
  revert l. induction added as [|a added IH]; intros l; cbn.
  - split; [auto | intros [Hy|Hy]; [exact Hy | inversion Hy]].
  - rewrite IH, elem_of_setInsert, elem_of_cons. tauto.
Qed.

Lemma NoDup_insertAll added l :
  NoDup l -> NoDup (fold_left (fun l x => setInsert addressOf x l) added l).
Proof.
  revert l. induction added as [|a added IH]; intros l Hnd; cbn; [exact Hnd|].
  apply IH, NoDup_setInsert, Hnd.
Qed.

End SetFacts.

Lemma sameRun_refl ex : sameRun ex ex.
Proof. repeat split. Qed.

Lemma sameRun_trans ex1 ex2 ex3 : sameRun ex1 ex2 -> sameRun ex2 ex3 -> sameRun ex1 ex3.
Proof.
  unfold sameRun. intros (?&?&?&?&?&?&?&?&?) (?&?&?&?&?&?&?&?&?).
  repeat split; congruence.
Qed.

(** The loop over the removed states goes through when they are distinct
    members of the set. *)
Lemma eraseStates_run removed ex :
  NoDup removed -> NoDup (states ex) ->
  (forall x, x ∈ removed -> x ∈ states ex) ->
  exists ex',
    forEach removed eraseState ex = Ok tt ex'
    /\ NoDup (states ex')
    /\ (forall x, x ∈ states ex' <-> x ∈ states ex /\ x ∉ removed)
    /\ (forall x, x ∈ removed -> store ex' !! x = None /\ seedMap ex' !! x = None)
    /\ (forall x, x ∉ removed ->
          store ex' !! x = store ex !! x /\ seedMap ex' !! x = seedMap ex !! x)
    /\ sameRun ex ex'.
Proof.
  revert ex. induction removed as [|r removed IH]; intros ex Hnd Hst Hin.
  - exists ex. split; [reflexivity|]. split; [exact Hst|].
    split; [intros x; split; [intros Hx; split; [exact Hx | intros Hn; inversion Hn]
                             | intros [Hx _]; exact Hx]|].
    split; [intros x Hx; inversion Hx|].
    split; [intros x _; split; reflexivity | apply sameRun_refl].
  - apply NoDup_cons in Hnd as [Hr Hnd].
    assert (Hrin : r ∈ states ex) by (apply Hin; left).
    cbn [forEach]. unfold bind at 1. unfold eraseState at 1.
    unfold bind at 1, gets at 1. rewrite (bool_decide_eq_true_2 _ Hrin).
    unfold bind at 1, modify at 1. unfold bind at 1, modify at 1. unfold modify at 1.
    set (ex1 := set_store _ _).
    assert (Hst1 : NoDup (states ex1)) by (apply NoDup_remove_first; exact Hst).
    assert (Hmem1 : forall x, x ∈ states ex1 <-> x ∈ states ex /\ x <> r)
      by (intros x; apply elem_of_remove_first; exact Hst).
    destruct (IH ex1 Hnd Hst1) as (ex' & Hrun & Hnd' & Hmem & Hgone & Hkept & Hsame).
    { intros x Hx. apply Hmem1. split; [apply Hin; right; exact Hx|].
      intros ->. contradiction. }
    exists ex'. split; [exact Hrun|]. split; [exact Hnd'|].
    split; [|split; [|split]].
    + intros x. rewrite Hmem, Hmem1, not_elem_of_cons. tauto.
    + intros x Hx. destruct (decide (x ∈ removed)) as [Hxr|Hxr]; [exact (Hgone x Hxr)|].
      apply elem_of_cons in Hx as [->|Hx]; [|contradiction].
      destruct (Hkept r Hxr) as [-> ->]. cbn. split; apply lookup_delete_eq.
    + intros x Hx. apply not_elem_of_cons in Hx as [Hxr Hx].
      destruct (Hkept x Hx) as [-> ->]. cbn.
      split; apply lookup_delete_ne; congruence.
    + apply (sameRun_trans _ ex1); [repeat split | exact Hsame].
Qed.

(** The loop fails its assertion as soon as a removed state is not, or is
    no longer, in the set. *)
Lemma eraseStates_crash removed ex :
  NoDup (states ex) ->
  ~ (NoDup removed /\ forall x, x ∈ removed -> x ∈ states ex) ->
  forEach removed eraseState ex = Crash "assert(it2!=states.end())".
Proof.
  revert ex. induction removed as [|r removed IH]; intros ex Hst Hbad.
  - exfalso. apply Hbad. split; [apply NoDup_nil_2 | intros x Hx; inversion Hx].
  - cbn [forEach]. unfold bind at 1. unfold eraseState at 1.
    unfold bind at 1, gets at 1. case_bool_decide as Hrin; [|reflexivity].
    unfold bind at 1, modify at 1. unfold bind at 1, modify at 1. unfold modify at 1.
    apply IH.
    + cbn. apply NoDup_remove_first. exact Hst.
    + intros [Hnd Hin]. apply Hbad. split.
      * apply NoDup_cons. split; [|exact Hnd].
        intros Hr. apply Hin in Hr. cbn in Hr.
        apply (elem_of_remove_first _ _ _ Hst) in Hr as [_ Hr]. congruence.
      * intros x Hx. apply elem_of_cons in Hx as [->|Hx]; [exact Hrin|].
        apply Hin in Hx. cbn in Hx.
        apply (elem_of_remove_first _ _ _ Hst) in Hx as [Hx _]. exact Hx.
Qed.

Section Sweep.

Variable addressOf : nat -> Z.

Lemma updateStates_run ex :
  NoDup (states ex) -> NoDup (removedStates ex) ->
  (forall x, x ∈ removedStates ex -> x ∈ states ex \/ x ∈ addedStates ex) ->
  exists ex',
    updateStates addressOf ex = Ok tt ex'
    /\ addedStates ex' = [] /\ removedStates ex' = []
    /\ NoDup (states ex')
    /\ (forall x, x ∈ states ex' <->
          (x ∈ states ex \/ x ∈ addedStates ex) /\ x ∉ removedStates ex)
    /\ (forall x, x ∈ removedStates ex ->
          store ex' !! x = None /\ seedMap ex' !! x = None)
    /\ (forall x, x ∉ removedStates ex ->
          store ex' !! x = store ex !! x /\ seedMap ex' !! x = seedMap ex !! x)
    /\ config ex' = config ex /\ trace ex' = trace ex
    /\ nextState ex' = nextState ex.
Proof.
  intros Hst Hnd Hin. unfold updateStates.
  unfold bind at 1, modify at 1. unfold bind at 1, modify at 1.
  unfold bind at 1, gets at 1.
  set (ex1 := set_addedStates [] _).
  change (removedStates ex1) with (removedStates ex).
  assert (Hmem1 : forall x, x ∈ states ex1 <-> x ∈ states ex \/ x ∈ addedStates ex)
    by (intros x; apply elem_of_insertAll).
  destruct (eraseStates_run (removedStates ex) ex1 Hnd)
    as (ex2 & Hrun & Hnd2 & Hmem2 & Hgone & Hkept & Hsame).
  { apply NoDup_insertAll. exact Hst. }
  { intros x Hx. apply Hmem1, Hin, Hx. }
  unfold bind at 1. rewrite Hrun. unfold modify.
  destruct Hsame as (Hcfg & Htr & Hnext & Hadd & _).
  eexists. split; [reflexivity|]. cbn.
  split; [exact Hadd|]. split; [reflexivity|]. split; [exact Hnd2|].
  split; [intros x; rewrite Hmem2, Hmem1; reflexivity|].
  split; [exact Hgone|]. split; [exact Hkept|].
  split; [exact Hcfg|]. split; [exact Htr | exact Hnext].
Qed.

Lemma updateStates_crash ex :
  NoDup (states ex) ->
  ~ (NoDup (removedStates ex)
     /\ forall x, x ∈ removedStates ex -> x ∈ states ex \/ x ∈ addedStates ex) ->
  updateStates addressOf ex = Crash "assert(it2!=states.end())".
Proof.
  intros Hst Hbad. unfold updateStates.
  unfold bind at 1, modify at 1. unfold bind at 1, modify at 1.
  unfold bind at 1, gets at 1.
  set (ex1 := set_addedStates [] _).
  change (removedStates ex1) with (removedStates ex).
  unfold bind at 1. rewrite eraseStates_crash; [reflexivity| |].
  - apply NoDup_insertAll. exact Hst.
  - intros [Hnd Hin]. apply Hbad. split; [exact Hnd|].
    intros x Hx. apply (elem_of_insertAll addressOf). exact (Hin x Hx).
Qed.

End Sweep.

Section TerminationRuns.

Context `{Solver} `{ExprOptimizer} `{ConstraintManager} `{MemoryModel}
        `{RNG} `{Seeding}.

Lemma outputsTestCase_run sid ex s :
  store ex !! sid = Some s ->
  outputsTestCase sid ex = Ok (outputs ex sid s) ex.
Proof.
  intros Hs. unfold outputsTestCase, outputs, option_of, isSeeded, bind, gets, getState.
  destruct (OnlyOutputStatesCoveringNew (config ex)); [|reflexivity].
  cbn [negb orb]. rewrite Hs.
  destruct (coveredNew s); [reflexivity|].
  destruct (AlwaysOutputSeeds (config ex)); reflexivity.
Qed.

Lemma terminateState_queued sid ex s :
  store ex !! sid = Some s ->
  sid ∉ addedStates ex ->
  terminateState sid ex = Ok tt (queued sid s ex).
Proof.
  intros Hs Hadd. unfold terminateState, bind at 1, gets at 1.
  rewrite (bool_decide_eq_false_2 _ Hadd).
  unfold updState, putState, modify, bind, getState. rewrite Hs. reflexivity.
Qed.

Lemma terminateState_deleted sid ex :
  sid ∈ addedStates ex ->
  terminateState sid ex = Ok tt (deleted sid ex).
Proof.
  intros Hadd. unfold terminateState, bind at 1, gets at 1.
  rewrite (bool_decide_eq_true_2 _ Hadd). reflexivity.
Qed.

Lemma terminateStateEarly_added_run sid message ex s :
  store ex !! sid = Some s ->
  sid ∈ addedStates ex ->
  terminateStateEarly sid message ex
  = Ok tt (deleted sid (logged (earlyEvents ex sid s message) ex)).
Proof.
  intros Hs Hadd. unfold terminateStateEarly.
  unfold bind at 1, emit at 1, modify at 1.
  set (ex1 := set_trace _ ex).
  assert (Hs1 : store ex1 !! sid = Some s) by exact Hs.
  unfold bind at 1. rewrite (outputsTestCase_run sid ex1 s Hs1).
  change (outputs ex1 sid s) with (outputs ex sid s).
  unfold earlyEvents, logged.
  destruct (outputs ex sid s); cbn [when].
  - unfold bind at 1, processTestCase, emit, modify.
    match goal with |- context [terminateState sid ?e] =>
      rewrite (terminateState_deleted sid e Hadd) end.
    unfold deleted, ex1. cbn. rewrite <- app_assoc. reflexivity.
  - unfold bind at 1, ret at 1.
    match goal with |- context [terminateState sid ?e] =>
      rewrite (terminateState_deleted sid e Hadd) end.
    reflexivity.
Qed.

Lemma terminateStateEarly_run sid message ex s :
  store ex !! sid = Some s ->
  sid ∉ addedStates ex ->
  terminateStateEarly sid message ex
  = Ok tt (queued sid s (logged (earlyEvents ex sid s message) ex)).
Proof.
  intros Hs Hadd. unfold terminateStateEarly.
  unfold bind at 1, emit at 1, modify at 1.
  set (ex1 := set_trace _ ex).
  assert (Hs1 : store ex1 !! sid = Some s) by exact Hs.
  unfold bind at 1. rewrite (outputsTestCase_run sid ex1 s Hs1).
  change (outputs ex1 sid s) with (outputs ex sid s).
  unfold earlyEvents, logged.
  destruct (outputs ex sid s); cbn [when].
  - unfold bind at 1, processTestCase, emit, modify.
    match goal with |- context [terminateState sid ?e] =>
      rewrite (terminateState_queued sid e s Hs Hadd) end.
    unfold queued, ex1. cbn. rewrite <- app_assoc. reflexivity.
  - unfold bind at 1, ret at 1.
    match goal with |- context [terminateState sid ?e] =>
      rewrite (terminateState_queued sid e s Hs Hadd) end. reflexivity.
Qed.

Lemma terminateStateOnError_run sid message r suffix info ex s i :
  store ex !! sid = Some s ->
  sid ∉ addedStates ex ->
  getLastNonKleeInternalInstruction (kmodule (config ex)) s = Some i ->
  terminateStateOnError sid message r suffix info ex
  = Ok tt (failed sid s i message r suffix ex).
Proof.
  intros Hs Hadd Hi. unfold terminateStateOnError.
  unfold bind at 1, emit at 1, modify at 1.
  set (ex1 := set_trace _ ex).
  assert (Hs1 : store ex1 !! sid = Some s) by exact Hs.
  assert (Hi1 : getLastNonKleeInternalInstruction (kmodule (config ex1)) s = Some i)
    by exact Hi.
  unfold bind at 1, getState at 1. rewrite Hs1.
  unfold bind at 1, gets at 1. rewrite Hi1.
  unfold bind at 1, option_get at 1, ret at 1.
  unfold bind at 1, gets at 1.
  change (config ex1) with (config ex). change (emittedErrors ex1) with (emittedErrors ex).
  unfold failed, errorEvents, errorRecorded, logged.
  destruct (EmitAllErrors (config ex)); cbn [orb].
  - unfold bind at 1, processTestCase at 1, emit at 1, modify at 1.
    unfold bind at 1. match goal with |- context [terminateState sid ?e] =>
      rewrite (terminateState_queued sid e s Hs Hadd) end.
    unfold queued, ex1. cbn. rewrite <- app_assoc. cbn.
    destruct (shouldExitOn (config ex) r); reflexivity.
  - destruct (bool_decide ((i, message) ∈ emittedErrors ex)); cbn [negb].
    + unfold bind at 1, ret at 1.
      unfold bind at 1. match goal with |- context [terminateState sid ?e] =>
      rewrite (terminateState_queued sid e s Hs Hadd) end.
      unfold queued, ex1. cbn. destruct (shouldExitOn (config ex) r); reflexivity.
    + unfold bind at 1. unfold bind at 1, modify at 1.
      unfold processTestCase at 1, emit at 1, modify at 1.
      unfold bind at 1. match goal with |- context [terminateState sid ?e] =>
      rewrite (terminateState_queued sid e s Hs Hadd) end.
      unfold queued, ex1. cbn. rewrite <- app_assoc. cbn.
      destruct (shouldExitOn (config ex) r); reflexivity.
Qed.

End TerminationRuns.

Section SchedulerFacts.

Context `{Solver} `{ExprOptimizer} `{ConstraintManager} `{MemoryModel}
        `{RNG} `{Seeding}.

(** Terminating early each state of a list queues them in order, one
    [Terminated] event each, and deletes none. *)
Lemma terminateEach_run message l ex :
  (forall x, x ∈ l -> is_Some (store ex !! x) /\ x ∉ addedStates ex) ->
  exists ex' events,
    forEach l (fun state => terminateStateEarly state message) ex = Ok tt ex'
    /\ removedStates ex' = removedStates ex ++ l
    /\ states ex' = states ex /\ addedStates ex' = addedStates ex
    /\ config ex' = config ex /\ nextState ex' = nextState ex
    /\ seedMap ex' = seedMap ex
    /\ (forall x, is_Some (store ex' !! x) <-> is_Some (store ex !! x))
    /\ trace ex' = trace ex ++ events
    /\ (forall x, x ∈ l -> Terminated x (Early message) ∈ events)
    /\ (OnlyOutputStatesCoveringNew (config ex) = false ->
        forall x, x ∈ l ->
          TestCase x (Some (message +:+ "
")) (Some "early") ∈ events).
Proof.
  revert ex. induction l as [|a l IH]; intros ex Hl.
  - exists ex, []. split; [reflexivity|]. rewrite !app_nil_r.
    repeat split; try reflexivity; try tauto; intros; exfalso;
      match goal with Hx : _ ∈ [] |- _ => inversion Hx end.
  - destruct (Hl a) as [[s Hs] Hadd]; [left|].
    cbn [forEach]. unfold bind at 1.
    rewrite (terminateStateEarly_run a message ex s Hs Hadd).
    set (ex1 := queued a s _).
    destruct (IH ex1) as (ex' & events & Hrun & Hrem & Hst & Hadded & Hcfg & Hnext
                          & Hseed & Hlive & Htr & Hev & Hcase).
    { intros x Hx. destruct (Hl x) as [[sx Hsx] Hxadd]; [right; exact Hx|].
      split; [|exact Hxadd]. cbn.
      destruct (decide (x = a)) as [->|Hne].
      - rewrite lookup_insert_eq. eexists. reflexivity.
      - rewrite lookup_insert_ne by congruence. rewrite Hsx. eexists. reflexivity. }
    exists ex', (earlyEvents ex a s message ++ events).
    split; [exact Hrun|].
    split; [rewrite Hrem; cbn; rewrite <- app_assoc; reflexivity|].
    split; [exact Hst|]. split; [exact Hadded|]. split; [exact Hcfg|].
    split; [exact Hnext|]. split; [exact Hseed|].
    split.
    { intros x. rewrite Hlive. cbn. destruct (decide (x = a)) as [->|Hne].
      - rewrite lookup_insert_eq, Hs. split; intros _; eexists; reflexivity.
      - rewrite lookup_insert_ne by congruence. reflexivity. }
    split; [rewrite Htr; cbn; rewrite <- app_assoc; reflexivity|].
    split.
    + intros x Hx. apply elem_of_app. apply elem_of_cons in Hx as [->|Hx].
      * left. left.
      * right. exact (Hev x Hx).
    + intros Hall x Hx. apply elem_of_app. apply elem_of_cons in Hx as [->|Hx].
      * left. unfold earlyEvents, outputs. rewrite Hall. cbn. right. left.
      * right. exact (Hcase Hall x Hx).
Qed.

End SchedulerFacts.

(** ** The memory cap *)

Lemma swap_out (t : list nat) idx a b :
  t !! idx = Some a -> a :: <[idx := b]> t ≡ₚ b :: t.
Proof.
  intros Ha.
  rewrite <- (take_drop_middle t idx a Ha) at 2.
  rewrite insert_take_drop by (apply lookup_lt_is_Some_1; eexists; exact Ha).
  rewrite <- !Permutation_middle. apply perm_swap.
Qed.

Lemma swap_to_end (arr : list nat) n idx a b :
  (idx < n)%nat -> (n <= length arr)%nat ->
  arr !! idx = Some a -> arr !! (n - 1)%nat = Some b ->
  a :: take (n - 1) (<[(n - 1)%nat := a]> (<[idx := b]> arr)) ≡ₚ take n arr.
Proof.
  intros Hidx Hn Ha Hb.
  rewrite take_insert_ge by lia.
  assert (Htake : take n arr = take (n - 1) arr ++ [b]).
  { rewrite <- (take_S_r arr (n - 1) b Hb). f_equal. lia. }
  rewrite Htake. clear Htake.
  destruct (decide (idx = (n - 1)%nat)) as [->|Hne].
  - rewrite take_insert_ge by lia.
    assert (a = b) by congruence. subst b.
    apply Permutation_cons_append.
  - rewrite take_insert_lt by lia.
    rewrite <- Permutation_cons_append.
    apply swap_out. rewrite lookup_take_lt by lia. exact Ha.
Qed.

Section MemoryCap.

Context `{Solver} `{ExprOptimizer} `{ConstraintManager} `{MemoryModel}
        `{RNG} `{Seeding}.

Variable rand : N -> N * N.

Lemma nextRand_run ex :
  nextRand rand ex = Ok (fst (rand (rng ex))) (set_rng (snd (rand (rng ex))) ex).
Proof. unfold nextRand. destruct (rand (rng ex)). reflexivity. Qed.

Lemma killStates_run toKill : forall arr n ex,
  (n <= length arr)%nat -> NoDup (take n arr) ->
  (forall x, x ∈ take n arr -> is_Some (store ex !! x) /\ x ∉ addedStates ex) ->
  exists ex' killed events,
    killStates rand toKill arr n ex = Ok tt ex'
    /\ removedStates ex' = removedStates ex ++ killed
    /\ NoDup killed
    /\ (forall x, x ∈ killed -> x ∈ take n arr)
    /\ length killed = Nat.min toKill n
    /\ config ex' = config ex /\ states ex' = states ex
    /\ addedStates ex' = addedStates ex /\ nextState ex' = nextState ex
    /\ (forall x, is_Some (store ex' !! x) <-> is_Some (store ex !! x))
    /\ trace ex' = trace ex ++ events
    /\ (forall x, x ∈ killed -> Terminated x (Early memoryLimitMessage) ∈ events).
Proof.
  induction toKill as [|k IH]; intros arr n ex Hn Hnd Hlive.
  - exists ex, [], []. split; [reflexivity|]. rewrite !app_nil_r.
    split; [reflexivity|]. split; [apply NoDup_nil_2|].
    split; [intros x Hx; inversion Hx|]. split; [reflexivity|].
    repeat split; try tauto. intros x Hx; inversion Hx.
  - cbn [killStates]. destruct (Nat.eqb_spec n 0) as [->|Hn0].
    + exists ex, [], []. split; [reflexivity|]. rewrite !app_nil_r.
      split; [reflexivity|]. split; [apply NoDup_nil_2|].
      split; [intros x Hx; inversion Hx|]. split; [cbn; lia|].
      repeat split; try tauto. intros x Hx; inversion Hx.
    + unfold bind at 1. rewrite nextRand_run.
      set (ex1 := set_rng _ ex).
      set (idx0 := (N.to_nat (fst (rand (rng ex))) mod n)%nat).
      assert (Hidx0 : (idx0 < n)%nat) by (apply Nat.mod_upper_bound; exact Hn0).
      destruct (lookup_lt_is_Some_2 arr idx0) as [es Hes]; [lia|].
      rewrite Hes. unfold bind at 1, option_get at 1, ret at 1.
      assert (Hesin : es ∈ take n arr).
      { apply list_elem_of_lookup. exists idx0. rewrite lookup_take_lt by lia. exact Hes. }
      destruct (Hlive es Hesin) as [[s Hs] _].
      unfold bind at 1, getState at 1.
      change (store ex1) with (store ex). rewrite Hs.
      assert (Hdraw : exists idx ex2,
                (if coveredNew s
                 then let* r := nextRand rand in ret (N.to_nat r mod n)%nat
                 else ret idx0) ex1 = Ok idx ex2
                /\ (idx < n)%nat /\ store ex2 = store ex
                /\ addedStates ex2 = addedStates ex /\ removedStates ex2 = removedStates ex
                /\ config ex2 = config ex /\ states ex2 = states ex
                /\ nextState ex2 = nextState ex /\ trace ex2 = trace ex
                /\ seedMap ex2 = seedMap ex).
      { destruct (coveredNew s).
        - unfold bind. rewrite nextRand_run. unfold ret. eexists _, _.
          split; [reflexivity|]. split; [apply Nat.mod_upper_bound; exact Hn0|].
          repeat split.
        - exists idx0, ex1. split; [reflexivity|]. split; [exact Hidx0|]. repeat split. }
      destruct Hdraw as (idx & ex2 & Hdraw & Hidx & Hst2 & Hadd2 & Hrem2 & Hcfg2
                         & Hstates2 & Hnext2 & Htr2 & Hseed2).
      unfold bind at 1. rewrite Hdraw.
      destruct (lookup_lt_is_Some_2 arr idx) as [a Ha]; [lia|].
      destruct (lookup_lt_is_Some_2 arr (n - 1)) as [b Hb]; [lia|].
      rewrite Ha, Hb. unfold bind at 1, option_get at 1, ret at 1.
      unfold bind at 1, option_get at 1, ret at 1.
      assert (Hain : a ∈ take n arr).
      { apply list_elem_of_lookup. exists idx. rewrite lookup_take_lt by lia. exact Ha. }
      destruct (Hlive a Hain) as [[sa Hsa] Haadd].
      assert (Hsa2 : store ex2 !! a = Some sa) by (rewrite Hst2; exact Hsa).
      assert (Haadd2 : a ∉ addedStates ex2) by (rewrite Hadd2; exact Haadd).
      unfold bind at 1.
      rewrite (terminateStateEarly_run a _ ex2 sa Hsa2 Haadd2).
      set (ex3 := queued a sa _).
      set (arr' := <[(n - 1)%nat := a]> (<[idx := b]> arr)).
      pose proof (swap_to_end arr n idx a b Hidx Hn Ha Hb) as Hperm.
      fold arr' in Hperm.
      assert (Hnd' : NoDup (a :: take (n - 1) arr')) by (rewrite Hperm; exact Hnd).
      apply NoDup_cons in Hnd' as [Hanot Hnd'].
      destruct (IH arr' (n - 1)%nat ex3) as
        (ex' & killed & events & Hrun & Hrem & Hndk & Hsub & Hlen & Hcfg & Hstates
         & Hadd & Hnext & Hlive' & Htr & Hev).
      { unfold arr'. rewrite !length_insert. lia. }
      { exact Hnd'. }
      { intros x Hx.
        assert (Hxin : x ∈ take n arr) by (rewrite <- Hperm; right; exact Hx).
        destruct (Hlive x Hxin) as [[sx Hsx] Hxadd].
        split; [|cbn; rewrite Hadd2; exact Hxadd].
        cbn. rewrite Hst2. destruct (decide (x = a)) as [->|Hne].
        - rewrite lookup_insert_eq. eexists; reflexivity.
        - rewrite lookup_insert_ne by congruence. rewrite Hsx. eexists; reflexivity. }
      exists ex', (a :: killed), (earlyEvents ex2 a sa memoryLimitMessage ++ events).
      split; [exact Hrun|].
      split; [rewrite Hrem; cbn; rewrite Hrem2, <- app_assoc; reflexivity|].
      split; [apply NoDup_cons; split; [intros Hk; apply Hanot, Hsub, Hk | exact Hndk]|].
      split.
      { intros x Hx. apply elem_of_cons in Hx as [->|Hx]; [exact Hain|].
        rewrite <- Hperm. right. apply Hsub, Hx. }
      split; [cbn [length]; rewrite Hlen; lia|].
      split; [rewrite Hcfg; exact Hcfg2|]. split; [rewrite Hstates; exact Hstates2|].
      split; [rewrite Hadd; exact Hadd2|]. split; [rewrite Hnext; exact Hnext2|].
      split.
      { intros x. rewrite Hlive'. cbn. rewrite Hst2.
        destruct (decide (x = a)) as [->|Hne].
        - rewrite lookup_insert_eq, Hsa. split; intros _; eexists; reflexivity.
        - rewrite lookup_insert_ne by congruence. reflexivity. }
      split; [rewrite Htr; cbn; rewrite Htr2, <- app_assoc; reflexivity|].
      intros x Hx. apply elem_of_app. apply elem_of_cons in Hx as [->|Hx].
      * left. left.
      * right. exact (Hev x Hx).
Qed.

End MemoryCap.

Section ForkRuns.

Context `{Solver} `{ExprOptimizer} `{ConstraintManager} `{MemoryModel}
        `{RNG} `{Seeding}.

Lemma not_seeded_false :
  bool_decide (is_Some (@None (list SeedInfo))) = false.
Proof. apply bool_decide_eq_false. intros [? [=]]. Qed.

(** The plain decision of [fork] when no path is replayed. *)
Lemma fork_decision_plain (isInternal : bool) (ex : Executor) {A} (m1 : list bool -> M A) (m2 : M A) :
  replayPath (config ex) = None \/ isInternal = true ->
  match replayPath (config ex), isInternal with
  | Some path, false => m1 path
  | _, _ => m2
  end ex = m2 ex.
Proof.
  intros [-> | ->]; [reflexivity|]. destruct (replayPath (config ex)); reflexivity.
Qed.

(** The run of [fork] on an undecided condition, with nothing to inhibit
    it and no path recorded, up to the check of the depth. *)
Lemma undecided_fork_steps current c isInternal ex s :
  store ex !! current = Some s ->
  seedMap ex !! current = None ->
  seedMap ex !! nextState ex = None ->
  current <> nextState ex ->
  replayPath (config ex) = None \/ isInternal = true ->
  replayKTest (config ex) = false ->
  maxStaticPctExceeded (config ex) = false ->
  pathWriter (config ex) = false ->
  symPathWriter (config ex) = false ->
  evaluate (constraints s) c = Some VUnknown ->
  forkInhibited s ex = false ->
  isConstant c = false ->
  fork current c isInternal ex
  = (if negb (MaxDepth (config ex) =? 0)%N
        && (MaxDepth (config ex) <=? depth (trueBranch c s))%N
     then
       terminateStateEarly current "max-depth exceeded.";;
       terminateStateEarly (nextState ex) "max-depth exceeded.";;
       ret (None, None)
     else ret (Some current, Some (nextState ex))) (forked current s c ex).
Proof.
  intros Hs Hseed Hfresh Hne Hreplay Hktest Hpct Hpath Hsym Hev Hinh Hc.
  unfold fork.
  unfold bind at 1, gets at 1. rewrite Hseed.
  unfold bind at 1, gets at 1. rewrite Hpct, andb_false_r.
  unfold bind at 1, ret at 1.
  unfold bind at 1, getState at 1. rewrite Hs, Hev.
  rewrite not_seeded_false.
  cbn [negb]. rewrite Hktest, Hpath, Hsym.
  unfold bind at 1. rewrite (fork_decision_plain isInternal ex _ _ Hreplay).
  unfold bind at 1, gets at 1. rewrite Hinh.
  unfold ret at 1.
  unfold bind at 1, ret at 1.
  unfold bind at 1, modify at 1.
  set (ex1 := set_forks _ ex).
  assert (Hs1 : store ex1 !! current = Some s) by exact Hs.
  unfold bind at 1. unfold stateBranch at 1.
  unfold bind at 1, getState at 1. rewrite Hs1.
  unfold bind at 1, putState at 1, modify at 1.
  unfold bind at 1, gets at 1.
  unfold bind at 1, modify at 1.
  unfold bind at 1, putState at 1, modify at 1.
  unfold ret at 1.
  unfold bind at 1, pushAdded at 1, modify at 1.
  unfold bind at 1, ret at 1.
  cbn [when]. unfold bind at 1, ret at 1. unfold bind at 1, ret at 1.
  set (s1 := set_depth _ s).
  change (nextState (set_store (<[current:=s1]> (store ex1)) ex1)) with (nextState ex).
  unfold bind at 1.
  match goal with |- context [addConstraint current c ?e] => set (ex2 := e) end.
  assert (Hs2 : store ex2 !! current = Some s1).
  { cbn. rewrite lookup_insert_ne by congruence. apply lookup_insert_eq. }
  assert (Hseed2 : seedMap ex2 !! current = None) by exact Hseed.
  rewrite (addConstraint_run _ _ _ _ Hs2 Hseed2 Hc). cbv beta iota.
  unfold bind at 1.
  match goal with |- context [addConstraint (nextState ex) (createIsZero c) ?e] =>
    set (ex3 := e) end.
  assert (Hs3 : store ex3 !! nextState ex = Some (set_coveredNew false s1)).
  { cbn. rewrite lookup_insert_ne by congruence. apply lookup_insert_eq. }
  assert (Hseed3 : seedMap ex3 !! nextState ex = None) by exact Hfresh.
  rewrite (addConstraint_run _ _ _ _ Hs3 Hseed3 (createIsZero_not_constant _ Hc)).
  cbv beta iota.
  unfold bind at 1, getState at 1.
  match goal with |- context [store ?e !! current] => set (ex4 := e) end.
  assert (Hs4 : store ex4 !! current = Some (state_addConstraint c s1)).
  { cbn. rewrite lookup_insert_ne by congruence. apply lookup_insert_eq. }
  rewrite Hs4.
  assert (Hex4 : ex4 = forked current s c ex).
  { unfold forked, ex4, ex3, ex2, ex1, trueBranch, falseBranch. fold s1.
    same_engine. same_store. }
  clearbody ex4. subst ex4. reflexivity.
Qed.

Lemma undecided_fork_run current c isInternal ex s :
  store ex !! current = Some s ->
  seedMap ex !! current = None ->
  seedMap ex !! nextState ex = None ->
  current <> nextState ex ->
  replayPath (config ex) = None \/ isInternal = true ->
  replayKTest (config ex) = false ->
  maxStaticPctExceeded (config ex) = false ->
  pathWriter (config ex) = false ->
  symPathWriter (config ex) = false ->
  MaxDepth (config ex) = 0%N ->
  evaluate (constraints s) c = Some VUnknown ->
  forkInhibited s ex = false ->
  isConstant c = false ->
  fork current c isInternal ex
  = Ok (Some current, Some (nextState ex)) (forked current s c ex).
Proof.
  intros Hs Hseed Hfresh Hne Hreplay Hktest Hpct Hpath Hsym Hdepth Hev Hinh Hc.
  rewrite (undecided_fork_steps current c isInternal ex s) by assumption.
  rewrite Hdepth. reflexivity.
Qed.

(** Beyond the depth bound both branches are terminated: the current
    state is queued for removal, the new one deleted at once. *)
Lemma fork_beyond_depth_run current c isInternal ex s :
  store ex !! current = Some s ->
  seedMap ex !! current = None ->
  seedMap ex !! nextState ex = None ->
  current <> nextState ex ->
  replayPath (config ex) = None \/ isInternal = true ->
  replayKTest (config ex) = false ->
  maxStaticPctExceeded (config ex) = false ->
  pathWriter (config ex) = false ->
  symPathWriter (config ex) = false ->
  evaluate (constraints s) c = Some VUnknown ->
  forkInhibited s ex = false ->
  isConstant c = false ->
  MaxDepth (config ex) <> 0%N ->
  (MaxDepth (config ex) <= (depth s + 1) mod 2 ^ 32)%N ->
  current ∉ addedStates ex ->
  let message := "max-depth exceeded."%string in
  let ex1 := forked current s c ex in
  let ex2 := queued current (trueBranch c s)
               (logged (earlyEvents ex1 current (trueBranch c s) message) ex1) in
  fork current c isInternal ex
  = Ok (None, None)
       (deleted (nextState ex)
          (logged (earlyEvents ex2 (nextState ex) (falseBranch c s) message) ex2)).
Proof.
  intros Hs Hseed Hfresh Hne Hreplay Hktest Hpct Hpath Hsym Hev Hinh Hc Hd0 Hd Hadd
         message ex1 ex2.
  unfold message in *. clear message.
  rewrite (undecided_fork_steps current c isInternal ex s) by assumption.
  fold ex1.
  replace (negb (MaxDepth (config ex) =? 0)%N
           && (MaxDepth (config ex) <=? depth (trueBranch c s))%N) with true.
  2:{ symmetry. apply andb_true_iff. split.
      - apply negb_true_iff, N.eqb_neq, Hd0.
      - apply N.leb_le. exact Hd. }
  assert (Hs1 : store ex1 !! current = Some (trueBranch c s)).
  { cbn. rewrite lookup_insert_ne by congruence. apply lookup_insert_eq. }
  assert (Hadd1 : current ∉ addedStates ex1).
  { cbn. rewrite elem_of_app, elem_of_cons. intros [Hin | [-> | Hin]];
      [contradiction | congruence | inversion Hin]. }
  unfold bind at 1. rewrite (terminateStateEarly_run current _ ex1 _ Hs1 Hadd1).
  fold ex2.
  assert (Hs2 : store ex2 !! nextState ex = Some (falseBranch c s)).
  { cbn. rewrite lookup_insert_ne by congruence. apply lookup_insert_eq. }
  assert (Hadd2 : nextState ex ∈ addedStates ex2).
  { cbn. apply elem_of_app. right. left. }
  unfold bind at 1.
  rewrite (terminateStateEarly_added_run (nextState ex) _ ex2 _ Hs2 Hadd2).
  reflexivity.
Qed.

(** A condition the solver decides takes its side without a fork. *)
Lemma decided_fork_run current c isInternal ex s (bit : bool) :
  store ex !! current = Some s ->
  seedMap ex !! current = None ->
  replayPath (config ex) = None \/ isInternal = true ->
  maxStaticPctExceeded (config ex) = false ->
  evaluate (constraints s) c = Some (if bit then VTrue else VFalse) ->
  fork current c isInternal ex
  = Ok (takenBranch bit current)
       (if negb isInternal && pathWriter (config ex)
        then set_store (<[current := set_pathOS (pathOS s ++ [bit]) s]> (store ex)) ex
        else ex).
Proof.
  intros Hs Hseed Hreplay Hpct Hev. unfold fork.
  unfold bind at 1, gets at 1. rewrite Hseed.
  unfold bind at 1, gets at 1. rewrite Hpct, andb_false_r.
  unfold bind at 1, ret at 1.
  unfold bind at 1, getState at 1. rewrite Hs, Hev.
  rewrite not_seeded_false. cbn [negb].
  unfold bind at 1. rewrite (fork_decision_plain isInternal ex _ _ Hreplay).
  destruct bit; unfold ret at 1; unfold bind at 1, ret at 1;
    (destruct (negb isInternal && pathWriter (config ex)); cbn [when];
     [unfold bind at 1; rewrite (appendPath_run current _ ex s Hs); reflexivity
     | reflexivity]).
Qed.

(** In the replay of a recorded path, [fork] follows the path. *)
Lemma replayed_fork_run current c ex s path res :
  store ex !! current = Some s ->
  seedMap ex !! current = None ->
  replayPath (config ex) = Some path ->
  maxStaticPctExceeded (config ex) = false ->
  pathWriter (config ex) = false ->
  evaluate (constraints s) c = Some res ->
  isConstant c = false ->
  fork current c false ex
  = match path !! replayPosition ex with
    | None => Crash "ran out of branches in replay path mode"
    | Some br =>
        if agrees res br
        then Ok (takenBranch br current) (replayed current s c res br ex)
        else Crash "hit invalid branch in replay path mode"
    end.
Proof.
  intros Hs Hseed Hreplay Hpct Hpath Hev Hc. unfold fork.
  unfold bind at 1, gets at 1. rewrite Hseed.
  unfold bind at 1, gets at 1. rewrite Hpct, andb_false_r.
  unfold bind at 1, ret at 1.
  unfold bind at 1, getState at 1. rewrite Hs, Hev.
  rewrite not_seeded_false. cbn [negb]. rewrite Hreplay, Hpath.
  unfold bind at 1. unfold bind at 1, gets at 1.
  destruct (path !! replayPosition ex) as [br|]; [|reflexivity].
  unfold bind at 1, option_get at 1, ret at 1.
  unfold bind at 1, modify at 1.
  set (ex1 := set_replayPosition _ ex).
  assert (Hs1 : store ex1 !! current = Some s) by exact Hs.
  assert (Hseed1 : seedMap ex1 !! current = None) by exact Hseed.
  destruct res, br; cbn [agrees negb]; try reflexivity.
  - unfold bind at 1. rewrite (addConstraint_run _ _ _ _ Hs1 Hseed1 Hc).
    reflexivity.
  - unfold bind at 1.
    rewrite (addConstraint_run _ _ _ _ Hs1 Hseed1 (createIsZero_not_constant _ Hc)).
    reflexivity.
Qed.

(** A query that fails ends the state. *)
Lemma timed_out_fork_run current c isInternal ex s :
  store ex !! current = Some s ->
  current ∉ addedStates ex ->
  maxStaticPctExceeded (config ex) = false ->
  evaluate (constraints s) c = None ->
  fork current c isInternal ex
  = Ok (None, None)
       (queued current s
          (logged (earlyEvents ex current s "Query timed out (fork).") ex)).
Proof.
  intros Hs Hadd Hpct Hev. unfold fork.
  unfold bind at 1, gets at 1.
  unfold bind at 1, gets at 1. rewrite Hpct, andb_false_r.
  unfold bind at 1, ret at 1.
  unfold bind at 1, getState at 1. rewrite Hs, Hev.
  unfold bind at 1, updState at 1, bind at 1, getState at 1. rewrite Hs.
  unfold putState at 1, modify at 1.
  set (ex1 := set_store _ ex).
  assert (Hs1 : store ex1 !! current = Some (set_pc (prevPC s) s))
    by (cbn; apply lookup_insert_eq).
  assert (Hadd1 : current ∉ addedStates ex1) by exact Hadd.
  unfold bind at 1. rewrite (terminateStateEarly_run current _ ex1 _ Hs1 Hadd1).
  unfold ret. f_equal. unfold queued, logged, earlyEvents, outputs, ex1.
  same_engine. same_store.
Qed.

End ForkRuns.

Section MemoryRuns.

Context `{Solver} `{ExprOptimizer} `{ConstraintManager} `{MemoryModel}
        `{RNG} `{Seeding}.

(** The fast path on an address that resolves to one object: the bounds
    check decides what happens. *)
Lemma fastPath_resolved isWrite value target type bytes sid address ex s mo os :
  store ex !! sid = Some s ->
  resolveOne (addressSpace s) (constraints s) address = Some (Some (mo, os)) ->
  MaxSymArraySize (config ex) = 0%N ->
  let pw := pointerWidth (kmodule (config ex)) in
  let offset := getOffsetExpr pw mo address in
  fastPath isWrite value target type bytes sid address ex
  = match mustBeTrue (constraints s)
            (optimizeExpr (getBoundsCheckOffset pw mo offset bytes) true) with
    | None =>
        (updState sid (fun s => set_pc (prevPC s) s);;
         terminateStateEarly sid "Query timed out (bounds check).";;
         ret Done) ex
    | Some true =>
        (accessObject isWrite value target type sid mo os offset
           (negb (MakeConcreteSymbolic (config ex) =? 0)%N);;
         ret Done) ex
    | Some false => Ok (ErrorPath address) ex
    end.
Proof.
  intros Hs Hres Hmax pw offset. unfold fastPath.
  unfold bind at 1, getState at 1. rewrite Hs.
  unfold bind at 1, gets at 1. rewrite Hres.
  unfold bind at 1, ret at 1. rewrite Hmax. cbn [N.eqb negb andb].
  unfold bind at 1, ret at 1.
  unfold bind at 1, getState at 1. rewrite Hs. fold pw. fold offset.
  destruct (mustBeTrue _ _) as [[|]|]; reflexivity.
Qed.

Lemma bindLocal_run target sid value ex s sf rest :
  store ex !! sid = Some s ->
  stack s = sf :: rest ->
  (dest target < length (locals sf))%nat ->
  bindLocal target sid value ex
  = Ok tt (set_store (<[sid := withLocal (dest target) value sf rest s]> (store ex)) ex).
Proof.
  intros Hs Hstack Hdest. unfold bindLocal, bind, getState. rewrite Hs, Hstack.
  apply Nat.ltb_lt in Hdest. rewrite Hdest. reflexivity.
Qed.

(** A load from a constant address that resolves to one object, within
    its bounds. *)
Lemma load_in_bounds_run sid address value target ex s mo os sf rest :
  isConstant address = true ->
  store ex !! sid = Some s ->
  let a := optimizeExpr address true in
  let type := getWidthForLLVMType (inst target) in
  let pw := pointerWidth (kmodule (config ex)) in
  let offset := getOffsetExpr pw mo a in
  resolveOne (addressSpace s) (constraints s) a = Some (Some (mo, os)) ->
  MaxSymArraySize (config ex) = 0%N ->
  MakeConcreteSymbolic (config ex) = 0%N ->
  mustBeTrue (constraints s)
    (optimizeExpr (getBoundsCheckOffset pw mo offset (getMinBytesForWidth type)) true)
  = Some true ->
  stack s = sf :: rest ->
  (dest target < length (locals sf))%nat ->
  executeMemoryOperation sid false address value target ex
  = Ok tt (set_store
             (<[sid := withLocal (dest target) (os_read os offset type) sf rest s]>
                (store ex)) ex).
Proof.
  intros Hc Hs a type pw offset Hres Hmax Hmcs Hin Hstack Hdest.
  rewrite (executeMemoryOperation_constant_run sid false address value target ex s Hc Hs).
  cbv zeta. unfold accessWidth. cbn [negb].
  unfold bind at 1.
  rewrite (fastPath_resolved false _ target _ _ sid _ ex s mo os Hs Hres Hmax).
  cbv zeta. fold a type pw offset. rewrite Hin.
  rewrite Hmcs. cbn [N.eqb negb]. unfold accessObject.
  unfold bind at 1. unfold bind at 1, ret at 1.
  rewrite (bindLocal_run target sid _ ex s sf rest Hs Hstack Hdest).
  reflexivity.
Qed.

(** A store to a constant address that resolves to one object, within
    its bounds. *)
Lemma store_in_bounds_run sid address value target ex s mo os :
  isConstant address = true ->
  store ex !! sid = Some s ->
  let a := optimizeExpr address true in
  let v := storedValue ex s true value in
  let pw := pointerWidth (kmodule (config ex)) in
  let offset := getOffsetExpr pw mo a in
  resolveOne (addressSpace s) (constraints s) a = Some (Some (mo, os)) ->
  MaxSymArraySize (config ex) = 0%N ->
  mustBeTrue (constraints s)
    (optimizeExpr
       (getBoundsCheckOffset pw mo offset (getMinBytesForWidth (getWidth value))) true)
  = Some true ->
  executeMemoryOperation sid true address value target ex
  = if readOnly os
    then terminateStateOnError sid "memory error: object read only" ReadOnly None "" ex
    else Ok tt (set_store
                  (<[sid := set_addressSpace
                              (rebindObject mo (os_write os offset v) (addressSpace s)) s]>
                     (store ex)) ex).
Proof.
  intros Hc Hs a v pw offset Hres Hmax Hin.
  rewrite (executeMemoryOperation_constant_run sid true address value target ex s Hc Hs).
  cbv zeta. unfold accessWidth.
  unfold bind at 1.
  rewrite (fastPath_resolved true _ target _ _ sid _ ex s mo os Hs Hres Hmax).
  cbv zeta. fold a v pw offset. rewrite Hin.
  unfold accessObject. destruct (readOnly os).
  - unfold bind at 1.
    destruct (terminateStateOnError sid _ ReadOnly None "" ex) as [[] ?| |]; reflexivity.
  - unfold bind at 1. unfold updState at 1, bind at 1, getState at 1. rewrite Hs.
    reflexivity.
Qed.

End MemoryRuns.

Section MemoryTimeout.

Context `{Solver} `{ExprOptimizer} `{ConstraintManager} `{MemoryModel}
        `{RNG} `{Seeding}.

(** A bounds check that the solver does not answer. *)
Lemma bounds_check_timeout_run sid isWrite address value target ex s mo os :
  isConstant address = true ->
  store ex !! sid = Some s ->
  sid ∉ addedStates ex ->
  let a := optimizeExpr address true in
  let pw := pointerWidth (kmodule (config ex)) in
  let bytes := getMinBytesForWidth (accessWidth isWrite value target) in
  resolveOne (addressSpace s) (constraints s) a = Some (Some (mo, os)) ->
  MaxSymArraySize (config ex) = 0%N ->
  mustBeTrue (constraints s)
    (optimizeExpr (getBoundsCheckOffset pw mo (getOffsetExpr pw mo a) bytes) true)
  = None ->
  executeMemoryOperation sid isWrite address value target ex
  = Ok tt (queued sid s
             (logged (earlyEvents ex sid s "Query timed out (bounds check).") ex)).
Proof.
  intros Hc Hs Hadd a pw bytes Hres Hmax Hnone.
  rewrite (executeMemoryOperation_constant_run sid isWrite address value target ex s Hc Hs).
  cbv zeta. fold a bytes.
  unfold bind at 1.
  rewrite (fastPath_resolved isWrite _ target _ bytes sid a ex s mo os Hs Hres Hmax).
  cbv zeta. fold pw. rewrite Hnone.
  unfold bind at 1, updState at 1, bind at 1, getState at 1. rewrite Hs.
  unfold putState at 1, modify at 1.
  set (ex1 := set_store _ ex).
  assert (Hs1 : store ex1 !! sid = Some (set_pc (prevPC s) s))
    by (cbn; apply lookup_insert_eq).
  assert (Hadd1 : sid ∉ addedStates ex1) by exact Hadd.
  unfold bind at 1. rewrite (terminateStateEarly_run sid _ ex1 _ Hs1 Hadd1).
  unfold ret at 1. unfold ret. f_equal.
  unfold queued, logged, earlyEvents, outputs, ex1. same_engine. same_store.
Qed.

End MemoryTimeout.

Section AllocationRuns.

Context `{Solver} `{ExprOptimizer} `{ConstraintManager} `{MemoryModel}
        `{RNG} `{Seeding}.

(** An allocation of constant size that the memory manager grants. *)
Lemma executeAlloc_granted_run
    sid size isLocal target zeroMemory alignment isheap ex s w v mo0 sf rest :
  store ex !! sid = Some s ->
  toUnique (constraints s) size = ConstantExpr w v ->
  allocate (memory ex) (Z.to_N (trunc w v)) isLocal false (prevPC s)
    (if (alignment =? 0)%N then getAllocationAlignment (prevPC s) else alignment)
  = Some mo0 ->
  stack s = sf :: rest ->
  (dest target < length (locals sf))%nat ->
  let mo := if isheap : bool then set_heapAddress (nme_req mo0) mo0 else mo0 in
  let os := freshObjectState mo zeroMemory in
  let pw := pointerWidth (kmodule (config ex)) in
  executeAlloc sid size isLocal target zeroMemory None alignment isheap ex
  = Ok tt (set_store
             (<[sid := allocated mo os isLocal (dest target) pw sf rest s]> (store ex))
             (set_memory (memory ex ++ [mo]) ex)).
Proof.
  intros Hs Hsize Hsome Hstack Hdest mo os pw.
  unfold executeAlloc. unfold bind at 1, getState at 1. rewrite Hs, Hsize.
  unfold executeAllocConstant. unfold bind at 1, getState at 1. rewrite Hs.
  unfold bind at 1, gets at 1. unfold bind at 1, gets at 1.
  unfold getZExtValue. cbn [fst snd]. rewrite Hsome. fold mo.
  unfold bind at 1, modify at 1.
  set (ex1 := set_memory _ ex).
  assert (Hs1 : store ex1 !! sid = Some s) by exact Hs.
  unfold bind at 1. unfold bindObjectInState at 1. fold os.
  unfold bind at 1, updState at 1, bind at 1, getState at 1. rewrite Hs1.
  unfold putState at 1, modify at 1.
  set (s1 := set_addressSpace _ s).
  set (ex2 := set_store _ ex1).
  assert (Hs2 : store ex2 !! sid = Some s1) by (cbn; apply lookup_insert_eq).
  destruct isLocal; cbn [when].
  - unfold bind at 1. unfold bind at 1, getState at 1. rewrite Hs2.
    change (stack s1) with (stack s). rewrite Hstack.
    unfold putState at 1, modify at 1. unfold ret at 1.
    set (s3 := set_stack _ s1). set (ex3 := set_store _ ex2).
    assert (Hs3 : store ex3 !! sid = Some s3) by (cbn; apply lookup_insert_eq).
    unfold bind at 1.
    rewrite (bindLocal_run target sid _ ex3 s3 _ rest Hs3 eq_refl Hdest).
    unfold ret. f_equal.
    unfold allocated, withLocal, ex3, ex2, ex1. same_engine. same_store.
  - unfold bind at 1, ret at 1. unfold ret at 1.
    unfold bind at 1.
    rewrite (bindLocal_run target sid _ ex2 s1 sf rest Hs2 Hstack Hdest).
    unfold ret. f_equal.
    unfold allocated, withLocal, ex2, ex1. same_engine. same_store.
Qed.

End AllocationRuns.

Section FreeRuns.

Context `{Solver} `{ExprOptimizer} `{ConstraintManager} `{MemoryModel}
        `{RNG} `{Seeding}.

Lemma getAddressInfo_run sid a ex s :
  store ex !! sid = Some s ->
  isConstant a = true \/ is_Some (getValue (constraints s) a) ->
  exists info, getAddressInfo sid a ex = Ok info ex.
Proof.
  intros Hs Ha. unfold getAddressInfo.
  destruct a; try (eexists; reflexivity);
    destruct Ha as [Ha | [v Hv]]; try discriminate Ha;
    unfold bind, getState, assertSuccess, option_get; rewrite Hs, Hv;
    eexists; reflexivity.
Qed.

(** A pointer that is the base of the one candidate object. *)
Lemma resolveExact_single sid p name ex s op inc :
  store ex !! sid = Some s ->
  seedMap ex !! sid = None ->
  maxStaticPctExceeded (config ex) = false ->
  let p' := optimizeExpr p true in
  let pw := pointerWidth (kmodule (config ex)) in
  resolve (addressSpace s) (constraints s) p' = ([op], inc) ->
  evaluate (constraints s) (EqExpr_create p' (getBaseExpr pw (fst op))) = Some VTrue ->
  resolveExact sid p name ex = Ok [(op, sid)] ex.
Proof.
  intros Hs Hseed Hpct p' pw Hres Hev. unfold resolveExact. fold p'.
  unfold bind at 1, getState at 1. rewrite Hs.
  unfold bind at 1, gets at 1. rewrite Hres. cbn [fst resolveExactLoop].
  unfold bind at 1. unfold bind at 1. fold pw.
  rewrite (decided_fork_run sid _ true ex s true Hs Hseed (or_intror eq_refl) Hpct Hev).
  cbn [negb andb takenBranch fst snd]. unfold ret at 1.
  unfold bind at 1, ret at 1. reflexivity.
Qed.

(** A pointer with no candidate object. *)
Lemma resolveExact_none sid p name ex s inc i :
  store ex !! sid = Some s ->
  sid ∉ addedStates ex ->
  let p' := optimizeExpr p true in
  resolve (addressSpace s) (constraints s) p' = ([], inc) ->
  isConstant p' = true \/ is_Some (getValue (constraints s) p') ->
  getLastNonKleeInternalInstruction (kmodule (config ex)) s = Some i ->
  resolveExact sid p name ex
  = Ok [] (failed sid s i ("memory error: invalid pointer: " +:+ name) Ptr None ex).
Proof.
  intros Hs Hadd p' Hres Hp Hi. unfold resolveExact. fold p'.
  unfold bind at 1, getState at 1. rewrite Hs.
  unfold bind at 1, gets at 1. rewrite Hres. cbn [fst resolveExactLoop].
  unfold bind at 1, ret at 1.
  destruct (getAddressInfo_run sid p' ex s Hs Hp) as [info Hinfo].
  unfold bind at 1. unfold bind at 1. rewrite Hinfo.
  rewrite (terminateStateOnError_run sid _ Ptr None info ex s i Hs Hadd Hi).
  reflexivity.
Qed.

Lemma bindNull_run (target : option KInstruction) sid pw ex s sf rest :
  store ex !! sid = Some s ->
  stack s = sf :: rest ->
  (forall t, target = Some t -> (dest t < length (locals sf))%nat) ->
  match target with
  | Some t => bindLocal t sid (ConstantExpr pw 0)
  | None => ret tt
  end ex
  = Ok tt (match target with
           | Some _ => updated sid (withNull target pw sf rest s) ex
           | None => ex
           end).
Proof.
  intros Hs Hstack Hdest. destruct target as [t|]; [|reflexivity].
  rewrite (bindLocal_run t sid _ ex s sf rest Hs Hstack (Hdest t eq_refl)).
  reflexivity.
Qed.

(** [free] of a pointer that can only be null. *)
Lemma free_null_run sid address target ex s sf rest :
  store ex !! sid = Some s ->
  seedMap ex !! sid = None ->
  maxStaticPctExceeded (config ex) = false ->
  evaluate (constraints s) (createIsZero (optimizeExpr address true)) = Some VTrue ->
  stack s = sf :: rest ->
  (forall t, target = Some t -> (dest t < length (locals sf))%nat) ->
  executeFree sid address target ex
  = Ok tt (match target with
           | Some _ =>
               updated sid
                 (withNull target (pointerWidth (kmodule (config ex))) sf rest s) ex
           | None => ex
           end).
Proof.
  intros Hs Hseed Hpct Hev Hstack Hdest. unfold executeFree.
  unfold bind at 1, gets at 1. unfold bind at 1.
  rewrite (decided_fork_run sid _ true ex s true Hs Hseed (or_intror eq_refl) Hpct Hev).
  cbn [negb andb takenBranch fst snd].
  unfold bind at 1.
  rewrite (bindNull_run target sid _ ex s sf rest Hs Hstack Hdest).
  reflexivity.
Qed.

(** [free] of a pointer that is not null, once [resolveExact] has found
    what it points to. *)
Lemma free_nonnull_steps sid address target ex s :
  store ex !! sid = Some s ->
  seedMap ex !! sid = None ->
  maxStaticPctExceeded (config ex) = false ->
  evaluate (constraints s) (createIsZero (optimizeExpr address true)) = Some VFalse ->
  executeFree sid address target ex
  = (let address := optimizeExpr address true in
     let pw := pointerWidth (kmodule (config ex)) in
     let* rl := resolveExact sid address "free" in
     forEach rl (fun r =>
       let mo := fst (fst r) in
       let es := snd r in
       if isLocal mo then
         let* info := getAddressInfo es address in
         terminateStateOnError es "free of alloca" Free None info
       else if isGlobal mo then
         let* info := getAddressInfo es address in
         terminateStateOnError es "free of global" Free None info
       else
         updState es (fun s =>
           set_addressSpace (unbindObject mo (addressSpace s)) s);;
         match target with
         | Some t => bindLocal t es (ConstantExpr pw 0)
         | None => ret tt
         end)) ex.
Proof.
  intros Hs Hseed Hpct Hev. unfold executeFree.
  unfold bind at 1, gets at 1. unfold bind at 1.
  rewrite (decided_fork_run sid _ true ex s false Hs Hseed (or_intror eq_refl) Hpct Hev).
  cbn [negb andb takenBranch fst snd].
  unfold bind at 1, ret at 1. reflexivity.
Qed.

(** [free] of the base address of an object that is neither a local nor a
    global. *)
Lemma free_object_run sid address target ex s mo os inc sf rest :
  store ex !! sid = Some s ->
  seedMap ex !! sid = None ->
  maxStaticPctExceeded (config ex) = false ->
  let a := optimizeExpr address true in
  let a' := optimizeExpr a true in
  let pw := pointerWidth (kmodule (config ex)) in
  evaluate (constraints s) (createIsZero a) = Some VFalse ->
  resolve (addressSpace s) (constraints s) a' = ([(mo, os)], inc) ->
  evaluate (constraints s) (EqExpr_create a' (getBaseExpr pw mo)) = Some VTrue ->
  isLocal mo = false -> isGlobal mo = false ->
  stack s = sf :: rest ->
  (forall t, target = Some t -> (dest t < length (locals sf))%nat) ->
  executeFree sid address target ex
  = Ok tt (updated sid (withNull target pw sf rest (released mo s)) ex).
Proof.
  intros Hs Hseed Hpct a a' pw Hnz Hres Heq Hloc Hglob Hstack Hdest.
  rewrite (free_nonnull_steps sid address target ex s Hs Hseed Hpct Hnz).
  cbv zeta. fold a pw. unfold bind at 1.
  rewrite (resolveExact_single sid a "free" ex s (mo, os) inc Hs Hseed Hpct Hres Heq).
  cbn [forEach fst snd]. rewrite Hloc, Hglob.
  unfold bind at 1. unfold bind at 1.
  unfold updState at 1, bind at 1, getState at 1. rewrite Hs.
  unfold putState at 1, modify at 1.
  set (ex1 := set_store _ ex).
  assert (Hs1 : store ex1 !! sid = Some (released mo s)) by (cbn; apply lookup_insert_eq).
  rewrite (bindNull_run target sid pw ex1 (released mo s) sf rest Hs1 Hstack Hdest).
  unfold ret. f_equal. destruct target; [|reflexivity].
  unfold updated, ex1. same_engine. same_store.
Qed.

(** [free] of the base address of a local or of a global. *)
Lemma free_of_alloca_or_global_run sid address target ex s mo os inc i :
  store ex !! sid = Some s ->
  seedMap ex !! sid = None ->
  sid ∉ addedStates ex ->
  maxStaticPctExceeded (config ex) = false ->
  let a := optimizeExpr address true in
  let a' := optimizeExpr a true in
  let pw := pointerWidth (kmodule (config ex)) in
  evaluate (constraints s) (createIsZero a) = Some VFalse ->
  resolve (addressSpace s) (constraints s) a' = ([(mo, os)], inc) ->
  evaluate (constraints s) (EqExpr_create a' (getBaseExpr pw mo)) = Some VTrue ->
  isLocal mo = true \/ isGlobal mo = true ->
  isConstant a = true \/ is_Some (getValue (constraints s) a) ->
  getLastNonKleeInternalInstruction (kmodule (config ex)) s = Some i ->
  executeFree sid address target ex
  = Ok tt (failed sid s i
             (if isLocal mo then "free of alloca" else "free of global")
             Free None ex).
Proof.
  intros Hs Hseed Hadd Hpct a a' pw Hnz Hres Heq Hkind Ha Hi.
  rewrite (free_nonnull_steps sid address target ex s Hs Hseed Hpct Hnz).
  cbv zeta. fold a pw. unfold bind at 1.
  rewrite (resolveExact_single sid a "free" ex s (mo, os) inc Hs Hseed Hpct Hres Heq).
  cbn [forEach fst snd].
  destruct (getAddressInfo_run sid a ex s Hs Ha) as [info Hinfo].
  destruct (isLocal mo) eqn:Hloc.
  - unfold bind at 1. unfold bind at 1. rewrite Hinfo.
    rewrite (terminateStateOnError_run sid _ Free None info ex s i Hs Hadd Hi).
    reflexivity.
  - destruct Hkind as [Hk|Hk]; [discriminate Hk|]. rewrite Hk.
    unfold bind at 1. unfold bind at 1. rewrite Hinfo.
    rewrite (terminateStateOnError_run sid _ Free None info ex s i Hs Hadd Hi).
    reflexivity.
Qed.

(** [free] of a pointer that is the base of no object. *)
Lemma free_of_invalid_pointer_run sid address target ex s inc i :
  store ex !! sid = Some s ->
  seedMap ex !! sid = None ->
  sid ∉ addedStates ex ->
  maxStaticPctExceeded (config ex) = false ->
  let a := optimizeExpr address true in
  let a' := optimizeExpr a true in
  evaluate (constraints s) (createIsZero a) = Some VFalse ->
  resolve (addressSpace s) (constraints s) a' = ([], inc) ->
  isConstant a' = true \/ is_Some (getValue (constraints s) a') ->
  getLastNonKleeInternalInstruction (kmodule (config ex)) s = Some i ->
  executeFree sid address target ex
  = Ok tt (failed sid s i "memory error: invalid pointer: free" Ptr None ex).
Proof.
  intros Hs Hseed Hadd Hpct a a' Hnz Hres Ha Hi.
  rewrite (free_nonnull_steps sid address target ex s Hs Hseed Hpct Hnz).
  cbv zeta. fold a. unfold bind at 1.
  rewrite (resolveExact_none sid a "free" ex s inc i Hs Hadd Hres Ha Hi).
  reflexivity.
Qed.

End FreeRuns.

Section InstructionRuns.

Context `{Solver} `{ExprOptimizer} `{ConstraintManager} `{MemoryModel}
        `{RNG} `{Seeding}.

Lemma transferToBasicBlock_run dst src sid ex s sf rest first :
  store ex !! sid = Some s ->
  stack s = sf :: rest ->
  instructions (kmodule (config ex))
    !! basicBlockEntry (kmodule (config ex)) (kf sf) dst = Some first ->
  transferToBasicBlock dst src sid ex
  = Ok tt (updated sid (arrived (kmodule (config ex)) dst src sf s) ex).
Proof.
  intros Hs Hstack Hfirst. unfold transferToBasicBlock.
  unfold bind at 1, getState at 1. rewrite Hs.
  unfold bind at 1, gets at 1. rewrite Hstack. cbn [head].
  unfold bind at 1, option_get at 1, ret at 1.
  unfold bind at 1, putState at 1, modify at 1.
  cbn [config set_store]. rewrite Hfirst.
  unfold bind at 1, option_get at 1, ret at 1.
  unfold arrived. rewrite Hfirst.
  destruct (opcode (inst first)); try reflexivity.
  unfold updState, bind, getState. cbn [store set_store]. rewrite lookup_insert_eq.
  unfold putState, modify. f_equal. unfold updated. same_engine. same_store.
Qed.

(** An operand that is a register of the innermost frame. *)
Lemma eval_operand_register ki index sid ex s sf rest r :
  store ex !! sid = Some s ->
  stack s = sf :: rest ->
  (index < numOperands (inst ki))%nat ->
  operands ki !! index = Some (Z.of_nat r) ->
  (r < length (locals sf))%nat ->
  eval_operand ki index sid ex = Ok (default None (locals sf !! r)) ex.
Proof.
  intros Hs Hstack Hidx Hop Hr. unfold eval_operand.
  apply Nat.ltb_lt in Hidx. rewrite Hidx. cbn [negb].
  rewrite Hop. unfold bind at 1, option_get at 1, ret at 1.
  destruct (Z.eqb_spec (Z.of_nat r) (-1)) as [Hm|_]; [lia|].
  destruct (Z.ltb_spec (Z.of_nat r) 0) as [Hm|_]; [lia|].
  unfold bind at 1, getState at 1. rewrite Hs, Hstack. cbn [head].
  unfold bind at 1, option_get at 1, ret at 1.
  rewrite Nat2Z.id.
  destruct (lookup_lt_is_Some_2 (locals sf) r Hr) as [val Hval].
  rewrite Hval. reflexivity.
Qed.

Lemma bindCell_run target sid value ex s sf rest :
  store ex !! sid = Some s ->
  stack s = sf :: rest ->
  (dest target < length (locals sf))%nat ->
  bindCell target sid value ex
  = Ok tt (updated sid (withCell (dest target) value sf rest s) ex).
Proof.
  intros Hs Hstack Hdest. unfold bindCell, bind, getState. rewrite Hs, Hstack.
  apply Nat.ltb_lt in Hdest. rewrite Hdest. reflexivity.
Qed.

(** A conditional branch on a condition the solver cannot decide. *)
Lemma executeBr_undecided_run sid ki successor0 successor1 ex s sf rest r cond
    first0 first1 :
  let km := kmodule (config ex) in
  let c := optimizeExpr cond false in
  let src := parent (inst ki) in
  store ex !! sid = Some s ->
  stack s = sf :: rest ->
  (0 < numOperands (inst ki))%nat ->
  operands ki !! 0%nat = Some (Z.of_nat r) ->
  locals sf !! r = Some (Some cond) ->
  seedMap ex !! sid = None ->
  seedMap ex !! nextState ex = None ->
  sid <> nextState ex ->
  replayPath (config ex) = None ->
  replayKTest (config ex) = false ->
  maxStaticPctExceeded (config ex) = false ->
  pathWriter (config ex) = false ->
  symPathWriter (config ex) = false ->
  MaxDepth (config ex) = 0%N ->
  evaluate (constraints s) c = Some VUnknown ->
  forkInhibited s ex = false ->
  isConstant c = false ->
  instructions km !! basicBlockEntry km (kf sf) successor0 = Some first0 ->
  instructions km !! basicBlockEntry km (kf sf) successor1 = Some first1 ->
  executeBr sid ki false successor0 successor1 ex
  = Ok tt (updated (nextState ex)
             (arrived km successor1 src sf (falseBranch c s))
             (updated sid (arrived km successor0 src sf (trueBranch c s))
                (forked sid s c ex))).
Proof.
  intros km c src Hs Hstack Hn Hop Hr Hseed Hfresh Hne Hreplay Hktest Hpct Hpath
         Hsym Hdepth Hev Hinh Hc Hf0 Hf1.
  subst km src. unfold executeBr.
  assert (Hrlt : (r < length (locals sf))%nat)
    by (apply lookup_lt_is_Some_1; eexists; exact Hr).
  unfold bind at 1.
  rewrite (eval_operand_register ki 0 sid ex s sf rest r Hs Hstack Hn Hop Hrlt).
  rewrite Hr. change (default None (Some (Some cond))) with (Some cond).
  unfold bind at 1, deref at 1, option_get at 1, ret at 1.
  fold c. clearbody c. unfold bind at 1.
  rewrite (undecided_fork_run sid c false ex s Hs Hseed Hfresh Hne (or_introl Hreplay)
             Hktest Hpct Hpath Hsym Hdepth Hev Hinh Hc).
  cbn [fst snd].
  set (ex1 := forked sid s c ex).
  assert (Hs1 : store ex1 !! sid = Some (trueBranch c s)).
  { cbn. rewrite lookup_insert_ne by congruence. apply lookup_insert_eq. }
  unfold bind at 1.
  rewrite (transferToBasicBlock_run successor0 _ sid ex1 _ sf rest first0 Hs1 Hstack Hf0).
  set (ex2 := updated sid _ ex1).
  assert (Hs2 : store ex2 !! nextState ex = Some (falseBranch c s)).
  { cbn. rewrite lookup_insert_ne by congruence. apply lookup_insert_eq. }
  rewrite (transferToBasicBlock_run successor1 _ (nextState ex) ex2 _ sf rest first1
             Hs2 Hstack Hf1).
  reflexivity.
Qed.

(** A [PHI] whose incoming index selects a register operand. *)
Lemma executePHI_run sid ki ex s sf rest i r :
  store ex !! sid = Some s ->
  stack s = sf :: rest ->
  incomingBBIndex s = Z.of_nat i ->
  (i < numOperands (inst ki))%nat ->
  (Z.of_nat i < 2 ^ 32) ->
  operands ki !! i = Some (Z.of_nat r) ->
  (r < length (locals sf))%nat ->
  (dest ki < length (locals sf))%nat ->
  executePHI sid ki ex
  = Ok tt (updated sid
             (withCell (dest ki) (default None (locals sf !! r)) sf rest s) ex).
Proof.
  intros Hs Hstack Hidx Hi Hsmall Hop Hr Hdest. unfold executePHI.
  unfold bind at 1, getState at 1. rewrite Hs, Hidx.
  rewrite Z.mod_small by lia. rewrite Nat2Z.id.
  unfold bind at 1.
  rewrite (eval_operand_register ki i sid ex s sf rest r Hs Hstack Hi Hop Hr).
  apply (bindCell_run ki sid _ ex s sf rest Hs Hstack Hdest).
Qed.

(** A [PHI] reached from a block that is not among its incoming blocks:
    the index is [-1], read as an [unsigned]. *)
Lemma executePHI_unknown_predecessor sid ki ex s :
  store ex !! sid = Some s ->
  incomingBBIndex s = -1 ->
  (numOperands (inst ki) < 2 ^ 32 - 1)%nat ->
  executePHI sid ki ex = Crash "assert(index < ki->inst->getNumOperands())".
Proof.
  intros Hs Hidx Hn. unfold executePHI.
  unfold bind at 1, getState at 1. rewrite Hs, Hidx.
  change (-1 mod 2 ^ 32) with 4294967295.
  unfold bind at 1, eval_operand.
  replace (Z.to_nat 4294967295 <? numOperands (inst ki))%nat with false; [reflexivity|].
  symmetry. apply Nat.ltb_ge.
  assert (Z.to_nat 4294967295 = (2 ^ 32 - 1)%nat) by (apply Nat2Z.inj; rewrite Z2Nat.id by lia; rewrite Nat2Z.inj_sub, Nat2Z.inj_pow by (apply Nat.pow_le_mono_r with (b := 0%nat); lia); reflexivity).
  lia.
Qed.

End InstructionRuns.

Lemma boundLocals_length f n : forall i arguments regs,
  length (boundLocals f i n arguments regs) = length regs.
Proof.
  induction n as [|n IH]; intros i arguments regs; cbn; [reflexivity|].
  rewrite IH. apply length_insert.
Qed.

Section CallRuns.

Context `{Solver} `{ExprOptimizer} `{ConstraintManager} `{MemoryModel}
        `{RNG} `{Seeding}.

Variable functionAt : Z -> option Function.
Variable callExternalFunction : nat -> KInstruction -> Z -> list (option Expr) -> M unit.
Variable fabsBits : Width -> Z -> option Z.
Variable RuntimeMaxStackFrames : N.
Variable newObjectState : MemoryObject -> ObjectState.

Lemma bindArguments_run f sid arguments n : forall i ex s sf rest,
  store ex !! sid = Some s ->
  stack s = sf :: rest ->
  (0 < n)%nat ->
  (i + n <= length arguments)%nat ->
  (forall j, (i <= j < i + n)%nat -> (getArgRegister f j < length (locals sf))%nat) ->
  bindArguments f i n sid arguments ex
  = Ok tt (updated sid
             (set_stack
                (set_locals (boundLocals f i n arguments (locals sf)) sf :: rest) s)
             ex).
Proof.
  induction n as [|n IH]; intros i ex s sf rest Hs Hstack Hpos Hlen Hreg; [lia|].
  cbn [bindArguments boundLocals].
  destruct (lookup_lt_is_Some_2 arguments i) as [a Ha]; [lia|].
  rewrite Ha. unfold bind at 1, option_get at 1, ret at 1. cbn [default].
  change (default None (Some a)) with a.
  unfold bind at 1. unfold bindArgument at 1.
  unfold bind at 1, getState at 1. rewrite Hs, Hstack.
  assert (Hri : (getArgRegister f i < length (locals sf))%nat) by (apply Hreg; lia).
  apply Nat.ltb_lt in Hri. rewrite Hri.
  unfold putState at 1, modify at 1.
  destruct n as [|n].
  - cbn [bindArguments boundLocals]. reflexivity.
  - set (s1 := set_stack _ s). set (ex1 := set_store _ ex).
    assert (Hs1 : store ex1 !! sid = Some s1) by (cbn; apply lookup_insert_eq).
    rewrite (IH (S i) ex1 s1 _ rest Hs1 eq_refl); [| lia | lia |].
    + unfold ret. f_equal. unfold updated, ex1. same_engine. same_store.
    + intros j Hj. cbn [locals set_locals]. rewrite length_insert. apply Hreg. lia.
Qed.

(** The call of a function that is defined in the module and takes a
    fixed number of arguments. *)
Lemma executeCall_defined_run sid ki fa arguments ex s f :
  store ex !! sid = Some s ->
  isDbgInfoIntrinsic (inst ki) = false ->
  functionAt fa = Some f ->
  isDeclaration f = false ->
  isVarArg f = false ->
  RuntimeMaxStackFrames = 0%N
  \/ (N.of_nat (length (stack s)) <= RuntimeMaxStackFrames)%N ->
  (arg_size f <= length arguments)%nat ->
  (forall j, (j < arg_size f)%nat -> (getArgRegister f j < numRegisters f)%nat) ->
  executeCall functionAt callExternalFunction fabsBits RuntimeMaxStackFrames
    newObjectState sid ki fa arguments ex
  = Ok tt (updated sid (called f arguments s) ex).
Proof.
  intros Hs Hdbg Hf Hdef Hfixed Hlimit Hargs Hregs.
  unfold executeCall. rewrite Hdbg, Hf.
  unfold bind at 1, option_get at 1, ret at 1. rewrite Hdef.
  unfold bind at 1, getState at 1. rewrite Hs.
  replace (negb (RuntimeMaxStackFrames =? 0)%N
           && (RuntimeMaxStackFrames <? N.of_nat (length (stack s)))%N) with false.
  2:{ symmetry. destruct Hlimit as [-> | Hle]; [reflexivity|].
      apply andb_false_iff. right. apply N.ltb_ge. exact Hle. }
  unfold bind at 1, putState at 1, modify at 1.
  apply Nat.ltb_ge in Hargs. rewrite Hargs, Hfixed. cbn [negb].
  apply Nat.ltb_ge in Hargs.
  set (s1 := set_pc _ _). set (ex1 := set_store _ ex).
  assert (Hs1 : store ex1 !! sid = Some s1) by (cbn; apply lookup_insert_eq).
  destruct (arg_size f) as [|n] eqn:Hn.
  - cbn [bindArguments]. unfold ret. f_equal.
    unfold called. rewrite Hn. reflexivity.
  - rewrite (bindArguments_run f sid arguments (S n) 0 ex1 s1 _ (stack s) Hs1 eq_refl);
      [| lia | lia |].
    + f_equal. unfold called, updated, ex1. rewrite Hn. same_engine. same_store.
    + intros j Hj. cbn [locals]. rewrite length_replicate. apply Hregs. lia.
Qed.

(** A call that does not pass all the formals. *)
Lemma executeCall_too_few_run sid ki fa arguments ex s f i :
  store ex !! sid = Some s ->
  sid ∉ addedStates ex ->
  isDbgInfoIntrinsic (inst ki) = false ->
  functionAt fa = Some f ->
  isDeclaration f = false ->
  RuntimeMaxStackFrames = 0%N
  \/ (N.of_nat (length (stack s)) <= RuntimeMaxStackFrames)%N ->
  (length arguments < arg_size f)%nat ->
  let s1 := set_pc (kfEntry f) (pushFrame (prevPC s) f s) in
  getLastNonKleeInternalInstruction (kmodule (config ex)) s1 = Some i ->
  executeCall functionAt callExternalFunction fabsBits RuntimeMaxStackFrames
    newObjectState sid ki fa arguments ex
  = Ok tt (failed sid s1 i "calling function with too few arguments" User None
             (updated sid s1 ex)).
Proof.
  intros Hs Hadd Hdbg Hf Hdef Hlimit Hargs s1 Hi.
  unfold executeCall. rewrite Hdbg, Hf.
  unfold bind at 1, option_get at 1, ret at 1. rewrite Hdef.
  unfold bind at 1, getState at 1. rewrite Hs.
  replace (negb (RuntimeMaxStackFrames =? 0)%N
           && (RuntimeMaxStackFrames <? N.of_nat (length (stack s)))%N) with false.
  2:{ symmetry. destruct Hlimit as [-> | Hle]; [reflexivity|].
      apply andb_false_iff. right. apply N.ltb_ge. exact Hle. }
  unfold bind at 1, putState at 1, modify at 1.
  apply Nat.ltb_lt in Hargs. rewrite Hargs.
  fold s1. change (set_store (<[sid:=s1]> (store ex)) ex) with (updated sid s1 ex).
  apply terminateStateOnError_run.
  - cbn. apply lookup_insert_eq.
  - exact Hadd.
  - exact Hi.
Qed.

(** A call on a stack that is deeper than the limit. *)
Lemma executeCall_stack_limit_run sid ki fa arguments ex s f :
  store ex !! sid = Some s ->
  sid ∉ addedStates ex ->
  isDbgInfoIntrinsic (inst ki) = false ->
  functionAt fa = Some f ->
  isDeclaration f = false ->
  RuntimeMaxStackFrames <> 0%N ->
  (RuntimeMaxStackFrames < N.of_nat (length (stack s)))%N ->
  executeCall functionAt callExternalFunction fabsBits RuntimeMaxStackFrames
    newObjectState sid ki fa arguments ex
  = Ok tt (queued sid s
             (logged (earlyEvents ex sid s "Maximum stack size reached.") ex)).
Proof.
  intros Hs Hadd Hdbg Hf Hdef Hlimit Hdeep.
  unfold executeCall. rewrite Hdbg, Hf.
  unfold bind at 1, option_get at 1, ret at 1. rewrite Hdef.
  unfold bind at 1, getState at 1. rewrite Hs.
  replace (negb (RuntimeMaxStackFrames =? 0)%N
           && (RuntimeMaxStackFrames <? N.of_nat (length (stack s)))%N) with true.
  2:{ symmetry. apply andb_true_iff. split.
      - apply negb_true_iff, N.eqb_neq, Hlimit.
      - apply N.ltb_lt, Hdeep. }
  apply terminateStateEarly_run; assumption.
Qed.

(** The return from a function that returns nothing, to a call whose
    result is not used. *)
Lemma executeRet_void_run sid ki ex s sf f2 rest2 c kc :
  store ex !! sid = Some s ->
  stack s = sf :: f2 :: rest2 ->
  caller sf = Some c ->
  instructions (kmodule (config ex)) !! c = Some kc ->
  opcode (inst kc) = Call ->
  numOperands (inst ki) = 0%nat ->
  use_empty (inst kc) = true ->
  executeRet sid ki ex = Ok tt (updated sid (set_pc (S c) (popFrame s)) ex).
Proof.
  intros Hs Hstack Hcaller Hkc Hcall Hvoid Hunused. unfold executeRet.
  unfold bind at 1, getState at 1. rewrite Hs.
  unfold bind at 1, gets at 1. rewrite Hstack. cbn [head].
  unfold bind at 1, option_get at 1, ret at 1. rewrite Hcaller, Hkc.
  unfold bind at 1. unfold bind at 1, option_get at 1, ret at 1. unfold ret at 1.
  rewrite Hvoid. cbn [Nat.eqb]. unfold bind at 1, ret at 1.
  cbn [length Nat.leb].
  unfold bind at 1, putState at 1, modify at 1.
  rewrite Hcall. unfold bind at 1.
  unfold updState at 1, bind at 1, getState at 1.
  cbn [store set_store]. rewrite lookup_insert_eq.
  unfold putState at 1, modify at 1. cbn [negb]. rewrite Hunused. cbn [negb when].
  unfold ret. f_equal. unfold updated. same_engine. same_store.
Qed.

End CallRuns.

(** ** The layout of variadic arguments *)

Lemma alignTo_bounds v a :
  (0 < a)%N -> (v <= alignTo v a < v + a)%N /\ (alignTo v a mod a = 0)%N.
Proof.
  intros Ha. unfold alignTo.
  pose proof (N.div_mod (v + a - 1) a ltac:(lia)) as Hdm.
  pose proof (N.mod_lt (v + a - 1) a ltac:(lia)) as Hlt.
  split; [|apply N.Div0.mod_mul].
  rewrite (N.mul_comm a) in Hdm.
  set (q := ((v + a - 1) / a * a)%N) in *.
  set (r := ((v + a - 1) mod a)%N) in *. lia.
Qed.

Lemma wrap32_small n : (n < 2 ^ 32)%N -> wrap32 n = n.
Proof. intros Hn. unfold wrap32. apply N.mod_small. exact Hn. Qed.

Lemma varargBytes_covers W w :
  W = Int32 \/ W = Int64 -> (getMinBytesForWidth w <= varargBytes W w)%N.
Proof.
  intros [-> | ->]; unfold varargBytes, Int32, Int64; cbn [N.eqb Pos.eqb]; [lia|].
  unfold getMinBytesForWidth.
  destruct (alignTo_bounds w 64 ltac:(lia)) as [[Hle _] Hmod].
  apply N.Div0.mod_divides in Hmod as [k Hk]. rewrite Hk.
  replace (64 * k)%N with (8 * k * 8)%N by lia.
  rewrite N.div_mul by lia.
  transitivity ((8 * k * 8 + 7) / 8)%N.
  - apply N.Div0.div_le_mono. lia.
  - rewrite N.div_add_l by lia. change (7 / 8)%N with 0%N. lia.
Qed.

Lemma varargOffset_bounds W w off :
  (off + 15 < 2 ^ 32)%N ->
  (off <= varargOffset W w off <= off + 15)%N
  /\ (W = Int64 -> (Int64 < w)%N -> (varargOffset W w off mod 16 = 0)%N).
Proof.
  intros Hoff. unfold varargOffset.
  destruct (alignTo_bounds off 16 ltac:(lia)) as [[Hle Hlt] Hmod].
  destruct (W =? Int32)%N eqn:HW.
  - split; [lia|]. intros ->. discriminate HW.
  - destruct (N.ltb_spec Int64 w) as [Hw|Hw].
    + rewrite wrap32_small by lia. split; [lia|]. intros _ _. exact Hmod.
    + split; [lia|]. intros _ Hw'. lia.
Qed.

Lemma varargs_layout W : W = Int32 \/ W = Int64 ->
  forall widths off b,
  (off + varargsExtent W widths < 2 ^ 32)%N ->
  let size := fst (varargsSize W widths off b) in
  let offsets := varargsOffsets W widths off in
  (off <= size)%N
  /\ length offsets = length widths
  /\ forall i o w,
       offsets !! i = Some o -> widths !! i = Some w ->
       (off <= o)%N
       /\ (o + getMinBytesForWidth w <= size)%N
       /\ (W = Int64 -> (Int64 < w)%N -> (o mod 16 = 0)%N)
       /\ forall j o', (i < j)%nat -> offsets !! j = Some o' ->
            (o + getMinBytesForWidth w <= o')%N.
Proof.
  intros HW. induction widths as [|w0 rest IH]; intros off b Hfit; cbn zeta.
  - cbn. split; [lia|]. split; [reflexivity|]. intros i o w Ho. destruct i; discriminate Ho.
  - cbn [varargsExtent] in Hfit.
    destruct (varargOffset_bounds W w0 off ltac:(lia)) as [[Hlo Hhi] Halign].
    pose proof (varargBytes_covers W w0 HW) as Hcov.
    cbn [varargsSize varargsOffsets].
    set (o0 := varargOffset W w0 off) in *.
    rewrite (wrap32_small (o0 + varargBytes W w0)) by lia.
    set (next := (o0 + varargBytes W w0)%N).
    specialize (IH next (b || (negb (W =? Int32)%N && (Int64 <? w0)%N))
                  ltac:(unfold next; lia)).
    cbn zeta in IH. destruct IH as (Hsize & Hlen & Hall).
    split; [unfold next in *; lia|].
    split; [cbn [length]; rewrite Hlen; reflexivity|].
    intros i o w Ho Hw. destruct i as [|i].
    + cbn in Ho, Hw. injection Ho as <-. injection Hw as <-.
      split; [exact Hlo|]. split; [unfold next in *; lia|].
      split; [exact Halign|].
      intros j o' Hj Ho'. destruct j as [|j]; [lia|]. cbn in Ho'.
      destruct (lookup_lt_is_Some_2 rest j) as [w' Hw'].
      { rewrite <- Hlen. apply lookup_lt_is_Some_1. eexists. exact Ho'. }
      destruct (Hall j o' w' Ho' Hw') as (Hge & _). unfold next in *. lia.
    + cbn in Ho, Hw. destruct (Hall i o w Ho Hw) as (Hge & Hin & Hal & Hnext).
      split; [unfold next in *; lia|]. split; [exact Hin|].
      split; [exact Hal|].
      intros j o' Hj Ho'. destruct j as [|j]; [lia|]. cbn in Ho'.
      apply (Hnext j o'); [lia | exact Ho'].
Qed.

(** ** Alignment *)

Lemma isPowerOfTwo_spec x : isPowerOfTwo x = true -> exists k, x = (2 ^ k)%N.
Proof.
  unfold isPowerOfTwo. intros Hx. apply andb_true_iff in Hx as [Hnz Hland].
  apply negb_true_iff, N.eqb_neq in Hnz. apply N.eqb_eq in Hland.
  exists (N.log2 x).
  destruct (N.log2_spec x ltac:(lia)) as [Hlo Hhi].
  destruct (N.eq_dec x (2 ^ N.log2 x)) as [Heq|Hne]; [exact Heq|].
  exfalso.
  assert (Hlog : N.log2 (x - 1) = N.log2 x).
  { rewrite N.pow_succ_r' in Hhi.
    apply (N.log2_unique' (x - 1) (N.log2 x) (x - 1 - 2 ^ N.log2 x)); lia. }
  assert (Hbit : N.testbit (N.land x (x - 1)) (N.log2 x) = true).
  { assert (Hpos : (0 < 2 ^ N.log2 x)%N) by (apply N.neq_0_lt_0, N.pow_nonzero; lia).
    rewrite N.land_spec. rewrite (N.bit_log2 x) by lia.
    pose proof (N.bit_log2 (x - 1) ltac:(lia)) as Hb. rewrite Hlog in Hb.
    rewrite Hb. reflexivity. }
  rewrite Hland in Hbit. rewrite N.bits_0 in Hbit. discriminate Hbit.
Qed.

Lemma getAllocationAlignment_power site :
  site <> OtherSite ->
  exists a, Alignment.getAllocationAlignment site = Some a
            /\ isPowerOfTwo a = true.
Proof.
  intros Hsite. unfold Alignment.getAllocationAlignment.
  destruct site as [al ty | al ty | |]; try congruence; cbn zeta.
  1,2: set (x := if (al =? 0)%N then default 8%N ty else al);
       destruct (isPowerOfTwo x) eqn:Hx; cbn [negb];
       [rewrite Hx; exists x; split; [reflexivity | exact Hx]
       |exists 8%N; split; reflexivity].
  exists 8%N. split; reflexivity.
Qed.

Lemma getAllocationAlignment_declared al ty :
  isPowerOfTwo al = true ->
  Alignment.getAllocationAlignment (GlobalSite al ty) = Some al
  /\ Alignment.getAllocationAlignment (AllocaSite al ty) = Some al.
Proof.
  intros Hal. unfold Alignment.getAllocationAlignment. cbn zeta.
  assert (Hnz : (al =? 0)%N = false).
  { destruct (N.eqb_spec al 0) as [->|]; [discriminate Hal | reflexivity]. }
  rewrite Hnz, Hal. cbn [negb]. rewrite Hal. split; reflexivity.
Qed.

Section MoreRuns.

Context `{Solver} `{ExprOptimizer} `{ConstraintManager} `{MemoryModel}
        `{RNG} `{Seeding}.

Variable addressOf : nat -> Z.
Variable rand : N -> N * N.
Variable setOfValues : list (Width * Z) -> list (Width * Z).

(** The second loop over the variadic arguments writes each of them at
    its offset. *)
Lemma writeVarargs_run W : W = Int32 \/ W = Int64 ->
  forall args off os ex,
  writeVarargs W args off os ex
  = Ok (written os (zip (varargsOffsets W (map getWidth args) off) args)) ex.
Proof.
  intros HW. induction args as [|a rest IH]; intros off os ex; [reflexivity|].
  cbn [writeVarargs].
  replace (negb (W =? Int32)%N && negb (W =? Int64)%N) with false
    by (destruct HW as [-> | ->]; reflexivity).
  rewrite IH. reflexivity.
Qed.

(** [executeGetValue] on a state without seeds. *)
Lemma executeGetValue_unseeded_run sid e target ex s v sf rest :
  store ex !! sid = Some s ->
  seedMap ex !! sid = None ->
  getValue (constraints s) (optimizeExpr (simplifyExpr (constraints s) e) true) = Some v ->
  stack s = sf :: rest ->
  (dest target < length (locals sf))%nat ->
  executeGetValue setOfValues sid e target ex
  = Ok tt (updated sid (withLocal (dest target) (constantOf v) sf rest s) ex).
Proof.
  intros Hs Hseed Hv Hstack Hdest. unfold executeGetValue.
  unfold bind at 1, getState at 1. rewrite Hs.
  unfold bind at 1, gets at 1. rewrite Hseed.
  replace (if isConstant (simplifyExpr (constraints s) e)
           then None else @None (list SeedInfo)) with (@None (list SeedInfo))
    by (destruct (isConstant _); reflexivity).
  unfold bind at 1, assertSuccess at 1, option_get at 1. rewrite Hv. unfold ret at 1.
  apply (bindLocal_run target sid _ ex s sf rest Hs Hstack Hdest).
Qed.

(** Memory use beyond the cap by more than a hundred megabytes. *)
Lemma checkMemoryUsage_over_run MaxMemory instructions mbs ex :
  MaxMemory <> 0%N ->
  N.land instructions 65535 = 0%N ->
  (MaxMemory + 100 < mbs)%N ->
  (mbs < 2 ^ 32)%N ->
  (N.of_nat (length (states ex)) < 2 ^ 32)%N ->
  NoDup (states ex) ->
  (forall x, x ∈ states ex -> is_Some (store ex !! x) /\ x ∉ addedStates ex) ->
  let toKill := statesToKill (N.of_nat (length (states ex))) MaxMemory mbs in
  exists ex' killed events,
    checkMemoryUsage rand MaxMemory instructions mbs ex = Ok tt ex'
    /\ atMemoryLimit (config ex') = true
    /\ removedStates ex' = removedStates ex ++ killed
    /\ NoDup killed
    /\ (forall x, x ∈ killed -> x ∈ states ex)
    /\ length killed = Nat.min (N.to_nat toKill) (length (states ex))
    /\ states ex' = states ex /\ nextState ex' = nextState ex
    /\ trace ex' = trace ex ++ events
    /\ (forall x, x ∈ killed -> Terminated x (Early memoryLimitMessage) ∈ events).
Proof.
  intros Hmax Hinstr Hover Hmbs Hcount Hnd Hlive toKill.
  unfold checkMemoryUsage.
  apply N.eqb_neq in Hmax. rewrite Hmax. rewrite Hinstr. cbn [N.eqb].
  replace (MaxMemory <? mbs)%N with true by (symmetry; apply N.ltb_lt; lia).
  rewrite (wrap32_small (MaxMemory + 100)) by lia.
  replace (MaxMemory + 100 <? mbs)%N with true by (symmetry; apply N.ltb_lt; lia).
  cbn [when]. unfold bind at 1. unfold bind at 1, gets at 1.
  rewrite (wrap32_small (N.of_nat (length (states ex)))) by exact Hcount.
  fold toKill. rewrite Nat2N.id.
  destruct (killStates_run rand (N.to_nat toKill) (states ex) (length (states ex)) ex)
    as (ex1 & killed & events & Hrun & Hrem & Hndk & Hsub & Hlen & Hcfg & Hst & Hadd
        & Hnext & _ & Htr & Hev).
  { lia. }
  { rewrite firstn_all. exact Hnd. }
  { rewrite firstn_all. exact Hlive. }
  rewrite Hrun. unfold modify.
  exists (set_config (set_atMemoryLimit true (config ex1)) ex1), killed, events.
  split; [reflexivity|]. split; [reflexivity|]. split; [exact Hrem|].
  split; [exact Hndk|].
  split; [intros x Hx; specialize (Hsub x Hx); rewrite firstn_all in Hsub; exact Hsub|].
  split; [exact Hlen|]. split; [exact Hst|]. split; [exact Hnext|].
  split; [exact Htr | exact Hev].
Qed.

(** Memory use beyond the cap by no more than a hundred megabytes: only
    the flag is raised. *)
Lemma checkMemoryUsage_at_limit_run MaxMemory instructions mbs ex :
  MaxMemory <> 0%N ->
  N.land instructions 65535 = 0%N ->
  (MaxMemory < mbs <= MaxMemory + 100)%N ->
  (MaxMemory + 100 < 2 ^ 32)%N ->
  checkMemoryUsage rand MaxMemory instructions mbs ex
  = Ok tt (set_config (set_atMemoryLimit true (config ex)) ex).
Proof.
  intros Hmax Hinstr Hover Hsmall. unfold checkMemoryUsage.
  apply N.eqb_neq in Hmax. rewrite Hmax. rewrite Hinstr. cbn [N.eqb].
  replace (MaxMemory <? mbs)%N with true by (symmetry; apply N.ltb_lt; lia).
  rewrite (wrap32_small (MaxMemory + 100)) by lia.
  replace (MaxMemory + 100 <? mbs)%N with false by (symmetry; apply N.ltb_ge; lia).
  reflexivity.
Qed.

(** [doDumpStates] on a settled engine. *)
Lemma doDumpStates_run ex :
  NoDup (states ex) ->
  addedStates ex = [] -> removedStates ex = [] ->
  (forall x, x ∈ states ex -> is_Some (store ex !! x)) ->
  exists ex' events,
    doDumpStates addressOf true ex = Ok tt ex'
    /\ states ex' = [] /\ addedStates ex' = [] /\ removedStates ex' = []
    /\ (forall x, x ∈ states ex -> store ex' !! x = None)
    /\ trace ex' = trace ex ++ events
    /\ (forall x, x ∈ states ex -> Terminated x (Early "Execution halting.") ∈ events)
    /\ (OnlyOutputStatesCoveringNew (config ex) = false ->
        forall x, x ∈ states ex ->
          TestCase x (Some ("Execution halting." +:+ "
")) (Some "early") ∈ events).
Proof.
  intros Hnd Hadd Hrem Hlive. unfold doDumpStates.
  unfold bind at 1, gets at 1. cbn [negb orb].
  case_bool_decide as Hempty.
  - exists ex, []. split; [reflexivity|]. rewrite Hempty, app_nil_r.
    repeat split; try assumption; intros; exfalso;
      match goal with Hx : _ ∈ [] |- _ => inversion Hx end.
  - destruct (terminateEach_run "Execution halting." (states ex) ex)
      as (ex1 & events & Hrun & Hrem1 & Hst1 & Hadd1 & Hcfg1 & Hnext1 & Hseed1 & Hlive1
          & Htr1 & Hev & Hcase).
    { intros x Hx. split; [exact (Hlive x Hx)|]. rewrite Hadd. intros Hin. inversion Hin. }
    unfold bind at 1. rewrite Hrun.
    rewrite Hrem, app_nil_l in Hrem1.
    destruct (updateStates_run addressOf ex1)
      as (ex2 & Hrun2 & Hadd2 & Hrem2 & Hnd2 & Hmem2 & Hgone & _ & _ & Htr2 & _).
    { rewrite Hst1. exact Hnd. }
    { rewrite Hrem1. exact Hnd. }
    { intros x Hx. left. rewrite Hst1, <- Hrem1. exact Hx. }
    exists ex2, events. split; [exact Hrun2|].
    split.
    { assert (Hnone : forall y, y ∉ states ex2).
      { intros y Hy. apply Hmem2 in Hy as [Hy Hny]. rewrite Hrem1 in Hny.
        destruct Hy as [Hy|Hy]; [rewrite Hst1 in Hy; contradiction|].
        rewrite Hadd1, Hadd in Hy. inversion Hy. }
      destruct (states ex2) as [|y l]; [reflexivity|].
      exfalso. apply (Hnone y). left. }
    split; [exact Hadd2|]. split; [exact Hrem2|].
    split; [intros x Hx; apply Hgone; rewrite Hrem1; exact Hx|].
    split; [rewrite Htr2; exact Htr1|].
    split; [exact Hev | exact Hcase].
Qed.

End MoreRuns.

Section InhibitedRuns.

Context `{Solver} `{ExprOptimizer} `{ConstraintManager} `{MemoryModel}
        `{RNG} `{Seeding}.

Variable addressOf : nat -> Z.

(** The run of an inhibited fork when no path is recorded: the side is
    drawn, and its condition added. *)
Lemma inhibited_fork_run current c isInternal ex s :
  store ex !! current = Some s ->
  seedMap ex !! current = None ->
  replayPath (config ex) = None \/ isInternal = true ->
  replayKTest (config ex) = false ->
  maxStaticPctExceeded (config ex) = false ->
  pathWriter (config ex) = false ->
  evaluate (constraints s) c = Some VUnknown ->
  forkInhibited s ex = true ->
  isConstant c = false ->
  let bit := fst (getBool (rng ex)) in
  fork current c isInternal ex
  = Ok (takenBranch bit current)
       (updated current (state_addConstraint (takenCondition bit c) s)
          (set_rng (snd (getBool (rng ex))) ex)).
Proof.
  intros Hs Hseed Hreplay Hktest Hpct Hpath Hev Hinh Hc bit. unfold fork.
  unfold bind at 1, gets at 1. rewrite Hseed.
  unfold bind at 1, gets at 1. rewrite Hpct, andb_false_r.
  unfold bind at 1, ret at 1.
  unfold bind at 1, getState at 1. rewrite Hs, Hev.
  rewrite not_seeded_false. cbn [negb]. rewrite Hktest, Hpath, andb_false_r.
  unfold bind at 1. rewrite (fork_decision_plain isInternal ex _ _ Hreplay).
  unfold bind at 1, gets at 1. rewrite Hinh.
  unfold bind at 1, nextBool at 1. subst bit.
  destruct (getBool (rng ex)) as [b g]. cbn [fst snd].
  set (ex0 := set_rng g ex).
  assert (Hs0 : store ex0 !! current = Some s) by exact Hs.
  assert (Hseed0 : seedMap ex0 !! current = None) by exact Hseed.
  destruct b; unfold bind at 1.
  - rewrite (addConstraint_run _ _ _ _ Hs0 Hseed0 Hc). reflexivity.
  - rewrite (addConstraint_run _ _ _ _ Hs0 Hseed0 (createIsZero_not_constant _ Hc)).
    reflexivity.
Qed.

(** The walk down the stack reads the stack and the previous instruction
    only. *)
Lemma getLastNonKleeInternalInstruction_ext km s s' :
  stack s' = stack s -> prevPC s' = prevPC s ->
  getLastNonKleeInternalInstruction km s' = getLastNonKleeInternalInstruction km s.
Proof.
  intros Hstack Hprev. unfold getLastNonKleeInternalInstruction.
  rewrite Hstack, Hprev. reflexivity.
Qed.

(** Terminating each state of a list queues them in order. *)
Lemma terminateAll_run sid l : forall ex,
  seedMap ex !! sid = None ->
  (forall x, x ∈ l -> is_Some (store ex !! x) /\ x ∉ addedStates ex) ->
  exists ex',
    forEach l (fun es =>
      let* seeded := isSeeded sid in
      if seeded
      then modify (fun ex => set_seedMap (delete sid (seedMap ex)) ex)
      else terminateState es) ex = Ok tt ex'
    /\ removedStates ex' = removedStates ex ++ l
    /\ states ex' = states ex /\ addedStates ex' = addedStates ex
    /\ config ex' = config ex /\ trace ex' = trace ex
    /\ OnlySeed ex' = OnlySeed ex /\ emittedErrors ex' = emittedErrors ex
    /\ (forall x s, store ex !! x = Some s ->
          exists s', store ex' !! x = Some s'
                     /\ stack s' = stack s /\ prevPC s' = prevPC s).
Proof.
  induction l as [|a l IH]; intros ex Hseed Hl.
  - exists ex. split; [reflexivity|]. rewrite app_nil_r.
    repeat split; try reflexivity. intros x s Hs. exists s. repeat split. exact Hs.
  - destruct (Hl a) as [[sa Hsa] Hadd]; [left|].
    cbn [forEach]. unfold bind at 1. unfold bind at 1, isSeeded at 1, gets at 1.
    rewrite Hseed, not_seeded_false.
    rewrite (terminateState_queued a ex sa Hsa Hadd).
    set (ex1 := queued a sa ex).
    destruct (IH ex1) as (ex' & Hrun & Hrem & Hst & Hadded & Hcfg & Htr & Honly & Hem
                          & Hkeep).
    { exact Hseed. }
    { intros x Hx. destruct (Hl x) as [[sx Hsx] Hxadd]; [right; exact Hx|].
      split; [|exact Hxadd]. cbn.
      destruct (decide (x = a)) as [->|Hne].
      - rewrite lookup_insert_eq. eexists. reflexivity.
      - rewrite lookup_insert_ne by congruence. rewrite Hsx. eexists. reflexivity. }
    exists ex'. split; [exact Hrun|].
    split; [rewrite Hrem; cbn; rewrite <- app_assoc; reflexivity|].
    split; [exact Hst|]. split; [exact Hadded|]. split; [exact Hcfg|].
    split; [exact Htr|]. split; [exact Honly|]. split; [exact Hem|].
    intros x s Hs. destruct (decide (x = a)) as [->|Hne].
    + destruct (Hkeep a (set_pc (prevPC sa) sa)) as (s' & Hs' & Hstack & Hprev).
      { cbn. apply lookup_insert_eq. }
      assert (s = sa) by congruence. subst s.
      exists s'. split; [exact Hs'|]. split; [exact Hstack | exact Hprev].
    + apply Hkeep. cbn. rewrite lookup_insert_ne by congruence. exact Hs.
Qed.

(** The exit from seed-only mode by a state without seeds: every state of
    the set is queued for removal. *)
Lemma leaveSeedMode_unseeded_run sid ex :
  OnlySeed ex = true ->
  seedMap ex !! sid = None ->
  (forall x, x ∈ states ex -> is_Some (store ex !! x) /\ x ∉ addedStates ex) ->
  exists ex',
    leaveSeedMode sid ex = Ok tt ex'
    /\ removedStates ex' = removedStates ex ++ states ex
    /\ states ex' = states ex /\ addedStates ex' = addedStates ex
    /\ config ex' = config ex /\ trace ex' = trace ex
    /\ OnlySeed ex' = false
    /\ (forall x s, store ex !! x = Some s ->
          exists s', store ex' !! x = Some s'
                     /\ stack s' = stack s /\ prevPC s' = prevPC s).
Proof.
  intros Honly Hseed Hlive. unfold leaveSeedMode.
  unfold bind at 1, gets at 1. rewrite Honly. cbn [when].
  unfold bind at 1, gets at 1.
  destruct (terminateAll_run sid (states ex) ex Hseed Hlive)
    as (ex1 & Hrun & Hrem & Hst & Hadd & Hcfg & Htr & _ & _ & Hkeep).
  unfold bind at 1. rewrite Hrun. unfold modify.
  eexists. split; [reflexivity|]. cbn.
  repeat split; assumption.
Qed.

(** In seed-only mode, a store through a constant pointer that resolves to
    no object, outside the native heap, queues the state twice. *)
Lemma only_seed_overflow_run sid address value target ex s w v i :
  isConstant address = true ->
  store ex !! sid = Some s ->
  let a := optimizeExpr address true in
  let a' := optimizeExpr a true in
  resolveOne (addressSpace s) (constraints s) a = Some None ->
  resolve (addressSpace s) (constraints s) a' = ([], false) ->
  a' = ConstantExpr w v ->
  trunc w v <= n_heap_l (config ex) \/ n_heap_h (config ex) < trunc w v ->
  OnlySeed ex = true ->
  seedMap ex !! sid = None ->
  (forall x, x ∈ states ex -> is_Some (store ex !! x) /\ x ∉ addedStates ex) ->
  sid ∉ addedStates ex ->
  getLastNonKleeInternalInstruction (kmodule (config ex)) s = Some i ->
  exists ex',
    executeMemoryOperation sid true address value target ex = Ok tt ex'
    /\ removedStates ex' = removedStates ex ++ states ex ++ [sid]
    /\ states ex' = states ex /\ addedStates ex' = addedStates ex.
Proof.
  intros Hc Hs a a' Hone Hres Ha' Hout Honly Hseed Hlive Hadd Hi.
  rewrite (executeMemoryOperation_constant_run sid true address value target ex s Hc Hs).
  cbv zeta. unfold accessWidth. fold a.
  unfold bind at 1. unfold fastPath at 1.
  unfold bind at 1, getState at 1. rewrite Hs.
  unfold bind at 1, gets at 1. rewrite Hone.
  unfold bind at 1, ret at 1. unfold ret at 1.
  unfold errorPath. fold a'.
  unfold bind at 1, getState at 1. rewrite Hs.
  unfold bind at 1, gets at 1. rewrite Hres. cbn [forkCandidates].
  unfold bind at 1, ret at 1.
  unfold handleOverflow.
  destruct (leaveSeedMode_unseeded_run sid ex Honly Hseed Hlive)
    as (ex1 & Hrun & Hrem & Hst & Hadd1 & Hcfg & Htr & Honly1 & Hkeep).
  unfold bind at 1. rewrite Hrun.
  unfold bind at 1, gets at 1. rewrite Ha'. rewrite Hcfg.
  replace ((trunc w v <=? n_heap_l (config ex)) || (n_heap_h (config ex) <? trunc w v))
    with true.
  2:{ symmetry. apply orb_true_iff. destruct Hout as [Hl|Hh];
        [left; apply Z.leb_le; exact Hl | right; apply Z.ltb_lt; exact Hh]. }
  cbn [when]. unfold bind at 1. unfold bind at 1. cbn [getAddressInfo].
  unfold ret at 1.
  destruct (Hkeep sid s Hs) as (s1 & Hs1 & Hstack1 & Hprev1).
  assert (Hi1 : getLastNonKleeInternalInstruction (kmodule (config ex1)) s1 = Some i).
  { rewrite Hcfg, (getLastNonKleeInternalInstruction_ext _ s s1 Hstack1 Hprev1).
    exact Hi. }
  assert (Hadd2 : sid ∉ addedStates ex1) by (rewrite Hadd1; exact Hadd).
  rewrite (terminateStateOnError_run sid _ Ptr None _ ex1 s1 i Hs1 Hadd2 Hi1).
  cbn [andb negb isConstant].
  eexists. split.
  { destruct (isConstant (storedValue ex s true value)); reflexivity. }
  unfold failed. destruct (shouldExitOn (config ex1) Ptr); cbn;
    rewrite Hrem, <- app_assoc; repeat split; assumption.
Qed.

End InhibitedRuns.

Section StepRuns.

Context `{Solver} `{ExprOptimizer} `{ConstraintManager} `{MemoryModel}
        `{RNG} `{Seeding}.

(** The step, short of the limit on instructions. *)
Lemma stepInstruction_run MaxInstructions executed sid ex s :
  store ex !! sid = Some s ->
  ((executed + 1) mod 2 ^ 64 <> MaxInstructions)%N ->
  stepInstruction MaxInstructions executed sid ex
  = Ok tt (updated sid (set_pc (S (pc s)) (set_prevPC (pc s) s)) ex).
Proof.
  intros Hs Hlimit. unfold stepInstruction.
  unfold bind at 1, updState. unfold bind at 1, getState at 1. rewrite Hs.
  unfold putState, modify.
  destruct (N.eqb_spec ((executed + 1) mod 2 ^ 64) MaxInstructions) as [Heq | _];
    [contradiction|].
  reflexivity.
Qed.

Lemma runStep_run MaxInstructions executed sid execute ex s ki :
  store ex !! sid = Some s ->
  instructions (kmodule (config ex)) !! pc s = Some ki ->
  ((executed + 1) mod 2 ^ 64 <> MaxInstructions)%N ->
  runStep MaxInstructions executed sid execute ex
  = execute sid ki (updated sid (set_pc (S (pc s)) (set_prevPC (pc s) s)) ex).
Proof.
  intros Hs Hki Hlimit. unfold runStep.
  unfold bind at 1, getState at 1. rewrite Hs.
  unfold bind at 1, gets at 1.
  unfold bind at 1. rewrite Hki. unfold option_get at 1, ret at 1.
  unfold bind at 1.
  rewrite (stepInstruction_run MaxInstructions executed sid ex s Hs Hlimit).
  reflexivity.
Qed.

End StepRuns.

(** ** More of the executor *)

Section StateSetFacts.

Context `{Solver} `{ExprOptimizer} `{ConstraintManager} `{MemoryModel}
        `{RNG} `{Seeding}.

Variable addressOf : nat -> Z.
Variable rand : N -> N * N.
Variable setOfValues : list (Width * Z) -> list (Width * Z).
Variable functionAt : Z -> option Function.
Variable callExternalFunction : nat -> KInstruction -> Z -> list (option Expr) -> M unit.
Variable fabsBits : Width -> Z -> option Z.
Variable RuntimeMaxStackFrames : N.
Variable newObjectState : MemoryObject -> ObjectState.

(** X1.  [updateStates] on an engine whose removed states are distinct
    members of the set, or of the states added since the last update:
    the call returns; the added states have joined the set and the
    removed ones have left it; a removed state is deleted, with its seeds;
    every other state and its seeds are as they were; both queues are
    empty afterwards. *)
Theorem updateStates_sweeps_removed_states ex :
  NoDup (states ex) -> NoDup (removedStates ex) ->
  (forall x, x ∈ removedStates ex -> x ∈ states ex \/ x ∈ addedStates ex) ->
  exists ex',
    updateStates addressOf ex = Ok tt ex'
    /\ addedStates ex' = [] /\ removedStates ex' = []
    /\ NoDup (states ex')
    /\ (forall x, x ∈ states ex' <->
          (x ∈ states ex \/ x ∈ addedStates ex) /\ x ∉ removedStates ex)
    /\ (forall x, x ∈ removedStates ex ->
          store ex' !! x = None /\ seedMap ex' !! x = None)
    /\ (forall x, x ∉ removedStates ex ->
          store ex' !! x = store ex !! x /\ seedMap ex' !! x = seedMap ex !! x)
    /\ config ex' = config ex /\ trace ex' = trace ex
    /\ nextState ex' = nextState ex.
Proof. apply updateStates_run. Qed.

(** X2.  [updateStates] fails its assertion, and with it the engine,
    whenever the queue of removed states is not made of distinct states
    of the set: a state terminated twice before the update, or one that
    is neither in the set nor among the added states, brings the engine
    down. *)
Theorem updateStates_asserts_each_removed_state_is_in_the_set ex :
  NoDup (states ex) ->
  ~ (NoDup (removedStates ex)
     /\ forall x, x ∈ removedStates ex -> x ∈ states ex \/ x ∈ addedStates ex) ->
  updateStates addressOf ex = Crash "assert(it2!=states.end())".
Proof. apply updateStates_crash. Qed.

(** X3.  [doDumpStates] with the option [DumpStatesOnHalt], on an engine
    with no state waiting to be added or removed: every state of the set
    is terminated early with the message "Execution halting.", with a test
    case of suffix "early" for each unless output is restricted to states
    that covered new code; afterwards the set is empty and the states are
    deleted. *)
Theorem doDumpStates_terminates_every_state ex :
  NoDup (states ex) ->
  addedStates ex = [] -> removedStates ex = [] ->
  (forall x, x ∈ states ex -> is_Some (store ex !! x)) ->
  exists ex' events,
    doDumpStates addressOf true ex = Ok tt ex'
    /\ states ex' = [] /\ addedStates ex' = [] /\ removedStates ex' = []
    /\ (forall x, x ∈ states ex -> store ex' !! x = None)
    /\ trace ex' = trace ex ++ events
    /\ (forall x, x ∈ states ex -> Terminated x (Early "Execution halting.") ∈ events)
    /\ (OnlyOutputStatesCoveringNew (config ex) = false ->
        forall x, x ∈ states ex ->
          TestCase x (Some ("Execution halting." +:+ "
")) (Some "early") ∈ events).
Proof. apply doDumpStates_run. Qed.

(** X4.  [checkMemoryUsage], at an instruction count that is a multiple of
    65536 and with more than 100 megabytes in use above the cap
    [MaxMemory]: the flag [atMemoryLimit] is raised and states of the set
    are terminated early with "Memory limit exceeded.".  The states killed
    are distinct, so none is queued twice; their number is the number
    guessed, [max(1, numStates - numStates * MaxMemory / mbs)], or all the
    states when there are fewer; at least one state is killed when there
    is one. *)
Theorem checkMemoryUsage_kills_distinct_states MaxMemory instructions mbs ex :
  MaxMemory <> 0%N ->
  N.land instructions 65535 = 0%N ->
  (MaxMemory + 100 < mbs)%N ->
  (mbs < 2 ^ 32)%N ->
  (N.of_nat (length (states ex)) < 2 ^ 32)%N ->
  NoDup (states ex) ->
  (forall x, x ∈ states ex -> is_Some (store ex !! x) /\ x ∉ addedStates ex) ->
  let toKill := statesToKill (N.of_nat (length (states ex))) MaxMemory mbs in
  exists ex' killed events,
    checkMemoryUsage rand MaxMemory instructions mbs ex = Ok tt ex'
    /\ atMemoryLimit (config ex') = true
    /\ removedStates ex' = removedStates ex ++ killed
    /\ NoDup killed
    /\ (forall x, x ∈ killed -> x ∈ states ex)
    /\ length killed = Nat.min (N.to_nat toKill) (length (states ex))
    /\ (states ex <> [] -> killed <> [])
    /\ states ex' = states ex
    /\ trace ex' = trace ex ++ events
    /\ (forall x, x ∈ killed -> Terminated x (Early memoryLimitMessage) ∈ events).
Proof.
  intros Hmax Hinstr Hover Hmbs Hcount Hnd Hlive toKill.
  destruct (checkMemoryUsage_over_run rand MaxMemory instructions mbs ex
              Hmax Hinstr Hover Hmbs Hcount Hnd Hlive)
    as (ex' & killed & events & Hrun & Hflag & Hrem & Hndk & Hsub & Hlen & Hst & _
        & Htr & Hev).
  exists ex', killed, events.
  split; [exact Hrun|]. split; [exact Hflag|]. split; [exact Hrem|].
  split; [exact Hndk|]. split; [exact Hsub|]. split; [exact Hlen|].
  split; [|split; [exact Hst|split; [exact Htr | exact Hev]]].
  intros Hne Hk. rewrite Hk in Hlen. cbn [length] in Hlen.
  assert (Hone : (1 <= toKill)%N) by (unfold toKill, statesToKill; apply N.le_max_l).
  fold toKill in Hlen. clearbody toKill. destruct (states ex) as [|y l]; [congruence|]. cbn [length] in Hlen. lia.
Qed.

(** X5.  The memory cap inhibits forks.  Once [checkMemoryUsage] has seen
    the memory in use above the cap (by no more than 100 megabytes, so
    that no state is killed), a fork on a condition the solver cannot
    decide creates no state when the option [MaxMemoryInhibit] is set: the
    side is drawn from the random number generator, its condition is added
    to the constraints of the current state, and that state alone is
    returned.  The cap is one that is set ([MaxMemory] is not 0, and with
    the 100 megabytes stays below 2^32) and the check is one that measures
    (the count of instructions is a multiple of 65536).  The fork is that of a state without seeds, on a condition
    that is not a constant; it is internal or no path is replayed, no
    ktest is replayed, the static limit on forks is not exceeded and no
    path is written. *)
Theorem memory_cap_inhibits_forks MaxMemory instructions mbs current c isInternal ex s :
  MaxMemory <> 0%N ->
  N.land instructions 65535 = 0%N ->
  (MaxMemory < mbs <= MaxMemory + 100)%N ->
  (MaxMemory + 100 < 2 ^ 32)%N ->
  MaxMemoryInhibit (config ex) = true ->
  store ex !! current = Some s ->
  seedMap ex !! current = None ->
  replayPath (config ex) = None \/ isInternal = true ->
  replayKTest (config ex) = false ->
  maxStaticPctExceeded (config ex) = false ->
  pathWriter (config ex) = false ->
  evaluate (constraints s) c = Some VUnknown ->
  isConstant c = false ->
  let bit := fst (getBool (rng ex)) in
  (checkMemoryUsage rand MaxMemory instructions mbs;;
   fork current c isInternal) ex
  = Ok (takenBranch bit current)
       (updated current (state_addConstraint (takenCondition bit c) s)
          (set_rng (snd (getBool (rng ex)))
             (set_config (set_atMemoryLimit true (config ex)) ex))).
Proof.
  intros Hmax Hinstr Hover Hsmall Hinhibit Hs Hseed Hreplay Hktest Hpct Hpath Hev Hc bit.
  unfold bind at 1.
  rewrite (checkMemoryUsage_at_limit_run rand MaxMemory instructions mbs ex
             Hmax Hinstr Hover Hsmall).
  set (ex1 := set_config _ ex).
  assert (Hinh : forkInhibited s ex1 = true)
    by (unfold forkInhibited; cbn; rewrite Hinhibit; reflexivity).
  exact (inhibited_fork_run current c isInternal ex1 s Hs Hseed Hreplay Hktest Hpct
           Hpath Hev Hinh Hc).
Qed.

(** X6.  An error is reported once for an instruction and a message.
    When two states fail at the same instruction with the same message,
    and [EmitAllErrors] is off, the first gets a test case whose suffix is
    the name of the reason followed by ".err"; the second gets none.  Both
    are terminated and queued for removal. *)
Theorem same_error_is_reported_once a b message ra rb infoa infob ex sa sb i :
  EmitAllErrors (config ex) = false ->
  a <> b ->
  store ex !! a = Some sa -> store ex !! b = Some sb ->
  a ∉ addedStates ex -> b ∉ addedStates ex ->
  getLastNonKleeInternalInstruction (kmodule (config ex)) sa = Some i ->
  getLastNonKleeInternalInstruction (kmodule (config ex)) sb = Some i ->
  (i, message) ∉ emittedErrors ex ->
  exists ex',
    (terminateStateOnError a message ra None infoa;;
     terminateStateOnError b message rb None infob) ex = Ok tt ex'
    /\ trace ex' = trace ex
         ++ [Terminated a (OnError message ra);
             TestCase a (Some message) (Some (TerminateReasonNames ra +:+ ".err"));
             Terminated b (OnError message rb)]
    /\ removedStates ex' = removedStates ex ++ [a; b]
    /\ emittedErrors ex' = (i, message) :: emittedErrors ex.
Proof.
  intros Hall Hne Hsa Hsb Hadda Haddb Hia Hib Hnew.
  unfold bind at 1.
  rewrite (terminateStateOnError_run a message ra None infoa ex sa i Hsa Hadda Hia).
  set (ex1 := failed a sa i message ra None ex).
  assert (Hcfg1 : config ex1 = config ex)
    by (unfold ex1, failed; destruct (shouldExitOn (config ex) ra); reflexivity).
  assert (Hsb1 : store ex1 !! b = Some sb).
  { unfold ex1, failed. destruct (shouldExitOn (config ex) ra); cbn;
      rewrite lookup_insert_ne by congruence; exact Hsb. }
  assert (Haddb1 : b ∉ addedStates ex1)
    by (unfold ex1, failed; destruct (shouldExitOn (config ex) ra); exact Haddb).
  assert (Hib1 : getLastNonKleeInternalInstruction (kmodule (config ex1)) sb = Some i)
    by (rewrite Hcfg1; exact Hib).
  assert (Hem1 : emittedErrors ex1 = (i, message) :: emittedErrors ex).
  { unfold ex1, failed, errorRecorded. rewrite Hall.
    rewrite (bool_decide_eq_false_2 _ Hnew).
    destruct (shouldExitOn (config ex) ra); reflexivity. }
  assert (Htr1 : trace ex1 = trace ex
                 ++ [Terminated a (OnError message ra);
                     TestCase a (Some message)
                       (Some (TerminateReasonNames ra +:+ ".err"))]).
  { unfold ex1, failed, errorEvents. rewrite Hall.
    rewrite (bool_decide_eq_false_2 _ Hnew).
    destruct (shouldExitOn (config ex) ra); reflexivity. }
  assert (Hrem1 : removedStates ex1 = removedStates ex ++ [a])
    by (unfold ex1, failed; destruct (shouldExitOn (config ex) ra); reflexivity).
  rewrite (terminateStateOnError_run b message rb None infob ex1 sb i Hsb1 Haddb1 Hib1).
  eexists. split; [reflexivity|].
  assert (Hin : (i, message) ∈ emittedErrors ex1) by (rewrite Hem1; left).
  unfold failed, errorEvents, errorRecorded. rewrite Hcfg1, Hall.
  rewrite (bool_decide_eq_true_2 _ Hin).
  destruct (shouldExitOn (config ex) rb); cbn;
    rewrite Htr1, Hrem1, Hem1, <- !app_assoc; repeat split.
Qed.

End StateSetFacts.

Section ForkingFacts.

Context `{Solver} `{ExprOptimizer} `{ConstraintManager} `{MemoryModel}
        `{RNG} `{Seeding}.

(** X7.  A fork on a condition that the solver decides does not fork.  For
    a state without seeds, outside the replay of a path, [fork] returns
    the current state on the side the solver found, true or false, and
    nothing on the other side; no state is created, no constraint is
    added and the random number generator is not consulted: the engine is
    left as it was, but for the branch appended to the recorded path when
    the fork is not internal and a path writer is set. *)
Theorem decided_fork_takes_its_side_without_forking
    current c isInternal ex s (bit : bool) :
  store ex !! current = Some s ->
  seedMap ex !! current = None ->
  replayPath (config ex) = None \/ isInternal = true ->
  maxStaticPctExceeded (config ex) = false ->
  evaluate (constraints s) c = Some (if bit then VTrue else VFalse) ->
  fork current c isInternal ex
  = Ok (takenBranch bit current)
       (if negb isInternal && pathWriter (config ex)
        then updated current (set_pathOS (pathOS s ++ [bit]) s) ex
        else ex).
Proof. apply decided_fork_run. Qed.

(** X8.  The state an undecided fork creates is a copy of the current
    state.  It takes the next identity and waits among the added states;
    it has the program counter, the stack and the memory that the current
    state had before the fork; the two differ from that state in their
    constraints alone, the condition on one side and its negation on the
    other, in their depth, which counts the fork on both sides, and in
    that the new state has not covered new code.  One fork is counted and
    no other state is touched. *)
Theorem forked_state_is_a_copy current c isInternal ex s :
  store ex !! current = Some s ->
  seedMap ex !! current = None ->
  seedMap ex !! nextState ex = None ->
  current <> nextState ex ->
  replayPath (config ex) = None \/ isInternal = true ->
  replayKTest (config ex) = false ->
  maxStaticPctExceeded (config ex) = false ->
  pathWriter (config ex) = false ->
  symPathWriter (config ex) = false ->
  MaxDepth (config ex) = 0%N ->
  evaluate (constraints s) c = Some VUnknown ->
  forkInhibited s ex = false ->
  isConstant c = false ->
  exists ex' t f,
    fork current c isInternal ex = Ok (Some current, Some (nextState ex)) ex'
    /\ store ex' !! current = Some t
    /\ store ex' !! nextState ex = Some f
    /\ (pc f = pc s /\ prevPC f = prevPC s /\ stack f = stack s
        /\ addressSpace f = addressSpace s)
    /\ (pc t = pc s /\ prevPC t = prevPC s /\ stack t = stack s
        /\ addressSpace t = addressSpace s)
    /\ constraints t = constraints s ++ [c]
    /\ constraints f = constraints s ++ [createIsZero c]
    /\ depth t = ((depth s + 1) mod 2 ^ 32)%N /\ depth f = depth t
    /\ coveredNew t = coveredNew s /\ coveredNew f = false
    /\ addedStates ex' = addedStates ex ++ [nextState ex]
    /\ nextState ex' = S (nextState ex)
    /\ forks ex' = ((forks ex + 1) mod 2 ^ 64)%N
    /\ removedStates ex' = removedStates ex /\ trace ex' = trace ex
    /\ (forall id, id <> current -> id <> nextState ex ->
          store ex' !! id = store ex !! id).
Proof.
  intros Hs Hseed Hfresh Hne Hreplay Hktest Hpct Hpath Hsym Hdepth Hev Hinh Hc.
  exists (forked current s c ex), (trueBranch c s), (falseBranch c s).
  split; [apply undecided_fork_run; assumption|].
  split; [cbn; rewrite lookup_insert_ne by congruence; apply lookup_insert_eq|].
  split; [cbn; apply lookup_insert_eq|].
  split; [repeat split|]. split; [repeat split|].
  do 11 (split; [reflexivity|]).
  intros id Hid Hidn. cbn. rewrite !lookup_insert_ne by congruence. reflexivity.
Qed.

(** X9.  A fork whose query the solver does not answer ends the state:
    the program counter is set back to the instruction that asked, the
    state is terminated early with the message "Query timed out (fork).",
    queued for removal, and [fork] returns no state on either side. *)
Theorem timed_out_fork_ends_the_state current c isInternal ex s :
  store ex !! current = Some s ->
  current ∉ addedStates ex ->
  maxStaticPctExceeded (config ex) = false ->
  evaluate (constraints s) c = None ->
  fork current c isInternal ex
  = Ok (None, None)
       (queued current s
          (logged (earlyEvents ex current s "Query timed out (fork).") ex)).
Proof. apply timed_out_fork_run. Qed.

(** X10.  In the replay of a recorded path, a fork that is not internal,
    of a state without seeds, on a condition that is not a constant and
    that the solver answers, the static limit on forks not being exceeded
    and no path being written, never creates a state.  It reads the next
    branch of the path; when the path is used up the engine aborts; when
    the solver decides the condition against the recorded branch the
    engine aborts; otherwise the state goes to the recorded side and the
    position in the path advances, the condition of that side being added
    to the constraints when the solver had left it undecided. *)
Theorem replayed_fork_follows_the_recorded_path current c ex s path res :
  store ex !! current = Some s ->
  seedMap ex !! current = None ->
  replayPath (config ex) = Some path ->
  maxStaticPctExceeded (config ex) = false ->
  pathWriter (config ex) = false ->
  evaluate (constraints s) c = Some res ->
  isConstant c = false ->
  fork current c false ex
  = match path !! replayPosition ex with
    | None => Crash "ran out of branches in replay path mode"
    | Some br =>
        if agrees res br
        then Ok (takenBranch br current) (replayed current s c res br ex)
        else Crash "hit invalid branch in replay path mode"
    end.
Proof. apply replayed_fork_run. Qed.

(** X11.  A fork beyond the depth bound terminates both branches.  When
    the depth of the forked state exceeds [MaxDepth], the fork is made,
    and counted, and then both states are terminated early with the
    message "max-depth exceeded.": the current state is queued for
    removal, the new state, which the searcher never saw, is deleted at
    once, and [fork] returns no state. *)
Theorem fork_beyond_depth_bound_terminates_both current c isInternal ex s :
  store ex !! current = Some s ->
  seedMap ex !! current = None ->
  seedMap ex !! nextState ex = None ->
  current <> nextState ex ->
  replayPath (config ex) = None \/ isInternal = true ->
  replayKTest (config ex) = false ->
  maxStaticPctExceeded (config ex) = false ->
  pathWriter (config ex) = false ->
  symPathWriter (config ex) = false ->
  evaluate (constraints s) c = Some VUnknown ->
  forkInhibited s ex = false ->
  isConstant c = false ->
  MaxDepth (config ex) <> 0%N ->
  (MaxDepth (config ex) <= (depth s + 1) mod 2 ^ 32)%N ->
  current ∉ addedStates ex ->
  nextState ex ∉ addedStates ex ->
  exists ex' report,
    fork current c isInternal ex = Ok (None, None) ex'
    /\ store ex' !! nextState ex = None
    /\ store ex' !! current = Some (set_pc (prevPC s) (trueBranch c s))
    /\ removedStates ex' = removedStates ex ++ [current]
    /\ addedStates ex' = addedStates ex
    /\ forks ex' = ((forks ex + 1) mod 2 ^ 64)%N
    /\ nextState ex' = S (nextState ex)
    /\ trace ex' = trace ex ++ report
    /\ Terminated current (Early "max-depth exceeded.") ∈ report
    /\ Terminated (nextState ex) (Early "max-depth exceeded.") ∈ report.
Proof.
  intros Hs Hseed Hfresh Hne Hreplay Hktest Hpct Hpath Hsym Hev Hinh Hc Hd0 Hd Hadd Hnadd.
  pose proof (fork_beyond_depth_run current c isInternal ex s Hs Hseed Hfresh Hne
                Hreplay Hktest Hpct Hpath Hsym Hev Hinh Hc Hd0 Hd Hadd) as Hrun.
  cbv zeta in Hrun.
  set (ex1 := forked current s c ex) in *.
  set (ex2 := queued current (trueBranch c s) _) in *.
  eexists _, (earlyEvents ex1 current (trueBranch c s) "max-depth exceeded."
              ++ earlyEvents ex2 (nextState ex) (falseBranch c s) "max-depth exceeded.").
  split; [exact Hrun|].
  split; [cbn; apply lookup_delete_eq|].
  split.
  { cbn. rewrite lookup_delete_ne by congruence. rewrite lookup_insert_eq. reflexivity. }
  split; [reflexivity|].
  split.
  { cbn. clear -Hnadd. induction (addedStates ex) as [|y l IH]; cbn.
    - rewrite Nat.eqb_refl. reflexivity.
    - apply not_elem_of_cons in Hnadd as [Hy Hl].
      destruct (Nat.eqb_spec (nextState ex) y) as [Heq|_]; [exfalso; apply Hy; exact Heq|].
      rewrite (IH Hl). reflexivity. }
  split; [reflexivity|]. split; [reflexivity|].
  split; [cbn; rewrite <- app_assoc; reflexivity|].
  split; apply elem_of_app; [left | right]; left.
Qed.

End ForkingFacts.

Section MemoryFacts.

Context `{Solver} `{ExprOptimizer} `{ConstraintManager} `{MemoryModel}
        `{RNG} `{Seeding}.

Variable setOfValues : list (Width * Z) -> list (Width * Z).

(** X12.  A [Load] through a constant pointer that resolves to one
    object, within its bounds, binds the destination register to what the
    object state reads at the offset of the pointer from the base of the
    object, at the width of the loaded type.  Nothing else changes: no
    state is created or terminated and no constraint is added. *)
Theorem load_in_bounds_binds_the_bytes_read sid ki ex s sf rest r address mo os :
  store ex !! sid = Some s ->
  stack s = sf :: rest ->
  (0 < numOperands (inst ki))%nat ->
  operands ki !! 0%nat = Some (Z.of_nat r) ->
  locals sf !! r = Some (Some address) ->
  isConstant address = true ->
  let a := optimizeExpr address true in
  let type := getWidthForLLVMType (inst ki) in
  let pw := pointerWidth (kmodule (config ex)) in
  let offset := getOffsetExpr pw mo a in
  resolveOne (addressSpace s) (constraints s) a = Some (Some (mo, os)) ->
  MaxSymArraySize (config ex) = 0%N ->
  MakeConcreteSymbolic (config ex) = 0%N ->
  mustBeTrue (constraints s)
    (optimizeExpr (getBoundsCheckOffset pw mo offset (getMinBytesForWidth type)) true)
  = Some true ->
  (dest ki < length (locals sf))%nat ->
  executeLoad sid ki ex
  = Ok tt (updated sid (withLocal (dest ki) (os_read os offset type) sf rest s) ex).
Proof.
  intros Hs Hstack Hn Hop Hr Hc a type pw offset Hres Hmax Hmcs Hin Hdest.
  unfold executeLoad.
  assert (Hrlt : (r < length (locals sf))%nat)
    by (apply lookup_lt_is_Some_1; eexists; exact Hr).
  unfold bind at 1.
  rewrite (eval_operand_register ki 0 sid ex s sf rest r Hs Hstack Hn Hop Hrlt).
  rewrite Hr. change (default None (Some (Some address))) with (Some address).
  unfold bind at 1, deref at 1, option_get at 1, ret at 1.
  exact (load_in_bounds_run sid address _ ki ex s mo os sf rest Hc Hs Hres Hmax Hmcs
           Hin Hstack Hdest).
Qed.

(** X13.  A value stored through a constant pointer is the value a load
    through the same pointer reads back.  The store, within the bounds of
    a writable object, rebinds the object in the address space of this
    state to the content [os_write] gives; when the address space then
    resolves the pointer to the object with that content, and reading the
    content at the offset gives back what was written there, the load
    binds its register to the stored value.  No state is created or
    terminated on the way. *)
Theorem store_then_load_reads_the_stored_value
    sid address value target1 target ex s mo os sf rest :
  isConstant address = true ->
  store ex !! sid = Some s ->
  let a := optimizeExpr address true in
  let v := storedValue ex s true value in
  let pw := pointerWidth (kmodule (config ex)) in
  let offset := getOffsetExpr pw mo a in
  let os' := os_write os offset v in
  let s1 := set_addressSpace (rebindObject mo os' (addressSpace s)) s in
  resolveOne (addressSpace s) (constraints s) a = Some (Some (mo, os)) ->
  readOnly os = false ->
  resolveOne (addressSpace s1) (constraints s) a = Some (Some (mo, os')) ->
  MaxSymArraySize (config ex) = 0%N ->
  MakeConcreteSymbolic (config ex) = 0%N ->
  getWidthForLLVMType (inst target) = getWidth value ->
  mustBeTrue (constraints s)
    (optimizeExpr
       (getBoundsCheckOffset pw mo offset (getMinBytesForWidth (getWidth value))) true)
  = Some true ->
  os_read os' offset (getWidth value) = v ->
  stack s = sf :: rest ->
  (dest target < length (locals sf))%nat ->
  (executeMemoryOperation sid true address value target1;;
   executeMemoryOperation sid false address (ConstantExpr 0%N 0) target) ex
  = Ok tt (updated sid (withLocal (dest target) v sf rest s1) ex).
Proof.
  intros Hc Hs a v pw offset os' s1 Hres Hrw Hres1 Hmax Hmcs Hty Hin Hread Hstack Hdest.
  unfold bind at 1.
  rewrite (store_in_bounds_run sid address value target1 ex s mo os Hc Hs Hres Hmax Hin).
  rewrite Hrw. fold a v pw offset os' s1.
  set (ex1 := set_store _ ex).
  assert (Hs1 : store ex1 !! sid = Some s1) by (cbn; apply lookup_insert_eq).
  assert (Hin1 : mustBeTrue (constraints s1)
            (optimizeExpr
               (getBoundsCheckOffset (pointerWidth (kmodule (config ex1))) mo
                  (getOffsetExpr (pointerWidth (kmodule (config ex1))) mo a)
                  (getMinBytesForWidth (getWidthForLLVMType (inst target)))) true)
          = Some true) by (rewrite Hty; exact Hin).
  assert (Hread1 : os_read os'
            (getOffsetExpr (pointerWidth (kmodule (config ex1))) mo
               (optimizeExpr address true))
            (getWidthForLLVMType (inst target)) = v) by (rewrite Hty; exact Hread).
  rewrite (load_in_bounds_run sid address _ target ex1 s1 mo os' sf rest Hc Hs1 Hres1
             Hmax Hmcs Hin1 Hstack Hdest).
  rewrite Hread1. f_equal.
  unfold updated, ex1. same_engine. same_store.
Qed.

(** X14.  A store into a read-only object, through a constant pointer
    that lies within its bounds, writes nothing: the state is terminated
    with the error "memory error: object read only", of reason
    [ReadOnly], reported at the last instruction outside the runtime, and
    its memory is as it was. *)
Theorem store_to_read_only_object_is_an_error
    sid address value target ex s mo os i :
  isConstant address = true ->
  store ex !! sid = Some s ->
  sid ∉ addedStates ex ->
  let a := optimizeExpr address true in
  let pw := pointerWidth (kmodule (config ex)) in
  resolveOne (addressSpace s) (constraints s) a = Some (Some (mo, os)) ->
  readOnly os = true ->
  MaxSymArraySize (config ex) = 0%N ->
  mustBeTrue (constraints s)
    (optimizeExpr
       (getBoundsCheckOffset pw mo (getOffsetExpr pw mo a)
          (getMinBytesForWidth (getWidth value))) true)
  = Some true ->
  getLastNonKleeInternalInstruction (kmodule (config ex)) s = Some i ->
  executeMemoryOperation sid true address value target ex
  = Ok tt (failed sid s i "memory error: object read only" ReadOnly None ex)
  /\ forall s', store (failed sid s i "memory error: object read only"
                         ReadOnly None ex) !! sid = Some s' ->
       addressSpace s' = addressSpace s.
Proof.
  intros Hc Hs Hadd a pw Hres Hro Hmax Hin Hi. split.
  - rewrite (store_in_bounds_run sid address value target ex s mo os Hc Hs Hres Hmax Hin).
    rewrite Hro. apply terminateStateOnError_run; assumption.
  - intros s'. unfold failed. destruct (shouldExitOn (config ex) ReadOnly); cbn;
      rewrite lookup_insert_eq; intros [= <-]; reflexivity.
Qed.

(** X15.  A memory operation whose bounds check the solver does not
    answer ends the state: the program counter is set back, the state is
    terminated early with "Query timed out (bounds check)." and queued for
    removal; nothing is read or written. *)
Theorem bounds_check_timeout_ends_the_state
    sid isWrite address value target ex s mo os :
  isConstant address = true ->
  store ex !! sid = Some s ->
  sid ∉ addedStates ex ->
  let a := optimizeExpr address true in
  let pw := pointerWidth (kmodule (config ex)) in
  let bytes := getMinBytesForWidth (accessWidth isWrite value target) in
  resolveOne (addressSpace s) (constraints s) a = Some (Some (mo, os)) ->
  MaxSymArraySize (config ex) = 0%N ->
  mustBeTrue (constraints s)
    (optimizeExpr (getBoundsCheckOffset pw mo (getOffsetExpr pw mo a) bytes) true)
  = None ->
  executeMemoryOperation sid isWrite address value target ex
  = Ok tt (queued sid s
             (logged (earlyEvents ex sid s "Query timed out (bounds check).") ex)).
Proof. apply bounds_check_timeout_run. Qed.

(** X16.  An allocation of constant size that the memory manager grants
    binds a new object and returns its address.  The object is handed out
    by the manager, at the native address when the allocation is on the
    heap; it is bound in the address space of the state with a fresh
    content, added to the allocas of the innermost frame when it is local,
    and its base address, a constant of pointer width, is bound to the
    destination register.  The objects bound before stay bound. *)
Theorem granted_allocation_binds_a_fresh_object
    sid size isLocal target zeroMemory alignment isheap ex s w v mo0 sf rest :
  store ex !! sid = Some s ->
  toUnique (constraints s) size = ConstantExpr w v ->
  allocate (memory ex) (Z.to_N (trunc w v)) isLocal false (prevPC s)
    (if (alignment =? 0)%N then getAllocationAlignment (prevPC s) else alignment)
  = Some mo0 ->
  stack s = sf :: rest ->
  (dest target < length (locals sf))%nat ->
  let mo := if isheap : bool then set_heapAddress (nme_req mo0) mo0 else mo0 in
  let os := freshObjectState mo zeroMemory in
  let pw := pointerWidth (kmodule (config ex)) in
  let s' := allocated mo os isLocal (dest target) pw sf rest s in
  executeAlloc sid size isLocal target zeroMemory None alignment isheap ex
  = Ok tt (updated sid s' (set_memory (memory ex ++ [mo]) ex))
  /\ objects (addressSpace s') = objects (addressSpace s) ++ [(mo, os)]
  /\ (exists sf', stack s' = sf' :: rest
        /\ locals sf' !! dest target = Some (Some (ConstantExpr pw (address mo)))
        /\ allocas sf' = if isLocal then allocas sf ++ [mo] else allocas sf)
  /\ constraints s' = constraints s.
Proof.
  intros Hs Hsize Hsome Hstack Hdest mo os pw s'. split.
  - exact (executeAlloc_granted_run sid size isLocal target zeroMemory alignment isheap
             ex s w v mo0 sf rest Hs Hsize Hsome Hstack Hdest).
  - split; [reflexivity|]. split; [|reflexivity].
    eexists. split; [reflexivity|]. cbn [locals set_locals].
    split.
    + apply list_lookup_insert_eq. destruct isLocal; exact Hdest.
    + destruct isLocal; reflexivity.
Qed.

(** X17.  [free] of a pointer that is not null and is the base address of
    an object that is neither a local nor a global unbinds the object from
    the address space of the state, and binds the null pointer to the
    destination register when there is one.  Every other object stays
    bound and the state is not terminated. *)
Theorem free_unbinds_the_object sid address target ex s mo os inc sf rest :
  store ex !! sid = Some s ->
  seedMap ex !! sid = None ->
  maxStaticPctExceeded (config ex) = false ->
  let a := optimizeExpr address true in
  let a' := optimizeExpr a true in
  let pw := pointerWidth (kmodule (config ex)) in
  evaluate (constraints s) (createIsZero a) = Some VFalse ->
  resolve (addressSpace s) (constraints s) a' = ([(mo, os)], inc) ->
  evaluate (constraints s) (EqExpr_create a' (getBaseExpr pw mo)) = Some VTrue ->
  isLocal mo = false -> isGlobal mo = false ->
  stack s = sf :: rest ->
  (forall t, target = Some t -> (dest t < length (locals sf))%nat) ->
  executeFree sid address target ex
  = Ok tt (updated sid (withNull target pw sf rest (released mo s)) ex)
  /\ forall p, p ∈ objects (addressSpace (withNull target pw sf rest (released mo s)))
               <-> p ∈ objects (addressSpace s) /\ mo_id (fst p) <> mo_id mo.
Proof.
  intros Hs Hseed Hpct a a' pw Hnz Hres Heq Hloc Hglob Hstack Hdest. split.
  - exact (free_object_run sid address target ex s mo os inc sf rest Hs Hseed Hpct
             Hnz Hres Heq Hloc Hglob Hstack Hdest).
  - intros p. destruct target; cbn; rewrite list_elem_of_filter; tauto.
Qed.

(** X18.  [free] of a pointer that can only be null frees nothing: no
    object is looked up or unbound; the null pointer is bound to the
    destination register when there is one, and without one the engine is
    left exactly as it was. *)
Theorem free_of_null_frees_nothing sid address target ex s sf rest :
  store ex !! sid = Some s ->
  seedMap ex !! sid = None ->
  maxStaticPctExceeded (config ex) = false ->
  evaluate (constraints s) (createIsZero (optimizeExpr address true)) = Some VTrue ->
  stack s = sf :: rest ->
  (forall t, target = Some t -> (dest t < length (locals sf))%nat) ->
  executeFree sid address target ex
  = Ok tt (match target with
           | Some _ =>
               updated sid
                 (withNull target (pointerWidth (kmodule (config ex))) sf rest s) ex
           | None => ex
           end).
Proof. apply free_null_run. Qed.

(** X19.  [free] of the base address of a local or of a global is an
    error: the state is terminated with the message "free of alloca", or
    "free of global", and the reason [Free]; the object stays bound. *)
Theorem free_of_alloca_or_global_is_an_error sid address target ex s mo os inc i :
  store ex !! sid = Some s ->
  seedMap ex !! sid = None ->
  sid ∉ addedStates ex ->
  maxStaticPctExceeded (config ex) = false ->
  let a := optimizeExpr address true in
  let a' := optimizeExpr a true in
  let pw := pointerWidth (kmodule (config ex)) in
  evaluate (constraints s) (createIsZero a) = Some VFalse ->
  resolve (addressSpace s) (constraints s) a' = ([(mo, os)], inc) ->
  evaluate (constraints s) (EqExpr_create a' (getBaseExpr pw mo)) = Some VTrue ->
  isLocal mo = true \/ isGlobal mo = true ->
  isConstant a = true \/ is_Some (getValue (constraints s) a) ->
  getLastNonKleeInternalInstruction (kmodule (config ex)) s = Some i ->
  let message := if isLocal mo then "free of alloca" else "free of global" in
  executeFree sid address target ex = Ok tt (failed sid s i message Free None ex)
  /\ forall s', store (failed sid s i message Free None ex) !! sid = Some s' ->
       addressSpace s' = addressSpace s.
Proof.
  intros Hs Hseed Hadd Hpct a a' pw Hnz Hres Heq Hkind Ha Hi message. split.
  - exact (free_of_alloca_or_global_run sid address target ex s mo os inc i Hs Hseed Hadd
             Hpct Hnz Hres Heq Hkind Ha Hi).
  - intros s'. unfold failed. destruct (shouldExitOn (config ex) Free); cbn;
      rewrite lookup_insert_eq; intros [= <-]; reflexivity.
Qed.

(** X20.  [free] of a pointer that is not null and is the base address of
    no object is an error: the state is terminated with the message
    "memory error: invalid pointer: free" and the reason [Ptr]. *)
Theorem free_of_invalid_pointer_is_an_error sid address target ex s inc i :
  store ex !! sid = Some s ->
  seedMap ex !! sid = None ->
  sid ∉ addedStates ex ->
  maxStaticPctExceeded (config ex) = false ->
  let a := optimizeExpr address true in
  let a' := optimizeExpr a true in
  evaluate (constraints s) (createIsZero a) = Some VFalse ->
  resolve (addressSpace s) (constraints s) a' = ([], inc) ->
  isConstant a' = true \/ is_Some (getValue (constraints s) a') ->
  getLastNonKleeInternalInstruction (kmodule (config ex)) s = Some i ->
  executeFree sid address target ex
  = Ok tt (failed sid s i "memory error: invalid pointer: free" Ptr None ex).
Proof. apply free_of_invalid_pointer_run. Qed.

(** X21.  [executeGetValue] on a state without seeds binds the register to
    a value the solver proposes for the expression, simplified and
    optimized, and adds no constraint: unlike [toConstant], it leaves the
    path free to take other values.  When the solver fails the engine
    aborts on the assertion. *)
Theorem getValue_binds_a_value_and_adds_no_constraint sid e target ex s sf rest :
  store ex !! sid = Some s ->
  seedMap ex !! sid = None ->
  stack s = sf :: rest ->
  (dest target < length (locals sf))%nat ->
  let e' := optimizeExpr (simplifyExpr (constraints s) e) true in
  executeGetValue setOfValues sid e target ex
  = match getValue (constraints s) e' with
    | Some v => Ok tt (updated sid (withLocal (dest target) (constantOf v) sf rest s) ex)
    | None => Crash "FIXME: Unhandled solver failure"
    end.
Proof.
  intros Hs Hseed Hstack Hdest e'.
  destruct (getValue (constraints s) e') as [v|] eqn:Hv.
  - exact (executeGetValue_unseeded_run setOfValues sid e target ex s v sf rest Hs Hseed
             Hv Hstack Hdest).
  - unfold executeGetValue.
    unfold bind at 1, getState at 1. rewrite Hs.
    unfold bind at 1, gets at 1. rewrite Hseed.
    replace (if isConstant (simplifyExpr (constraints s) e)
             then None else @None (list SeedInfo)) with (@None (list SeedInfo))
      by (destruct (isConstant _); reflexivity).
    fold e'. unfold bind at 1, assertSuccess at 1, option_get at 1. rewrite Hv.
    reflexivity.
Qed.

End MemoryFacts.

Section CallFacts.

Context `{Solver} `{ExprOptimizer} `{ConstraintManager} `{MemoryModel}
        `{RNG} `{Seeding}.

Variable addressOf : nat -> Z.
Variable functionAt : Z -> option Function.
Variable callExternalFunction : nat -> KInstruction -> Z -> list (option Expr) -> M unit.
Variable fabsBits : Width -> Z -> option Z.
Variable RuntimeMaxStackFrames : N.
Variable newObjectState : MemoryObject -> ObjectState.

(** X22.  A conditional [Br] on a condition, read from a register, that
    once optimized is not a constant and that the solver cannot decide
    leaves two states, the successors being blocks of the module: the
    current one at the entry of the first successor, with the optimized
    condition among its constraints, and a new one at the entry of the
    second successor, with the negation; the two have the stack and the
    memory of the state that branched.  This is the branch of a state
    without seeds when forking is not inhibited, neither a path nor a
    ktest is replayed, neither a path nor a symbolic path is written, the
    static limit on forks is not exceeded and the depth is not bounded
    ([MaxDepth] is 0); the identifier of the new state is fresh and has no
    seeds. *)
Theorem conditional_branch_forks_to_both_successors
    sid ki successor0 successor1 ex s sf rest r cond first0 first1 :
  let km := kmodule (config ex) in
  let c := optimizeExpr cond false in
  let src := parent (inst ki) in
  store ex !! sid = Some s ->
  stack s = sf :: rest ->
  (0 < numOperands (inst ki))%nat ->
  operands ki !! 0%nat = Some (Z.of_nat r) ->
  locals sf !! r = Some (Some cond) ->
  seedMap ex !! sid = None ->
  seedMap ex !! nextState ex = None ->
  sid <> nextState ex ->
  replayPath (config ex) = None ->
  replayKTest (config ex) = false ->
  maxStaticPctExceeded (config ex) = false ->
  pathWriter (config ex) = false ->
  symPathWriter (config ex) = false ->
  MaxDepth (config ex) = 0%N ->
  evaluate (constraints s) c = Some VUnknown ->
  forkInhibited s ex = false ->
  isConstant c = false ->
  instructions km !! basicBlockEntry km (kf sf) successor0 = Some first0 ->
  instructions km !! basicBlockEntry km (kf sf) successor1 = Some first1 ->
  let t := arrived km successor0 src sf (trueBranch c s) in
  let f := arrived km successor1 src sf (falseBranch c s) in
  executeBr sid ki false successor0 successor1 ex
  = Ok tt (updated (nextState ex) f (updated sid t (forked sid s c ex)))
  /\ (pc t = basicBlockEntry km (kf sf) successor0
      /\ constraints t = constraints s ++ [c]
      /\ stack t = stack s /\ addressSpace t = addressSpace s)
  /\ (pc f = basicBlockEntry km (kf sf) successor1
      /\ constraints f = constraints s ++ [createIsZero c]
      /\ stack f = stack s /\ addressSpace f = addressSpace s).
Proof.
  intros km c src Hs Hstack Hn Hop Hr Hseed Hfresh Hne Hreplay Hktest Hpct Hpath
         Hsym Hdepth Hev Hinh Hc Hf0 Hf1 t f.
  split.
  - exact (executeBr_undecided_run sid ki successor0 successor1 ex s sf rest r cond
             first0 first1 Hs Hstack Hn Hop Hr Hseed Hfresh Hne Hreplay Hktest Hpct
             Hpath Hsym Hdepth Hev Hinh Hc Hf0 Hf1).
  - unfold t, f, arrived. fold km. rewrite Hf0, Hf1.
    split; destruct (opcode (inst first0)), (opcode (inst first1)); repeat split.
Qed.

(** X23.  A [PHI] reads the operand of the block control came from.  When
    [transferToBasicBlock] enters a block whose first instruction is a
    [PHI], and the source block is the [i]-th incoming block of that
    [PHI], executing the [PHI] binds its register to the content of its
    [i]-th operand.  When the source block is not among the incoming
    blocks, the index recorded is [-1], and the [PHI] fails the assertion
    on the operand index. *)
Theorem phi_reads_the_operand_of_the_predecessor
    dst src sid ex s sf rest first :
  let km := kmodule (config ex) in
  store ex !! sid = Some s ->
  stack s = sf :: rest ->
  instructions km !! basicBlockEntry km (kf sf) dst = Some first ->
  opcode (inst first) = PHI ->
  (forall i r,
     list_find (fun b => b = src) (incomingBlocks (inst first)) = Some (i, src) ->
     (i < numOperands (inst first))%nat ->
     (Z.of_nat i < 2 ^ 32) ->
     operands first !! i = Some (Z.of_nat r) ->
     (r < length (locals sf))%nat ->
     (dest first < length (locals sf))%nat ->
     (transferToBasicBlock dst src sid;; executePHI sid first) ex
     = Ok tt (updated sid
                (withCell (dest first) (default None (locals sf !! r)) sf rest
                   (arrived km dst src sf s)) ex))
  /\ (src ∉ incomingBlocks (inst first) ->
      (numOperands (inst first) < 2 ^ 32 - 1)%nat ->
      (transferToBasicBlock dst src sid;; executePHI sid first) ex
      = Crash "assert(index < ki->inst->getNumOperands())").
Proof.
  intros km Hs Hstack Hfirst Hphi.
  assert (Harr : arrived km dst src sf s
                 = set_incomingBBIndex (indexOf src (incomingBlocks (inst first)))
                     (set_pc (basicBlockEntry km (kf sf) dst) s)).
  { unfold arrived. rewrite Hfirst, Hphi. reflexivity. }
  split.
  - intros i r Hfind Hi Hsmall Hop Hr Hdest.
    unfold bind at 1.
    rewrite (transferToBasicBlock_run dst src sid ex s sf rest first Hs Hstack Hfirst).
    fold km. set (s1 := arrived km dst src sf s) in *.
    set (ex1 := updated sid s1 ex).
    assert (Hs1 : store ex1 !! sid = Some s1) by (cbn; apply lookup_insert_eq).
    assert (Hstack1 : stack s1 = sf :: rest) by (rewrite Harr; exact Hstack).
    assert (Hidx : incomingBBIndex s1 = Z.of_nat i).
    { rewrite Harr. cbn. unfold indexOf. rewrite Hfind. reflexivity. }
    rewrite (executePHI_run sid first ex1 s1 sf rest i r Hs1 Hstack1 Hidx Hi Hsmall
               Hop Hr Hdest).
    f_equal. unfold updated, ex1. same_engine. same_store.
  - intros Hnot Hn.
    unfold bind at 1.
    rewrite (transferToBasicBlock_run dst src sid ex s sf rest first Hs Hstack Hfirst).
    fold km. set (s1 := arrived km dst src sf s) in *.
    set (ex1 := updated sid s1 ex).
    assert (Hs1 : store ex1 !! sid = Some s1) by (cbn; apply lookup_insert_eq).
    assert (Hidx : incomingBBIndex s1 = -1).
    { rewrite Harr. cbn. unfold indexOf.
      destruct (list_find _ _) as [[j b]|] eqn:Hfind; [|reflexivity].
      apply list_find_Some in Hfind as (Hj & -> & _).
      exfalso. apply Hnot. apply list_elem_of_lookup. exists j. exact Hj. }
    exact (executePHI_unknown_predecessor sid first ex1 s1 Hs1 Hidx Hn).
Qed.

(** X24.  The call of a function defined in the module, with a fixed
    number of formals and at least as many arguments, enters the callee:
    a frame is pushed whose caller is the instruction that made the call,
    whose register file holds the arguments in the registers of the
    formals and is empty elsewhere, and which has no allocas; the program
    counter is at the first instruction of the callee.  The frames of the
    caller, the memory and the constraints are as they were. *)
Theorem call_enters_the_callee sid ki fa arguments ex s f :
  store ex !! sid = Some s ->
  isDbgInfoIntrinsic (inst ki) = false ->
  functionAt fa = Some f ->
  isDeclaration f = false ->
  isVarArg f = false ->
  RuntimeMaxStackFrames = 0%N
  \/ (N.of_nat (length (stack s)) <= RuntimeMaxStackFrames)%N ->
  (arg_size f <= length arguments)%nat ->
  (forall j, (j < arg_size f)%nat -> (getArgRegister f j < numRegisters f)%nat) ->
  executeCall functionAt callExternalFunction fabsBits RuntimeMaxStackFrames
    newObjectState sid ki fa arguments ex
  = Ok tt (updated sid (called f arguments s) ex)
  /\ pc (called f arguments s) = kfEntry f
  /\ tail (stack (called f arguments s)) = stack s
  /\ (exists sf, head (stack (called f arguments s)) = Some sf
        /\ caller sf = Some (prevPC s) /\ kf sf = kfunction f /\ allocas sf = []
        /\ length (locals sf) = numRegisters f)
  /\ addressSpace (called f arguments s) = addressSpace s
  /\ constraints (called f arguments s) = constraints s.
Proof.
  intros Hs Hdbg Hf Hdef Hfixed Hlimit Hargs Hregs. split.
  - exact (executeCall_defined_run functionAt callExternalFunction fabsBits
             RuntimeMaxStackFrames newObjectState sid ki fa arguments ex s f
             Hs Hdbg Hf Hdef Hfixed Hlimit Hargs Hregs).
  - split; [reflexivity|]. split; [reflexivity|]. split; [|split; reflexivity].
    eexists. split; [reflexivity|]. cbn.
    repeat split. rewrite boundLocals_length. apply length_replicate.
Qed.

(** X25.  A call followed by the return undoes itself.  Two steps of a
    state are taken one after the other, each as the loop of [run] takes
    it (the instruction at the program counter is fetched,
    [stepInstruction] is called, the instruction is executed), neither of
    which reaches the limit on instructions: the first on a [call], with
    no user of its result, of a defined function of fixed arity that is
    given its arguments within the limit on stack frames, the second on
    the first instruction of the callee, a [ret] of nothing.
    The state is then what it was before the call, stack, memory,
    constraints and all, except that its program counter is at the
    instruction after the call and its previous program counter at the
    [ret]. *)
Theorem call_then_return_restores_the_caller
    MaxInstructions executed sid kc kret fa arguments ex s f sf rest :
  store ex !! sid = Some s ->
  stack s = sf :: rest ->
  instructions (kmodule (config ex)) !! pc s = Some kc ->
  instructions (kmodule (config ex)) !! kfEntry f = Some kret ->
  ((executed + 1) mod 2 ^ 64 <> MaxInstructions)%N ->
  (((executed + 1) mod 2 ^ 64 + 1) mod 2 ^ 64 <> MaxInstructions)%N ->
  opcode (inst kc) = Call ->
  isDbgInfoIntrinsic (inst kc) = false ->
  use_empty (inst kc) = true ->
  numOperands (inst kret) = 0%nat ->
  functionAt fa = Some f ->
  isDeclaration f = false ->
  isVarArg f = false ->
  RuntimeMaxStackFrames = 0%N
  \/ (N.of_nat (length (stack s)) <= RuntimeMaxStackFrames)%N ->
  (arg_size f <= length arguments)%nat ->
  (forall j, (j < arg_size f)%nat -> (getArgRegister f j < numRegisters f)%nat) ->
  (runStep MaxInstructions executed sid
     (fun sid ki =>
        executeCall functionAt callExternalFunction fabsBits RuntimeMaxStackFrames
          newObjectState sid ki fa arguments);;
   runStep MaxInstructions ((executed + 1) mod 2 ^ 64) sid executeRet) ex
  = Ok tt (updated sid (set_pc (S (pc s)) (set_prevPC (kfEntry f) s)) ex).
Proof.
  intros Hs Hstack Hkc Hkret Hlimit1 Hlimit2 Hcall Hdbg Hunused Hvoid Hf Hdef
    Hfixed Hlimit Hargs Hregs.
  unfold bind at 1.
  rewrite (runStep_run MaxInstructions executed sid _ ex s kc Hs Hkc Hlimit1).
  set (s1 := set_pc (S (pc s)) (set_prevPC (pc s) s)).
  set (ex1 := updated sid s1 ex).
  assert (Hs1 : store ex1 !! sid = Some s1) by (cbn; apply lookup_insert_eq).
  rewrite (executeCall_defined_run functionAt callExternalFunction fabsBits
             RuntimeMaxStackFrames newObjectState sid kc fa arguments ex1 s1 f
             Hs1 Hdbg Hf Hdef Hfixed Hlimit Hargs Hregs).
  set (s2 := called f arguments s1). set (ex2 := updated sid s2 ex1).
  assert (Hs2 : store ex2 !! sid = Some s2) by (cbn; apply lookup_insert_eq).
  assert (Hkret2 : instructions (kmodule (config ex2)) !! pc s2 = Some kret)
    by exact Hkret.
  rewrite (runStep_run MaxInstructions _ sid executeRet ex2 s2 kret Hs2 Hkret2 Hlimit2).
  set (s3 := set_pc (S (pc s2)) (set_prevPC (pc s2) s2)).
  set (ex3 := updated sid s3 ex2).
  assert (Hs3 : store ex3 !! sid = Some s3) by (cbn; apply lookup_insert_eq).
  assert (Hstack3 : stack s3 = {| caller := Some (pc s); kf := kfunction f;
                                  locals := boundLocals f 0 (arg_size f) arguments
                                              (replicate (numRegisters f) None);
                                  allocas := []; varargs := None |} :: sf :: rest).
  { unfold s3, s2, called, s1. cbn. rewrite Hstack. reflexivity. }
  assert (Hkc3 : instructions (kmodule (config ex3)) !! pc s = Some kc) by exact Hkc.
  rewrite (executeRet_void_run sid kret ex3 s3 _ sf rest (pc s) kc Hs3 Hstack3
             eq_refl Hkc3 Hcall Hvoid Hunused).
  f_equal. unfold updated, ex3, ex2, ex1. same_engine.
  replace (set_pc (S (pc s)) (popFrame s3))
    with (set_pc (S (pc s)) (set_prevPC (kfEntry f) s)).
  - unfold updated. cbn. same_store.
  - unfold popFrame. rewrite Hstack3. cbn. rewrite <- Hstack. reflexivity.
Qed.

(** X26.  A call that passes fewer arguments than the function has
    formals is an error of the program under test: the state is
    terminated with the message "calling function with too few arguments"
    and the reason [User].  The frame of the callee has been pushed by
    then, so the state is reported from inside the callee. *)
Theorem call_with_too_few_arguments_is_an_error sid ki fa arguments ex s f i :
  store ex !! sid = Some s ->
  sid ∉ addedStates ex ->
  isDbgInfoIntrinsic (inst ki) = false ->
  functionAt fa = Some f ->
  isDeclaration f = false ->
  RuntimeMaxStackFrames = 0%N
  \/ (N.of_nat (length (stack s)) <= RuntimeMaxStackFrames)%N ->
  (length arguments < arg_size f)%nat ->
  let s1 := set_pc (kfEntry f) (pushFrame (prevPC s) f s) in
  getLastNonKleeInternalInstruction (kmodule (config ex)) s1 = Some i ->
  executeCall functionAt callExternalFunction fabsBits RuntimeMaxStackFrames
    newObjectState sid ki fa arguments ex
  = Ok tt (failed sid s1 i "calling function with too few arguments" User None
             (updated sid s1 ex))
  /\ length (stack s1) = S (length (stack s)).
Proof.
  intros Hs Hadd Hdbg Hf Hdef Hlimit Hargs s1 Hi. split; [|reflexivity].
  exact (executeCall_too_few_run functionAt callExternalFunction fabsBits
           RuntimeMaxStackFrames newObjectState sid ki fa arguments ex s f i
           Hs Hadd Hdbg Hf Hdef Hlimit Hargs Hi).
Qed.

(** X27.  A call of a defined function on a stack that has more frames
    than [RuntimeMaxStackFrames] allows pushes no frame: the state is
    terminated early with the message "Maximum stack size reached." and
    queued for removal.  A limit of zero disables the check. *)
Theorem call_beyond_the_stack_limit_ends_the_state sid ki fa arguments ex s f :
  store ex !! sid = Some s ->
  sid ∉ addedStates ex ->
  isDbgInfoIntrinsic (inst ki) = false ->
  functionAt fa = Some f ->
  isDeclaration f = false ->
  RuntimeMaxStackFrames <> 0%N ->
  (RuntimeMaxStackFrames < N.of_nat (length (stack s)))%N ->
  executeCall functionAt callExternalFunction fabsBits RuntimeMaxStackFrames
    newObjectState sid ki fa arguments ex
  = Ok tt (queued sid s
             (logged (earlyEvents ex sid s "Maximum stack size reached.") ex)).
Proof. apply executeCall_stack_limit_run. Qed.

(** X28.  The variadic arguments of a call fit in the region allocated for
    them.  For a word size of 32 or 64 bits, and as long as the sizes do
    not overflow 32 bits, the second loop of [executeCall] writes each
    argument at an offset such that the bytes of the argument end within
    the size the first loop computed, and before the offset of every later
    argument, so that no two arguments overlap; on 64 bits an argument
    wider than 64 bits is written at a multiple of 16. *)
Theorem variadic_arguments_fit_in_their_region WordSize args os ex :
  WordSize = Int32 \/ WordSize = Int64 ->
  let widths := map getWidth args in
  (varargsExtent WordSize widths < 2 ^ 32)%N ->
  let size := fst (varargsSize WordSize widths 0 false) in
  let offsets := varargsOffsets WordSize widths 0 in
  writeVarargs WordSize args 0 os ex = Ok (written os (zip offsets args)) ex
  /\ length offsets = length args
  /\ forall i o a,
       offsets !! i = Some o -> args !! i = Some a ->
       (o + getMinBytesForWidth (getWidth a) <= size)%N
       /\ (WordSize = Int64 -> (Int64 < getWidth a)%N -> (o mod 16 = 0)%N)
       /\ forall j o', (i < j)%nat -> offsets !! j = Some o' ->
            (o + getMinBytesForWidth (getWidth a) <= o')%N.
Proof.
  intros HW widths Hfit size offsets.
  split; [apply writeVarargs_run; exact HW|].
  destruct (varargs_layout WordSize HW widths 0%N false ltac:(lia))
    as (_ & Hlen & Hall).
  split; [unfold offsets; rewrite Hlen; unfold widths; apply length_map|].
  intros i o a Ho Ha.
  assert (Hw : widths !! i = Some (getWidth a))
    by (unfold widths; rewrite list_lookup_fmap, Ha; reflexivity).
  destruct (Hall i o (getWidth a) Ho Hw) as (_ & Hin & Hal & Hnext).
  split; [exact Hin|]. split; [exact Hal | exact Hnext].
Qed.

(** X29.  [getAllocationAlignment] returns a power of two for every
    allocation site it handles, a global, an alloca or a call, so that its
    closing assertion cannot fail; a declared alignment that is a power
    of two is returned as it is, and the alignment of memory returned by a
    call is 8. *)
Theorem allocation_alignment_is_a_power_of_two site :
  site <> OtherSite ->
  (exists a k, Alignment.getAllocationAlignment site = Some a /\ a = (2 ^ k)%N)
  /\ (forall al ty,
        site = GlobalSite al ty \/ site = AllocaSite al ty ->
        isPowerOfTwo al = true ->
        Alignment.getAllocationAlignment site = Some al)
  /\ (site = CallSite -> Alignment.getAllocationAlignment site = Some 8%N).
Proof.
  intros Hsite. split; [|split].
  - destruct (getAllocationAlignment_power site Hsite) as (a & Ha & Hpow).
    destruct (isPowerOfTwo_spec a Hpow) as [k Hk]. exists a, k. split; assumption.
  - intros al ty Hkind Hal.
    destruct (getAllocationAlignment_declared al ty Hal) as [Hg Ha].
    destruct Hkind as [-> | ->]; assumption.
  - intros ->. reflexivity.
Qed.

(** X30.  In seed-only mode, a store through a constant pointer that
    resolves to no object and lies outside the native heap, by a state of
    the set that has no seeds, queues that state for removal twice: once
    when the engine leaves seed-only mode and terminates every state of
    the set, and once for the out-of-bound error.  The update of the
    states that follows fails its assertion and the engine aborts. *)
Theorem overflow_in_seed_only_mode_aborts_the_engine
    sid address value target ex s w v i :
  isConstant address = true ->
  store ex !! sid = Some s ->
  let a := optimizeExpr address true in
  let a' := optimizeExpr a true in
  resolveOne (addressSpace s) (constraints s) a = Some None ->
  resolve (addressSpace s) (constraints s) a' = ([], false) ->
  a' = ConstantExpr w v ->
  trunc w v <= n_heap_l (config ex) \/ n_heap_h (config ex) < trunc w v ->
  OnlySeed ex = true ->
  seedMap ex !! sid = None ->
  NoDup (states ex) ->
  sid ∈ states ex ->
  (forall x, x ∈ states ex -> is_Some (store ex !! x) /\ x ∉ addedStates ex) ->
  getLastNonKleeInternalInstruction (kmodule (config ex)) s = Some i ->
  (executeMemoryOperation sid true address value target;;
   updateStates addressOf) ex
  = Crash "assert(it2!=states.end())".
Proof.
  intros Hc Hs a a' Hone Hres Ha' Hout Honly Hseed Hnd Hin Hlive Hi.
  destruct (only_seed_overflow_run sid address value target ex s w v i Hc Hs Hone
              Hres Ha' Hout Honly Hseed Hlive (proj2 (Hlive sid Hin)) Hi)
    as (ex' & Hrun & Hrem & Hst & _).
  unfold bind at 1. rewrite Hrun.
  apply updateStates_crash.
  - rewrite Hst. exact Hnd.
  - intros [Hndr _]. rewrite Hrem in Hndr.
    apply NoDup_app in Hndr as (_ & _ & Hndr).
    apply NoDup_app in Hndr as (_ & Hdisj & _).
    apply (Hdisj sid Hin). left.
Qed.

End CallFacts.

(** ** Terminations, as they are observed

    The runs of the handlers that terminate a state, stated with the
    observations [terminated], [reported] and [exited]; then the claims
    that rest on what a termination writes. *)

Section ErrorReports.

Context `{Solver} `{ExprOptimizer} `{ConstraintManager} `{MemoryModel}
        `{RNG} `{Seeding}.

Lemma terminateState_run sid ex s :
  store ex !! sid = Some s ->
  terminateState sid ex = Ok tt (terminated sid s ex).
Proof.
  intros Hs. unfold terminated.
  destruct (bool_decide (sid ∈ addedStates ex)) eqn:Hadd.
  - apply terminateState_deleted. exact (bool_decide_eq_true_1 _ Hadd).
  - apply terminateState_queued; [exact Hs|]. exact (bool_decide_eq_false_1 _ Hadd).
Qed.

Lemma terminateStateOnError_reported sid message r suffix info ex s i :
  store ex !! sid = Some s ->
  getLastNonKleeInternalInstruction (kmodule (config ex)) s = Some i ->
  terminateStateOnError sid message r suffix info ex
  = Ok tt (reported sid s i message r suffix ex).
Proof.
  intros Hs Hi. unfold terminateStateOnError.
  unfold bind at 1, emit at 1, modify at 1.
  set (ex1 := set_trace _ ex).
  assert (Hs1 : store ex1 !! sid = Some s) by exact Hs.
  assert (Hi1 : getLastNonKleeInternalInstruction (kmodule (config ex1)) s = Some i)
    by exact Hi.
  unfold bind at 1, getState at 1. rewrite Hs1.
  unfold bind at 1, gets at 1. rewrite Hi1.
  unfold bind at 1, option_get at 1, ret at 1.
  unfold bind at 1, gets at 1.
  change (config ex1) with (config ex). change (emittedErrors ex1) with (emittedErrors ex).
  unfold reported, errorEvents, errorRecorded, logged.
  destruct (EmitAllErrors (config ex)); cbn [orb].
  - unfold bind at 1, processTestCase at 1, emit at 1, modify at 1.
    unfold bind at 1. match goal with |- context [terminateState sid ?e] =>
      rewrite (terminateState_run sid e s Hs) end.
    unfold ex1. cbn [trace set_trace]. rewrite <- app_assoc. cbn [app].
    destruct (shouldExitOn (config ex) r); reflexivity.
  - destruct (bool_decide ((i, message) ∈ emittedErrors ex)); cbn [negb].
    + unfold bind at 1, ret at 1.
      unfold bind at 1. match goal with |- context [terminateState sid ?e] =>
        rewrite (terminateState_run sid e s Hs) end.
      unfold ex1. cbn [trace set_trace]. 
      destruct (shouldExitOn (config ex) r); reflexivity.
    + unfold bind at 1. unfold bind at 1, modify at 1.
      unfold processTestCase at 1, emit at 1, modify at 1.
      unfold bind at 1. match goal with |- context [terminateState sid ?e] =>
        rewrite (terminateState_run sid e s Hs) end.
      unfold ex1. cbn [trace set_trace set_emittedErrors]. rewrite <- app_assoc. cbn [app].
      destruct (shouldExitOn (config ex) r); reflexivity.
Qed.

Lemma terminateStateOnError_inv sid message r suffix info ex u ex' :
  terminateStateOnError sid message r suffix info ex = Ok u ex' ->
  exists s i,
    store ex !! sid = Some s
    /\ getLastNonKleeInternalInstruction (kmodule (config ex)) s = Some i
    /\ ex' = reported sid s i message r suffix ex.
Proof.
  intros Hrun.
  destruct (store ex !! sid) as [s|] eqn:Hs.
  - destruct (getLastNonKleeInternalInstruction (kmodule (config ex)) s) as [i|] eqn:Hi.
    + rewrite (terminateStateOnError_reported sid message r suffix info ex s i Hs Hi)
        in Hrun.
      injection Hrun as _ Hex. subst ex'. exists s, i.
      split; [reflexivity|]. split; [exact Hi | reflexivity].
    + exfalso. unfold terminateStateOnError in Hrun.
      unfold bind at 1, emit at 1, modify at 1 in Hrun.
      unfold bind at 1, getState at 1 in Hrun. cbn [store set_trace] in Hrun.
      rewrite Hs in Hrun.
      unfold bind at 1, gets at 1 in Hrun. cbn [config set_trace] in Hrun.
      rewrite Hi in Hrun. discriminate Hrun.
  - exfalso. unfold terminateStateOnError in Hrun.
    unfold bind at 1, emit at 1, modify at 1 in Hrun.
    unfold bind at 1, getState at 1 in Hrun. cbn [store set_trace] in Hrun.
    rewrite Hs in Hrun. discriminate Hrun.
Qed.

Lemma terminateStateOnExit_exited sid ex s :
  store ex !! sid = Some s ->
  terminateStateOnExit sid ex = Ok tt (exited sid s ex).
Proof.
  intros Hs. unfold terminateStateOnExit.
  unfold bind at 1, emit at 1, modify at 1.
  set (ex1 := set_trace _ ex).
  assert (Hs1 : store ex1 !! sid = Some s) by exact Hs.
  unfold bind at 1. rewrite (outputsTestCase_run sid ex1 s Hs1).
  change (outputs ex1 sid s) with (outputs ex sid s).
  unfold exited, exitEvents, logged.
  destruct (outputs ex sid s); cbn [when].
  - unfold bind at 1, processTestCase, emit, modify.
    match goal with |- context [terminateState sid ?e] =>
      rewrite (terminateState_run sid e s Hs) end.
    unfold ex1. cbn [trace set_trace]. rewrite <- app_assoc. reflexivity.
  - unfold bind at 1, ret at 1.
    match goal with |- context [terminateState sid ?e] =>
      rewrite (terminateState_run sid e s Hs) end.
    reflexivity.
Qed.

(** What a termination leaves of the state and of the others. *)
Lemma terminated_facts sid s ex :
  store ex !! sid = Some s ->
  retired (terminated sid s ex) sid
  /\ (forall id, id <> sid -> store (terminated sid s ex) !! id = store ex !! id)
  /\ (forall s', store (terminated sid s ex) !! sid = Some s' ->
        s' = set_pc (prevPC s) s)
  /\ config (terminated sid s ex) = config ex
  /\ trace (terminated sid s ex) = trace ex
  /\ emittedErrors (terminated sid s ex) = emittedErrors ex
  /\ haltExecution (terminated sid s ex) = haltExecution ex.
Proof.
  intros Hs. unfold terminated, retired.
  destruct (bool_decide (sid ∈ addedStates ex)) eqn:Hadd.
  - unfold deleted. cbn. repeat split.
    + right. apply lookup_delete_eq.
    + intros id Hne. apply lookup_delete_ne. congruence.
    + intros s'. rewrite lookup_delete_eq. discriminate.
  - unfold queued. cbn. repeat split.
    + left. apply elem_of_app. right. left.
    + intros id Hne. apply lookup_insert_ne. congruence.
    + intros s'. rewrite lookup_insert_eq. congruence.
Qed.

Lemma getAddressInfo_symbolic_run sid address ex s v :
  isConstant address = false ->
  store ex !! sid = Some s ->
  getValue (constraints s) address = Some v ->
  getAddressInfo sid address ex = Ok "address example range" ex.
Proof.
  intros Hsym Hs Hv. unfold getAddressInfo.
  destruct address; try discriminate Hsym;
    unfold bind at 1, getState at 1; rewrite Hs;
    unfold bind at 1; rewrite Hv; reflexivity.
Qed.

Lemma getAddressInfo_symbolic_inv sid address ex info ex' :
  isConstant address = false ->
  getAddressInfo sid address ex = Ok info ex' ->
  exists s v, store ex !! sid = Some s /\ getValue (constraints s) address = Some v.
Proof.
  intros Hsym Hrun.
  assert (Hrun' : (let* s := getState sid in
                   let* value := assertSuccess (getValue (constraints s) address) in
                   ret "address example range") ex = Ok info ex').
  { unfold getAddressInfo in Hrun. destruct address; try discriminate Hsym; exact Hrun. }
  unfold bind at 1, getState at 1 in Hrun'.
  destruct (store ex !! sid) as [s|] eqn:Hs; [|discriminate Hrun'].
  unfold bind at 1 in Hrun'.
  destruct (getValue (constraints s) address) as [v|] eqn:Hv; [|discriminate Hrun'].
  exists s, v. split; [reflexivity | exact Hv].
Qed.

(** What the report of an error leaves of the engine. *)
Lemma reported_facts sid s i message r suffix ex :
  store ex !! sid = Some s ->
  let ex' := reported sid s i message r suffix ex in
  trace ex' = trace ex ++ errorEvents ex sid i message r suffix
  /\ emittedErrors ex' = errorRecorded ex i message
  /\ retired ex' sid
  /\ (forall id, id <> sid -> store ex' !! id = store ex !! id)
  /\ (forall s', store ex' !! sid = Some s' -> s' = set_pc (prevPC s) s)
  /\ config ex' = config ex.
Proof.
  intros Hs ex'. unfold ex', reported.
  set (ex0 := set_emittedErrors _ _).
  assert (Hs0 : store ex0 !! sid = Some s) by exact Hs.
  destruct (terminated_facts sid s ex0 Hs0) as (Hret & Hother & Hsame & Hcfg & Htr & Hemit & _).
  destruct (shouldExitOn (config ex) r); cbn [trace emittedErrors store config retired
    set_haltExecution removedStates];
    (split; [rewrite Htr; reflexivity|]); (split; [rewrite Hemit; reflexivity|]);
    (split; [exact Hret|]); (split; [exact Hother|]); (split; [exact Hsame|]);
    rewrite Hcfg; reflexivity.
Qed.

Lemma symbolic_address_reported sid isWrite address value target ex s v i :
  isConstant address = false ->
  store ex !! sid = Some s ->
  getValue (constraints s) address = Some v ->
  getLastNonKleeInternalInstruction (kmodule (config ex)) s = Some i ->
  executeMemoryOperation sid isWrite address value target ex
  = Ok tt (reported sid s i "exploit succeed: memory operation with symbolic addr"
             Ptr None ex).
Proof.
  intros Hsym Hs Hv Hi. unfold executeMemoryOperation. rewrite Hsym. cbn [negb].
  unfold bind at 1. rewrite (getAddressInfo_symbolic_run sid address ex s v Hsym Hs Hv).
  apply terminateStateOnError_reported; assumption.
Qed.

Lemma symbolic_address_inv sid isWrite address value target ex u ex' :
  isConstant address = false ->
  executeMemoryOperation sid isWrite address value target ex = Ok u ex' ->
  exists s v i,
    store ex !! sid = Some s
    /\ getValue (constraints s) address = Some v
    /\ getLastNonKleeInternalInstruction (kmodule (config ex)) s = Some i
    /\ ex' = reported sid s i "exploit succeed: memory operation with symbolic addr"
               Ptr None ex.
Proof.
  intros Hsym Hrun. unfold executeMemoryOperation in Hrun. rewrite Hsym in Hrun.
  cbn [negb] in Hrun. apply bind_Ok in Hrun as (info & ex1 & Hinfo & Hterm).
  pose proof (getAddressInfo_Ok _ _ _ _ _ Hinfo) as ->.
  destruct (getAddressInfo_symbolic_inv _ _ _ _ _ Hsym Hinfo) as (s & v & Hs & Hv).
  destruct (terminateStateOnError_inv _ _ _ _ _ _ _ _ Hterm) as (s0 & i & Hs0 & Hi & Hex).
  rewrite Hs in Hs0. injection Hs0 as <-.
  exists s, v, i. repeat split; assumption.
Qed.

End ErrorReports.

Section OutOfBoundsRuns.

Context `{Solver} `{ExprOptimizer} `{ConstraintManager} `{MemoryModel}
        `{RNG} `{Seeding}.

Lemma terminateState_inv sid ex u ex' :
  terminateState sid ex = Ok u ex' ->
  ex' = deleted sid ex
  \/ exists s, store ex !! sid = Some s /\ ex' = queued sid s ex.
Proof.
  intros Hrun.
  destruct (bool_decide (sid ∈ addedStates ex)) eqn:Hadd.
  - left. rewrite (terminateState_deleted sid ex (bool_decide_eq_true_1 _ Hadd)) in Hrun.
    congruence.
  - right. destruct (store ex !! sid) as [s|] eqn:Hs.
    + rewrite (terminateState_queued sid ex s Hs (bool_decide_eq_false_1 _ Hadd)) in Hrun.
      exists s. split; [reflexivity | congruence].
    + exfalso. unfold terminateState, bind at 1, gets at 1 in Hrun.
      rewrite Hadd in Hrun. unfold bind at 1, updState, bind at 1, getState in Hrun.
      rewrite Hs in Hrun. discriminate Hrun.
Qed.

(** Leaving seed-only mode reports nothing, and a state that is left has
    the stack and the previous instruction it had. *)
Lemma leaveSeedMode_keeps sid ex u ex' :
  leaveSeedMode sid ex = Ok u ex' ->
  config ex' = config ex /\ trace ex' = trace ex
  /\ emittedErrors ex' = emittedErrors ex
  /\ (forall id, retired ex id -> retired ex' id)
  /\ (forall id s', store ex' !! id = Some s' ->
        exists s, store ex !! id = Some s
                  /\ stack s' = stack s /\ prevPC s' = prevPC s).
Proof.
  unfold leaveSeedMode. intros Hrun.
  apply bind_Ok in Hrun as (only & ex0 & Hg & Hrun).
  apply gets_Ok in Hg as [-> ->].
  apply when_Ok in Hrun as [[Honly Hrun]|[Honly ->]].
  2:{ repeat split; auto. intros id s' Hs'. exists s'. repeat split. exact Hs'. }
  apply bind_Ok in Hrun as (all & ex0 & Hg & Hrun).
  apply gets_Ok in Hg as [-> ->].
  apply bind_Ok in Hrun as (u0 & ex1 & Hloop & Hrun).
  apply modify_Ok in Hrun as ->.
  set (P := fun e : Executor =>
              config e = config ex /\ trace e = trace ex
              /\ emittedErrors e = emittedErrors ex
              /\ (forall id, retired ex id -> retired e id)
              /\ (forall id s', store e !! id = Some s' ->
                    exists s, store ex !! id = Some s
                              /\ stack s' = stack s /\ prevPC s' = prevPC s)).
  assert (Hinv : P ex1).
  { eapply (forEach_terminate_Ok P); [|exact Hloop|].
    - intros x exa ua exb Hbody (Hc & Ht & He & Hr & Hst). unfold isSeeded in Hbody.
      apply bind_Ok in Hbody as (seeded & exa' & Hg & Hbody).
      apply gets_Ok in Hg as [-> ->].
      destruct (bool_decide _).
      + apply modify_Ok in Hbody as ->. repeat split; auto.
      + pose proof (terminateState_Ok _ _ _ _ Hbody)
          as (_ & _ & _ & Hx & Hother & Hrm & _).
        assert (Hret : forall id, retired ex id -> retired exb id).
        { intros id Hid. destruct (decide (id = x)) as [->|Hne]; [exact Hx|].
          destruct (Hr id Hid) as [Hin|Hnone]; [left; apply Hrm; exact Hin|].
          right. rewrite Hother by exact Hne. exact Hnone. }
        apply terminateState_inv in Hbody as [->|(sx & Hsx & ->)].
        * unfold deleted.
          split; [exact Hc|]. split; [exact Ht|]. split; [exact He|].
          split; [exact Hret|].
          intros id s'. cbn [store set_store].
          destruct (decide (id = x)) as [->|Hne].
          -- rewrite lookup_delete_eq. discriminate.
          -- rewrite lookup_delete_ne by congruence. apply Hst.
        * unfold queued.
          split; [exact Hc|]. split; [exact Ht|]. split; [exact He|].
          split; [exact Hret|].
          intros id s'. cbn [store set_store set_removedStates].
          destruct (decide (id = x)) as [->|Hne].
          -- rewrite lookup_insert_eq. intros [= <-].
             destruct (Hst x sx Hsx) as (s0 & Hs0 & Hstack & Hprev).
             exists s0. repeat split; assumption.
          -- rewrite lookup_insert_ne by congruence. apply Hst.
    - repeat split; auto. intros id s' Hs'. exists s'. repeat split. exact Hs'. }
  destruct Hinv as (Hc & Ht & He & Hr & Hst).
  repeat split; auto.
Qed.

Lemma errorEvents_ext ex ex' sid i message r suffix :
  config ex' = config ex -> emittedErrors ex' = emittedErrors ex ->
  errorEvents ex' sid i message r suffix = errorEvents ex sid i message r suffix.
Proof. intros Hc He. unfold errorEvents. rewrite Hc, He. reflexivity. Qed.

(** Every run through the end of the error path, for an address outside
    the native heap: the unbound state is reported out of bounds. *)
Lemma out_of_bounds_reported
    sid isWrite address value target ex ex' s addr1 ex1 s1 rl u ex2 w v :
  let type := accessWidth isWrite value target in
  let bytes := getMinBytesForWidth type in
  let value' := storedValue ex s isWrite value in
  let pw := pointerWidth (kmodule (config ex1)) in
  isConstant address = true ->
  store ex !! sid = Some s ->
  executeMemoryOperation sid isWrite address value target ex = Ok tt ex' ->
  fastPath isWrite value' target type bytes sid (optimizeExpr address true) ex
    = Ok (ErrorPath addr1) ex1 ->
  store ex1 !! sid = Some s1 ->
  resolve (addressSpace s1) (constraints s1) (optimizeExpr addr1 true) = (rl, false) ->
  forkCandidates isWrite value' target type bytes pw (optimizeExpr addr1 true) rl sid ex1
    = Ok (Some u) ex2 ->
  optimizeExpr addr1 true = ConstantExpr w v ->
  trunc w v <= n_heap_l (config ex2) \/ n_heap_h (config ex2) < trunc w v ->
  exists su i,
    store ex2 !! u = Some su
    /\ getLastNonKleeInternalInstruction (kmodule (config ex2)) su = Some i
    /\ trace ex' = trace ex2 ++ errorEvents ex2 u i outOfBoundMessage Ptr None
    /\ retired ex' u.
Proof.
  intros type bytes value' pw Hconst Hs Hrun Hfast Hs1 Hres Hfork Haddr Hout.
  destruct (executeMemoryOperation_constant _ _ _ _ _ _ _ _ Hconst Hs Hrun)
    as (fast & ex1' & Hfast' & Herr).
  fold type bytes value' in Hfast'. rewrite Hfast in Hfast'.
  injection Hfast' as <- <-.
  fold type bytes value' in Herr.
  unfold errorPath in Herr.
  apply bind_Ok in Herr as (s1' & e & Hg & Herr).
  apply getState_Ok in Hg as [Hs1' ->].
  rewrite Hs1 in Hs1'. injection Hs1' as <-.
  apply bind_Ok in Herr as (pw' & e & Hg & Herr). apply gets_Ok in Hg as [-> ->].
  rewrite Hres in Herr.
  apply bind_Ok in Herr as (unbound & e & Hfork' & Herr).
  fold pw in Hfork'. rewrite Hfork in Hfork'. injection Hfork' as <- <-.
  unfold handleOverflow in Herr.
  apply bind_Ok in Herr as (u0 & ex3 & Hleave & Herr).
  apply leaveSeedMode_keeps in Hleave as (Hcfg & Htr & Hemit & _ & Hst).
  apply bind_Ok in Herr as (cfg & e & Hg & Herr). apply gets_Ok in Hg as [-> ->].
  rewrite Haddr in Herr.
  apply bind_Ok in Herr as (u1 & ex4 & Hterm & Herr).
  rewrite Hcfg in Hterm.
  replace ((trunc w v <=? n_heap_l (config ex2)) || (n_heap_h (config ex2) <? trunc w v))
    with true in Hterm.
  2:{ symmetry. apply orb_true_iff. destruct Hout; [left | right].
      - apply Z.leb_le. assumption.
      - apply Z.ltb_lt. assumption. }
  cbn [when] in Hterm.
  apply bind_Ok in Hterm as (info & e & Hinfo & Hterm).
  apply getAddressInfo_Ok in Hinfo as ->.
  apply terminateStateOnError_inv in Hterm as (su3 & i & Hsu3 & Hi & ->).
  destruct (Hst u su3 Hsu3) as (su & Hsu & Hstack & Hprev).
  destruct (reported_facts u su3 i outOfBoundMessage Ptr None ex3 Hsu3)
    as (Htrace & _ & Hret & _).
  rewrite (errorEvents_ext ex2 ex3 u i _ Ptr None Hcfg Hemit), Htr in Htrace.
  rewrite Hcfg, (getLastNonKleeInternalInstruction_ext _ su su3 Hstack Hprev) in Hi.
  exists su, i. split; [exact Hsu|]. split; [exact Hi|].
  destruct isWrite; cbn [andb negb] in Herr.
  - destruct (isConstant value'); cbn [negb] in Herr;
      apply ret_Ok in Herr as [_ ->]; split; assumption.
  - apply bind_Ok in Herr as (result & e & Hcat & Herr).
    apply option_get_Ok in Hcat as [_ ->].
    destruct (bindLocal_keeps_retired _ _ _ _ _ _ _ Herr Hret) as [Hr Ht].
    split; [rewrite Ht; exact Htrace | exact Hr].
Qed.

(** The run of a store, outside seed-only mode. *)
Lemma out_of_bounds_store_run
    sid address value target ex s addr1 ex1 s1 rl u ex2 su i w v :
  let type := accessWidth true value target in
  let bytes := getMinBytesForWidth type in
  let value' := storedValue ex s true value in
  let pw := pointerWidth (kmodule (config ex1)) in
  isConstant address = true ->
  store ex !! sid = Some s ->
  fastPath true value' target type bytes sid (optimizeExpr address true) ex
    = Ok (ErrorPath addr1) ex1 ->
  store ex1 !! sid = Some s1 ->
  resolve (addressSpace s1) (constraints s1) (optimizeExpr addr1 true) = (rl, false) ->
  forkCandidates true value' target type bytes pw (optimizeExpr addr1 true) rl sid ex1
    = Ok (Some u) ex2 ->
  optimizeExpr addr1 true = ConstantExpr w v ->
  trunc w v <= n_heap_l (config ex2) \/ n_heap_h (config ex2) < trunc w v ->
  OnlySeed ex2 = false ->
  store ex2 !! u = Some su ->
  getLastNonKleeInternalInstruction (kmodule (config ex2)) su = Some i ->
  executeMemoryOperation sid true address value target ex
  = Ok tt (reported u su i outOfBoundMessage Ptr None ex2).
Proof.
  intros type bytes value' pw Hconst Hs Hfast Hs1 Hres Hfork Haddr Hout Honly Hsu Hi.
  rewrite (executeMemoryOperation_constant_run _ _ _ _ _ _ _ Hconst Hs).
  fold type bytes value'. unfold bind at 1. rewrite Hfast. cbv beta iota.
  unfold errorPath. unfold bind at 1, getState at 1. rewrite Hs1.
  unfold bind at 1, gets at 1. rewrite Hres.
  fold pw. unfold bind at 1. rewrite Hfork. cbv beta iota.
  unfold handleOverflow. unfold bind at 1. rewrite (leaveSeedMode_off _ _ Honly).
  unfold bind at 1, gets at 1. rewrite Haddr.
  replace ((trunc w v <=? n_heap_l (config ex2)) || (n_heap_h (config ex2) <? trunc w v))
    with true.
  2:{ symmetry. apply orb_true_iff. destruct Hout; [left | right].
      - apply Z.leb_le. assumption.
      - apply Z.ltb_lt. assumption. }
  cbn [when getAddressInfo]. unfold bind at 1. unfold bind at 1, ret at 1.
  rewrite (terminateStateOnError_reported u
             "++++++++++++++++++memory error: out of bound pointer" Ptr None
             "address" ex2 su i Hsu Hi).
  cbn [andb negb]. destruct (isConstant value'); reflexivity.
Qed.

End OutOfBoundsRuns.

Section StoreRuns.

Context `{Solver} `{ExprOptimizer} `{ConstraintManager} `{MemoryModel}
        `{RNG} `{Seeding}.

Variable exprBefore : Expr -> Expr -> bool.
Variable symbolizeFunctionPointers : nat -> M unit.
Variable storeThroughConstant : nat -> KInstruction -> Expr -> option Expr -> M unit.

(** The [Store] case on a base that is not a constant. *)
Lemma executeStore_symbolic_run sid ki ex s base value :
  eval_operand ki 1 sid ex = Ok (Some base) ex ->
  eval_operand ki 0 sid ex = Ok value ex ->
  store ex !! sid = Some s ->
  isConstant base = false ->
  executeStore exprBefore symbolizeFunctionPointers storeThroughConstant sid ki ex
  = symbolizeFunctionPointers sid
      (updated sid
         (set_addressSpace (recordCapability exprBefore base value (addressSpace s)) s)
         ex).
Proof.
  intros Hbase Hvalue Hs Hsym. unfold executeStore.
  unfold bind at 1. rewrite Hbase.
  unfold bind at 1. rewrite Hvalue.
  unfold deref, option_get. unfold bind at 1, ret at 1. rewrite Hsym. cbn [negb].
  unfold bind at 1, updState. unfold bind at 1, getState at 1. rewrite Hs.
  reflexivity.
Qed.

End StoreRuns.

Section ReturnRuns.

Context `{Solver} `{ExprOptimizer} `{ConstraintManager} `{MemoryModel}
        `{RNG} `{Seeding}.

(** [Ret] on the only frame of the stack. *)
Lemma executeRet_last_frame_run sid ki ex s sf r :
  store ex !! sid = Some s ->
  stack s = [sf] ->
  caller sf = None ->
  numOperands (inst ki) = 0%nat \/ eval_operand ki 0 sid ex = Ok r ex ->
  executeRet sid ki ex = Ok tt (exited sid s ex).
Proof.
  intros Hs Hstack Hcaller Hres. unfold executeRet.
  unfold bind at 1, getState at 1. rewrite Hs.
  unfold bind at 1, gets at 1. rewrite Hstack. cbn [head length].
  unfold bind at 1, option_get at 1, ret at 1. rewrite Hcaller.
  unfold bind at 1, ret at 1.
  assert (Hvalue : exists r',
    (if (numOperands (inst ki) =? 0)%nat then ret (Some (ConstantExpr Bool 0))
     else eval_operand ki 0 sid) ex = Ok r' ex).
  { destruct Hres as [-> | Hev]; [eexists; reflexivity|].
    destruct (_ =? _)%nat; eexists; [reflexivity | exact Hev]. }
  destruct Hvalue as (r' & Hvalue). unfold bind at 1. rewrite Hvalue.
  cbn [Nat.leb]. exact (terminateStateOnExit_exited sid ex s Hs).
Qed.

Lemma executeRet_last_frame_inv sid ki ex s sf u ex' :
  store ex !! sid = Some s ->
  stack s = [sf] ->
  executeRet sid ki ex = Ok u ex' ->
  caller sf = None /\ ex' = exited sid s ex.
Proof.
  intros Hs Hstack Hrun. unfold executeRet in Hrun.
  unfold bind at 1, getState at 1 in Hrun. rewrite Hs in Hrun.
  unfold bind at 1, gets at 1 in Hrun. rewrite Hstack in Hrun. cbn [head length] in Hrun.
  unfold bind at 1, option_get at 1, ret at 1 in Hrun.
  apply bind_Ok in Hrun as (callerInst & ex1 & Hcaller & Hrun).
  assert (ex1 = ex) as ->.
  { destruct (caller sf) as [c|]; [|apply ret_Ok in Hcaller as [_ ->]; reflexivity].
    apply bind_Ok in Hcaller as (k & e & Hk & Hret).
    apply option_get_Ok in Hk as [_ ->]. apply ret_Ok in Hret as [_ ->]. reflexivity. }
  apply bind_Ok in Hrun as (result & ex1 & Hres & Hrun).
  assert (ex1 = ex) as ->.
  { destruct (_ =? _)%nat; [apply ret_Ok in Hres as [_ ->]; reflexivity|].
    exact (eval_operand_Ok _ _ _ _ _ _ Hres). }
  cbn [Nat.leb] in Hrun.
  destruct (caller sf) as [c|]; [discriminate Hrun|].
  split; [reflexivity|].
  rewrite (terminateStateOnExit_exited sid ex s Hs) in Hrun. congruence.
Qed.

(** What a termination on exit leaves of the engine. *)
Lemma exited_facts sid s ex :
  store ex !! sid = Some s ->
  trace (exited sid s ex) = trace ex ++ exitEvents ex sid s
  /\ retired (exited sid s ex) sid
  /\ (forall id, id <> sid -> store (exited sid s ex) !! id = store ex !! id)
  /\ (forall s', store (exited sid s ex) !! sid = Some s' -> s' = set_pc (prevPC s) s).
Proof.
  intros Hs. unfold exited.
  set (ex0 := logged _ ex).
  assert (Hs0 : store ex0 !! sid = Some s) by exact Hs.
  destruct (terminated_facts sid s ex0 Hs0) as (Hret & Hother & Hsame & _ & Htr & _).
  split; [rewrite Htr; reflexivity|]. split; [exact Hret|].
  split; [exact Hother | exact Hsame].
Qed.

(** [Ret] with a value, into a [call] of a type that is not [void]. *)
Lemma executeRet_to_caller_run sid ki ex s sf f2 rest2 c kc r to :
  store ex !! sid = Some s ->
  stack s = sf :: f2 :: rest2 ->
  caller sf = Some c ->
  instructions (kmodule (config ex)) !! c = Some kc ->
  opcode (inst kc) = Call ->
  numOperands (inst ki) <> 0%nat ->
  eval_operand ki 0 sid ex = Ok (Some r) ex ->
  typeWidth (inst kc) = Some to ->
  (dest kc < length (locals f2))%nat ->
  executeRet sid ki ex
  = Ok tt (updated sid
             (withLocal (dest kc) (coerceReturn (hasRetAttrSExt (inst kc)) r to)
                f2 rest2 (set_pc (S c) (popFrame s))) ex).
Proof.
  intros Hs Hstack Hcaller Hkc Hop Hnum Hev Hto Hdest. unfold executeRet.
  unfold bind at 1, getState at 1. rewrite Hs.
  unfold bind at 1, gets at 1. rewrite Hstack. cbn [head length].
  unfold bind at 1, option_get at 1, ret at 1. rewrite Hcaller.
  unfold bind at 1. unfold bind at 1, option_get at 1. rewrite Hkc.
  unfold ret at 1. unfold ret at 1.
  apply Nat.eqb_neq in Hnum. rewrite Hnum.
  unfold bind at 1. rewrite Hev. cbn [Nat.leb negb].
  unfold bind at 1, putState at 1, modify at 1.
  set (ex1 := set_store _ ex).
  assert (Hs1 : store ex1 !! sid = Some (popFrame s))
    by (cbn; apply lookup_insert_eq).
  rewrite Hop. unfold bind at 1.
  unfold updState at 1. unfold bind at 1, getState at 1. rewrite Hs1.
  unfold putState at 1, modify at 1.
  set (ex2 := set_store _ ex1).
  assert (Hs2 : store ex2 !! sid = Some (set_pc (S c) (popFrame s)))
    by (cbn; apply lookup_insert_eq).
  rewrite Hto. unfold bind at 1, deref at 1, option_get at 1, ret at 1.
  assert (Hstack2 : stack (set_pc (S c) (popFrame s)) = f2 :: rest2).
  { unfold popFrame. rewrite Hstack. reflexivity. }
  fold (coerceReturn (hasRetAttrSExt (inst kc)) r to).
  rewrite (bindLocal_run kc sid _ ex2 _ f2 rest2 Hs2 Hstack2 Hdest).
  f_equal. unfold updated, ex2, ex1. same_engine. same_store.
Qed.

End ReturnRuns.

Section CalleeRuns.

Context `{Solver} `{ExprOptimizer} `{ConstraintManager} `{MemoryModel}
        `{RNG} `{Seeding}.

(** [toConstant] on an expression that the constraints simplify to a
    constant. *)
Lemma toConstant_simplified_run sid e reason ex s w v :
  store ex !! sid = Some s ->
  simplifyExpr (constraints s) e = ConstantExpr w v ->
  toConstant sid e reason ex = Ok (w, v) ex.
Proof.
  intros Hs He. unfold toConstant.
  unfold bind at 1, getState at 1. rewrite Hs, He. reflexivity.
Qed.

(** A loop whose body does nothing on the engine it meets. *)
Lemma forEach_idle {A} (l : list A) (body : A -> M unit) ex :
  (forall x, x ∈ l -> body x ex = Ok tt ex) ->
  forEach l body ex = Ok tt ex.
Proof.
  induction l as [|x l IH]; intros Hbody; [reflexivity|].
  cbn [forEach]. unfold bind at 1. rewrite (Hbody x) by (left).
  apply IH. intros y Hy. apply Hbody. right. exact Hy.
Qed.

(** The rounds of an indirect call on a callee that is not a constant
    never reach [executeCall]. *)
Lemma resolveCallees_call_ext
    (aegHijack : nat -> Expr -> list (Expr * option Expr) -> M unit)
    (call1 call2 : nat -> KInstruction -> Z -> list (option Expr) -> M unit)
    fuel sid ki v arguments free hasInvalid first ex :
  (forall e, isConstant e = false -> isConstant (optimizeExpr e true) = false) ->
  isConstant v = false ->
  resolveCallees aegHijack call1 fuel sid ki v arguments free hasInvalid first ex
  = resolveCallees aegHijack call2 fuel sid ki v arguments free hasInvalid first ex.
Proof.
  intros Hopt. revert v free hasInvalid first ex.
  induction fuel as [|fuel IH]; intros v free hasInvalid first ex Hv;
    [reflexivity|].
  cbn [resolveCallees].
  apply bind_ext. intros fs ex0.
  apply bind_ext. intros value ex1.
  apply bind_ext. intros [[target|] second] ex2; cbn [fst snd].
  - apply bind_ext. intros s ex3.
    apply bind_ext. intros _ ex4.
    rewrite (Hopt v Hv). reflexivity.
  - destruct second as [free'|]; [|reflexivity].
    apply IH. apply Hopt. exact Hv.
Qed.

(** The round in which the fork returns an equality branch. *)
Lemma resolveCallees_reported
    (aegHijack : nat -> Expr -> list (Expr * option Expr) -> M unit)
    (call : nat -> KInstruction -> Z -> list (option Expr) -> M unit)
    fuel sid ki v arguments free hasInvalid first ex
    fs value target second ex1 s1 ex2 s2 i :
  isConstant (optimizeExpr v true) = false ->
  (0 < fuel)%nat ->
  store ex !! free = Some fs ->
  getValue (constraints fs) (optimizeExpr v true) = Some value ->
  fork free (EqExpr_create (optimizeExpr v true) (constantOf value)) true ex
    = Ok (Some target, second) ex1 ->
  store ex1 !! sid = Some s1 ->
  match WriteExploitCapability (addressSpace s1) with
  | [] => ret tt
  | wec => aegHijack sid (optimizeExpr v true) wec
  end ex1 = Ok tt ex2 ->
  store ex2 !! sid = Some s2 ->
  getLastNonKleeInternalInstruction (kmodule (config ex2)) s2 = Some i ->
  resolveCallees aegHijack call fuel sid ki v arguments free hasInvalid first ex
  = Ok tt (reported sid s2 i "AEG: Find a possible exploit" Exec None ex2).
Proof.
  intros Hv Hfuel Hs Hval Hfork Hs1 Hphase Hs2 Hi.
  destruct fuel as [|fuel]; [lia|].
  cbn [resolveCallees].
  unfold bind at 1. unfold getState at 1. rewrite Hs.
  unfold bind at 1. rewrite Hval. cbn [assertSuccess option_get ret].
  unfold bind at 1. rewrite Hfork. cbn [fst snd].
  unfold bind at 1. unfold getState at 1. rewrite Hs1.
  unfold bind at 1. rewrite Hphase.
  rewrite Hv. cbn [negb]. unfold terminateStateOnExecError.
  exact (terminateStateOnError_reported sid _ Exec None "" ex2 s2 i Hs2 Hi).
Qed.

(** The [Call] case up to the rounds, for a callee that is an expression. *)
Lemma executeCallInst_indirect_run
    (aegHijack : nat -> Expr -> list (Expr * option Expr) -> M unit)
    (call : nat -> KInstruction -> Z -> list (option Expr) -> M unit)
    fuel sid ki ex arguments v s sf op :
  isDbgInfoIntrinsic (inst ki) = false ->
  isInlineAsm (inst ki) = false ->
  targetFunction (inst ki) = None ->
  evalArguments ki 0 (argSize (inst ki)) sid ex = Ok arguments ex ->
  eval_operand ki 0 sid ex = Ok (Some v) ex ->
  operands ki !! 0%nat = Some op ->
  store ex !! sid = Some s ->
  head (stack s) = Some sf ->
  (forall k, k ∈ kfInstructions (kmodule (config ex)) (kf sf) ->
     Z.of_nat (dest k) = op ->
     numOperands (inst k) = 1%nat
     /\ exists b, eval_operand k 0 sid ex = Ok (Some b) ex) ->
  executeCallInst aegHijack call fuel sid ki ex
  = resolveCallees aegHijack call fuel sid ki v arguments sid false true ex.
Proof.
  intros Hdbg Hasm Htarget Hargs Hv Hop Hs Hsf Hsearch.
  unfold executeCallInst. rewrite Hdbg, Hasm.
  unfold bind at 1. rewrite Hargs. rewrite Htarget.
  unfold bind at 1. rewrite Hv.
  unfold bind at 1, deref at 1, option_get at 1, ret at 1.
  unfold bind at 1. rewrite Hop. unfold option_get at 1, ret at 1.
  unfold bind at 1, getState at 1. rewrite Hs.
  unfold bind at 1, gets at 1.
  unfold bind at 1. rewrite Hsf. unfold option_get at 1, ret at 1.
  unfold bind at 1. rewrite forEach_idle; [reflexivity|].
  intros k Hk. destruct (Z.eqb_spec (Z.of_nat (dest k)) op) as [Heq | Hne];
    [|reflexivity].
  destruct (Hsearch k Hk Heq) as (Hone & b & Hb). cbn [when].
  unfold bind at 1. rewrite Hb.
  unfold bind at 1, deref at 1, option_get at 1, ret at 1.
  rewrite Hone. reflexivity.
Qed.

End CalleeRuns.

(** ** The claims on terminations, stores, returns and concretisation *)

Section ReportFacts.

Context `{Solver} `{ExprOptimizer} `{ConstraintManager} `{MemoryModel}
        `{RNG} `{Seeding}.

Variable exprBefore : Expr -> Expr -> bool.
Variable symbolizeFunctionPointers : nat -> M unit.
Variable storeThroughConstant : nat -> KInstruction -> Expr -> option Expr -> M unit.


(** C2, as the code has it.  On the error path of a memory operation with
    a constant address, when a state [u] is left unbound after the forks
    over the candidate objects and the resolution was complete, [u] is
    terminated with the out-of-bounds error of reason [Ptr] provided the
    address lies outside the native heap range, that is [addr <= n_heap_l]
    or [addr > n_heap_h]: every run that returns has reported the error
    at the last instruction of [u], with the test case of suffix
    "ptr.err" unless the same error was reported there before, and has
    retired [u]; the run of a store outside seed-only mode returns, and
    does nothing else.  The [Store] instruction on an address that is not
    a constant never comes here: it records the address and the value as a
    write capability of the state, runs the loop over the globals of
    pointer type and ends, without a memory operation. *)
Theorem unbound_state_outside_heap_is_out_of_bounds
    sid isWrite address value target ex s addr1 ex1 s1 rl u ex2 w v :
  let type := accessWidth isWrite value target in
  let bytes := getMinBytesForWidth type in
  let value' := storedValue ex s isWrite value in
  let pw := pointerWidth (kmodule (config ex1)) in
  isConstant address = true ->
  store ex !! sid = Some s ->
  fastPath isWrite value' target type bytes sid (optimizeExpr address true) ex
    = Ok (ErrorPath addr1) ex1 ->
  store ex1 !! sid = Some s1 ->
  resolve (addressSpace s1) (constraints s1) (optimizeExpr addr1 true) = (rl, false) ->
  forkCandidates isWrite value' target type bytes pw (optimizeExpr addr1 true) rl sid ex1
    = Ok (Some u) ex2 ->
  optimizeExpr addr1 true = ConstantExpr w v ->
  trunc w v <= n_heap_l (config ex2) \/ n_heap_h (config ex2) < trunc w v ->
  (forall ex',
     executeMemoryOperation sid isWrite address value target ex = Ok tt ex' ->
     exists su i,
       store ex2 !! u = Some su
       /\ getLastNonKleeInternalInstruction (kmodule (config ex2)) su = Some i
       /\ trace ex'
          = trace ex2
              ++ Terminated u (OnError outOfBoundMessage Ptr)
              :: (if EmitAllErrors (config ex2)
                     || negb (bool_decide ((i, outOfBoundMessage) ∈ emittedErrors ex2))
                  then [TestCase u (Some outOfBoundMessage) (Some "ptr.err")]
                  else [])
       /\ retired ex' u)
  /\ (forall su i,
        isWrite = true ->
        OnlySeed ex2 = false ->
        store ex2 !! u = Some su ->
        getLastNonKleeInternalInstruction (kmodule (config ex2)) su = Some i ->
        executeMemoryOperation sid isWrite address value target ex
        = Ok tt (reported u su i outOfBoundMessage Ptr None ex2))
  /\ (forall id ki e base stored st,
        eval_operand ki 1 id e = Ok (Some base) e ->
        eval_operand ki 0 id e = Ok stored e ->
        store e !! id = Some st ->
        isConstant base = false ->
        executeStore exprBefore symbolizeFunctionPointers storeThroughConstant id ki e
        = symbolizeFunctionPointers id
            (updated id
               (set_addressSpace
                  (recordCapability exprBefore base stored (addressSpace st)) st) e)).
Proof.
  intros type bytes value' pw Hconst Hs Hfast Hs1 Hres Hfork Haddr Hout.
  split; [|split].
  - intros ex' Hrun.
    exact (out_of_bounds_reported _ _ _ _ _ _ _ _ _ _ _ _ _ _ _ _
             Hconst Hs Hrun Hfast Hs1 Hres Hfork Haddr Hout).
  - intros su i Hw Honly Hsu Hi. subst isWrite.
    exact (out_of_bounds_store_run sid address value target ex s addr1 ex1 s1 rl u
             ex2 su i w v Hconst Hs Hfast Hs1 Hres Hfork Haddr Hout Honly Hsu Hi).
  - intros id ki e base stored st Hbase Hstored Hst Hsym.
    exact (executeStore_symbolic_run exprBefore symbolizeFunctionPointers
             storeThroughConstant id ki e st base stored Hbase Hstored Hst Hsym).
Qed.




End ReportFacts.

(** * The theorems at work

    Each theorem with a premise is applied to a run of the concrete
    engine; the corrected statements come with the run that contradicts
    the original wording. *)

Import Scenario.
#[local] Existing Instances byteSolver idOptimizer idSimplifier flatMemory
  congruentialRNG assignmentSeeding.

Ltac computed := vm_compute; reflexivity.


(** C2, amended, on a four-byte store that starts at byte 6 of the
    eight-byte buffer at 4096, below the native heap: the state is
    reported out of bounds.  On the [Store] instruction at [4096 + x] the
    capability is recorded and nothing else happens. *)
Lemma unbound_state_outside_heap_is_out_of_bounds_witness :
  let ex := withBuffer 4096 [] in
  let a := ConstantExpr 64 4102 in
  let run := executeMemoryOperation 0 true a word storeByte ex in
  (fastPath true word storeByte 32 4 0 a ex = Ok (ErrorPath a) ex /\
   forkCandidates true word storeByte 32 4 64 a [buffer 4096] 0 ex = Ok (Some 0%nat) ex /\
   4102 <= n_heap_l (config ex)) /\
  (run = Ok tt (final run ex) /\
   trace (final run ex)
   = [Terminated 0 (OnError outOfBoundMessage Ptr);
      TestCase 0 (Some outOfBoundMessage) (Some "ptr.err")] /\
   removedStates (final run ex) = [0%nat]) /\
  executeStore byWidth noGlobals directStore 0 storeByte atStore
  = Ok tt (updated 0
             (set_addressSpace
                {| objects := [buffer 4096];
                   WriteExploitCapability :=
                     [(offsetAddress 4096, Some (ConstantExpr Int8 65))] |}
                (stateWith [storeFrame] [buffer 4096] [below 16])) atStore).
Proof.
  intros ex a run.
  assert (Hfast : fastPath true word storeByte 32 4 0 a ex = Ok (ErrorPath a) ex)
    by computed.
  assert (Hcand : forkCandidates true word storeByte 32 4 64 a [buffer 4096] 0 ex
                  = Ok (Some 0%nat) ex) by computed.
  assert (Hlow : 4102 <= n_heap_l (config ex)) by (vm_compute; discriminate).
  split; [exact (conj Hfast (conj Hcand Hlow))|].
  destruct (unbound_state_outside_heap_is_out_of_bounds byWidth noGlobals directStore
              0 true a word storeByte
              ex (stateWith [mainFrame] [buffer 4096] []) a ex
              (stateWith [mainFrame] [buffer 4096] []) [buffer 4096] 0 ex 64%N 4102
              eq_refl eq_refl Hfast eq_refl eq_refl Hcand eq_refl (or_introl Hlow))
    as (Hinv & Hprog & Hstore).
  pose proof (Hprog (stateWith [mainFrame] [buffer 4096] []) 1%nat
                eq_refl eq_refl eq_refl eq_refl) as Hrun.
  destruct (Hinv _ Hrun) as (su & i & Hsu & Hi & Htrace & _).
  injection Hsu as <-. injection Hi as <-.
  split.
  - unfold run. rewrite Hrun. cbn [final].
    split; [reflexivity|]. split; [rewrite Htrace; reflexivity | computed].
  - exact (Hstore 0%nat storeByte atStore (offsetAddress 4096)
             (Some (ConstantExpr Int8 65))
             (stateWith [storeFrame] [buffer 4096] [below 16])
             ltac:(computed) ltac:(computed) ltac:(computed) ltac:(computed)).
Defined.

(** C2 as worded fails on the same store into a buffer inside the native
    heap: the slow path is taken, the resolution is complete, state 0 is
    left unbound, and the operation returns the engine unchanged, the
    state neither terminated nor reported.  The scenario of the claim
    fails as well: the [Store] of one byte at the symbolic offset, with
    the offset below 16, forks no state and terminates none; it records
    the capability and leaves the buffer as it was. *)
Lemma unbound_state_in_heap_range_survives :
  let ex := withBuffer 20480 [] in
  let a := ConstantExpr 64 20486 in
  (fastPath true word storeByte 32 4 0 a ex = Ok (ErrorPath a) ex /\
   resolve (addressSpace (stateWith [mainFrame] [buffer 20480] [])) [] a
   = ([buffer 20480], false) /\
   forkCandidates true word storeByte 32 4 64 a [buffer 20480] 0 ex = Ok (Some 0%nat) ex /\
   executeMemoryOperation 0 true a word storeByte ex = Ok tt ex /\
   trace ex = [] /\ ~ retired ex 0) /\
  let ex := atStore in
  let run := executeStore byWidth noGlobals directStore 0 storeByte ex in
  eval_operand storeByte 1 0 ex = Ok (Some (offsetAddress 4096)) ex /\
  run = Ok tt (final run ex) /\
  nextState (final run ex) = 1%nat /\
  removedStates (final run ex) = [] /\
  trace (final run ex) = [] /\
  exists s',
    store (final run ex) !! 0%nat = Some s' /\
    constraints s' = [below 16] /\
    objects (addressSpace s') = [buffer 4096] /\
    WriteExploitCapability (addressSpace s')
    = [(offsetAddress 4096, Some (ConstantExpr Int8 65))].
Proof.
  split.
  - repeat split; try computed.
    intros [Hin | Hnone]; [inversion Hin | vm_compute in Hnone; discriminate Hnone].
  - split; [computed|]. split; [computed|]. split; [computed|].
    split; [computed|]. split; [computed|].
    eexists. split; [computed|]. repeat split.
Qed.

(** C3, amended, on a four-byte load from address 20000, inside the native
    heap, where no object lies. *)
Lemma unresolved_access_in_heap_range_is_tolerated_witness :
  let ex := bare defaults in
  let s := stateWith [mainFrame] [] [] in
  let a := ConstantExpr 64 20000 in
  let run := executeMemoryOperation 0 false a (ConstantExpr Int8 0) loadByte ex in
  (fastPath false (ConstantExpr Int8 0) loadByte 32 4 0 a ex = Ok (ErrorPath a) ex /\
   n_heap_l (config ex) < 20000 <= n_heap_h (config ex) /\
   OnlySeed ex = false) /\
  run = Ok tt (set_store
                 (<[0%nat := withLocal 2 (ConstantExpr 32 (repeatedByte 136 4))
                               mainFrame [] s]> (store ex)) ex) /\
  repeatedByte 136 4 = 2290649224.
Proof.
  intros ex s a run.
  assert (Hfast : fastPath false (ConstantExpr Int8 0) loadByte 32 4 0 a ex
                  = Ok (ErrorPath a) ex) by computed.
  assert (Hin : n_heap_l (config ex) < 20000 <= n_heap_h (config ex))
    by (vm_compute; split; [reflexivity | discriminate]).
  split; [exact (conj Hfast (conj Hin eq_refl))|].
  destruct (unresolved_access_in_heap_range_is_tolerated 0 false a
              (ConstantExpr Int8 0) loadByte ex s a ex s 64%N 20000
              eq_refl eq_refl Hfast eq_refl eq_refl eq_refl Hin eq_refl)
    as (_ & _ & Hread).
  split; [|reflexivity].
  refine (Hread eq_refl mainFrame [] eq_refl _ _).
  - vm_compute. lia.
  - reflexivity.
Defined.

(** C3 as worded fails twice.  In a run started with [only-seed] the
    handler leaves seed mode first and terminates the states that carry no
    seed: a store to address 20000, inside the native heap and in no
    object, retires the state that made it.  And the filler of a load is
    made of whole bytes: a load of type [i1] from that address binds a
    constant of eight bits. *)
Lemma unseeded_state_in_heap_range_is_terminated :
  let a := ConstantExpr 64 20000 in
  (let ex := onlySeedMode in
   let run := executeMemoryOperation 0 true a word storeByte ex in
   fastPath true word storeByte 32 4 0 a ex = Ok (ErrorPath a) ex /\
   resolve (addressSpace (stateWith [mainFrame] [] [])) [] a = ([], false) /\
   n_heap_l (config ex) < 20000 <= n_heap_h (config ex) /\
   run = Ok tt (final run ex) /\
   removedStates ex = [] /\
   removedStates (final run ex) = [0%nat] /\
   retired (final run ex) 0) /\
  (let ex := bare defaults in
   let run := executeMemoryOperation 0 false a (ConstantExpr Int8 0) loadBit ex in
   run = Ok tt (final run ex) /\
   getWidthForLLVMType (inst loadBit) = 1%N /\
   exists s', store (final run ex) !! 0%nat = Some s' /\
              stack s' = [set_locals (<[2%nat := Some (ConstantExpr 8 136)]>
                                        (locals mainFrame)) mainFrame]).
Proof.
  intros a. split.
  - split; [computed|]. split; [computed|].
    split; [vm_compute; split; [reflexivity | discriminate]|].
    split; [computed|]. split; [reflexivity|]. split; [computed|].
    left. vm_compute. apply list_elem_of_here.
  - split; [computed|]. split; [reflexivity|].
    vm_compute. eexists. split; reflexivity.
Qed.

(** C4 on a fork of the unconstrained state on [x < 8]. *)
Lemma fork_branches_imply_condition_witness :
  let ex := bare defaults in
  exists ex' st sf,
    fork 0 (below 8) false ex = Ok (Some 0%nat, Some 1%nat) ex' /\
    store ex' !! 0%nat = Some st /\
    store ex' !! 1%nat = Some sf /\
    entails (constraints st) (below 8) /\
    entails (constraints sf) (createIsZero (below 8)) /\
    entails_value (constraints sf) (below 8) 0.
Proof.
  intros ex.
  assert (Hev : evaluate [] (below 8) = Some VUnknown) by computed.
  destruct (fork_branches_imply_condition 0 (below 8) false ex) as [Hinv Hprog].
  destruct (Hprog (stateWith [mainFrame] [] []) eq_refl eq_refl eq_refl
              ltac:(discriminate) (or_introl eq_refl) eq_refl eq_refl eq_refl
              eq_refl eq_refl Hev eq_refl eq_refl) as (ex' & Hrun).
  destruct (Hinv 0%nat 1%nat ex' Hrun) as (_ & st & sf & Hst & Hsf & Hent).
  exists ex', st, sf. split; [exact Hrun|]. split; [exact Hst|].
  split; [exact Hsf|]. exact Hent.
Defined.

(** C5, amended, on the same fork and on a three-way branch once the
    budget is spent. *)
Lemma inhibited_fork_takes_one_random_branch_witness :
  let ex := bare noForksLeft in
  let s := stateWith [mainFrame] [] [] in
  let conditions := [below 8; below 16; below 32] in
  (forkInhibited s ex = true /\
   evaluate (constraints s) (below 8) = Some VUnknown /\
   fst (getBool (rng ex)) = true /\
   (N.to_nat (fst (getInt32 (rng ex))) mod 3)%nat = 1%nat) /\
  (exists ex' s',
      fork 0 (below 8) false ex = Ok (Some 0%nat, None) ex' /\
      nextState ex' = nextState ex /\
      store ex' !! 0%nat = Some s' /\
      constraints s' = [below 8]) /\
  (exists result ex',
      branch 0 conditions ex = Ok result ex' /\
      result !! 1%nat = Some (Some 0%nat) /\
      length result = 3%nat /\
      nextState ex' = nextState ex /\
      forall s', store ex' !! 0%nat = Some s' ->
                 entails (constraints s') (below 16)).
Proof.
  intros ex s conditions.
  assert (Hinh : forkInhibited s ex = true) by reflexivity.
  assert (Hev : evaluate (constraints s) (below 8) = Some VUnknown) by computed.
  split; [exact (conj Hinh (conj Hev (conj eq_refl eq_refl)))|].
  destruct inhibited_fork_takes_one_random_branch as [Hfork Hbranch].
  split.
  - destruct (Hfork 0%nat (below 8) false ex s
                eq_refl eq_refl (or_introl eq_refl) eq_refl Hev Hinh)
      as [Hinv Hprog].
    destruct (Hprog eq_refl eq_refl) as (r & ex' & Hrun).
    destruct (Hinv r ex' Hrun) as (Hr & Hnext & _ & _ & s' & Hs' & _ & Hcs).
    exists ex', s'. rewrite Hr in Hrun.
    split; [exact Hrun|]. split; [exact Hnext|]. split; [exact Hs'|].
    exact (Hcs eq_refl).
  - destruct (Hbranch 0%nat conditions ex eq_refl eq_refl) as [Hinv Hprog].
    assert (Hall : Forall (fun c => isConstant c = false) conditions)
      by (repeat constructor).
    destruct (Hprog s eq_refl ltac:(discriminate) Hall) as (result & ex' & Hrun).
    destruct (Hinv result ex' Hrun)
      as (_ & Hat & _ & Hlen & Hnext & _ & c & Hc & Hent).
    exists result, ex'. split; [exact Hrun|]. split; [exact Hat|].
    split; [exact Hlen|]. split; [exact Hnext|].
    vm_compute in Hc. injection Hc as <-. exact Hent.
Defined.

(** C5 as worded fails, with the budget spent and the condition [x < 8]
    undecided, in three ways.  A state that carries seeds on both sides
    still forks.  Under a replay path the recorded bit, not the generator,
    chooses the branch: the path says false where the generator would say
    true, and the generator is not advanced.  And [branch] on a seeded
    state under [only-replay-seeds] keeps the entry the generator chose
    only if a seed falls on it: here none does and no entry is left. *)
Lemma budget_is_not_the_only_rule :
  let s := stateWith [mainFrame] [] [] in
  evaluate (constraints s) (below 8) = Some VUnknown /\
  (let ex := seeded noForksLeft [seedOf 1; seedOf 200] in
   let run := fork 0 (below 8) false ex in
   forkBudgetExhausted ex = true /\
   forkInhibited s ex = true /\
   run = Ok (Some 0%nat, Some 1%nat) (final run ex) /\
   nextState ex = 1%nat /\
   nextState (final run ex) = 2%nat /\
   addedStates (final run ex) = [1%nat]) /\
  (let ex := bare (options 0 false (Some [false])) in
   let run := fork 0 (below 8) false ex in
   forkBudgetExhausted ex = true /\
   fst (getBool (rng ex)) = true /\
   run = Ok (None, Some 0%nat) (final run ex) /\
   rng (final run ex) = rng ex) /\
  (let ex := seeded (options 0 true None) [seedOf 1] in
   let run := branch 0 [below 8; createIsZero (below 8)] ex in
   forkBudgetExhausted ex = true /\
   run = Ok [None; None] (final run ex) /\
   removedStates (final run ex) = [0%nat]).
Proof.
  intros s. split; [computed|]. split; [|split].
  - split; [reflexivity|]. split; [reflexivity|]. split; [computed|].
    split; [reflexivity|]. split; computed.
  - split; [reflexivity|]. split; [reflexivity|]. split; computed.
  - split; [reflexivity|]. split; computed.
Qed.







(** C10 on the allocation of a megabyte, which the memory manager
    refuses. *)
Lemma failed_allocation_binds_null_witness :
  let ex := bare defaults in
  let s := stateWith [mainFrame] [] [] in
  let size := ConstantExpr 64 1048576 in
  allocate (memory ex) 1048576 false false 1%nat 8 = None /\
  executeAlloc 0 size false loadPointer false None 0 false ex
  = Ok tt (set_store
             (<[0%nat := withLocal 0 (ConstantExpr 64 0) mainFrame [] s]> (store ex))
             ex).
Proof.
  intros ex s size.
  assert (Hfail : allocate (memory ex) 1048576 false false 1%nat 8 = None)
    by reflexivity.
  split; [exact Hfail|].
  destruct (failed_allocation_binds_null 0 size false loadPointer false None 0
              false ex s 64%N 1048576 eq_refl eq_refl Hfail) as [_ Hprog].
  exact (Hprog mainFrame [] eq_refl ltac:(vm_compute; lia)).
Defined.

(** C9 on the symbolic byte, with a solver whose every query fails: the
    engine aborts, where [fork] on the same state and solver ends only the
    state. *)
Lemma failed_query_in_toConstant_aborts_witness :
  let ex := bare defaults in
  @toConstant failingSolver idSimplifier assignmentSeeding 0 x "concretized" ex
  = Crash "FIXME: Unhandled solver failure" /\
  exists ex',
    @fork failingSolver congruentialRNG assignmentSeeding 0 (below 8) false ex
    = Ok (None, None) ex' /\
    removedStates ex' = [0%nat].
Proof.
  intros ex. split.
  - exact (@failed_query_in_toConstant_aborts failingSolver idSimplifier
             assignmentSeeding 0 x "concretized" ex
             (stateWith [mainFrame] [] []) eq_refl eq_refl eq_refl).
  - eexists. split; vm_compute; reflexivity.
Defined.

(** ** The remaining handlers at work *)

Ltac decided := apply (bool_decide_unpack _); vm_compute; exact I.

(** X1 on an engine of three states: state 1 stays, state 2 joins the set,
    state 0 leaves it and is deleted. *)
Lemma updateStates_sweeps_removed_states_witness :
  let ex := unsettled in
  exists ex',
    updateStates Z.of_nat ex = Ok tt ex'
    /\ (1%nat ∈ states ex' /\ 2%nat ∈ states ex' /\ 0%nat ∉ states ex')
    /\ store ex' !! 0%nat = None
    /\ store ex' !! 1%nat = store ex !! 1%nat
    /\ addedStates ex' = [] /\ removedStates ex' = [].
Proof.
  intros ex.
  assert (Hnd : NoDup (states ex)) by decided.
  assert (Hndr : NoDup (removedStates ex)) by decided.
  assert (Hin : forall x, x ∈ removedStates ex -> x ∈ states ex \/ x ∈ addedStates ex).
  { intros x Hx. left. vm_compute in Hx. vm_compute.
    apply elem_of_cons in Hx as [->|Hx]; [left | inversion Hx]. }
  destruct (updateStates_sweeps_removed_states Z.of_nat ex Hnd Hndr Hin)
    as (ex' & Hrun & Hadd & Hrem & _ & Hmem & Hgone & Hkept & _).
  exists ex'. split; [exact Hrun|].
  split.
  { split; [|split].
    - apply Hmem. split; [left; decided | decided].
    - apply Hmem. split; [right; decided | decided].
    - intros H0. apply Hmem in H0 as [_ H0]. apply H0. decided. }
  split; [apply Hgone; decided|].
  split; [apply Hkept; decided|].
  split; assumption.
Defined.

(** X2 on an engine whose state 0 was terminated twice. *)
Lemma updateStates_asserts_each_removed_state_is_in_the_set_witness :
  let ex := removedTwice in
  removedStates ex = [0%nat; 0%nat]
  /\ updateStates Z.of_nat ex = Crash "assert(it2!=states.end())".
Proof.
  intros ex. split; [reflexivity|].
  apply updateStates_asserts_each_removed_state_is_in_the_set.
  - decided.
  - intros [Hnd _]. apply NoDup_cons in Hnd as [Hn _]. apply Hn. left.
Defined.

(** X3 on an engine of three states. *)
Lemma doDumpStates_terminates_every_state_witness :
  let ex := crowd 3 in
  exists ex' events,
    doDumpStates Z.of_nat true ex = Ok tt ex'
    /\ states ex' = []
    /\ store ex' !! 2%nat = None
    /\ trace ex' = events
    /\ Terminated 2 (Early "Execution halting.") ∈ events
    /\ TestCase 2 (Some ("Execution halting." +:+ "
")) (Some "early") ∈ events.
Proof.
  intros ex.
  assert (Hnd : NoDup (states ex)) by decided.
  assert (Hlive : forall x, x ∈ states ex -> is_Some (store ex !! x)).
  { intros x Hx. vm_compute in Hx.
    repeat (apply elem_of_cons in Hx as [->|Hx]; [eexists; computed|]).
    inversion Hx. }
  destruct (doDumpStates_terminates_every_state Z.of_nat ex Hnd eq_refl eq_refl Hlive)
    as (ex' & events & Hrun & Hst & _ & _ & Hgone & Htr & Hev & Hcase).
  exists ex', events. split; [exact Hrun|]. split; [exact Hst|].
  split; [apply Hgone; decided|]. split; [exact Htr|].
  split; [apply Hev; decided | apply (Hcase eq_refl); decided].
Defined.

(** X4 on an engine of three states, with 2000 megabytes in use over a cap
    of 1000: two states are killed. *)
Lemma checkMemoryUsage_kills_distinct_states_witness :
  let ex := crowd 3 in
  statesToKill 3 1000 2000 = 2%N
  /\ exists ex' killed,
       checkMemoryUsage libcRand 1000 65536 2000 ex = Ok tt ex'
       /\ atMemoryLimit (config ex') = true
       /\ removedStates ex' = killed
       /\ NoDup killed /\ length killed = 2%nat.
Proof.
  intros ex. split; [reflexivity|].
  assert (Hnd : NoDup (states ex)) by decided.
  assert (Hlive : forall x, x ∈ states ex -> is_Some (store ex !! x) /\ x ∉ addedStates ex).
  { intros x Hx. split.
    - vm_compute in Hx.
      repeat (apply elem_of_cons in Hx as [->|Hx]; [eexists; computed|]).
      inversion Hx.
    - intros Hin. vm_compute in Hin. inversion Hin. }
  destruct (checkMemoryUsage_kills_distinct_states libcRand 1000 65536 2000 ex
              ltac:(discriminate) eq_refl eq_refl eq_refl eq_refl Hnd Hlive)
    as (ex' & killed & events & Hrun & Hflag & Hrem & Hndk & _ & Hlen & _).
  exists ex', killed. split; [exact Hrun|]. split; [exact Hflag|].
  split; [exact Hrem|]. split; [exact Hndk | exact Hlen].
Defined.

(** X5 on one state and the condition [x < 16]: after the check at 1050
    megabytes over a cap of 1000 the fork draws a side and creates no
    state. *)
Lemma memory_cap_inhibits_forks_witness :
  let ex := bare defaults in
  let run := (checkMemoryUsage libcRand 1000 0 1050;; fork 0 (below 16) true) ex in
  fst (getBool (rng ex)) = true
  /\ result run = Some (Some 0%nat, None)
  /\ nextState (final run ex) = 1%nat
  /\ addedStates (final run ex) = []
  /\ (forall s, store (final run ex) !! 0%nat = Some s -> constraints s = [below 16]).
Proof.
  intros ex run.
  assert (Hev : evaluate [] (below 16) = Some VUnknown) by computed.
  pose proof (memory_cap_inhibits_forks libcRand 1000 0 1050 0 (below 16) true ex
                plainState ltac:(discriminate) eq_refl
                ltac:(split; [reflexivity | discriminate]) eq_refl
                eq_refl eq_refl eq_refl (or_intror eq_refl) eq_refl eq_refl eq_refl
                Hev eq_refl) as Hrun.
  fold run in Hrun. rewrite Hrun.
  split; [reflexivity|]. split; [reflexivity|]. split; [reflexivity|].
  split; [reflexivity|].
  intros s. cbn [final]. unfold updated. cbn [store set_store].
  rewrite lookup_insert_eq. intros [= <-]. reflexivity.
Defined.

(** X6 on two states that fail at instruction 1 with the same message. *)
Lemma same_error_is_reported_once_witness :
  let ex := crowd 2 in
  exists ex',
    (terminateStateOnError 0 "boom" User None "";;
     terminateStateOnError 1 "boom" Abort None "") ex = Ok tt ex'
    /\ trace ex' = [Terminated 0 (OnError "boom" User);
                    TestCase 0 (Some "boom") (Some "user.err");
                    Terminated 1 (OnError "boom" Abort)]
    /\ removedStates ex' = [0%nat; 1%nat].
Proof.
  intros ex.
  assert (Hnew : (1%nat, "boom"%string) ∉ emittedErrors ex)
    by (intros Hin; inversion Hin).
  assert (Hadd : forall x : nat, x ∉ addedStates ex) by (intros x Hin; inversion Hin).
  destruct (same_error_is_reported_once 0 1 "boom" User Abort "" "" ex plainState
              plainState 1%nat eq_refl ltac:(discriminate) eq_refl eq_refl
              (Hadd 0%nat) (Hadd 1%nat) eq_refl eq_refl Hnew)
    as (ex' & Hrun & Htr & Hrem & _).
  exists ex'. split; [exact Hrun|]. split; [exact Htr | exact Hrem].
Defined.

(** X7 on a state constrained by [x < 16] and the condition [x < 32],
    which follows: the engine is left as it was. *)
Lemma decided_fork_takes_its_side_without_forking_witness :
  let ex := withBuffer 4096 [below 16] in
  evaluate [below 16] (below 32) = Some VTrue
  /\ fork 0 (below 32) false ex = Ok (Some 0%nat, None) ex.
Proof.
  intros ex.
  assert (Hev : evaluate [below 16] (below 32) = Some VTrue) by computed.
  split; [exact Hev|].
  exact (decided_fork_takes_its_side_without_forking 0 (below 32) false ex
           (stateWith [mainFrame] [buffer 4096] [below 16]) true
           eq_refl eq_refl (or_introl eq_refl) eq_refl Hev).
Defined.

(** X8 on one state with a buffer and the condition [x < 16]. *)
Lemma forked_state_is_a_copy_witness :
  let ex := withBuffer 4096 [] in
  exists ex' t f,
    fork 0 (below 16) true ex = Ok (Some 0%nat, Some 1%nat) ex'
    /\ store ex' !! 0%nat = Some t /\ store ex' !! 1%nat = Some f
    /\ stack f = [mainFrame]
    /\ objects (addressSpace f) = [buffer 4096]
    /\ constraints t = [below 16]
    /\ constraints f = [createIsZero (below 16)]
    /\ depth t = 1%N /\ depth f = 1%N
    /\ addedStates ex' = [1%nat] /\ forks ex' = 1%N.
Proof.
  intros ex.
  assert (Hev : evaluate [] (below 16) = Some VUnknown) by computed.
  destruct (forked_state_is_a_copy 0 (below 16) true ex
              (stateWith [mainFrame] [buffer 4096] [])
              eq_refl eq_refl eq_refl ltac:(discriminate) (or_intror eq_refl)
              eq_refl eq_refl eq_refl eq_refl eq_refl Hev eq_refl eq_refl)
    as (ex' & t & f & Hrun & Ht & Hf & (_ & _ & Hstack & Hsp) & _ & Hct & Hcf & Hdt & Hdf
        & _ & _ & Hadd & _ & Hforks & _).
  exists ex', t, f. split; [exact Hrun|]. split; [exact Ht|]. split; [exact Hf|].
  split; [exact Hstack|]. split; [rewrite Hsp; reflexivity|].
  split; [exact Hct|]. split; [exact Hcf|]. split; [exact Hdt|].
  split; [rewrite Hdf; exact Hdt|]. split; [exact Hadd | exact Hforks].
Defined.

(** X9 with a solver that answers no query. *)
Lemma timed_out_fork_ends_the_state_witness :
  let ex := bare defaults in
  let run := fork (H := failingSolver) 0 (below 16) false ex in
  result run = Some (None, None)
  /\ removedStates (final run ex) = [0%nat]
  /\ trace (final run ex)
     = [Terminated 0 (Early "Query timed out (fork).");
        TestCase 0 (Some ("Query timed out (fork)." +:+ "
")) (Some "early")].
Proof.
  intros ex run.
  assert (Hadd : 0%nat ∉ addedStates ex) by (intros Hin; inversion Hin).
  pose proof (timed_out_fork_ends_the_state (H := failingSolver) 0 (below 16) false ex
                plainState eq_refl Hadd eq_refl eq_refl) as Hrun.
  fold run in Hrun. rewrite Hrun. repeat split.
Defined.

(** X10 on the recorded path [false] and the undecided condition
    [x < 16]: the state takes the false side; on the decided condition
    [x < 256] the engine aborts. *)
Lemma replayed_fork_follows_the_recorded_path_witness :
  let ex := bare (options noForkBudget false (Some [false])) in
  fork 0 (below 16) false ex
  = Ok (None, Some 0%nat) (replayed 0 plainState (below 16) VUnknown false ex)
  /\ fork 0 (UltExpr (ZExtExpr x 16) (ConstantExpr 16 256)) false ex
     = Crash "hit invalid branch in replay path mode".
Proof.
  intros ex.
  assert (Hev : evaluate [] (below 16) = Some VUnknown) by computed.
  assert (Hev' : evaluate [] (UltExpr (ZExtExpr x 16) (ConstantExpr 16 256)) = Some VTrue)
    by computed.
  split.
  - exact (replayed_fork_follows_the_recorded_path 0 (below 16) ex plainState [false]
             VUnknown eq_refl eq_refl eq_refl eq_refl eq_refl Hev eq_refl).
  - exact (replayed_fork_follows_the_recorded_path 0 _ ex plainState [false]
             VTrue eq_refl eq_refl eq_refl eq_refl eq_refl Hev' eq_refl).
Defined.

(** X11 with a depth bound of 1: the fork of a state of depth 0 leaves no
    state. *)
Lemma fork_beyond_depth_bound_terminates_both_witness :
  let ex := inBlocks 1 [None] in
  exists ex',
    fork 0 (below 16) true ex = Ok (None, None) ex'
    /\ store ex' !! 1%nat = None
    /\ removedStates ex' = [0%nat] /\ addedStates ex' = []
    /\ forks ex' = 1%N /\ nextState ex' = 2%nat.
Proof.
  intros ex.
  assert (Hev : evaluate [] (below 16) = Some VUnknown) by computed.
  assert (Hadd : forall x : nat, x ∉ addedStates ex) by (intros x Hin; inversion Hin).
  destruct (fork_beyond_depth_bound_terminates_both 0 (below 16) true ex
              (stateWith [frameWith [None]] [] [])
              eq_refl eq_refl eq_refl ltac:(discriminate) (or_intror eq_refl)
              eq_refl eq_refl eq_refl eq_refl Hev eq_refl eq_refl
              ltac:(discriminate) ltac:(vm_compute; discriminate)
              (Hadd 0%nat) (Hadd 1%nat))
    as (ex' & report & Hrun & Hnone & _ & Hrem & Hadded & Hforks & Hnext & _).
  exists ex'. split; [exact Hrun|]. split; [exact Hnone|]. split; [exact Hrem|].
  split; [exact Hadded|]. split; [exact Hforks | exact Hnext].
Defined.

(** X12 on a four-byte load from the start of the eight-byte buffer of
    zeros: register 2 receives the 32-bit zero. *)
Lemma load_in_bounds_binds_the_bytes_read_witness :
  let regs := [Some pointer; None; None; None] in
  let ex := working regs [buffer 4096] in
  let s := stateWith [frameWith regs] [buffer 4096] [] in
  executeLoad 0 loadByte ex
  = Ok tt (updated 0 (withLocal 2 (ConstantExpr 32 0) (frameWith regs) [] s) ex).
Proof.
  intros regs ex s.
  assert (Hin : mustBeTrue []
            (getBoundsCheckOffset 64 (fst (buffer 4096))
               (getOffsetExpr 64 (fst (buffer 4096)) pointer) 4) = Some true)
    by computed.
  exact (load_in_bounds_binds_the_bytes_read 0 loadByte ex s (frameWith regs) [] 0
           pointer (fst (buffer 4096)) (snd (buffer 4096))
           ltac:(computed) ltac:(computed) ltac:(vm_compute; lia) ltac:(computed) ltac:(computed) ltac:(computed) ltac:(computed)
           ltac:(computed) ltac:(computed) Hin ltac:(vm_compute; lia)).
Defined.

(** X13 on the word 0x12345678 stored at the start of the buffer and
    loaded back into register 2. *)
Lemma store_then_load_reads_the_stored_value_witness :
  let ex := withBuffer 4096 [] in
  let run := (executeMemoryOperation 0 true pointer word storeByte;;
              executeMemoryOperation 0 false pointer (ConstantExpr 0%N 0) loadByte) ex in
  exists s',
    run = Ok tt (final run ex)
    /\ store (final run ex) !! 0%nat = Some s'
    /\ (exists sf, head (stack s') = Some sf /\ locals sf !! 2%nat = Some (Some word)).
Proof.
  intros ex run.
  set (s := stateWith [mainFrame] [buffer 4096] []).
  set (mo := fst (buffer 4096)). set (os := snd (buffer 4096)).
  assert (Hin : mustBeTrue []
            (getBoundsCheckOffset 64 mo (getOffsetExpr 64 mo pointer) 4) = Some true)
    by computed.
  assert (Hres1 : resolveOne
            (rebindObject mo (os_write os (getOffsetExpr 64 mo pointer) word)
               (addressSpace s)) [] pointer
          = Some (Some (mo, os_write os (getOffsetExpr 64 mo pointer) word)))
    by computed.
  assert (Hread : os_read (os_write os (getOffsetExpr 64 mo pointer) word)
                    (getOffsetExpr 64 mo pointer) 32 = word) by computed.
  pose proof (store_then_load_reads_the_stored_value 0 pointer word storeByte loadByte
                ex s mo os mainFrame [] ltac:(computed) ltac:(computed) ltac:(computed) ltac:(computed) Hres1
                ltac:(computed) ltac:(computed) ltac:(computed) Hin Hread ltac:(computed) ltac:(vm_compute; lia))
    as Hrun.
  fold run in Hrun. rewrite Hrun. eexists. split; [reflexivity|].
  split; [cbn; apply lookup_insert_eq|].
  eexists. split; reflexivity.
Defined.

(** X14 on a store to the start of a read-only buffer. *)
Lemma store_to_read_only_object_is_an_error_witness :
  let ex := working [None] [readOnlyBuffer] in
  let run := executeMemoryOperation 0 true pointer word storeByte ex in
  run = Ok tt (final run ex)
  /\ trace (final run ex)
     = [Terminated 0 (OnError "memory error: object read only" ReadOnly);
        TestCase 0 (Some "memory error: object read only") (Some "readonly.err")]
  /\ removedStates (final run ex) = [0%nat]
  /\ forall s', store (final run ex) !! 0%nat = Some s' ->
       objects (addressSpace s') = [readOnlyBuffer].
Proof.
  intros ex run.
  set (s := stateWith [frameWith [None]] [readOnlyBuffer] []).
  assert (Hin : mustBeTrue []
            (getBoundsCheckOffset 64 (fst readOnlyBuffer)
               (getOffsetExpr 64 (fst readOnlyBuffer) pointer) 4) = Some true)
    by computed.
  assert (Hadd : 0%nat ∉ addedStates ex) by (intros Hx; inversion Hx).
  assert (Hres : resolveOne (addressSpace s) (constraints s) (optimizeExpr pointer true)
                 = Some (Some (fst readOnlyBuffer, snd readOnlyBuffer))) by computed.
  destruct (store_to_read_only_object_is_an_error 0 pointer word storeByte ex s
              (fst readOnlyBuffer) (snd readOnlyBuffer) 1%nat
              ltac:(computed) ltac:(computed) Hadd Hres ltac:(computed) ltac:(computed) Hin ltac:(computed))
    as [Hrun Hmem].
  fold run in Hrun. rewrite Hrun. cbn [final].
  split; [reflexivity|]. split; [reflexivity|]. split; [reflexivity|].
  intros s' Hs'. rewrite (Hmem s' Hs'). reflexivity.
Defined.

(** X15 on a load from the buffer with a solver that answers no query. *)
Lemma bounds_check_timeout_ends_the_state_witness :
  let ex := withBuffer 4096 [] in
  let run := executeMemoryOperation (H := failingSolver) 0 false pointer
               (ConstantExpr 0%N 0) loadByte ex in
  run = Ok tt (final run ex)
  /\ removedStates (final run ex) = [0%nat]
  /\ trace (final run ex)
     = [Terminated 0 (Early "Query timed out (bounds check).");
        TestCase 0 (Some ("Query timed out (bounds check)." +:+ "
")) (Some "early")].
Proof.
  intros ex run.
  assert (Hadd : 0%nat ∉ addedStates ex) by (intros Hx; inversion Hx).
  pose proof (bounds_check_timeout_ends_the_state (H := failingSolver) 0 false pointer
                (ConstantExpr 0%N 0) loadByte ex
                (stateWith [mainFrame] [buffer 4096] [])
                (fst (buffer 4096)) (snd (buffer 4096))
                ltac:(computed) ltac:(computed) Hadd ltac:(computed) ltac:(computed) ltac:(computed)) as Hrun.
  fold run in Hrun. rewrite Hrun. repeat split.
Defined.

(** X16 on a local allocation of 16 bytes: the object is the first the
    manager hands out, at 4096, and register 0 holds that address. *)
Lemma granted_allocation_binds_a_fresh_object_witness :
  let ex := bare defaults in
  let run := executeAlloc 0 (ConstantExpr 64 16) true loadPointer true None 8 false ex in
  exists s' mo os,
    run = Ok tt (final run ex)
    /\ store (final run ex) !! 0%nat = Some s'
    /\ objects (addressSpace s') = [(mo, os)]
    /\ address mo = 4096 /\ size mo = 16%N
    /\ (exists sf, head (stack s') = Some sf
          /\ locals sf !! 0%nat = Some (Some (ConstantExpr 64 4096))
          /\ allocas sf = [mo])
    /\ memory (final run ex) = [mo].
Proof.
  intros ex run.
  set (mo0 := {| mo_id := 0; address := 4096; size := 16; isLocal := true;
                 isGlobal := false; isHeap := false; kleeAddress := 0;
                 nativeAddress := 0 |}).
  destruct (granted_allocation_binds_a_fresh_object 0 (ConstantExpr 64 16) true
              loadPointer true 8 false ex plainState 64%N 16 mo0 mainFrame []
              ltac:(computed) ltac:(computed) ltac:(computed) ltac:(computed)
              ltac:(vm_compute; lia))
    as (Hrun & Hobjs & (sf' & Hstack & Hreg & Hallocas) & _).
  fold run in Hrun. rewrite Hrun. cbn [final].
  exists (allocated mo0 (freshObjectState mo0 true) true (dest loadPointer)
            (pointerWidth (kmodule (config ex))) mainFrame [] plainState),
    mo0, (freshObjectState mo0 true).
  split; [reflexivity|].
  split; [cbn; apply lookup_insert_eq|].
  split; [exact Hobjs|]. split; [reflexivity|]. split; [reflexivity|].
  split; [|reflexivity].
  exists sf'. split; [rewrite Hstack; reflexivity|]. split; [exact Hreg | exact Hallocas].
Defined.

(** X17 on [free] of the pointer to the buffer. *)
Lemma free_unbinds_the_object_witness :
  let ex := withBuffer 4096 [] in
  let run := executeFree 0 pointer None ex in
  run = Ok tt (final run ex)
  /\ forall s', store (final run ex) !! 0%nat = Some s' ->
       objects (addressSpace s') = [].
Proof.
  intros ex run.
  set (s := stateWith [mainFrame] [buffer 4096] []).
  assert (Hnz : evaluate [] (createIsZero pointer) = Some VFalse) by computed.
  assert (Heq : evaluate [] (EqExpr_create pointer (getBaseExpr 64 (fst (buffer 4096))))
                = Some VTrue) by computed.
  destruct (free_unbinds_the_object 0 pointer None ex s (fst (buffer 4096))
              (snd (buffer 4096)) false mainFrame [] ltac:(computed) ltac:(computed) ltac:(computed)
              Hnz ltac:(computed) Heq ltac:(computed) ltac:(computed) ltac:(computed) ltac:(discriminate))
    as [Hrun _].
  fold run in Hrun. rewrite Hrun. split; [reflexivity|].
  intros s'. cbn. rewrite lookup_insert_eq. intros [= <-]. reflexivity.
Defined.

(** X18 on [free] of the null pointer, with the buffer bound. *)
Lemma free_of_null_frees_nothing_witness :
  let ex := withBuffer 4096 [] in
  executeFree 0 (ConstantExpr 64 0) None ex = Ok tt ex.
Proof.
  intros ex.
  assert (Hz : evaluate [] (createIsZero (ConstantExpr 64 0)) = Some VTrue) by computed.
  exact (free_of_null_frees_nothing 0 (ConstantExpr 64 0) None ex
           (stateWith [mainFrame] [buffer 4096] []) mainFrame []
           ltac:(computed) ltac:(computed) ltac:(computed) Hz ltac:(computed) ltac:(discriminate)).
Defined.

(** X19 on [free] of the address of a local. *)
Lemma free_of_alloca_or_global_is_an_error_witness :
  let ex := working [None] [localBuffer] in
  let run := executeFree 0 pointer None ex in
  run = Ok tt (final run ex)
  /\ trace (final run ex)
     = [Terminated 0 (OnError "free of alloca" Free);
        TestCase 0 (Some "free of alloca") (Some "free.err")]
  /\ forall s', store (final run ex) !! 0%nat = Some s' ->
       objects (addressSpace s') = [localBuffer].
Proof.
  intros ex run.
  set (s := stateWith [frameWith [None]] [localBuffer] []).
  assert (Hnz : evaluate [] (createIsZero pointer) = Some VFalse) by computed.
  assert (Heq : evaluate [] (EqExpr_create pointer (getBaseExpr 64 (fst localBuffer)))
                = Some VTrue) by computed.
  assert (Hadd : 0%nat ∉ addedStates ex) by (intros Hx; inversion Hx).
  assert (Hloc : isLocal (fst localBuffer) = true) by computed.
  assert (Hconst : isConstant (optimizeExpr pointer true) = true) by computed.
  pose proof (free_of_alloca_or_global_is_an_error 0 pointer None ex s (fst localBuffer)
                (snd localBuffer) false 1%nat ltac:(computed) ltac:(computed) Hadd
                ltac:(computed) Hnz ltac:(computed) Heq (or_introl Hloc)
                (or_introl Hconst) ltac:(computed)) as Hfree.
  cbv zeta in Hfree. destruct Hfree as [Hrun Hmem].
  fold run in Hrun. rewrite Hrun. cbn [final].
  split; [reflexivity|]. split; [reflexivity|].
  intros s' Hs'. rewrite (Hmem s' Hs'). reflexivity.
Defined.

(** X20 on [free] of an address where no object lies. *)
Lemma free_of_invalid_pointer_is_an_error_witness :
  let ex := withBuffer 4096 [] in
  let run := executeFree 0 (ConstantExpr 64 9999) None ex in
  run = Ok tt (final run ex)
  /\ trace (final run ex)
     = [Terminated 0 (OnError "memory error: invalid pointer: free" Ptr);
        TestCase 0 (Some "memory error: invalid pointer: free") (Some "ptr.err")]
  /\ removedStates (final run ex) = [0%nat].
Proof.
  intros ex run.
  assert (Hnz : evaluate [] (createIsZero (ConstantExpr 64 9999)) = Some VFalse)
    by computed.
  assert (Hadd : 0%nat ∉ addedStates ex) by (intros Hx; inversion Hx).
  assert (Hconst : isConstant (optimizeExpr (ConstantExpr 64 9999) true) = true)
    by computed.
  pose proof (free_of_invalid_pointer_is_an_error 0 (ConstantExpr 64 9999) None ex
                (stateWith [mainFrame] [buffer 4096] []) false 1%nat
                ltac:(computed) ltac:(computed) Hadd ltac:(computed) Hnz ltac:(computed)
                (or_introl Hconst) ltac:(computed))
    as Hrun.
  fold run in Hrun. rewrite Hrun. repeat split.
Defined.

(** X21 on the symbolic byte, constrained to be at least 16: the register
    receives 16, the least value, and the constraints are as they were. *)
Lemma getValue_binds_a_value_and_adds_no_constraint_witness :
  let cs := [createIsZero (below 16)] in
  let ex := engine defaults [stateWith [mainFrame] [] cs] ∅ false in
  let s := stateWith [mainFrame] [] cs in
  executeGetValue (fun l => l) 0 x loadByte ex
  = Ok tt (updated 0 (withLocal 2 (ConstantExpr 8 16) mainFrame [] s) ex)
  /\ constraints (withLocal 2 (ConstantExpr 8 16) mainFrame [] s) = cs.
Proof.
  intros cs ex s. split; [|reflexivity].
  pose proof (getValue_binds_a_value_and_adds_no_constraint (fun l => l) 0 x loadByte ex
                s mainFrame [] ltac:(computed) ltac:(computed) ltac:(computed) ltac:(vm_compute; lia)) as Hrun.
  cbv zeta in Hrun.
  assert (Hv : getValue cs (optimizeExpr (simplifyExpr cs x) true) = Some (8%N, 16))
    by computed.
  change (constraints s) with cs in Hrun. rewrite Hv in Hrun. exact Hrun.
Defined.

(** X22 on the branch of [blocks], whose condition is [x < 16]: state 0
    goes on at instruction 0 under [x < 16], the new state 1 at the [PHI],
    instruction 2, under the negation. *)
Lemma conditional_branch_forks_to_both_successors_witness :
  let ex := inBlocks 0 [Some (below 16)] in
  let run := executeBr 0 branchOn false 0 1 ex in
  exists t f,
    run = Ok tt (final run ex)
    /\ store (final run ex) !! 0%nat = Some t
    /\ store (final run ex) !! 1%nat = Some f
    /\ pc t = 0%nat /\ constraints t = [below 16]
    /\ pc f = 2%nat /\ constraints f = [createIsZero (below 16)]
    /\ incomingBBIndex f = 0.
Proof.
  intros ex run.
  set (s := stateWith [frameWith [Some (below 16)]] [] []).
  assert (Hne : 0%nat <> nextState ex) by (vm_compute; discriminate).
  pose proof (conditional_branch_forks_to_both_successors 0 branchOn 0 1 ex s
                (frameWith [Some (below 16)]) [] 0 (below 16) branchOn phi
                ltac:(computed) ltac:(computed) ltac:(vm_compute; lia)
                ltac:(computed) ltac:(computed) ltac:(computed) ltac:(computed)
                Hne ltac:(computed) ltac:(computed) ltac:(computed)
                ltac:(computed) ltac:(computed) ltac:(computed) ltac:(computed)
                ltac:(computed) ltac:(computed) ltac:(computed) ltac:(computed))
    as Hbr.
  cbv zeta in Hbr. destruct Hbr as (Hrun & _ & _).
  fold run in Hrun. rewrite Hrun. cbn [final].
  eexists _, _. split; [reflexivity|].
  split; [computed|]. split; [computed|]. repeat split.
Defined.

(** X23 on the [PHI] of [blocks], entered from block 7, its second
    incoming block, and from block 5, which is none of them. *)
Lemma phi_reads_the_operand_of_the_predecessor_witness :
  let regs := [Some (ConstantExpr 8 7); Some (ConstantExpr 8 9); None; None] in
  let ex := inBlocks 0 regs in
  let run := (transferToBasicBlock 1 7 0;; executePHI 0 phi) ex in
  (exists s' sf,
     run = Ok tt (final run ex)
     /\ store (final run ex) !! 0%nat = Some s'
     /\ head (stack s') = Some sf
     /\ locals sf !! 2%nat = Some (Some (ConstantExpr 8 9))
     /\ pc s' = 2%nat)
  /\ (transferToBasicBlock 1 5 0;; executePHI 0 phi) ex
     = Crash "assert(index < ki->inst->getNumOperands())".
Proof.
  intros regs ex run.
  set (s := stateWith [frameWith regs] [] []).
  split.
  - destruct (phi_reads_the_operand_of_the_predecessor 1 7 0 ex s (frameWith regs) []
                phi ltac:(computed) ltac:(computed) ltac:(computed) ltac:(computed))
      as [Hknown _].
    pose proof (Hknown 1%nat 1%nat ltac:(computed) ltac:(vm_compute; lia)
                  ltac:(computed) ltac:(computed) ltac:(vm_compute; lia)
                  ltac:(vm_compute; lia)) as Hrun.
    fold run in Hrun. rewrite Hrun. cbn [final].
    eexists _, _. split; [reflexivity|]. split; [computed|]. repeat split.
  - destruct (phi_reads_the_operand_of_the_predecessor 1 5 0 ex s (frameWith regs) []
                phi ltac:(computed) ltac:(computed) ltac:(computed) ltac:(computed))
      as [_ Hunknown].
    apply Hunknown;
      [|apply Nat.lt_le_trans with (2 ^ 2 - 1)%nat;
        [vm_compute; lia | apply Nat.sub_le_mono_r, Nat.pow_le_mono_r; lia]].
    intros Hin. vm_compute in Hin.
    apply elem_of_cons in Hin as [Hin|Hin]; [discriminate|].
    apply elem_of_cons in Hin as [Hin|Hin]; [discriminate|]. inversion Hin.
Defined.

(** X24 on the call of [callee] with one argument, by a state of one
    frame: the state is at instruction 4, in a frame of two registers of
    which register 0 holds the argument. *)
Lemma call_enters_the_callee_witness :
  let ex := inBlocks 0 [None; None; None; None] in
  let run := executeCall functions noExternals noFloats 8192 zeroed 0 voidCall 4096
               [Some (ConstantExpr 8 7)] ex in
  exists s',
    run = Ok tt (final run ex)
    /\ store (final run ex) !! 0%nat = Some s'
    /\ pc s' = 4%nat
    /\ stack s' = [{| caller := Some 1%nat; kf := 1;
                      locals := [Some (ConstantExpr 8 7); None];
                      allocas := []; varargs := None |};
                   frameWith [None; None; None; None]].
Proof.
  intros ex run.
  set (s := stateWith [frameWith [None; None; None; None]] [] []).
  assert (Hlimit : (8192 = 0)%N \/ (N.of_nat (length (stack s)) <= 8192)%N)
    by (right; vm_compute; discriminate).
  assert (Hregs : forall j, (j < arg_size callee)%nat ->
                    (getArgRegister callee j < numRegisters callee)%nat)
    by (intros j; cbn; lia).
  destruct (call_enters_the_callee functions noExternals noFloats 8192 zeroed 0
              voidCall 4096 [Some (ConstantExpr 8 7)] ex s callee
              ltac:(computed) ltac:(computed) ltac:(computed) ltac:(computed)
              ltac:(computed) Hlimit ltac:(vm_compute; lia) Hregs)
    as (Hrun & _).
  fold run in Hrun. rewrite Hrun. cbn [final].
  eexists. split; [reflexivity|]. split; [computed|]. repeat split.
Defined.

(** X25 on two turns of the loop, from the call of [callee] at
    instruction 1: the void return of [callee], at instruction 4, brings
    the state back to [main], at instruction 2. *)
Lemma call_then_return_restores_the_caller_witness :
  let ex := atInstruction 1 [None; None; None; None] in
  let s := stateWith [frameWith [None; None; None; None]] [] [] in
  (runStep 0 0 0
     (fun sid ki =>
        executeCall functions noExternals noFloats 8192 zeroed sid ki 4096
          [Some (ConstantExpr 8 7)]);;
   runStep 0 1 0 executeRet) ex
  = Ok tt (updated 0 (set_pc 2%nat (set_prevPC 4%nat s)) ex).
Proof.
  intros ex s.
  assert (Hlimit : (8192 = 0)%N
                   \/ (N.of_nat (length (stack (set_pc 1%nat s))) <= 8192)%N)
    by (right; vm_compute; discriminate).
  assert (Hregs : forall j, (j < arg_size callee)%nat ->
                    (getArgRegister callee j < numRegisters callee)%nat)
    by (intros j; cbn; lia).
  exact (call_then_return_restores_the_caller functions noExternals noFloats 8192
           zeroed 0 0 0 voidCall retVoid 4096 [Some (ConstantExpr 8 7)] ex
           (set_pc 1%nat s) callee (frameWith [None; None; None; None]) []
           ltac:(computed) ltac:(computed) ltac:(computed) ltac:(computed)
           ltac:(vm_compute; discriminate) ltac:(vm_compute; discriminate)
           ltac:(computed) ltac:(computed) ltac:(computed) ltac:(computed)
           ltac:(computed) ltac:(computed) ltac:(computed) Hlimit
           ltac:(vm_compute; lia) Hregs).
Defined.

(** X26 on the call of [callee] with no argument. *)
Lemma call_with_too_few_arguments_is_an_error_witness :
  let ex := inBlocks 0 [None; None; None; None] in
  let run := executeCall functions noExternals noFloats 8192 zeroed 0 voidCall 4096
               [] ex in
  run = Ok tt (final run ex)
  /\ trace (final run ex)
     = [Terminated 0 (OnError "calling function with too few arguments" User);
        TestCase 0 (Some "calling function with too few arguments")
          (Some "user.err")]
  /\ removedStates (final run ex) = [0%nat]
  /\ forall s', store (final run ex) !! 0%nat = Some s' -> length (stack s') = 2%nat.
Proof.
  intros ex run.
  set (s := stateWith [frameWith [None; None; None; None]] [] []).
  assert (Hlimit : (8192 = 0)%N \/ (N.of_nat (length (stack s)) <= 8192)%N)
    by (right; vm_compute; discriminate).
  assert (Hadd : 0%nat ∉ addedStates ex) by (intros Hx; inversion Hx).
  pose proof (call_with_too_few_arguments_is_an_error functions noExternals noFloats
                8192 zeroed 0 voidCall 4096 [] ex s callee 1%nat
                ltac:(computed) Hadd ltac:(computed) ltac:(computed) ltac:(computed)
                Hlimit ltac:(vm_compute; lia) ltac:(computed)) as Hcall.
  cbv zeta in Hcall. destruct Hcall as [Hrun _].
  fold run in Hrun. rewrite Hrun. cbn [final].
  split; [reflexivity|]. split; [reflexivity|]. split; [reflexivity|].
  intros s'. vm_compute. intros [= <-]. reflexivity.
Defined.

(** X27 on the call of [callee] by a state of two frames, with a limit of
    one frame. *)
Lemma call_beyond_the_stack_limit_ends_the_state_witness :
  let ex := inCallee in
  let run := executeCall functions noExternals noFloats 1 zeroed 0 voidCall 4096
               [Some (ConstantExpr 8 7)] ex in
  run = Ok tt (final run ex)
  /\ removedStates (final run ex) = [0%nat]
  /\ trace (final run ex)
     = [Terminated 0 (Early "Maximum stack size reached.");
        TestCase 0 (Some ("Maximum stack size reached." +:+ "
")) (Some "early")]
  /\ forall s', store (final run ex) !! 0%nat = Some s' -> length (stack s') = 2%nat.
Proof.
  intros ex run.
  assert (Hadd : 0%nat ∉ addedStates ex) by (intros Hx; inversion Hx).
  pose proof (call_beyond_the_stack_limit_ends_the_state functions noExternals
                noFloats 1 zeroed 0 voidCall 4096 [Some (ConstantExpr 8 7)] ex
                (stateWith [calleeFrame; mainFrame] [] []) callee
                ltac:(computed) Hadd ltac:(computed) ltac:(computed) ltac:(computed)
                ltac:(discriminate) ltac:(computed)) as Hrun.
  fold run in Hrun. rewrite Hrun.
  split; [reflexivity|]. split; [reflexivity|]. split; [reflexivity|].
  intros s'. vm_compute. intros [= <-]. reflexivity.
Defined.

(** X28 on arguments of 32, 128 and 8 bits on a 64-bit target: they are
    written at 0, 16 and 32, in a region of 40 bytes. *)
Lemma variadic_arguments_fit_in_their_region_witness :
  let args := [ConstantExpr 32 1; ConstantExpr 128 2; ConstantExpr 8 3] in
  let os := snd (buffer 4096) in
  let ex := bare defaults in
  writeVarargs Int64 args 0 os ex
  = Ok (written os [(0%N, ConstantExpr 32 1); (16%N, ConstantExpr 128 2);
                    (32%N, ConstantExpr 8 3)]) ex
  /\ fst (varargsSize Int64 (map getWidth args) 0 false) = 40%N
  /\ (16 + getMinBytesForWidth 128 <= 32)%N.
Proof.
  intros args os ex.
  assert (HW : Int64 = Int32 \/ Int64 = Int64) by (right; reflexivity).
  destruct (variadic_arguments_fit_in_their_region Int64 args os ex HW
              ltac:(computed)) as (Hrun & _ & Hfit).
  split; [exact Hrun|]. split; [reflexivity|].
  destruct (Hfit 1%nat 16%N (ConstantExpr 128 2) ltac:(computed) ltac:(computed))
    as (_ & _ & Hnext).
  exact (Hnext 2%nat 32%N ltac:(lia) ltac:(computed)).
Defined.

(** X29 on an alloca that declares an alignment of 16. *)
Lemma allocation_alignment_is_a_power_of_two_witness :
  Alignment.getAllocationAlignment (AllocaSite 16 None) = Some 16%N
  /\ exists a k, Alignment.getAllocationAlignment (AllocaSite 16 None) = Some a
                 /\ a = (2 ^ k)%N.
Proof.
  destruct (allocation_alignment_is_a_power_of_two (AllocaSite 16 None)
              ltac:(discriminate)) as (Hpow & Hdecl & _).
  split; [|exact Hpow].
  apply (Hdecl 16%N None); [right; reflexivity | computed].
Defined.

(** X30 on a store at address 100 by the state of an engine started in
    seed-only mode. *)
Lemma overflow_in_seed_only_mode_aborts_the_engine_witness :
  (executeMemoryOperation 0 true (ConstantExpr 64 100) word storeByte;;
   updateStates Z.of_nat) onlySeedMode
  = Crash "assert(it2!=states.end())".
Proof.
  set (ex := onlySeedMode).
  assert (Hout : trunc 64 100 <= n_heap_l (config ex) \/ n_heap_h (config ex) < trunc 64 100)
    by (left; vm_compute; discriminate).
  assert (Hnd : NoDup (states ex)) by decided.
  assert (Hin : 0%nat ∈ states ex) by decided.
  assert (Hlive : forall y, y ∈ states ex ->
                    is_Some (store ex !! y) /\ y ∉ addedStates ex).
  { intros y Hy. vm_compute in Hy. apply elem_of_cons in Hy as [->|Hy]; [|inversion Hy].
    split; [eexists; computed | intros Hx; inversion Hx]. }
  exact (overflow_in_seed_only_mode_aborts_the_engine Z.of_nat 0 (ConstantExpr 64 100)
           word storeByte ex (stateWith [mainFrame] [] []) 64%N 100 1%nat
           ltac:(computed) ltac:(computed) ltac:(computed) ltac:(computed)
           ltac:(computed) Hout ltac:(computed) ltac:(computed) Hnd Hin Hlive
           ltac:(computed)).
Defined.
